(** * Aleph server runtime: module registry, hashing and hash cascade

    A shallow embedding of the module-compilation core of
    [server/aleph.ts] (class [Aleph]): the module registry [#modules],
    [#initModule], [#transpileModule], [compile], [addModule],
    [computeModuleHash], [lookupDeps], [#replaceDepHash],
    [#applyCompilationSideEffect] and [#cacheModule].

    Conventions of the embedding.
    - JavaScript objects have identity: every [Module] object lives in a
      heap and is named by its allocation index; the registry maps a
      specifier to such an index.  Mutating a module mutates the heap cell.
    - [Map] and [Set] keep insertion order, as in JavaScript.
    - An asynchronous function is first run to completion at the point
      where it is called ([await] is sequencing); a rejected promise is the
      [Throw] outcome.  The section on asynchronous calls embeds the same
      functions as processes that are suspended at every [await], so that
      the tasks of a [Promise.all] and several callers interleave; what is
      stated of every schedule is stated there.
    - Code that lives outside [server/aleph.ts] (the compiler, the hash
      library, path helpers, plugins) is a collaborator: a field of the
      record [Ext] or of the configuration. *)

From Stdlib Require Import List String Ascii Bool Arith ZArith Lia.
From Stdlib.Strings Require Import Byte.
From Stdlib Require Import Permutation Sorted Morphisms.
From AAC_tactics Require Import AAC.
Import ListNotations.

Open Scope string_scope.
Open Scope list_scope.

Set Implicit Arguments.

(** ** JavaScript containers *)

(** [Map<string, V>]: an association list in insertion order.  [set] on a
    present key keeps the key's position, [set] on a new key appends. *)
Section JsMap.
Variable V : Type.

Definition JsMap := list (string * V).

Fixpoint map_get (k : string) (m : JsMap) : option V :=
  match m with
  | [] => None
  | (k', v) :: m' => if String.eqb k k' then Some v else map_get k m'
  end.

Definition map_has (k : string) (m : JsMap) : bool :=
  match map_get k m with Some _ => true | None => false end.

Fixpoint map_set (k : string) (v : V) (m : JsMap) : JsMap :=
  match m with
  | [] => [(k, v)]
  | (k', v') :: m' =>
      if String.eqb k k' then (k, v) :: m' else (k', v') :: map_set k v m'
  end.

Fixpoint map_delete (k : string) (m : JsMap) : JsMap :=
  match m with
  | [] => []
  | (k', v') :: m' =>
      if String.eqb k k' then map_delete k m' else (k', v') :: map_delete k m'
  end.

Definition map_keys (m : JsMap) : list string := List.map fst m.
Definition map_values (m : JsMap) : list V := List.map snd m.
End JsMap.

(** [Set<string>] with insertion order. *)
Definition set_has (x : string) (s : list string) : bool :=
  existsb (String.eqb x) s.

Definition set_add (x : string) (s : list string) : list string :=
  if set_has x s then s else s ++ [x].

(** [Set<number>], used for the plugin indexes of [#initModule]. *)
Definition nset_has (x : nat) (s : list nat) : bool := existsb (Nat.eqb x) s.

Definition nset_add (x : nat) (s : list nat) : list nat :=
  if nset_has x s then s else s ++ [x].

(** ** Byte buffers ([Uint8Array]) *)

Definition bytes := list byte.

(** [encoder.encode(s)]: strings of the model are byte strings. *)
Definition encode (s : string) : bytes := list_byte_of_string s.

Definition byte_eqb (a b : byte) : bool := Byte.eqb a b.

(** [equals(a, b)] of std/bytes: same length and same bytes. *)
Fixpoint equals (a b : bytes) : bool :=
  match a, b with
  | [], [] => true
  | x :: a', y :: b' => byte_eqb x y && equals a' b'
  | _, _ => false
  end.

(** Clamp of a relative index, as [TypedArray.prototype.slice] does it:
    a negative index counts from the end. *)
Definition rel_index (len : nat) (i : Z) : nat :=
  if (i <? 0)%Z then Z.to_nat (Z.max 0 (Z.of_nat len + i))
  else Nat.min (Z.to_nat i) len.

(** [buf.slice(start, end)] *)
Definition slice (buf : bytes) (start stop : Z) : bytes :=
  let k := rel_index (List.length buf) start in
  let e := rel_index (List.length buf) stop in
  firstn (e - k) (skipn k buf).

(** Offset at which [copy(_, dst, off)] starts writing:
    [off = Math.max(0, Math.min(off, dst.byteLength))]. *)
Definition copy_offset (len : nat) (off : Z) : nat :=
  Z.to_nat (Z.max 0 (Z.min off (Z.of_nat len))).

(** [copy(src, dst, off)] of std/bytes: the bytes of [src] that fit are
    written into [dst] from [off]; [dst] keeps its length. *)
Definition copy (src dst : bytes) (off : Z) : bytes :=
  let o := copy_offset (List.length dst) off in
  let src' := firstn (List.length dst - o) src in
  firstn o dst ++ src' ++ skipn (o + List.length src') dst.

(** [s.substr(0, 6)] *)
Definition substr06 (s : string) : string := substring 0 6 s.

(** [s.startsWith(p)] *)
Definition startsWith (p s : string) : bool := prefix p s.

(** ** Data model *)

(** [SourceType] of the compiler. *)
Inductive SourceType := JS | JSX | TS | TSX | CSS | Unknown.

Definition SourceType_eqb (a b : SourceType) : bool :=
  match a, b with
  | JS, JS | JSX, JSX | TS, TS | TSX, TSX | CSS, CSS | Unknown, Unknown => true
  | _, _ => false
  end.

(** [ModuleSource]: [{ code, type, map? }] *)
Record ModuleSource := {
  src_code : string;
  src_type : SourceType;
  src_map : option string
}.

(** [DependencyDescriptor]: [{ specifier, virtual?, isDynamic?, hashLoc? }].
    [hashLoc] is a JavaScript number; the model keeps it an integer. *)
Record DependencyDescriptor := {
  dep_specifier : string;
  dep_virtual : bool;
  dep_isDynamic : bool;
  dep_hashLoc : option Z
}.

(** State of the [ready] promise of a module. *)
Inductive ReadyState := Pending | Resolved.

(** The [Module] object.  [csrCode] and [source] are the properties added
    later by [getModuleJS] and [addModule]; an absent property is [None]. *)
Record Mod := {
  specifier : string;
  deps : list DependencyDescriptor;
  external : bool;
  httpExternal : bool;
  isStyle : bool;
  sourceHash : string;
  jsFile : string;
  jsBuffer : option bytes;
  csrCode : option string;
  denoHooks : option (list string);
  ssrPropsFn : option string;
  ssgPathsFn : option bool;
  jsxStaticClassNames : option (list string);
  source : option ModuleSource;
  ready : ReadyState
}.

Definition with_deps (v : list DependencyDescriptor) (m : Mod) : Mod :=
  {| specifier := specifier m; deps := v; external := external m;
     httpExternal := httpExternal m; isStyle := isStyle m;
     sourceHash := sourceHash m; jsFile := jsFile m; jsBuffer := jsBuffer m;
     csrCode := csrCode m; denoHooks := denoHooks m; ssrPropsFn := ssrPropsFn m;
     ssgPathsFn := ssgPathsFn m; jsxStaticClassNames := jsxStaticClassNames m;
     source := source m; ready := ready m |}.

Definition with_sourceHash (v : string) (m : Mod) : Mod :=
  {| specifier := specifier m; deps := deps m; external := external m;
     httpExternal := httpExternal m; isStyle := isStyle m;
     sourceHash := v; jsFile := jsFile m; jsBuffer := jsBuffer m;
     csrCode := csrCode m; denoHooks := denoHooks m; ssrPropsFn := ssrPropsFn m;
     ssgPathsFn := ssgPathsFn m; jsxStaticClassNames := jsxStaticClassNames m;
     source := source m; ready := ready m |}.

Definition with_jsBuffer (v : option bytes) (m : Mod) : Mod :=
  {| specifier := specifier m; deps := deps m; external := external m;
     httpExternal := httpExternal m; isStyle := isStyle m;
     sourceHash := sourceHash m; jsFile := jsFile m; jsBuffer := v;
     csrCode := csrCode m; denoHooks := denoHooks m; ssrPropsFn := ssrPropsFn m;
     ssgPathsFn := ssgPathsFn m; jsxStaticClassNames := jsxStaticClassNames m;
     source := source m; ready := ready m |}.

Definition with_csrCode (v : option string) (m : Mod) : Mod :=
  {| specifier := specifier m; deps := deps m; external := external m;
     httpExternal := httpExternal m; isStyle := isStyle m;
     sourceHash := sourceHash m; jsFile := jsFile m; jsBuffer := jsBuffer m;
     csrCode := v; denoHooks := denoHooks m; ssrPropsFn := ssrPropsFn m;
     ssgPathsFn := ssgPathsFn m; jsxStaticClassNames := jsxStaticClassNames m;
     source := source m; ready := ready m |}.

Definition with_isStyle (v : bool) (m : Mod) : Mod :=
  {| specifier := specifier m; deps := deps m; external := external m;
     httpExternal := httpExternal m; isStyle := v;
     sourceHash := sourceHash m; jsFile := jsFile m; jsBuffer := jsBuffer m;
     csrCode := csrCode m; denoHooks := denoHooks m; ssrPropsFn := ssrPropsFn m;
     ssgPathsFn := ssgPathsFn m; jsxStaticClassNames := jsxStaticClassNames m;
     source := source m; ready := ready m |}.

Definition with_denoHooks (v : option (list string)) (m : Mod) : Mod :=
  {| specifier := specifier m; deps := deps m; external := external m;
     httpExternal := httpExternal m; isStyle := isStyle m;
     sourceHash := sourceHash m; jsFile := jsFile m; jsBuffer := jsBuffer m;
     csrCode := csrCode m; denoHooks := v; ssrPropsFn := ssrPropsFn m;
     ssgPathsFn := ssgPathsFn m; jsxStaticClassNames := jsxStaticClassNames m;
     source := source m; ready := ready m |}.

Definition with_source (v : option ModuleSource) (m : Mod) : Mod :=
  {| specifier := specifier m; deps := deps m; external := external m;
     httpExternal := httpExternal m; isStyle := isStyle m;
     sourceHash := sourceHash m; jsFile := jsFile m; jsBuffer := jsBuffer m;
     csrCode := csrCode m; denoHooks := denoHooks m; ssrPropsFn := ssrPropsFn m;
     ssgPathsFn := ssgPathsFn m; jsxStaticClassNames := jsxStaticClassNames m;
     source := v; ready := ready m |}.

Definition with_ready (v : ReadyState) (m : Mod) : Mod :=
  {| specifier := specifier m; deps := deps m; external := external m;
     httpExternal := httpExternal m; isStyle := isStyle m;
     sourceHash := sourceHash m; jsFile := jsFile m; jsBuffer := jsBuffer m;
     csrCode := csrCode m; denoHooks := denoHooks m; ssrPropsFn := ssrPropsFn m;
     ssgPathsFn := ssgPathsFn m; jsxStaticClassNames := jsxStaticClassNames m;
     source := source m; ready := v |}.

(** [Object.assign(module, { deps, ssrPropsFn, ssgPathsFn, jsxStaticClassNames })] *)
Definition with_compiled (d : list DependencyDescriptor) (p : option string)
    (g : option bool) (c : option (list string)) (m : Mod) : Mod :=
  {| specifier := specifier m; deps := d; external := external m;
     httpExternal := httpExternal m; isStyle := isStyle m;
     sourceHash := sourceHash m; jsFile := jsFile m; jsBuffer := jsBuffer m;
     csrCode := csrCode m; denoHooks := denoHooks m; ssrPropsFn := p;
     ssgPathsFn := g; jsxStaticClassNames := c;
     source := source m; ready := ready m |}.

(** The metadata sidecar ([*.meta.json]) as [JSON.parse] returns it.  A
    field is [Some] when the property is present with the type the code
    uses it at ([sourceHash] a string, [deps] an array), [None] otherwise. *)
Record MetaObject := {
  meta_specifier : option string;
  meta_sourceHash : option string;
  meta_deps : option (list DependencyDescriptor);
  meta_httpExternal : option bool;
  meta_isStyle : option bool;
  meta_csrCode : option string;
  meta_denoHooks : option (list string);
  meta_ssrPropsFn : option string;
  meta_ssgPathsFn : option bool;
  meta_jsxStaticClassNames : option (list string);
  meta_source : option ModuleSource
}.

(** Content of a sidecar file: text that [JSON.parse] rejects, the JSON
    value [null] (property access on it throws), or any other value. *)
Inductive MetaFile :=
| MetaUnparsable
| MetaNull
| MetaValue (o : MetaObject).

Definition or_else (A : Type) (o : option A) (d : A) : A :=
  match o with Some a => a | None => d end.

Definition or_keep (A : Type) (o : option A) (d : option A) : option A :=
  match o with Some a => Some a | None => d end.

(** [Object.assign(mod, meta)]: every property of the sidecar overwrites
    the module's. *)
Definition assign_meta (o : MetaObject) (m : Mod) : Mod :=
  {| specifier := or_else (meta_specifier o) (specifier m);
     deps := or_else (meta_deps o) (deps m);
     external := external m;
     httpExternal := or_else (meta_httpExternal o) (httpExternal m);
     isStyle := or_else (meta_isStyle o) (isStyle m);
     sourceHash := or_else (meta_sourceHash o) (sourceHash m);
     jsFile := jsFile m;
     jsBuffer := jsBuffer m;
     csrCode := or_keep (meta_csrCode o) (csrCode m);
     denoHooks := or_keep (meta_denoHooks o) (denoHooks m);
     ssrPropsFn := or_keep (meta_ssrPropsFn o) (ssrPropsFn m);
     ssgPathsFn := or_keep (meta_ssgPathsFn o) (ssgPathsFn m);
     jsxStaticClassNames :=
       or_keep (meta_jsxStaticClassNames o) (jsxStaticClassNames m);
     source := or_keep (meta_source o) (source m);
     ready := ready m |}.

(** [const { jsBuffer, jsFile, ready, ...rest } = module] followed by
    [JSON.stringify({ ...rest })], read back by [JSON.parse]. *)
Definition meta_of_mod (m : Mod) : MetaObject :=
  {| meta_specifier := Some (specifier m);
     meta_sourceHash := Some (sourceHash m);
     meta_deps := Some (deps m);
     meta_httpExternal := Some (httpExternal m);
     meta_isStyle := Some (isStyle m);
     meta_csrCode := csrCode m;
     meta_denoHooks := denoHooks m;
     meta_ssrPropsFn := ssrPropsFn m;
     meta_ssgPathsFn := ssgPathsFn m;
     meta_jsxStaticClassNames := jsxStaticClassNames m;
     meta_source := source m |}.

(** Observable events.  [EvTransform] is an invocation of the transform
    collaborator ([transform] or [fastTransform]); [EvLoad] an invocation of
    the Loader ([resolveModuleSource]); [EvSideEffectBy] records that
    [#applyCompilationSideEffect] passed its tracing guard for a module;
    [EvCallback r] is the call [callback(mod)] on the module object [r]. *)
Inductive Event :=
| EvLoad (s : string)
| EvTransform (s : string)
| EvCssLoader (s : string)
| EvPluginTransform (pluginId : nat) (s : string)
| EvSideEffectBy (s : string)
| EvCallback (r : nat)
| EvCacheModule (s : string)
| EvLogError (msg : string)
| EvLogWarn (msg : string).

(** A call [routing.update(routePath, specifier, isIndex)]. *)
Record RouteUpdate := {
  route_path : string;
  route_module : string;
  route_isIndex : bool
}.

(** The mutable state of an [Aleph] instance and of the build directory.
    [heap] holds the [Module] objects and [sets] the [Set<string>] objects
    that are shared by reference (the tracing set of a compilation pass). *)
Record World := {
  heap : list Mod;
  modules : JsMap nat;
  appModule : option nat;
  pageRouting : list RouteUpdate;
  apiRouting : list RouteUpdate;
  sessionStorage : list string;
  jsFiles : JsMap bytes;
  metaFiles : JsMap MetaFile;
  mapFiles : JsMap string;
  bundlingFiles : list string;
  sets : list (list string);
  events : list Event
}.

Definition with_heap (v : list Mod) (w : World) : World :=
  {| heap := v; modules := modules w; appModule := appModule w;
     pageRouting := pageRouting w; apiRouting := apiRouting w;
     sessionStorage := sessionStorage w; jsFiles := jsFiles w;
     metaFiles := metaFiles w; mapFiles := mapFiles w;
     bundlingFiles := bundlingFiles w; sets := sets w;
     events := events w |}.

Definition with_modules (v : JsMap nat) (w : World) : World :=
  {| heap := heap w; modules := v; appModule := appModule w;
     pageRouting := pageRouting w; apiRouting := apiRouting w;
     sessionStorage := sessionStorage w; jsFiles := jsFiles w;
     metaFiles := metaFiles w; mapFiles := mapFiles w;
     bundlingFiles := bundlingFiles w; sets := sets w;
     events := events w |}.

Definition with_appModule (v : option nat) (w : World) : World :=
  {| heap := heap w; modules := modules w; appModule := v;
     pageRouting := pageRouting w; apiRouting := apiRouting w;
     sessionStorage := sessionStorage w; jsFiles := jsFiles w;
     metaFiles := metaFiles w; mapFiles := mapFiles w;
     bundlingFiles := bundlingFiles w; sets := sets w;
     events := events w |}.

Definition with_pageRouting (v : list RouteUpdate) (w : World) : World :=
  {| heap := heap w; modules := modules w; appModule := appModule w;
     pageRouting := v; apiRouting := apiRouting w;
     sessionStorage := sessionStorage w; jsFiles := jsFiles w;
     metaFiles := metaFiles w; mapFiles := mapFiles w;
     bundlingFiles := bundlingFiles w; sets := sets w;
     events := events w |}.

Definition with_apiRouting (v : list RouteUpdate) (w : World) : World :=
  {| heap := heap w; modules := modules w; appModule := appModule w;
     pageRouting := pageRouting w; apiRouting := v;
     sessionStorage := sessionStorage w; jsFiles := jsFiles w;
     metaFiles := metaFiles w; mapFiles := mapFiles w;
     bundlingFiles := bundlingFiles w; sets := sets w;
     events := events w |}.

Definition with_sessionStorage (v : list string) (w : World) : World :=
  {| heap := heap w; modules := modules w; appModule := appModule w;
     pageRouting := pageRouting w; apiRouting := apiRouting w;
     sessionStorage := v; jsFiles := jsFiles w;
     metaFiles := metaFiles w; mapFiles := mapFiles w;
     bundlingFiles := bundlingFiles w; sets := sets w;
     events := events w |}.

Definition with_jsFiles (v : JsMap bytes) (w : World) : World :=
  {| heap := heap w; modules := modules w; appModule := appModule w;
     pageRouting := pageRouting w; apiRouting := apiRouting w;
     sessionStorage := sessionStorage w; jsFiles := v;
     metaFiles := metaFiles w; mapFiles := mapFiles w;
     bundlingFiles := bundlingFiles w; sets := sets w;
     events := events w |}.

Definition with_metaFiles (v : JsMap MetaFile) (w : World) : World :=
  {| heap := heap w; modules := modules w; appModule := appModule w;
     pageRouting := pageRouting w; apiRouting := apiRouting w;
     sessionStorage := sessionStorage w; jsFiles := jsFiles w;
     metaFiles := v; mapFiles := mapFiles w;
     bundlingFiles := bundlingFiles w; sets := sets w;
     events := events w |}.

Definition with_mapFiles (v : JsMap string) (w : World) : World :=
  {| heap := heap w; modules := modules w; appModule := appModule w;
     pageRouting := pageRouting w; apiRouting := apiRouting w;
     sessionStorage := sessionStorage w; jsFiles := jsFiles w;
     metaFiles := metaFiles w; mapFiles := v;
     bundlingFiles := bundlingFiles w; sets := sets w;
     events := events w |}.

Definition with_bundlingFiles (v : list string) (w : World) : World :=
  {| heap := heap w; modules := modules w; appModule := appModule w;
     pageRouting := pageRouting w; apiRouting := apiRouting w;
     sessionStorage := sessionStorage w; jsFiles := jsFiles w;
     metaFiles := metaFiles w; mapFiles := mapFiles w;
     bundlingFiles := v; sets := sets w; events := events w |}.

Definition with_sets (v : list (list string)) (w : World) : World :=
  {| heap := heap w; modules := modules w; appModule := appModule w;
     pageRouting := pageRouting w; apiRouting := apiRouting w;
     sessionStorage := sessionStorage w; jsFiles := jsFiles w;
     metaFiles := metaFiles w; mapFiles := mapFiles w;
     bundlingFiles := bundlingFiles w; sets := v; events := events w |}.

Definition with_events (v : list Event) (w : World) : World :=
  {| heap := heap w; modules := modules w; appModule := appModule w;
     pageRouting := pageRouting w; apiRouting := apiRouting w;
     sessionStorage := sessionStorage w; jsFiles := jsFiles w;
     metaFiles := metaFiles w; mapFiles := mapFiles w;
     bundlingFiles := bundlingFiles w; sets := sets w; events := v |}.

(** A module object that is never observed: the value read through a
    dangling reference, which no execution produces. *)
Definition no_module : Mod :=
  {| specifier := ""; deps := []; external := false; httpExternal := false;
     isStyle := false; sourceHash := ""; jsFile := ""; jsBuffer := None;
     csrCode := None; denoHooks := None; ssrPropsFn := None;
     ssgPathsFn := None; jsxStaticClassNames := None; source := None;
     ready := Resolved |}.

(** Dereference, allocation and in-place update of module objects. *)
Definition deref (w : World) (r : nat) : Mod := nth r (heap w) no_module.

Fixpoint list_update (A : Type) (i : nat) (f : A -> A) (l : list A) : list A :=
  match l, i with
  | [], _ => []
  | x :: l', 0 => f x :: l'
  | x :: l', S i' => x :: list_update i' f l'
  end.

Definition mutate (r : nat) (f : Mod -> Mod) (w : World) : World :=
  with_heap (list_update r f (heap w)) w.

Definition alloc (m : Mod) (w : World) : nat * World :=
  (List.length (heap w), with_heap (heap w ++ [m]) w).

Definition emit (e : Event) (w : World) : World :=
  with_events (events w ++ [e]) w.

(** [new Set()], [set.has(x)] and [set.add(x)] on a shared set object. *)
Definition new_set (w : World) : nat * World :=
  (List.length (sets w), with_sets (sets w ++ [[]]) w).

Definition set_of (w : World) (t : nat) : list string := nth t (sets w) [].

Definition tracing_has (t : nat) (x : string) (w : World) : bool :=
  set_has x (set_of w t).

Definition tracing_add (t : nat) (x : string) (w : World) : World :=
  with_sets (list_update t (set_add x) (sets w)) w.

(** ** Configuration and collaborators *)

(** Result of a call that may throw (or of a promise that may reject). *)
Inductive Exc (A : Type) :=
| Returns (a : A)
| Raises (msg : string).
Arguments Raises {A} msg.

(** [ResolveResult]; an absent or empty [specifier] is [""]. *)
Record ResolveResult := {
  rr_specifier : string;
  rr_external : bool;
  rr_data : option string;
  rr_asPage : option (string * bool);
  rr_acceptHMR : bool
}.

Record ResolveListener := {
  r_pluginId : nat;
  r_test : string -> bool;
  r_resolve : string -> ResolveResult
}.

(** [LoadOutput]: [{ code, type = 'js', map }] *)
Record LoadOutput := {
  lo_code : string;
  lo_type : option string;
  lo_map : option string
}.

Record LoadListener := {
  l_pluginId : nat;
  l_test : string -> bool;
  l_load : string -> option string -> Exc LoadOutput
}.

(** [TransformOutput | void]: all fields absent stands for [void]. *)
Record TransformOutput := {
  to_code : option string;
  to_map : option string;
  to_extraDeps : option (list DependencyDescriptor)
}.

Inductive TransformTest :=
| TestRegExp (t : string -> bool)
| TestHmr
| TestMain.

Record TransformListener := {
  t_pluginId : nat;
  t_test : TransformTest;
  t_transform : Mod -> string -> option string -> Exc TransformOutput
}.

(** A plugin of [config.plugins]: its name and, when it has one, what its
    [checksum()] function does. *)
Record Plugin := {
  p_name : string;
  p_checksum : option (Exc string)
}.

(** The fields of an [Aleph] instance that compilation reads and never
    writes. *)
Record Config := {
  isDev : bool;
  ssr : bool;
  reload : bool;
  buildDir : string;
  imports : JsMap string;
  plugins : list Plugin;
  resolverListeners : list ResolveListener;
  loadListeners : list LoadListener;
  transformListeners : list TransformListener;
  cssConfigJson : string
}.

(** A dependency as the compiler reports it. *)
Record RawDep := {
  raw_specifier : string;
  raw_resolved : string;
  raw_isDynamic : bool
}.

(** [TransformResult] of the compiler. *)
Record TransformResult := {
  tr_code : string;
  tr_deps : list RawDep;
  tr_denoHooks : option (list string);
  tr_ssrPropsFn : option string;
  tr_ssgPathsFn : option bool;
  tr_starExports : option (list string);
  tr_jsxStaticClassNames : option (list string);
  tr_map : option string
}.

(** Functions imported by [server/aleph.ts] from other files of the
    project and from the standard library of the platform. *)
Record Ext := {
  (** [createHash('sha1')], [update] calls concatenated, [toString()] *)
  sha1 : string -> string;
  (** [createHash('md5')], likewise *)
  md5 : string -> string;
  toLocalPath : string -> string;
  trimBuiltinModuleExts : string -> string;
  join : string -> string -> string;
  basename : string -> string;
  isLikelyHttpURL : string -> bool;
  isLocalhostUrl : string -> bool;
  getSourceType : string -> option string -> SourceType;
  (** [fetchModule]: decoded content and content type *)
  fetchModule : string -> Exc (string * option string);
  (** [transform(specifier, code, options)], with [options.httpExternal] *)
  transform : string -> ModuleSource -> bool -> Exc TransformResult;
  fastTransform : string -> ModuleSource -> Exc TransformResult;
  cssLoader : string -> string -> Exc (string * option string);
  (** the star-export rewriting of production mode, lines 1292-1301 *)
  rewriteStarExports : string -> list string -> Exc string;
  (** [indexOf(source, pattern)] of std/bytes *)
  indexOf : bytes -> bytes -> Z
}.

(** ** Small string helpers of the source *)

(** [util.isFilledString] on a value known to be a string *)
Definition isFilledString (s : string) : bool := negb (String.eqb s "").

(** A string option in a truthiness test: absent and empty are falsy. *)
Definition truthy (o : option string) : bool :=
  match o with Some s => isFilledString s | None => false end.

(** [s.slice(0, -3)] *)
Definition slice_0_m3 (s : string) : string :=
  substring 0 (String.length s - 3) s.

(** [util.trimPrefix(s, p)] *)
Definition trimPrefix (s p : string) : string :=
  if prefix p s then substring (String.length p) (String.length s - String.length p) s
  else s.

(** [xs.join(sep)] *)
Fixpoint join_with (sep : string) (xs : list string) : string :=
  match xs with
  | [] => ""
  | [x] => x
  | x :: xs' => x ++ sep ++ join_with sep xs'
  end.

(** ** The monad of asynchronous methods *)

(** Outcome of running a method: it returned, it threw (its promise
    rejected), it waits on a [ready] promise nobody resolves in a
    sequential run, or the recursion budget of the model ran out. *)
Inductive Outcome (A : Type) :=
| Ok (a : A) (w : World)
| Throw (msg : string) (w : World)
| Stuck (w : World)
| OutOfFuel.
Arguments Throw {A} msg w.
Arguments Stuck {A} w.
Arguments OutOfFuel {A}.

Definition M (A : Type) := World -> Outcome A.

Definition ret (A : Type) (a : A) : M A := fun w => Ok a w.

Definition bind (A B : Type) (c : M A) (k : A -> M B) : M B :=
  fun w =>
    match c w with
    | Ok a w' => k a w'
    | Throw msg w' => Throw msg w'
    | Stuck w' => Stuck w'
    | OutOfFuel => OutOfFuel
    end.

Notation "x <- c ;; k" := (bind c (fun x => k))
  (at level 61, c at next level, right associativity).
Notation "' pat <- c ;; k" := (bind c (fun x => match x with pat => k end))
  (at level 61, pat pattern, c at next level, right associativity).

(** A state change that cannot fail, as a computation. *)
Definition lift (A : Type) (f : World -> A * World) : M A :=
  fun w => let (a, w') := f w in Ok a w'.

Definition modify (f : World -> World) : M unit := fun w => Ok tt (f w).

Definition throw (A : Type) (msg : string) : M A := fun w => Throw msg w.

(** A call of a collaborator that may throw. *)
Definition call (A : Type) (r : Exc A) : M A :=
  match r with
  | Returns a => ret a
  | Raises msg => throw A msg
  end.

(** [try { c } catch (err) { h err }] *)
Definition try_catch (A : Type) (c : M A) (h : string -> M A) : M A :=
  fun w =>
    match c w with
    | Throw msg w' => h msg w'
    | o => o
    end.

(** ** Registry lookups, dependency walk and aggregate hash *)

Section Aleph.
Variable X : Ext.
Variable C : Config.

(** [getModule(specifier)] *)
Definition getModule (w : World) (s : string) : option nat :=
  if String.eqb s "app" then appModule w
  else map_get s (modules w).

(** The first loop of [lookupDeps]: [callback(dep) === false] stops. *)
Fixpoint visit_deps (A : Type) (callback : DependencyDescriptor -> A -> A * bool)
    (ds : list DependencyDescriptor) (acc : A) : A * bool :=
  match ds with
  | [] => (acc, false)
  | d :: ds' =>
      let (acc', stop) := callback d acc in
      if stop then (acc', true) else visit_deps callback ds' acc'
  end.

(** The second loop of [lookupDeps]: the recursive calls on the
    dependencies, [rec] being [lookupDeps] itself. *)
Fixpoint walk_deps (A : Type)
    (rec : string -> A -> list string -> option (A * list string * bool))
    (ds : list DependencyDescriptor) (acc : A) (tracing : list string)
    : option (A * list string * bool) :=
  match ds with
  | [] => Some (acc, tracing, false)
  | d :: ds' =>
      match rec (dep_specifier d) acc tracing with
      | None => None
      | Some (acc', tracing', true) => Some (acc', tracing', true)
      | Some (acc', tracing', false) => walk_deps rec ds' acc' tracing'
      end
  end.

(** [lookupDeps(specifier, callback, __tracing)].  The callback's effect
    on its own captured variables is the accumulator; the result tells
    the new accumulator, the tracing set, and whether the walk returned
    [false].  [None]: the recursion budget ran out. *)
Fixpoint lookupDeps (A : Type) (fuel : nat) (w : World)
    (callback : DependencyDescriptor -> A -> A * bool)
    (s : string) (acc : A) (tracing : list string)
    : option (A * list string * bool) :=
  match fuel with
  | O => None
  | S fuel' =>
      match getModule w s with
      | None => Some (acc, tracing, false)
      | Some r =>
          if set_has s tracing then Some (acc, tracing, false)
          else
            let tracing1 := set_add s tracing in
            let ds := deps (deref w r) in
            let (acc1, stop) := visit_deps callback ds acc in
            if stop then Some (acc1, tracing1, true)
            else walk_deps (lookupDeps fuel' w callback) ds acc1 tracing1
      end
  end.

(** Recursion budget that [lookupDeps] never exhausts in world [w]:
    every expansion adds a registered specifier (or ["app"]) to the
    tracing set. *)
Definition lookup_fuel (w : World) : nat := S (S (List.length (modules w))).

(** The callback of [computeModuleHash]: [hasher.update(depMod.sourceHash)]
    when the dependency is registered. *)
Definition hash_dep (w : World) (d : DependencyDescriptor) (acc : string)
    : string * bool :=
  match getModule w (dep_specifier d) with
  | Some r => ((acc ++ sourceHash (deref w r))%string, false)
  | None => (acc, false)
  end.

(** [computeModuleHash(module)] *)
Definition computeModuleHash (w : World) (r : nat) : string :=
  let m := deref w r in
  match lookupDeps (lookup_fuel w) w (hash_dep w) (specifier m)
          (sourceHash m) [] with
  | Some (acc, _, _) => md5 X acc
  | None => md5 X (sourceHash m)
  end.

(** ** Artifact cache *)

Definition jsFilePath (m : Mod) : string := join X (buildDir C) (jsFile m).
Definition metaFilePath_of (p : string) : string :=
  (slice_0_m3 p ++ ".meta.json")%string.
Definition bundlingPath_of (p : string) : string :=
  (slice_0_m3 p ++ ".bundling.js")%string.

(** [getModuleJS(module)] with [injectHMRCode = false], the way the
    compilation core calls it: loads the buffer from the build directory
    when the module does not hold it. *)
Definition getModuleJS (r : nat) (w : World) : option bytes * World :=
  let m := deref w r in
  match jsBuffer m with
  | Some b => (Some b, w)
  | None =>
      match map_get (jsFilePath m) (jsFiles w) with
      | Some b => (Some b, mutate r (with_jsBuffer (Some b)) w)
      | None => (None, w)
      end
  end.

(** [#replaceDepHash(module, hashLoc, hash)] *)
Definition replaceDepHash (r : nat) (hashLoc : Z) (hash : string) (w : World)
    : bool * World :=
  let hashData := encode (substr06 hash) in
  let (jsBuffer, w1) := getModuleJS r w in
  match jsBuffer with
  | Some buf =>
      if negb (equals hashData (slice buf hashLoc (hashLoc + 6)%Z)) then
        let w2 := mutate r (with_jsBuffer (Some (copy hashData buf hashLoc))) w1 in
        (* if ('csrCode' in module) Reflect.deleteProperty(module, 'csrCode') *)
        (true, mutate r (with_csrCode None) w2)
      else (false, w1)
  | None => (false, w1)
  end.

(** [#cacheModule(module, sourceMap)] *)
Definition cacheModule (r : nat) (sourceMap : option string) (w : World) : World :=
  let m := deref w r in
  match jsBuffer m with
  | Some buf =>
      let p := jsFilePath m in
      let w1 := with_jsFiles (map_set p buf (jsFiles w)) w in
      let w2 := with_metaFiles
                  (map_set (metaFilePath_of p) (MetaValue (meta_of_mod m))
                     (metaFiles w1)) w1 in
      let w3 := match sourceMap with
                | Some sm =>
                    if isFilledString sm
                    then with_mapFiles (map_set (p ++ ".map")%string sm (mapFiles w2)) w2
                    else w2
                | None => w2
                end in
      let w4 := with_bundlingFiles
                  (filter (fun q => negb (String.eqb q (bundlingPath_of p)))
                     (bundlingFiles w3)) w3 in
      emit (EvCacheModule (specifier m)) w4
  | None => w
  end.

(** ** Cascade propagation *)

(** The inner loop of [#applyCompilationSideEffect] over the
    dependencies of one registered module [r]: [hash] is the memoised
    aggregate hash of [by], [fsync] tells whether a marker was patched. *)
Fixpoint patch_deps (by_ r : nat) (ds : list DependencyDescriptor)
    (hash : option string) (fsync : bool) (w : World)
    : option string * bool * World :=
  match ds with
  | [] => (hash, fsync, w)
  | d :: ds' =>
      match dep_hashLoc d with
      | Some hashLoc =>
          if String.eqb (dep_specifier d) (specifier (deref w by_)) then
            let h := match hash with
                     | Some h => h
                     | None => computeModuleHash w by_
                     end in
            let (patched, w1) := replaceDepHash r hashLoc h w in
            patch_deps by_ r ds' (Some h) (if patched then true else fsync) w1
          else patch_deps by_ r ds' hash fsync w
      | None => patch_deps by_ r ds' hash fsync w
      end
  end.

(** The loop of [#applyCompilationSideEffect] over
    [this.#modules.values()]; [rec] is the recursive call
    [this.#applyCompilationSideEffect(mod, callback)].  The callback is
    recorded as the event [EvCallback]. *)
Fixpoint scan_modules (rec : nat -> World -> option World) (by_ : nat)
    (ms : list nat) (hash : option string) (w : World) : option World :=
  match ms with
  | [] => Some w
  | r :: ms' =>
      let ds := deps (deref w r) in
      match ds with
      | [] => scan_modules rec by_ ms' hash w
      | _ :: _ =>
          match patch_deps by_ r ds hash false w with
          | (hash', true, w1) =>
              let w2 := emit (EvCallback r) w1 in
              match rec r w2 with
              | Some w3 => scan_modules rec by_ ms' hash' (cacheModule r None w3)
              | None => None
              end
          | (hash', false, w1) => scan_modules rec by_ ms' hash' w1
          end
      end
  end.

(** [#applyCompilationSideEffect(by, callback, __tracing)].  The recursive
    call of the source passes no tracing set, so the callee starts from
    an empty one; it and [#cacheModule] are not awaited by the source and
    are run here where they are called.  [None]: the recursion budget
    ran out. *)
Fixpoint applyCompilationSideEffect (fuel : nat) (by_ : nat)
    (tracing : list string) (w : World) : option World :=
  match fuel with
  | O => None
  | S fuel' =>
      let s := specifier (deref w by_) in
      if set_has s tracing then Some w
      else
        (* __tracing.add(by.specifier) *)
        let w0 := emit (EvSideEffectBy s) w in
        scan_modules (fun r => applyCompilationSideEffect fuel' r []) by_
          (map_values (modules w0)) None w0
  end.

(** ** [#initModule] *)

(** [CompileOptions] *)
Record CompileOptions := {
  opt_source : option ModuleSource;
  opt_forceRefresh : bool;
  opt_ignoreDeps : bool;
  opt_httpExternal : bool;
  opt_virtual : bool
}.

Definition default_options : CompileOptions :=
  {| opt_source := None; opt_forceRefresh := false; opt_ignoreDeps := false;
     opt_httpExternal := false; opt_virtual := false |}.

(** The loop over [#resolverListeners]: the first listener whose test
    matches decides; the result is the specifier, [external] and [data]. *)
Fixpoint run_resolvers (ls : list ResolveListener) (s : string)
    : string * bool * option string :=
  match ls with
  | [] => (s, false, None)
  | l :: ls' =>
      if r_test l s then
        let ret := r_resolve l s in
        (if isFilledString (rr_specifier ret) then rr_specifier ret else s,
         rr_external ret, rr_data ret)
      else run_resolvers ls' s
  end.

(** Lines 1090-1102: resolvers run only without a custom source. *)
Definition resolve_specifier (s : string) (customSource : option ModuleSource)
    : string * bool * option string :=
  match customSource with
  | None => run_resolvers (resolverListeners C) s
  | Some _ => (s, false, None)
  end.

(** [#loadListeners.find(l => l.test.test(specifier))] *)
Definition find_loader (s : string) : option LoadListener :=
  find (fun l => l_test l s) (loadListeners C).

(** The [switch (type)] of [resolveModuleSource] *)
Definition sourceType_of_loader (t : string) : SourceType :=
  if String.eqb t "js" then JS
  else if String.eqb t "jsx" then JSX
  else if String.eqb t "ts" then TS
  else if String.eqb t "tsx" then TSX
  else if String.eqb t "css" then CSS
  else Unknown.

(** [resolveModuleSource(specifier, data)] *)
Definition resolveModuleSource (s : string) (data : option string)
    : M ModuleSource :=
  _ <- modify (emit (EvLoad s)) ;;
  match find_loader s with
  | Some loader =>
      out <- call (l_load loader s data) ;;
      ret {| src_code := lo_code out;
             src_type := sourceType_of_loader (or_else (lo_type out) "js");
             src_map := if truthy (lo_map out) then lo_map out else None |}
  | None =>
      '(content, contentType) <- call (fetchModule X s) ;;
      let ct := if truthy contentType then contentType else None in
      let sourceType := getSourceType X s ct in
      ret {| src_code := if SourceType_eqb sourceType Unknown then "" else content;
             src_type := sourceType;
             src_map := None |}
  end.

(** Insertion sort by code-unit order: [Array.prototype.sort()] on keys. *)
Fixpoint insert_sorted (k : string) (l : list string) : list string :=
  match l with
  | [] => [k]
  | k' :: l' => if String.leb k k' then k :: l else k' :: insert_sorted k l'
  end.

Definition sort_keys (l : list string) : list string :=
  fold_right insert_sorted [] l.

(** [Object.keys(imports).sort().map(key => key + ':' + imports[key]).join('\n')] *)
Definition importMapDigest (im : JsMap string) : string :=
  join_with (String (ascii_of_nat 10) "")
    (List.map (fun key => (key ++ ":" ++ or_else (map_get key im) "")%string)
       (sort_keys (map_keys im))).

(** The [Set] of plugin indexes: the loader's plugin first, then the
    plugins of the matching [RegExp] transform listeners, in the order of
    [#transformListeners]. *)
Fixpoint add_transform_plugins (ls : list TransformListener) (s : string)
    (acc : list nat) : list nat :=
  match ls with
  | [] => acc
  | l :: ls' =>
      match t_test l with
      | TestRegExp t =>
          add_transform_plugins ls' s
            (if t s then nset_add (t_pluginId l) acc else acc)
      | _ => add_transform_plugins ls' s acc
      end
  end.

Definition matching_plugins (s : string) : list nat :=
  add_transform_plugins (transformListeners C) s
    (match find_loader s with
     | Some loader => nset_add (l_pluginId loader) []
     | None => []
     end).

(** [plugins.forEach(index => ...)]: the updates of the hasher, in the
    iteration order of the set. *)
Fixpoint plugin_updates (idx : list nat) (acc : string) : Exc string :=
  match idx with
  | [] => Returns acc
  | i :: idx' =>
      match nth_error (plugins C) i with
      | None => Raises "TypeError: Cannot read properties of undefined"
      | Some p =>
          match p_checksum p with
          | None => plugin_updates idx' acc
          | Some (Returns c) => plugin_updates idx' (acc ++ p_name p ++ c)%string
          | Some (Raises msg) => Raises msg
          end
      end
  end.

(** What is fed to the SHA-1 hasher, lines 1185-1215. *)
Definition sourceHashInput (s : string) (src : ModuleSource) : Exc string :=
  match plugin_updates (matching_plugins s)
          (src_code src ++ importMapDigest (imports C))%string with
  | Returns acc =>
      Returns (if SourceType_eqb (src_type src) CSS
               then (acc ++ cssConfigJson C)%string else acc)
  | Raises msg => Raises msg
  end.

Definition computeSourceHash (s : string) (src : ModuleSource) : Exc string :=
  match sourceHashInput s src with
  | Returns input => Returns (sha1 X input)
  | Raises msg => Raises msg
  end.

(** The object returned for an external specifier, lines 1105-1112. *)
Definition external_module (s : string) : Mod :=
  {| specifier := s; deps := []; external := true;
     httpExternal := false; isStyle := false; sourceHash := "";
     jsFile := ""; jsBuffer := None; csrCode := None;
     denoHooks := None; ssrPropsFn := None; ssgPathsFn := None;
     jsxStaticClassNames := None; source := None;
     ready := Resolved |}.

(** The object created for a specifier to load, lines 1129-1147; its
    [ready] promise is pending. *)
Definition fresh_module (s : string) (httpExt : bool) (jsFile : string) : Mod :=
  {| specifier := s; deps := []; external := false;
     httpExternal := httpExt; isStyle := false;
     sourceHash := ""; jsFile := jsFile; jsBuffer := None;
     csrCode := None; denoHooks := None; ssrPropsFn := None;
     ssgPathsFn := None; jsxStaticClassNames := None;
     source := None; ready := Pending |}.

(** [jsFile], [jsFilePath] and [metaFilePath] of lines 1121-1124. *)
Definition jsFile_of (s : string) : string :=
  (trimBuiltinModuleExts X (toLocalPath X s) ++ ".js")%string.

Definition jsFilePath_of (s : string) : string := join X (buildDir C) (jsFile_of s).

Definition metaFilePath_for (s : string) : string :=
  metaFilePath_of (jsFilePath_of s).

(** The test of line 1116: a registered module is reused unless a refresh
    is forced or it was compiled as an http-external module and now is
    not asked as one. *)
Definition reusable (o : CompileOptions) (m : Mod) : bool :=
  negb (opt_forceRefresh o)
  && negb (negb (opt_httpExternal o) && httpExternal m).

(** How the synchronous prefix of [#initModule] ends. *)
Inductive InitEntry :=
| EntryExternal (r : nat)
| EntryExisting (r : nat)
| EntryCreated (r : nat) (isNew : bool) (s : string) (data : option string).

(** Lines 1129-1152: create the module and publish it in the registry. *)
Definition publish (s : string) (o : CompileOptions) (w : World) : nat * World :=
  let (r, w1) := alloc (fresh_module s (opt_httpExternal o) (jsFile_of s)) w in
  let w2 := with_modules (map_set s r (modules w1)) w1 in
  (r, if String.eqb (trimBuiltinModuleExts X s) "/app"
      then with_appModule (Some r) w2 else w2).

(** Lines 1087-1152: everything [#initModule] does before its first
    [await]: resolve, look the registry up, create and publish. *)
Definition initModule_enter (s0 : string) (o : CompileOptions) (w : World)
    : InitEntry * World :=
  let '(s, external, data) := resolve_specifier s0 (opt_source o) in
  if external then
    let (r, w1) := alloc (external_module s) w in
    (EntryExternal r, w1)
  else
    match map_get s (modules w) with
    | Some r0 =>
        if reusable o (deref w r0) then (EntryExisting r0, w)
        else let (r, w1) := publish s o w in (EntryCreated r false s data, w1)
    | None =>
        let (r, w1) := publish s o w in (EntryCreated r true s data, w1)
    end.

(** The closure [defer]: on an error a new module leaves the registry
    and the message is logged; the [ready] promise resolves. *)
Definition defer (r : nat) (isNew : bool) (s : string) (err : option string)
    (w : World) : World :=
  let w1 :=
    match err with
    | Some msg =>
        let w' := if isNew then with_modules (map_delete s (modules w)) w else w in
        emit (EvLogError msg) w'
    | None => w
    end in
  mutate r (with_ready Resolved) w1.

(** The test of line 1157:
    [meta.specifier === specifier && util.isFilledString(meta.sourceHash)
     && util.isArray(meta.deps)] *)
Definition meta_is_valid (s : string) (meta : MetaObject) : bool :=
  match meta_specifier meta with
  | Some s' => String.eqb s' s
  | None => false
  end
  && match meta_sourceHash meta with
     | Some h => isFilledString h
     | None => false
     end
  && match meta_deps meta with Some _ => true | None => false end.

(** Lines 1154-1164: restore from the metadata sidecar. *)
Definition restore_meta (r : nat) (s : string) (metaFilePath : string)
    (w : World) : World :=
  match map_get metaFilePath (metaFiles w) with
  | None => w
  | Some MetaUnparsable => w          (* JSON.parse throws; catch (e) { } *)
  | Some MetaNull => w                (* meta.specifier throws; catch (e) { } *)
  | Some (MetaValue meta) =>
      if meta_is_valid s meta then
        mutate r (assign_meta meta) w
      else
        let w1 := emit (EvLogWarn ("removing invalid metadata of '"
                                   ++ basename X s ++ "'...")%string) w in
        (* Deno.remove(metaFilePath) *)
        with_metaFiles (map_delete metaFilePath (metaFiles w1)) w1
  end.

(** What loading and hashing yield, without the state: the source
    ([customSource || await this.resolveModuleSource(specifier, data)]) and
    its hash, or the error thrown on the way. *)
Definition source_result (s : string) (data : option string)
    (customSource : option ModuleSource) : Exc ModuleSource :=
  match customSource with
  | Some src => Returns src
  | None =>
      match find_loader s with
      | Some loader =>
          match l_load loader s data with
          | Returns out =>
              Returns {| src_code := lo_code out;
                         src_type := sourceType_of_loader (or_else (lo_type out) "js");
                         src_map := if truthy (lo_map out) then lo_map out else None |}
          | Raises msg => Raises msg
          end
      | None =>
          match fetchModule X s with
          | Returns (content, contentType) =>
              let ct := if truthy contentType then contentType else None in
              let sourceType := getSourceType X s ct in
              Returns {| src_code := if SourceType_eqb sourceType Unknown
                                     then "" else content;
                         src_type := sourceType;
                         src_map := None |}
          | Raises msg => Raises msg
          end
      end
  end.

Definition load_result (s : string) (data : option string)
    (customSource : option ModuleSource) : Exc (ModuleSource * string) :=
  match source_result s data customSource with
  | Returns src =>
      match computeSourceHash s src with
      | Returns h => Returns (src, h)
      | Raises msg => Raises msg
      end
  | Raises msg => Raises msg
  end.

(** Lines 1183-1220: load the source and compare hashes; the result is
    the source to transpile, if any. *)
Definition load_and_hash (r : nat) (s : string) (data : option string)
    (customSource : option ModuleSource) : M (option ModuleSource) :=
  src <- match customSource with
         | Some src => ret src
         | None => resolveModuleSource s data
         end ;;
  sourceHash' <- call (computeSourceHash s src) ;;
  fun w =>
    if String.eqb (sourceHash (deref w r)) sourceHash' then Ok None w
    else Ok (Some src) (mutate r (with_sourceHash sourceHash') w).

(** The condition of lines 1174-1179 under which the source is loaded. *)
Definition load_required (r : nat) (s : string) (w : World) : bool :=
  let isRemote := isLikelyHttpURL X s && negb (isLocalhostUrl X s) in
  let reload' := reload C
                 && negb (set_has ("init:" ++ s)%string (sessionStorage w)) in
  negb isRemote
  || String.eqb (sourceHash (deref w r)) ""
  || reload'
  || negb (map_has (jsFilePath_of s) (jsFiles w)).

(** Lines 1154-1228: the part of [#initModule] after the module is
    published. *)
Definition initModule_load (r : nat) (isNew : bool) (s : string)
    (data : option string) (o : CompileOptions)
    : M (nat * option ModuleSource) :=
  fun w =>
    let w1 := if opt_forceRefresh o then w
              else restore_meta r s (metaFilePath_for s) w in
    if opt_virtual o then Ok (r, None) (defer r isNew s None w1)
    else
      let reload' := reload C
                     && negb (set_has ("init:" ++ s)%string (sessionStorage w1)) in
      if load_required r s w1
      then
        let w2 := if reload'
                  then with_sessionStorage
                         (set_add ("init:" ++ s)%string (sessionStorage w1)) w1
                  else w1 in
        match load_and_hash r s data (opt_source o) w2 with
        | Ok source w3 => Ok (r, source) (defer r isNew s None w3)
        | Throw msg w3 => Ok (r, None) (defer r isNew s (Some msg) w3)
        | Stuck w3 => Stuck w3
        | OutOfFuel => OutOfFuel
        end
      else Ok (r, None) (defer r isNew s None w1).

(** [#initModule(specifier, options)] *)
Definition initModule (s0 : string) (o : CompileOptions)
    : M (nat * option ModuleSource) :=
  fun w =>
    match initModule_enter s0 o w with
    | (EntryExternal r, w1) => Ok (r, None) w1
    | (EntryExisting r, w1) =>
        (* await mod.ready *)
        match ready (deref w1 r) with
        | Resolved => Ok (r, None) w1
        | Pending => Stuck w1
        end
    | (EntryCreated r isNew s data, w1) => initModule_load r isNew s data o w1
    end.

(** ** [#transpileModule] *)

(** [s.endsWith(p)] *)
Definition endsWith (p s : string) : bool :=
  Nat.leb (String.length p) (String.length s)
  && String.eqb (substring (String.length s - String.length p) (String.length p) s) p.

(** The dependency a compiler-reported import becomes in [module.deps],
    lines 1360-1373: for a local import the marker [resolved] is searched
    in the output and the offset of its last 6 bytes recorded. *)
Definition descriptor_of (jsBuffer : bytes) (d : RawDep) : DependencyDescriptor :=
  {| dep_specifier := raw_specifier d;
     dep_virtual := false;
     dep_isDynamic := raw_isDynamic d;
     dep_hashLoc :=
       if startsWith "/" (raw_specifier d) then
         let mark := encode (raw_resolved d) in
         let idx := indexOf X jsBuffer mark in
         if (0 <? idx)%Z then Some (idx + Z.of_nat (List.length mark) - 6)%Z
         else None
       else None |}.

(** The compiler's dependency list as [Object.assign] stores it first. *)
Definition raw_descriptor (d : RawDep) : DependencyDescriptor :=
  {| dep_specifier := raw_specifier d; dep_virtual := false;
     dep_isDynamic := raw_isDynamic d; dep_hashLoc := None |}.

(** The loop over the [RegExp] transform listeners, lines 1337-1352. *)
Fixpoint run_transform_listeners (ls : list TransformListener) (r : nat)
    (s : string) (jsCode : string) (sourceMap : option string)
    (extraDeps : list DependencyDescriptor)
    : M (string * option string * list DependencyDescriptor) :=
  match ls with
  | [] => ret (jsCode, sourceMap, extraDeps)
  | l :: ls' =>
      match t_test l with
      | TestRegExp t =>
          if t s then
            _ <- modify (emit (EvPluginTransform (t_pluginId l) s)) ;;
            out <- (fun w => call (t_transform l (deref w r) jsCode sourceMap) w) ;;
            run_transform_listeners ls' r s
              (if truthy (to_code out) then or_else (to_code out) jsCode else jsCode)
              (if truthy (to_map out) then to_map out else sourceMap)
              (extraDeps ++ or_else (to_extraDeps out) [])
          else run_transform_listeners ls' r s jsCode sourceMap extraDeps
      | _ => run_transform_listeners ls' r s jsCode sourceMap extraDeps
      end
  end.

(** Lines 1246-1378: the branch [if (source)] of [#transpileModule] for a
    source of a known type.  The result is the source object as the
    branch leaves it (a style sheet is rewritten into a script). *)
Definition transform_source (r : nat) (s jsFile : string) (httpExt : bool)
    (source : ModuleSource) : M ModuleSource :=
  source1 <-
    (if SourceType_eqb (src_type source) CSS then
       _ <- modify (emit (EvCssLoader s)) ;;
       '(code, map) <- call (cssLoader X s (src_code source)) ;;
       _ <- modify (mutate r (with_isStyle true)) ;;
       ret {| src_code := code; src_type := JS; src_map := map |}
     else ret source) ;;
  _ <- modify (emit (EvTransform s)) ;;
  res <- call (if isLikelyHttpURL X s
                  && negb (SourceType_eqb (src_type source1) JSX)
                  && negb (SourceType_eqb (src_type source1) TSX)
               then fastTransform X s source1
               else transform X s source1 httpExt) ;;
  jsCode <-
    (match tr_starExports res with
     | Some (e :: es) =>
         if negb (isDev C) then call (rewriteStarExports X (tr_code res) (e :: es))
         else ret (tr_code res)
     | _ => ret (tr_code res)
     end) ;;
  (* the loop "revert external imports" discards the result of
     [jsCode.replaceAll] and changes nothing *)
  _ <- modify (mutate r (with_compiled (List.map raw_descriptor (tr_deps res))
                           (tr_ssrPropsFn res) (tr_ssgPathsFn res)
                           (tr_jsxStaticClassNames res))) ;;
  _ <- (match tr_denoHooks res with
        | Some (h :: hs) =>
            _ <- modify (mutate r (with_denoHooks
                     (Some (List.map (fun id => trimPrefix id "useDeno-") (h :: hs))))) ;;
            if negb (ssr C)
            then modify (emit (EvLogError
                   ("'useDeno' hook in SPA mode is illegal: " ++ s)%string))
            else ret tt
        | _ => ret tt
        end) ;;
  '(jsCode1, sourceMap, extraDeps) <-
    run_transform_listeners (transformListeners C) r s jsCode (tr_map res) [] ;;
  let jsCode2 :=
    if truthy sourceMap
    then (jsCode1 ++ String (ascii_of_nat 10) "//# sourceMappingURL="
            ++ basename X jsFile ++ ".map")%string
    else jsCode1 in
  let jsBuffer := encode jsCode2 in
  _ <- modify (mutate r (with_jsBuffer (Some jsBuffer))) ;;
  _ <- modify (fun w =>
         mutate r (with_deps
           (List.map (descriptor_of jsBuffer)
              (filter (fun d => negb (String.eqb (raw_specifier d)
                                        (specifier (deref w r))))
                 (tr_deps res))
            ++ extraDeps)) w) ;;
  _ <- modify (cacheModule r sourceMap) ;;
  ret source1.

(** The options of the two [#initModule] calls of the dependency loop. *)
Definition virtual_options : CompileOptions :=
  {| opt_source := None; opt_forceRefresh := false; opt_ignoreDeps := false;
     opt_httpExternal := false; opt_virtual := true |}.

Definition dep_options (httpExt : bool) : CompileOptions :=
  {| opt_source := None; opt_forceRefresh := false; opt_ignoreDeps := false;
     opt_httpExternal := httpExt; opt_virtual := false |}.

(** The recursive call of the dependency loop:
    [this.#transpileModule(mod, src, false, __tracing)]. *)
Definition TranspileRec := nat -> option ModuleSource -> M unit.

(** One task of the dependency loop, lines 1382-1408, for the dependency
    [d] of module [r]: the dependency is looked up or compiled, then its
    aggregate hash is written at [hashLoc].  The result tells whether a
    marker was patched. *)
Definition transpile_dep (rec : TranspileRec) (r : nat) (ignoreDeps httpExt : bool)
    (d : DependencyDescriptor) : M bool :=
  let s := dep_specifier d in
  depModule0 <-
    (if ignoreDeps || dep_virtual d then
       fun w =>
         match getModule w s with
         | Some dm => Ok (Some dm) w
         | None =>
             if dep_virtual d
             then ('(dm, _) <- initModule s virtual_options ;; ret (Some dm)) w
             else Ok None w
         end
     else ret None) ;;
  depModule <-
    (match depModule0 with
     | Some dm => ret dm
     | None =>
         '(dm, src) <- initModule s (dep_options httpExt) ;;
         fun w =>
           if external (deref w dm) then Ok dm w
           else (_ <- rec dm src ;; ret dm) w
     end) ;;
  match dep_hashLoc d with
  | Some hashLoc =>
      fun w =>
        let hash := computeModuleHash w depModule in
        let (patched, w1) := replaceDepHash r hashLoc hash w in
        Ok patched w1
  | None => ret false
  end.

(** [Promise.all(module.deps.map(async dep => ...))]: the tasks are run in
    the order of [module.deps]; a task that throws does not stop the
    others, and the first error rejects the whole once all have run. *)
Fixpoint transpile_deps (rec : TranspileRec) (r : nat) (ignoreDeps httpExt : bool)
    (ds : list DependencyDescriptor) (fsync : bool) (err : option string)
    (w : World) : Outcome bool :=
  match ds with
  | [] =>
      match err with
      | Some msg => Throw msg w
      | None => Ok fsync w
      end
  | d :: ds' =>
      match transpile_dep rec r ignoreDeps httpExt d w with
      | Ok patched w' =>
          transpile_deps rec r ignoreDeps httpExt ds'
            (if patched then true else fsync) err w'
      | Throw msg w' =>
          transpile_deps rec r ignoreDeps httpExt ds' fsync
            (match err with Some e => Some e | None => Some msg end) w'
      | Stuck w' => Stuck w'
      | OutOfFuel => OutOfFuel
      end
  end.

(** Lines 1380-1412: the dependency part of [#transpileModule]. *)
Definition transpile_module_deps (rec : TranspileRec) (r : nat)
    (ignoreDeps httpExt : bool) : M unit :=
  fun w =>
    match deps (deref w r) with
    | [] => Ok tt w
    | d :: ds =>
        match transpile_deps rec r ignoreDeps httpExt (d :: ds) false None w with
        | Ok true w' => Ok tt (cacheModule r None w')
        | Ok false w' => Ok tt w'
        | Throw msg w' => Throw msg w'
        | Stuck w' => Stuck w'
        | OutOfFuel => OutOfFuel
        end
    end.

(** The body of [#transpileModule(module, source, ignoreDeps, __tracing)]
    with its recursive call abstracted; [t] is the shared tracing set.
    The result is the source object as the call leaves it. *)
Definition transpile_body (rec : TranspileRec) (r : nat)
    (source : option ModuleSource) (ignoreDeps : bool) (t : nat)
    : M (option ModuleSource) :=
  fun w =>
    let m := deref w r in
    let s := specifier m in
    let httpExt := httpExternal m in
    if tracing_has t s w then Ok source w
    else
      let w0 := tracing_add t s w in
      match source with
      | Some src =>
          if SourceType_eqb (src_type src) Unknown then
            Ok source (emit (EvLogError ("Unsupported module '" ++ s ++ "'")%string) w0)
          else
            (src1 <- transform_source r s (jsFile m) httpExt src ;;
             _ <- transpile_module_deps rec r ignoreDeps httpExt ;;
             ret (Some src1)) w0
      | None =>
          (_ <- transpile_module_deps rec r ignoreDeps httpExt ;; ret None) w0
      end.

(** [#transpileModule(module, source, ignoreDeps, __tracing)];
    [OutOfFuel]: the recursion budget of the model ran out. *)
Fixpoint transpileModule (fuel : nat) (r : nat) (source : option ModuleSource)
    (ignoreDeps : bool) (t : nat) (w : World) : Outcome (option ModuleSource) :=
  match fuel with
  | O => OutOfFuel
  | S fuel' =>
      transpile_body
        (fun dm src => _ <- transpileModule fuel' dm src false t ;; ret tt)
        r source ignoreDeps t w
  end.

(** [compile(specifier, options)], returning with the module the source
    object that was handed to [#transpileModule], as that call left it. *)
Definition compile_pass (fuel : nat) (s : string) (o : CompileOptions)
    : M (nat * option ModuleSource) :=
  '(r, source) <- initModule s o ;;
  fun w =>
    if external (deref w r) then Ok (r, source) w
    else
      (* __tracing: Set<string> = new Set() *)
      let (t, w1) := new_set w in
      (source' <- transpileModule fuel r source (opt_ignoreDeps o) t ;;
       ret (r, source')) w1.

(** [compile(specifier, options)] *)
Definition compile (fuel : nat) (s : string) (o : CompileOptions) : M nat :=
  '(r, _) <- compile_pass fuel s o ;; ret r.

(** ** [addModule] and the routing tables *)

(** [#isPageModule(specifier)] *)
Definition isPageModule (exts : list string) (s : string) : bool :=
  if negb (startsWith "/pages/" s) then false
  else if existsb (fun ext => endsWith ("." ++ ext)%string s) exts then true
  else existsb (fun l => r_test l s
                         && match rr_asPage (r_resolve l s) with
                            | Some _ => true
                            | None => false
                            end) (resolverListeners C).

(** [util.trimSuffix(s, p)] *)
Definition trimSuffix (s p : string) : string :=
  if endsWith p s then substring 0 (String.length s - String.length p) s else s.

(** The resolver loop of [#createRouteUpdate], lines 892-909. *)
Fixpoint route_by_resolvers (ls : list ResolveListener) (s routePath : string)
    : string * string * bool :=
  match ls with
  | [] => (routePath, s, false)
  | l :: ls' =>
      if r_test l s then
        let ret := r_resolve l s in
        match rr_asPage ret with
        | Some (pagePath, isIndex) =>
            if isFilledString pagePath then
              (pagePath,
               if isFilledString (rr_specifier ret) then rr_specifier ret else s,
               isIndex)
            else route_by_resolvers ls' s routePath
        | None => route_by_resolvers ls' s routePath
        end
      else route_by_resolvers ls' s routePath
  end.

(** [#createRouteUpdate(specifier)]; [exts] is [builtinModuleExts] and
    [toPagePath] the function of that name. *)
Definition createRouteUpdate (exts : list string) (toPagePath : string -> string)
    (s : string) : RouteUpdate :=
  let isBuiltinModuleType := existsb (fun ext => endsWith ("." ++ ext)%string s) exts in
  if negb isBuiltinModuleType then
    let '(routePath, s', isIndex) :=
      route_by_resolvers (resolverListeners C) s (trimSuffix s "/pages") in
    {| route_path := routePath; route_module := s'; route_isIndex := isIndex |}
  else
    let routePath := toPagePath s in
    {| route_path := routePath; route_module := s;
       route_isIndex :=
         negb (String.eqb routePath "/")
         && existsb (fun ext => endsWith ("/index." ++ ext)%string s) exts |}.

(** [addModule(specifier, sourceCode, forceRefresh)] *)
Definition addModule (exts : list string) (toPagePath : string -> string)
    (fuel : nat) (s : string) (sourceCode : string) (forceRefresh : bool)
    : M nat :=
  let sourceType := getSourceType X s None in
  if SourceType_eqb sourceType Unknown then
    throw nat "addModule: unknown source type"
  else
    let source := {| src_code := sourceCode; src_type := sourceType;
                     src_map := None |} in
    '(module, source') <-
      compile_pass fuel s
        {| opt_source := Some source; opt_forceRefresh := forceRefresh;
           opt_ignoreDeps := false; opt_httpExternal := false;
           opt_virtual := false |} ;;
    let s1 := if startsWith "pages/" s || startsWith "api/" s
              then ("/" ++ s)%string else s in
    _ <- (if startsWith "/pages/" s1 && isPageModule exts s1 then
            modify (fun w => with_pageRouting
                      (pageRouting w ++ [createRouteUpdate exts toPagePath s1]) w)
          else if startsWith "/api/" s1 && negb (startsWith "/api/_middlewares." s1) then
            modify (fun w => with_apiRouting
                      (apiRouting w ++ [createRouteUpdate exts toPagePath s1]) w)
          else ret tt) ;;
    _ <- modify (mutate module (with_source (Some (or_else source' source)))) ;;
    ret module.

(** ** Concurrent callers of [compile]

    The scheduler is cooperative: a caller runs until it suspends.  A
    call of [compile] is cut where [#initModule] suspends: it runs the
    synchronous prefix of [#initModule] when it is issued; then it is
    either waiting for the [ready] promise of a registered module (line
    1117) or in the I/O of its own load (from line 1154); when
    [#initModule] has returned it runs [#transpileModule].  The load and
    the transpilation each run as one step. *)

Inductive Task :=
| TStart
| TWaiting (r : nat)
| TLoading (r : nat) (isNew : bool) (s : string) (data : option string)
| TInited (r : nat) (source : option ModuleSource)
| TDone (r : nat)
| TFailed (msg : string)
| TBlocked.

(** One step of a caller of [compile(s0, o)]. *)
Definition task_step (fuel : nat) (s0 : string) (o : CompileOptions)
    (task : Task) (w : World) : Task * World :=
  match task with
  | TStart =>
      match initModule_enter s0 o w with
      | (EntryExternal r, w') => (TInited r None, w')
      | (EntryExisting r, w') => (TWaiting r, w')
      | (EntryCreated r isNew s data, w') => (TLoading r isNew s data, w')
      end
  | TWaiting r =>
      match ready (deref w r) with
      | Resolved => (TInited r None, w)
      | Pending => (TWaiting r, w)
      end
  | TLoading r isNew s data =>
      match initModule_load r isNew s data o w with
      | Ok (r', source) w' => (TInited r' source, w')
      | Throw msg w' => (TFailed msg, w')
      | Stuck w' => (TBlocked, w')
      | OutOfFuel => (TBlocked, w)
      end
  | TInited r source =>
      if external (deref w r) then (TDone r, w)
      else
        let (t, w1) := new_set w in
        match transpileModule fuel r source (opt_ignoreDeps o) t w1 with
        | Ok _ w' => (TDone r, w')
        | Throw msg w' => (TFailed msg, w')
        | Stuck w' => (TBlocked, w')
        | OutOfFuel => (TBlocked, w)
        end
  | TDone r => (TDone r, w)
  | TFailed msg => (TFailed msg, w)
  | TBlocked => (TBlocked, w)
  end.

(** The scheduler resumes caller [k]. *)
Definition schedule_step (fuel : nat) (s0 : string) (o : CompileOptions)
    (st : list Task * World) (k : nat) : list Task * World :=
  match nth_error (fst st) k with
  | Some task =>
      let (task', w') := task_step fuel s0 o task (snd st) in
      (list_update k (fun _ => task') (fst st), w')
  | None => st
  end.

Definition run_schedule (fuel : nat) (s0 : string) (o : CompileOptions)
    (sched : list nat) (st : list Task * World) : list Task * World :=
  fold_left (schedule_step fuel s0 o) sched st.

(** [n] calls [compile(s0, o)] issued one after the other before any of
    them is resumed (as [Promise.all(xs.map(x => this.compile(x)))]
    issues them), then resumed in the order [sched]. *)
Definition concurrent_calls (fuel : nat) (s0 : string) (o : CompileOptions)
    (n : nat) (sched : list nat) (w : World) : list Task * World :=
  run_schedule fuel s0 o (seq 0 n ++ sched) (repeat TStart n, w).

End Aleph.

(** ** Data routes *)

Section Routes.

(** What a function without a [return] value on some path gives back. *)
Inductive JsResult := RTrue | RFalse | RUndefined.

(** [!result], the way [getSSRData] tests it. *)
Definition js_not (v : JsResult) : bool :=
  match v with RTrue => false | RFalse => true | RUndefined => true end.

(** [mod.denoHooks?.length]: truthy for a non-empty array. *)
Definition has_hooks (m : Mod) : bool :=
  match denoHooks m with
  | Some (_ :: _) => true
  | _ => false
  end.

(** The callback [#isDataRoute] hands to [lookupDeps]; the accumulator is
    its captured variable [ok]. *)
Definition hook_dep (w : World) (d : DependencyDescriptor) (ok : bool)
    : bool * bool :=
  match getModule w (dep_specifier d) with
  | Some r => if has_hooks (deref w r) then (true, true) else (ok, false)
  | None => (ok, false)
  end.

(** The loop of [#isDataRoute] over [['app', ...nestedModules]], lines
    580-598.  Where a dependency with hooks is found the source has a
    bare [return]. *)
Fixpoint data_route_scan (w : World) (ss : list string) : JsResult :=
  match ss with
  | [] => RFalse
  | s :: ss' =>
      match getModule w s with
      | Some r =>
          if has_hooks (deref w r) then RTrue
          else
            match lookupDeps (lookup_fuel w) w (hook_dep w)
                    (specifier (deref w r)) false [] with
            | Some (true, _, _) => RUndefined
            | _ => data_route_scan w ss'
            end
      | None => data_route_scan w ss'
      end
  end.

(** [nestedModules[nestedModules.length - 1]] looked up with
    [getModule]; [undefined] is no key of the registry. *)
Definition page_module (w : World) (nested : list string) : option nat :=
  match nested with
  | [] => None
  | _ :: _ => getModule w (List.last nested "")
  end.

(** [pageModule && pageModule.ssrPropsFn] *)
Definition page_has_props (w : World) (nested : list string) : bool :=
  match page_module w nested with
  | Some r => truthy (ssrPropsFn (deref w r))
  | None => false
  end.

(** [#isDataRoute(nestedModules)] *)
Definition isDataRoute (w : World) (nested : list string) : JsResult :=
  if page_has_props w nested then RTrue
  else data_route_scan w ("app" :: nested).

End Routes.

(** ** Custom dist files *)

(** The helpers [addDist] imports, and the files below the build
    directory with the set [#dists]. *)
Record DistEnv := {
  cleanPath : string -> string;
  extname : string -> string;
  (** [clearBuildCache(savePath, ext)] of [server/helper.ts]: what it
      leaves of the files *)
  clearBuildCache : string -> string -> JsMap bytes -> JsMap bytes
}.

Record DistState := {
  dist_files : JsMap bytes;
  dists : list string
}.

(** [ext.slice(1)] *)
Definition slice_1 (s : string) : string :=
  substring 1 (String.length s - 1) s.

(** [addDist(path, content)] *)
Definition addDist (X : Ext) (C : Config) (E : DistEnv) (path : string)
    (content : bytes) (st : DistState) : DistState :=
  let pathname := cleanPath E path in
  let savePath := join X (buildDir C) pathname in
  let files :=
    if negb (map_has savePath (dist_files st)) then
      map_set savePath content
        (clearBuildCache E savePath (slice_1 (extname E savePath)) (dist_files st))
    else dist_files st in
  {| dist_files := files; dists := set_add pathname (dists st) |}.

(** ** The watch handler *)

(** What the handler sends out of the instance: an event
    ['modify-' + specifier] with [{ refreshPage }] to every file-system
    watch listener, and a call of the renderer's [clearCache], without
    or with a route path. *)
Inductive Notice :=
| FsModify (s : string) (refreshPage : bool)
| CacheClearAll
| CacheClear (routePath : string).

Section Watch.
Variable X : Ext.
Variable C : Config.
(** [builtinModuleExts] and [toPagePath] *)
Variable exts : list string.
Variable toPagePath : string -> string.

(** The loop of [#isHMRable] over [builtinModuleExts], lines 1595-1603:
    the first extension the specifier ends in decides. *)
Fixpoint hmr_by_ext (es : list string) (s : string) : option bool :=
  match es with
  | [] => None
  | ext :: es' =>
      if endsWith ("." ++ ext)%string s then
        Some (startsWith "/pages/" s
              || startsWith "/components/" s
              || String.eqb (trimSuffix s ("." ++ ext)%string) "/app")
      else hmr_by_ext es' s
  end.

(** [#isAcceptHMR(ret)] *)
Definition isAcceptHMR (ret : ResolveResult) : bool :=
  rr_acceptHMR ret
  || match rr_asPage ret with Some _ => true | None => false end.

(** [#isHMRable(specifier)] *)
Definition isHMRable (s : string) (w : World) : bool :=
  if isLikelyHttpURL X s then false
  else
    match hmr_by_ext exts s with
    | Some b => b
    | None =>
        if match map_get s (modules w) with
           | Some r => isStyle (deref w r)
           | None => false
           end
        then true
        else existsb (fun l => r_test l s && isAcceptHMR (r_resolve l s))
               (resolverListeners C)
    end.

(** [#clearSSRCache(specifier)] *)
Definition clearSSRCache (s : string) (out : list Notice) : list Notice :=
  if String.eqb (trimBuiltinModuleExts X s) "/app" then out ++ [CacheClearAll]
  else if isPageModule C exts s then
    out ++ [CacheClear (route_path (createRouteUpdate C exts toPagePath s))]
  else out.

(** [JSON.stringify(a) !== JSON.stringify(b)] on [denoHooks] and
    [a !== b] on [ssrPropsFn]; an absent property is [None]. *)
Definition hooks_differ (a b : option (list string)) : bool :=
  match a, b with
  | Some x, Some y => if list_eq_dec string_dec x y then false else true
  | None, None => false
  | _, _ => true
  end.

Definition props_differ (a b : option string) : bool :=
  match a, b with
  | Some x, Some y => negb (String.eqb x y)
  | None, None => false
  | _, _ => true
  end.

(** [refreshPage] of [#watchHandler], lines 301-307 *)
Definition refresh_page (prev module : Mod) : bool :=
  ssr C
  && ((match denoHooks module with Some _ => true | None => false end
       && hooks_differ (denoHooks prev) (denoHooks module))
      || (match ssrPropsFn module with Some _ => true | None => false end
          && props_differ (ssrPropsFn prev) (ssrPropsFn module))).

(** The callback [#watchHandler] hands to the cascade, lines 314-322.
    It takes no parameter: [specifier] is the handler's, the edited
    file, and [hmrable] what the handler found for it. *)
Definition modify_callback (s : string) (hmrable refreshPage : bool)
    (w : World) (out : list Notice) : list Notice :=
  let out1 := if negb hmrable && isHMRable s w
              then out ++ [FsModify s refreshPage] else out in
  clearSSRCache s out1.

(** [#applyCompilationSideEffect] with the effect of its callback [cb]
    on the notices: [scan_modules] and [applyCompilationSideEffect] with
    [cb] run where they record [EvCallback]. *)
Fixpoint scan_modules_cb (cb : nat -> World -> list Notice -> list Notice)
    (rec : nat -> World -> list Notice -> option (World * list Notice))
    (by_ : nat) (ms : list nat) (hash : option string) (w : World)
    (out : list Notice) : option (World * list Notice) :=
  match ms with
  | [] => Some (w, out)
  | r :: ms' =>
      let ds := deps (deref w r) in
      match ds with
      | [] => scan_modules_cb cb rec by_ ms' hash w out
      | _ :: _ =>
          match patch_deps X C by_ r ds hash false w with
          | (hash', true, w1) =>
              let w2 := emit (EvCallback r) w1 in
              match rec r w2 (cb r w2 out) with
              | Some (w3, out3) =>
                  scan_modules_cb cb rec by_ ms' hash'
                    (cacheModule X C r None w3) out3
              | None => None
              end
          | (hash', false, w1) => scan_modules_cb cb rec by_ ms' hash' w1 out
          end
      end
  end.

Fixpoint applyCompilationSideEffect_cb
    (cb : nat -> World -> list Notice -> list Notice) (fuel : nat) (by_ : nat)
    (tracing : list string) (w : World) (out : list Notice)
    : option (World * list Notice) :=
  match fuel with
  | O => None
  | S fuel' =>
      let s := specifier (deref w by_) in
      if set_has s tracing then Some (w, out)
      else
        let w0 := emit (EvSideEffectBy s) w in
        scan_modules_cb cb
          (fun r => applyCompilationSideEffect_cb cb fuel' r []) by_
          (map_values (modules w0)) None w0 out
  end.

(** The branch of [#watchHandler(path, specifier)] for a file that
    exists and a registered specifier, lines 294-326; [prev] is
    [this.#modules.get(specifier)].  The cascade is not awaited by the
    source and is run here where it is called.  [None]: the recursion
    budget ran out, or the recompilation waits for a module that never
    gets ready. *)
Definition watchHandler_modify (fuel : nat) (s : string) (prev : nat)
    (w : World) (out : list Notice) : option (World * list Notice) :=
  match compile X C fuel s
          {| opt_source := None; opt_forceRefresh := true;
             opt_ignoreDeps := true;
             opt_httpExternal := httpExternal (deref w prev);
             opt_virtual := false |} w with
  | Ok module w1 =>
      let refreshPage := refresh_page (deref w1 prev) (deref w1 module) in
      let hmrable := isHMRable s w1 in
      let out1 := if hmrable
                  then out ++ [FsModify (specifier (deref w1 module)) refreshPage]
                  else out in
      match applyCompilationSideEffect_cb
              (fun _ => modify_callback s hmrable refreshPage)
              fuel module [] w1 out1 with
      | Some (w2, out2) => Some (w2, clearSSRCache s out2)
      | None => None
      end
  | Throw msg w1 =>
      Some (emit (EvLogError ("compile(" ++ s ++ "): " ++ msg)) w1, out)
  | Stuck _ => None
  | OutOfFuel => None
  end.

End Watch.

(** ** Asynchronous calls and their interleaving

    The definitions above run an [async] function to completion where it
    is called.  Here a call is a process that the event loop suspends at
    every [await] and resumes later, so that the calls in flight (the
    tasks of a [Promise.all], several callers of [compile]) interleave.
    - [Do f] is synchronous code: it runs as soon as control reaches it,
      without interruption.
    - [Await k] is a call suspended at an [await]; [k] runs when the
      event loop resumes it.
    - [Wait r k] is a call suspended at [await mod.ready] for the module
      object [r]; it can be resumed once the promise has resolved.
    - [All ps k h] is [await Promise.all(ps)]: the tasks [ps] have been
      started, each up to its first [await], in order; [k] is resumed
      with their results when all have returned.  When a task rejects,
      the [await] rejects with that error, which is [h], and the other
      tasks go on without a caller.
    - [Spawn q k] starts [q] without awaiting it and goes on with [k].
    - [Fail msg] is a rejected promise, [Stall] a call for which the
      recursion budget of the model ran out. *)

Set Warnings "-register-all".

Inductive Proc (A : Type) : Type :=
| Ret (a : A)
| Fail (msg : string)
| Do (f : World -> World * Proc A)
| Await (k : Proc A)
| Wait (r : nat) (k : Proc A)
| All (ps : list (Proc bool)) (k : list bool -> Proc A) (h : string -> Proc A)
| Spawn (q : Proc bool) (k : Proc A)
| Stall.

Set Warnings "register-all".

Arguments Ret {A} a.
Arguments Fail {A} msg.
Arguments Do {A} f.
Arguments Await {A} k.
Arguments Wait {A} r k.
Arguments All {A} ps k h.
Arguments Spawn {A} q k.
Arguments Stall {A}.

(** [p.then(k, h)]: what follows when [p] has returned or rejected. *)
Fixpoint then_ (A B : Type) (p : Proc A) (k : A -> Proc B) (h : string -> Proc B)
    {struct p} : Proc B :=
  match p with
  | Ret a => k a
  | Fail msg => h msg
  | Do f => Do (fun w => let (w', p') := f w in (w', then_ p' k h))
  | Await p' => Await (then_ p' k h)
  | Wait r p' => Wait r (then_ p' k h)
  | All ps k' h' =>
      All ps (fun vs => then_ (k' vs) k h) (fun msg => then_ (h' msg) k h)
  | Spawn q p' => Spawn q (then_ p' k h)
  | Stall => Stall
  end.

(** Sequencing inside one call: an error of [p] is the error of the whole. *)
Definition bindP (A B : Type) (p : Proc A) (k : A -> Proc B) : Proc B :=
  then_ p k (fun msg => Fail msg).

(** [await p]: the caller is resumed after [p] has settled. *)
Definition await (A : Type) (p : Proc A) : Proc A :=
  then_ p (fun a => Await (Ret a)) (fun msg => Await (Fail msg)).

Declare Scope proc_scope.
Delimit Scope proc_scope with proc.
Notation "x <~ p ;; k" := (bindP p (fun x => k))
  (at level 61, p at next level, right associativity) : proc_scope.
Notation "' pat <~ p ;; k" := (bindP p (fun x => match x with pat => k end))
  (at level 61, pat pattern, p at next level, right associativity) : proc_scope.

(** The promise of a collaborator that is already known to return [a] or
    to reject. *)
Definition settled (A : Type) (e : Exc A) : Proc A :=
  match e with
  | Returns a => Ret a
  | Raises msg => Fail msg
  end.

(** [await op()] for an operation of the file system: it is carried out
    at some moment after the call, and the caller is resumed later
    still. *)
Definition io (A : Type) (op : World -> A * World) : Proc A :=
  Await (Do (fun w => let (a, w') := op w in (w', Await (Ret a)))).

(** The promise of a file-system operation that nobody has awaited yet:
    the operation is carried out at some moment after the call. *)
Definition io_op (op : World -> World) : Proc bool :=
  Await (Do (fun w => (op w, Ret false))).

(** *** The event loop *)

Definition is_ret (A : Type) (p : Proc A) : bool :=
  match p with Ret _ => true | _ => false end.

Definition settled_proc (A : Type) (p : Proc A) : bool :=
  match p with Ret _ => true | Fail _ => true | _ => false end.

Fixpoint first_failure (ps : list (Proc bool)) : option string :=
  match ps with
  | [] => None
  | Fail msg :: _ => Some msg
  | _ :: ps' => first_failure ps'
  end.

Fixpoint results (ps : list (Proc bool)) : list bool :=
  match ps with
  | [] => []
  | Ret b :: ps' => b :: results ps'
  | _ :: ps' => results ps'
  end.

(** A [Promise.all] after one of its tasks has moved: with a rejected
    task the caller is to be resumed with the error, and the tasks that
    have not settled go on on their own. *)
Definition settle_all (A : Type) (ps : list (Proc bool)) (k : list bool -> Proc A)
    (h : string -> Proc A) : Proc A * list (Proc bool) :=
  match first_failure ps with
  | Some msg => (Await (h msg), filter (fun q => negb (settled_proc q)) ps)
  | None => (All ps k h, [])
  end.

(** Run the synchronous code of [p] up to its next suspension; the
    third component are the calls nobody awaits. *)
Fixpoint run (A : Type) (p : Proc A) (w : World) {struct p}
    : World * Proc A * list (Proc bool) :=
  match p with
  | Do f => let (w', p') := f w in run p' w'
  | All ps k h =>
      let '(w', ps', o) :=
        (fix start (ps : list (Proc bool)) (w : World)
           : World * list (Proc bool) * list (Proc bool) :=
           match ps with
           | [] => (w, [], [])
           | q :: qs =>
               let '(w1, q', o1) := run q w in
               let '(w2, qs', o2) := start qs w1 in
               (w2, q' :: qs', o1 ++ o2)
           end) ps w in
      let (p', o') := settle_all ps' k h in
      (w', p', o ++ o')
  | Spawn q k =>
      let '(w1, q', o1) := run q w in
      let '(w2, k', o2) := run k w1 in
      (w2, k', o1 ++ q' :: o2)
  | _ => (w, p, [])
  end.

(** Start the tasks [ps] one after the other. *)
Fixpoint start_all (ps : list (Proc bool)) (w : World)
    : World * list (Proc bool) * list (Proc bool) :=
  match ps with
  | [] => (w, [], [])
  | q :: qs =>
      let '(w1, q', o1) := run q w in
      let '(w2, qs', o2) := start_all qs w1 in
      (w2, q' :: qs', o1 ++ o2)
  end.

(** Resume the suspended call at [path] in the tree of [p]: the empty
    path is [p] itself, [i :: path] leads into task [i] of a
    [Promise.all].  [None]: there is no call there that can be resumed. *)
Fixpoint resume (A : Type) (path : list nat) (p : Proc A) (w : World) {struct p}
    : option (World * Proc A * list (Proc bool)) :=
  match p with
  | Await k =>
      match path with
      | [] => Some (run k w)
      | _ :: _ => None
      end
  | Wait r k =>
      match path with
      | [] =>
          match ready (deref w r) with
          | Resolved => Some (run k w)
          | Pending => None
          end
      | _ :: _ => None
      end
  | All ps k h =>
      match path with
      | [] =>
          if forallb (@is_ret bool) ps then Some (run (k (results ps)) w) else None
      | i :: path' =>
          match
            (fix at_task (ps : list (Proc bool)) (i : nat)
               : option (World * list (Proc bool) * list (Proc bool)) :=
               match ps, i with
               | [], _ => None
               | q :: qs, O =>
                   match resume path' q w with
                   | Some (w', q', o) => Some (w', q' :: qs, o)
                   | None => None
                   end
               | q :: qs, S i' =>
                   match at_task qs i' with
                   | Some (w', qs', o) => Some (w', q :: qs', o)
                   | None => None
                   end
               end) ps i
          with
          | Some (w', ps', o) =>
              let (p', o') := settle_all ps' k h in Some (w', p', o ++ o')
          | None => None
          end
      end
  | _ => None
  end.

(** [resume] in task [i] of the tasks [ps]. *)
Fixpoint resume_task (path : list nat) (ps : list (Proc bool)) (i : nat) (w : World)
    : option (World * list (Proc bool) * list (Proc bool)) :=
  match ps, i with
  | [], _ => None
  | q :: qs, O =>
      match resume path q w with
      | Some (w', q', o) => Some (w', q' :: qs, o)
      | None => None
      end
  | q :: qs, S i' =>
      match resume_task path qs i' w with
      | Some (w', qs', o) => Some (w', q :: qs', o)
      | None => None
      end
  end.

(** The calls in flight: the callers whose result is asked for, and the
    calls nobody awaits. *)
Record InFlight (A : Type) := {
  now : World;
  callers : list (Proc A);
  loose : list (Proc bool)
}.

(** What the event loop resumes next. *)
Inductive Choice :=
| Caller (i : nat) (path : list nat)
| Loose (i : nat) (path : list nat).

Fixpoint replace_nth (A : Type) (i : nat) (x : A) (l : list A) : list A :=
  match l, i with
  | [], _ => []
  | _ :: l', O => x :: l'
  | y :: l', S i' => y :: replace_nth i' x l'
  end.

(** One turn of the event loop; a choice that names no call that can be
    resumed changes nothing. *)
Definition turn (A : Type) (cfg : InFlight A) (c : Choice) : InFlight A :=
  match c with
  | Caller i path =>
      match nth_error (callers cfg) i with
      | Some p =>
          match resume path p (now cfg) with
          | Some (w', p', o) =>
              {| now := w'; callers := replace_nth i p' (callers cfg);
                 loose := loose cfg ++ o |}
          | None => cfg
          end
      | None => cfg
      end
  | Loose i path =>
      match nth_error (loose cfg) i with
      | Some p =>
          match resume path p (now cfg) with
          | Some (w', p', o) =>
              {| now := w'; callers := callers cfg;
                 loose := replace_nth i p' (loose cfg) ++ o |}
          | None => cfg
          end
      | None => cfg
      end
  end.

Definition turns (A : Type) (cfg : InFlight A) (sched : list Choice) : InFlight A :=
  fold_left (@turn A) sched cfg.

(** The calls [ps] are made one after the other, each running up to its
    first suspension. *)
Fixpoint issue (A : Type) (ps : list (Proc A)) (w : World)
    : World * list (Proc A) * list (Proc bool) :=
  match ps with
  | [] => (w, [], [])
  | p :: ps' =>
      let '(w1, p', o1) := run p w in
      let '(w2, ps'', o2) := issue ps' w1 in
      (w2, p' :: ps'', o1 ++ o2)
  end.

Definition launch (A : Type) (ps : list (Proc A)) (w : World) : InFlight A :=
  let '(w', ps', o) := issue ps w in
  {| now := w'; callers := ps'; loose := o |}.

(** The paths of the calls in the tree of [p] that can be resumed. *)
Fixpoint paths (A : Type) (p : Proc A) (w : World) {struct p} : list (list nat) :=
  match p with
  | Await _ => [[]]
  | Wait r _ =>
      match ready (deref w r) with
      | Resolved => [[]]
      | Pending => []
      end
  | All ps _ _ =>
      (if forallb (@is_ret bool) ps then [[]] else [])
      ++ (fix tasks (ps : list (Proc bool)) (i : nat) : list (list nat) :=
            match ps with
            | [] => []
            | q :: qs => List.map (cons i) (paths q w) ++ tasks qs (S i)
            end) ps 0
  | _ => []
  end.

Fixpoint choices_from (A : Type) (mk : nat -> list nat -> Choice)
    (ps : list (Proc A)) (i : nat) (w : World) : list Choice :=
  match ps with
  | [] => []
  | p :: ps' => List.map (mk i) (paths p w) ++ choices_from mk ps' (S i) w
  end.

(** Everything the event loop can resume in [cfg]. *)
Definition choices (A : Type) (cfg : InFlight A) : list Choice :=
  choices_from Caller (callers cfg) 0 (now cfg)
  ++ choices_from Loose (loose cfg) 0 (now cfg).

(** The event loop that resumes, [n] times, the call that [pick] selects
    among those that can be resumed. *)
Fixpoint drive (A : Type) (pick : list Choice -> option Choice) (n : nat)
    (cfg : InFlight A) : InFlight A :=
  match n with
  | O => cfg
  | S n' =>
      match pick (choices cfg) with
      | Some c => drive pick n' (turn cfg c)
      | None => cfg
      end
  end.

(** The first and the last call of the list. *)
Definition first_choice (cs : list Choice) : option Choice := hd_error cs.
Definition last_choice (cs : list Choice) : option Choice := hd_error (rev cs).

(** *** The compilation core as asynchronous calls *)

Module Async.
Section Calls.
Variable X : Ext.
Variable C : Config.

Local Open Scope proc_scope.

(** [resolveModuleSource(specifier, data)] *)
Definition resolveModuleSource (s : string) (data : option string)
    : Proc ModuleSource :=
  Do (fun w =>
    (emit (EvLoad s) w,
     match find_loader C s with
     | Some loader =>
         out <~ await (settled (l_load loader s data)) ;;
         Ret {| src_code := lo_code out;
                src_type := sourceType_of_loader (or_else (lo_type out) "js");
                src_map := if truthy (lo_map out) then lo_map out else None |}
     | None =>
         '(content, contentType) <~ await (settled (fetchModule X s)) ;;
         let ct := if truthy contentType then contentType else None in
         let sourceType := getSourceType X s ct in
         Ret {| src_code := if SourceType_eqb sourceType Unknown then "" else content;
                src_type := sourceType;
                src_map := None |}
     end)).

(** Lines 1154-1164: restore from the metadata sidecar. *)
Definition restore_meta (r : nat) (s : string) : Proc unit :=
  let path := metaFilePath_for X C s in
  found <~ io (fun w => (map_has path (metaFiles w), w)) ;;
  if found : bool then
    content <~ io (fun w => (map_get path (metaFiles w), w)) ;;
    match content with
    | Some (MetaValue meta) =>
        if meta_is_valid s meta then
          Do (fun w => (mutate r (assign_meta meta) w, Ret tt))
        else
          Do (fun w =>
            (emit (EvLogWarn ("removing invalid metadata of '"
                              ++ basename X s ++ "'...")%string) w,
             (* Deno.remove(metaFilePath), not awaited *)
             Spawn (io_op (fun w => with_metaFiles (map_delete path (metaFiles w)) w))
               (Ret tt)))
    | _ => Ret tt   (* the read, JSON.parse or meta.specifier throws; catch (e) { } *)
    end
  else Ret tt.

(** Lines 1183-1220: load the source and compare hashes; the result is
    the source to transpile, if any. *)
Definition load_and_hash (r : nat) (s : string) (data : option string)
    (customSource : option ModuleSource) : Proc (option ModuleSource) :=
  src <~ match customSource with
         | Some src => Ret src
         | None => await (resolveModuleSource s data)
         end ;;
  Do (fun w =>
    match computeSourceHash X C s src with
    | Returns h =>
        if String.eqb (sourceHash (deref w r)) h then (w, Ret None)
        else (mutate r (with_sourceHash h) w, Ret (Some src))
    | Raises msg => (w, Fail msg)
    end).

(** Lines 1180-1228, once the source is to be loaded; [reload'] is
    [reload] of line 1172. *)
Definition load_source (r : nat) (isNew : bool) (s : string)
    (data : option string) (o : CompileOptions) (reload' : bool)
    : Proc (nat * option ModuleSource) :=
  Do (fun w =>
    (if reload'
     then with_sessionStorage (set_add ("init:" ++ s)%string (sessionStorage w)) w
     else w,
     then_ (load_and_hash r s data (opt_source o))
       (fun source => Do (fun w => (defer r isNew s None w, Ret (r, source))))
       (fun msg => Do (fun w => (defer r isNew s (Some msg) w, Ret (r, None)))))).

(** Lines 1166-1228. *)
Definition after_restore (r : nat) (isNew : bool) (s : string)
    (data : option string) (o : CompileOptions)
    : Proc (nat * option ModuleSource) :=
  if opt_virtual o then Do (fun w => (defer r isNew s None w, Ret (r, None)))
  else
    Do (fun w =>
      let isRemote := isLikelyHttpURL X s && negb (isLocalhostUrl X s) in
      let reload' := reload C
                     && negb (set_has ("init:" ++ s)%string (sessionStorage w)) in
      if negb isRemote || String.eqb (sourceHash (deref w r)) "" || reload'
      then (w, load_source r isNew s data o reload')
      else
        (w,
         found <~ io (fun w => (map_has (jsFilePath_of X C s) (jsFiles w), w)) ;;
         if negb found then load_source r isNew s data o reload'
         else Do (fun w => (defer r isNew s None w, Ret (r, None))))).

(** [#initModule(specifier, options)] *)
Definition initModule (s0 : string) (o : CompileOptions)
    : Proc (nat * option ModuleSource) :=
  Do (fun w =>
    match initModule_enter X C s0 o w with
    | (EntryExternal r, w1) => (w1, Ret (r, None))
    | (EntryExisting r, w1) => (w1, Wait r (Ret (r, None)))
    | (EntryCreated r isNew s data, w1) =>
        (w1,
         if opt_forceRefresh o then after_restore r isNew s data o
         else (_ <~ restore_meta r s ;; after_restore r isNew s data o))
    end).

(** [getModuleJS(module)] with [injectHMRCode = false]; the result tells
    whether it returns an array. *)
Definition getModuleJS (r : nat) : Proc bool :=
  Do (fun w =>
    let m := deref w r in
    match jsBuffer m with
    | Some _ => (w, Ret true)
    | None =>
        let path := jsFilePath X C m in
        (w,
         found <~ io (fun w => (map_has path (jsFiles w), w)) ;;
         if found : bool then
           content <~ io (fun w => (map_get path (jsFiles w), w)) ;;
           match content with
           | Some b => Do (fun w => (mutate r (with_jsBuffer (Some b)) w, Ret true))
           | None => Fail ("No such file: " ++ path)
           end
         else
           Do (fun w =>
             (w, Ret (match jsBuffer (deref w r) with
                      | Some _ => true
                      | None => false
                      end))))
    end).

(** [#replaceDepHash(module, hashLoc, hash)].  The array is the one the
    module holds: the bytes compared and overwritten are those it holds
    when the call is resumed. *)
Definition replaceDepHash (r : nat) (hashLoc : Z) (hash : string) : Proc bool :=
  let hashData := encode (substr06 hash) in
  has <~ await (getModuleJS r) ;;
  Do (fun w =>
    match (if has : bool then jsBuffer (deref w r) else None) with
    | Some buf =>
        if negb (equals hashData (slice buf hashLoc (hashLoc + 6)%Z)) then
          let w1 := mutate r (with_jsBuffer (Some (copy hashData buf hashLoc))) w in
          (mutate r (with_csrCode None) w1, Ret true)
        else (w, Ret false)
    | None => (w, Ret false)
    end).

(** [#cacheModule(module, sourceMap)]: the four operations of its
    [Promise.all] are carried out in any order.  The sidecar holds the
    properties the module had when [#cacheModule] was called, the
    compiled file the bytes the module holds when it is written. *)
Definition cacheModule (r : nat) (sourceMap : option string) : Proc unit :=
  Do (fun w =>
    let m := deref w r in
    match jsBuffer m with
    | Some buf =>
        let p := jsFilePath X C m in
        (emit (EvCacheModule (specifier m)) w,
         (* await ensureDir(dirname(jsFilePath)) *)
         Await
           (All
              [io_op (fun w =>
                 with_jsFiles
                   (map_set p (or_else (jsBuffer (deref w r)) buf) (jsFiles w)) w);
               io_op (fun w =>
                 with_metaFiles
                   (map_set (metaFilePath_of p) (MetaValue (meta_of_mod m))
                      (metaFiles w)) w);
               match sourceMap with
               | Some sm =>
                   if isFilledString sm
                   then io_op (fun w =>
                          with_mapFiles
                            (map_set (p ++ ".map")%string sm (mapFiles w)) w)
                   else Ret false
               | None => Ret false
               end;
               io_op (fun w =>
                 with_bundlingFiles
                   (filter (fun q => negb (String.eqb q (bundlingPath_of p)))
                      (bundlingFiles w)) w)]
              (fun _ => Ret tt) (fun msg => Fail msg)))
    | None => (w, Ret tt)
    end).

(** The loop over the [RegExp] transform listeners, lines 1337-1352. *)
Fixpoint run_transform_listeners (ls : list TransformListener) (r : nat)
    (s : string) (jsCode : string) (sourceMap : option string)
    (extraDeps : list DependencyDescriptor)
    : Proc (string * option string * list DependencyDescriptor) :=
  match ls with
  | [] => Ret (jsCode, sourceMap, extraDeps)
  | l :: ls' =>
      match t_test l with
      | TestRegExp t =>
          if t s then
            Do (fun w =>
              (emit (EvPluginTransform (t_pluginId l) s) w,
               out <~ await (settled (t_transform l (deref w r) jsCode sourceMap)) ;;
               run_transform_listeners ls' r s
                 (if truthy (to_code out) then or_else (to_code out) jsCode
                  else jsCode)
                 (if truthy (to_map out) then to_map out else sourceMap)
                 (extraDeps ++ or_else (to_extraDeps out) [])))
          else run_transform_listeners ls' r s jsCode sourceMap extraDeps
      | _ => run_transform_listeners ls' r s jsCode sourceMap extraDeps
      end
  end.

(** Lines 1246-1378: the branch [if (source)] of [#transpileModule] for a
    source of a known type. *)
Definition transform_source (r : nat) (s jsFile : string) (httpExt : bool)
    (source : ModuleSource) : Proc unit :=
  source1 <~
    (if SourceType_eqb (src_type source) CSS then
       Do (fun w =>
         (emit (EvCssLoader s) w,
          '(code, map) <~ await (settled (cssLoader X s (src_code source))) ;;
          Do (fun w =>
            (mutate r (with_isStyle true) w,
             Ret {| src_code := code; src_type := JS; src_map := map |}))))
     else Ret source) ;;
  Do (fun w =>
    (emit (EvTransform s) w,
     res <~ await (settled
                     (if isLikelyHttpURL X s
                         && negb (SourceType_eqb (src_type source1) JSX)
                         && negb (SourceType_eqb (src_type source1) TSX)
                      then fastTransform X s source1
                      else transform X s source1 httpExt)) ;;
     jsCode <~
       (match tr_starExports res with
        | Some (e :: es) =>
            if negb (isDev C)
            then await (settled (rewriteStarExports X (tr_code res) (e :: es)))
            else Ret (tr_code res)
        | _ => Ret (tr_code res)
        end) ;;
     Do (fun w =>
       let w1 := mutate r (with_compiled (List.map raw_descriptor (tr_deps res))
                             (tr_ssrPropsFn res) (tr_ssgPathsFn res)
                             (tr_jsxStaticClassNames res)) w in
       let w2 :=
         match tr_denoHooks res with
         | Some (h :: hs) =>
             let w' := mutate r (with_denoHooks
                         (Some (List.map (fun id => trimPrefix id "useDeno-")
                                  (h :: hs)))) w1 in
             if negb (ssr C)
             then emit (EvLogError
                          ("'useDeno' hook in SPA mode is illegal: " ++ s)%string) w'
             else w'
         | _ => w1
         end in
       (w2,
        '(jsCode1, sourceMap, extraDeps) <~
          run_transform_listeners (transformListeners C) r s jsCode (tr_map res) [] ;;
        Do (fun w =>
          let jsCode2 :=
            if truthy sourceMap
            then (jsCode1 ++ String (ascii_of_nat 10) "//# sourceMappingURL="
                    ++ basename X jsFile ++ ".map")%string
            else jsCode1 in
          let jsBuffer := encode jsCode2 in
          let w1 := mutate r (with_jsBuffer (Some jsBuffer)) w in
          let w2 :=
            mutate r (with_deps
              (List.map (descriptor_of X jsBuffer)
                 (filter (fun d => negb (String.eqb (raw_specifier d)
                                           (specifier (deref w1 r))))
                    (tr_deps res))
               ++ extraDeps)) w1 in
          (w2, await (cacheModule r sourceMap))))))).

(** One task of the dependency loop, lines 1382-1408, for the dependency
    [d] of module [r]; [rec] is the recursive call
    [this.#transpileModule(mod, src, false, __tracing)].  The result
    tells whether a marker was patched. *)
Definition dep_task (rec : nat -> option ModuleSource -> Proc unit) (r : nat)
    (ignoreDeps httpExt : bool) (d : DependencyDescriptor) : Proc bool :=
  let s := dep_specifier d in
  depModule0 <~
    (if ignoreDeps || dep_virtual d then
       Do (fun w =>
         match getModule w s with
         | Some dm => (w, Ret (Some dm))
         | None =>
             if dep_virtual d
             then (w, ('(dm, _) <~ await (initModule s virtual_options) ;;
                       Ret (Some dm)))
             else (w, Ret None)
         end)
     else Ret None) ;;
  depModule <~
    (match depModule0 with
     | Some dm => Ret dm
     | None =>
         '(dm, src) <~ await (initModule s (dep_options httpExt)) ;;
         Do (fun w =>
           if external (deref w dm) then (w, Ret dm)
           else (w, (_ <~ await (rec dm src) ;; Ret dm)))
     end) ;;
  match dep_hashLoc d with
  | Some hashLoc =>
      Do (fun w =>
        (w, await (replaceDepHash r hashLoc (computeModuleHash X w depModule))))
  | None => Ret false
  end.

(** Lines 1380-1412: the dependency part of [#transpileModule]. *)
Definition transpile_deps (rec : nat -> option ModuleSource -> Proc unit)
    (r : nat) (ignoreDeps httpExt : bool) : Proc unit :=
  Do (fun w =>
    match deps (deref w r) with
    | [] => (w, Ret tt)
    | d :: ds =>
        (w,
         All (List.map (dep_task rec r ignoreDeps httpExt) (d :: ds))
           (fun patched =>
              if existsb (fun b => b) patched
              then await (cacheModule r None)
              else Ret tt)
           (fun msg => Fail msg))
    end).

(** [#transpileModule(module, source, ignoreDeps, __tracing)]; [t] is
    the shared tracing set. *)
Fixpoint transpileModule (fuel : nat) (r : nat) (source : option ModuleSource)
    (ignoreDeps : bool) (t : nat) : Proc unit :=
  match fuel with
  | O => Stall
  | S fuel' =>
      Do (fun w =>
        let m := deref w r in
        let s := specifier m in
        if tracing_has t s w then (w, Ret tt)
        else
          let w0 := tracing_add t s w in
          let rec := fun dm src => transpileModule fuel' dm src false t in
          match source with
          | Some src =>
              if SourceType_eqb (src_type src) Unknown then
                (emit (EvLogError ("Unsupported module '" ++ s ++ "'")%string) w0,
                 Ret tt)
              else
                (w0,
                 _ <~ transform_source r s (jsFile m) (httpExternal m) src ;;
                 transpile_deps rec r ignoreDeps (httpExternal m))
          | None => (w0, transpile_deps rec r ignoreDeps (httpExternal m))
          end)
  end.

(** [compile(specifier, options)] *)
Definition compile (fuel : nat) (s : string) (o : CompileOptions) : Proc nat :=
  '(r, source) <~ await (initModule s o) ;;
  Do (fun w =>
    if external (deref w r) then (w, Ret r)
    else
      (* __tracing: Set<string> = new Set() *)
      let (t, w1) := new_set w in
      (w1, (_ <~ await (transpileModule fuel r source (opt_ignoreDeps o) t) ;;
            Ret r))).

End Calls.
End Async.

(** ** The hash functions of the platform

    [createHash('sha1')] and [createHash('md5')] of std/hash, on byte
    strings, with the digest in lower-case hexadecimal as [toString()]
    returns it.  Words are 32-bit integers in [Z], reduced after every
    addition and rotation. *)

Module Hash.

Definition w32 (x : Z) : Z := Z.land x 0xFFFFFFFF.

Definition rotl (n x : Z) : Z :=
  w32 (Z.lor (Z.shiftl x n) (Z.shiftr x (32 - n))).

Definition add32 (x y : Z) : Z := w32 (x + y).

Definition not32 (x : Z) : Z := Z.lxor x 0xFFFFFFFF.

Definition bytes_of_string (s : string) : list Z :=
  List.map (fun c => Z.of_nat (nat_of_ascii c)) (list_ascii_of_string s).

Definition hex_digit (x : Z) : ascii :=
  nth (Z.to_nat x)
    ["0"; "1"; "2"; "3"; "4"; "5"; "6"; "7"; "8"; "9"; "a"; "b"; "c"; "d"; "e"; "f"]%char
    "0"%char.

Definition hex_byte (b : Z) : string :=
  String (hex_digit (Z.shiftr b 4)) (String (hex_digit (Z.land b 15)) "").

Definition hex_bytes (bs : list Z) : string :=
  fold_right (fun b acc => (hex_byte b ++ acc)%string) "" bs.

(** Big-endian and little-endian bytes of a 32-bit word. *)
Definition be_bytes (x : Z) : list Z :=
  [Z.land (Z.shiftr x 24) 255; Z.land (Z.shiftr x 16) 255;
   Z.land (Z.shiftr x 8) 255; Z.land x 255].

Definition le_bytes (x : Z) : list Z := rev (be_bytes x).

Fixpoint words_be (bs : list Z) : list Z :=
  match bs with
  | b0 :: b1 :: b2 :: b3 :: rest =>
      (Z.shiftl b0 24 + Z.shiftl b1 16 + Z.shiftl b2 8 + b3)%Z :: words_be rest
  | _ => []
  end.

Fixpoint words_le (bs : list Z) : list Z :=
  match bs with
  | b0 :: b1 :: b2 :: b3 :: rest =>
      (Z.shiftl b3 24 + Z.shiftl b2 16 + Z.shiftl b1 8 + b0)%Z :: words_le rest
  | _ => []
  end.

(** The message followed by [0x80] and zeros up to 56 modulo 64 bytes;
    the 64-bit length in bits is appended by each function in its own
    byte order. *)
Definition pad_zeros (msg : list Z) : list Z :=
  let l := List.length msg in
  msg ++ [128%Z] ++ repeat 0%Z ((119 - l mod 64) mod 64).

Definition bit_length (msg : list Z) : Z := (8 * Z.of_nat (List.length msg))%Z.

Fixpoint chunks (n : nat) (k : nat) (ws : list Z) : list (list Z) :=
  match n with
  | O => []
  | S n' => firstn k ws :: chunks n' k (skipn k ws)
  end.

Definition blocks (ws : list Z) : list (list Z) :=
  chunks (List.length ws / 16) 16 ws.

(** *** SHA-1 *)

Fixpoint sha1_schedule (n : nat) (ws : list Z) : list Z :=
  match n with
  | O => ws
  | S n' =>
      let t := List.length ws in
      let x := Z.lxor (Z.lxor (nth (t - 3) ws 0%Z) (nth (t - 8) ws 0%Z))
                 (Z.lxor (nth (t - 14) ws 0%Z) (nth (t - 16) ws 0%Z)) in
      sha1_schedule n' (ws ++ [rotl 1 x])
  end.

Definition sha1_round (st : Z * Z * Z * Z * Z) (tw : nat * Z)
    : Z * Z * Z * Z * Z :=
  let '(a, b, c, d, e) := st in
  let (t, wt) := tw in
  let (f, k) :=
    if Nat.ltb t 20 then (Z.lor (Z.land b c) (Z.land (not32 b) d), 0x5A827999%Z)
    else if Nat.ltb t 40 then (Z.lxor (Z.lxor b c) d, 0x6ED9EBA1%Z)
    else if Nat.ltb t 60 then
      (Z.lor (Z.lor (Z.land b c) (Z.land b d)) (Z.land c d), 0x8F1BBCDC%Z)
    else (Z.lxor (Z.lxor b c) d, 0xCA62C1D6%Z) in
  let temp := add32 (add32 (add32 (add32 (rotl 5 a) f) e) k) wt in
  (temp, a, rotl 30 b, c, d).

Definition sha1_block (h : Z * Z * Z * Z * Z) (block : list Z)
    : Z * Z * Z * Z * Z :=
  let ws := sha1_schedule 64 block in
  let '(a, b, c, d, e) := fold_left sha1_round (combine (seq 0 80) ws) h in
  let '(h0, h1, h2, h3, h4) := h in
  (add32 h0 a, add32 h1 b, add32 h2 c, add32 h3 d, add32 h4 e).

Definition sha1_bytes (msg : list Z) : list Z :=
  let padded := pad_zeros msg ++ be_bytes (Z.shiftr (bit_length msg) 32)
                  ++ be_bytes (w32 (bit_length msg)) in
  let '(h0, h1, h2, h3, h4) :=
    fold_left sha1_block (blocks (words_be padded))
      (0x67452301, 0xEFCDAB89, 0x98BADCFE, 0x10325476, 0xC3D2E1F0)%Z in
  be_bytes h0 ++ be_bytes h1 ++ be_bytes h2 ++ be_bytes h3 ++ be_bytes h4.

Definition sha1 (s : string) : string := hex_bytes (sha1_bytes (bytes_of_string s)).

(** *** MD5 *)

Definition md5_K : list Z :=
    [0xd76aa478; 0xe8c7b756; 0x242070db; 0xc1bdceee;
     0xf57c0faf; 0x4787c62a; 0xa8304613; 0xfd469501;
     0x698098d8; 0x8b44f7af; 0xffff5bb1; 0x895cd7be;
     0x6b901122; 0xfd987193; 0xa679438e; 0x49b40821;
     0xf61e2562; 0xc040b340; 0x265e5a51; 0xe9b6c7aa;
     0xd62f105d; 0x02441453; 0xd8a1e681; 0xe7d3fbc8;
     0x21e1cde6; 0xc33707d6; 0xf4d50d87; 0x455a14ed;
     0xa9e3e905; 0xfcefa3f8; 0x676f02d9; 0x8d2a4c8a;
     0xfffa3942; 0x8771f681; 0x6d9d6122; 0xfde5380c;
     0xa4beea44; 0x4bdecfa9; 0xf6bb4b60; 0xbebfbc70;
     0x289b7ec6; 0xeaa127fa; 0xd4ef3085; 0x04881d05;
     0xd9d4d039; 0xe6db99e5; 0x1fa27cf8; 0xc4ac5665;
     0xf4292244; 0x432aff97; 0xab9423a7; 0xfc93a039;
     0x655b59c3; 0x8f0ccc92; 0xffeff47d; 0x85845dd1;
     0x6fa87e4f; 0xfe2ce6e0; 0xa3014314; 0x4e0811a1;
     0xf7537e82; 0xbd3af235; 0x2ad7d2bb; 0xeb86d391]%Z.

Definition md5_S : list Z :=
  [7; 12; 17; 22; 7; 12; 17; 22; 7; 12; 17; 22; 7; 12; 17; 22;
   5; 9; 14; 20; 5; 9; 14; 20; 5; 9; 14; 20; 5; 9; 14; 20;
   4; 11; 16; 23; 4; 11; 16; 23; 4; 11; 16; 23; 4; 11; 16; 23;
   6; 10; 15; 21; 6; 10; 15; 21; 6; 10; 15; 21; 6; 10; 15; 21]%Z.

Definition md5_round (block : list Z) (st : Z * Z * Z * Z) (i : nat)
    : Z * Z * Z * Z :=
  let '(a, b, c, d) := st in
  let (f, g) :=
    if Nat.ltb i 16 then (Z.lor (Z.land b c) (Z.land (not32 b) d), i)
    else if Nat.ltb i 32 then
      (Z.lor (Z.land d b) (Z.land (not32 d) c), (5 * i + 1) mod 16)
    else if Nat.ltb i 48 then (Z.lxor (Z.lxor b c) d, (3 * i + 5) mod 16)
    else (Z.lxor c (Z.lor b (not32 d)), (7 * i) mod 16) in
  let f' := add32 (add32 (add32 f a) (nth i md5_K 0%Z)) (nth g block 0%Z) in
  (d, add32 b (rotl (nth i md5_S 0%Z) f'), b, c).

Definition md5_block (h : Z * Z * Z * Z) (block : list Z) : Z * Z * Z * Z :=
  let '(a, b, c, d) := fold_left (md5_round block) (seq 0 64) h in
  let '(a0, b0, c0, d0) := h in
  (add32 a0 a, add32 b0 b, add32 c0 c, add32 d0 d).

Definition md5_bytes (msg : list Z) : list Z :=
  let padded := pad_zeros msg ++ le_bytes (w32 (bit_length msg))
                  ++ le_bytes (Z.shiftr (bit_length msg) 32) in
  let '(a0, b0, c0, d0) :=
    fold_left md5_block (blocks (words_le padded))
      (0x67452301, 0xefcdab89, 0x98badcfe, 0x10325476)%Z in
  le_bytes a0 ++ le_bytes b0 ++ le_bytes c0 ++ le_bytes d0.

Definition md5 (s : string) : string := hex_bytes (md5_bytes (bytes_of_string s)).

End Hash.

(** ** A concrete platform

    Implementations of the collaborators for the scenarios below: the
    path helpers on local specifiers, the byte search of std/bytes, the
    real hash functions, and a loader and a compiler given by tables. *)

Module Std.

Definition builtinModuleExts : list string := ["tsx"; "jsx"; "ts"; "js"; "mjs"].

(** [trimBuiltinModuleExts(url)] *)
Fixpoint trim_exts (exts : list string) (url : string) : string :=
  match exts with
  | [] => url
  | ext :: exts' =>
      if endsWith ("." ++ ext) url
      then substring 0 (String.length url - (String.length ext + 1)) url
      else trim_exts exts' url
  end.

Definition trimBuiltinModuleExts (url : string) : string :=
  trim_exts builtinModuleExts url.

Definition isLikelyHttpURL (s : string) : bool :=
  startsWith "https://" s || startsWith "http://" s.

(** [toLocalPath(url)] on a local specifier *)
Definition toLocalPath (s : string) : string := trimPrefix s "file://".

(** [join(dir, path)] for an absolute [path] *)
Definition join (dir path : string) : string := (dir ++ path)%string.

(** [basename(path)]: what follows the last slash *)
Fixpoint basename_from (s acc : string) : string :=
  match s with
  | EmptyString => acc
  | String c s' =>
      if Ascii.eqb c "/"%char then basename_from s' ""
      else basename_from s' (acc ++ String c "")
  end.

Definition basename (s : string) : string := basename_from s "".

(** [getSourceType(specifier)] by file extension *)
Definition getSourceType (s : string) (contentType : option string) : SourceType :=
  if endsWith ".tsx" s then TSX
  else if endsWith ".jsx" s then JSX
  else if endsWith ".ts" s then TS
  else if endsWith ".js" s || endsWith ".mjs" s then JS
  else if endsWith ".css" s then CSS
  else Unknown.

(** Does [pat] occur in [source] at its head? *)
Fixpoint occurs_at (pat source : bytes) : bool :=
  match pat, source with
  | [], _ => true
  | p :: pat', c :: source' => byte_eqb p c && occurs_at pat' source'
  | _ :: _, [] => false
  end.

(** [indexOf(source, pat)]: the first index where [pat] occurs, [-1] when
    there is none or when [pat] is empty. *)
Fixpoint index_from (source pat : bytes) (i : Z) : Z :=
  match source with
  | [] => (-1)%Z
  | _ :: source' =>
      if occurs_at pat source then i else index_from source' pat (i + 1)%Z
  end.

Definition indexOf (source pat : bytes) : Z :=
  match pat with
  | [] => (-1)%Z
  | _ => index_from source pat 0%Z
  end.

End Std.

(** The platform with source files [files] and a compiler whose results
    are tabulated in [compiled]. *)
Definition std_ext (files : JsMap string) (compiled : JsMap TransformResult) : Ext :=
  {| sha1 := Hash.sha1;
     md5 := Hash.md5;
     toLocalPath := Std.toLocalPath;
     trimBuiltinModuleExts := Std.trimBuiltinModuleExts;
     join := Std.join;
     basename := Std.basename;
     isLikelyHttpURL := Std.isLikelyHttpURL;
     isLocalhostUrl := fun _ => false;
     getSourceType := Std.getSourceType;
     fetchModule := fun s =>
       match map_get s files with
       | Some content => Returns (content, None)
       | None => Raises ("No such file: " ++ s)
       end;
     transform := fun s _ _ =>
       match map_get s compiled with
       | Some res => Returns res
       | None => Raises ("transform failed: " ++ s)
       end;
     fastTransform := fun s _ =>
       match map_get s compiled with
       | Some res => Returns res
       | None => Raises ("transform failed: " ++ s)
       end;
     cssLoader := fun _ data => Returns (data, None);
     rewriteStarExports := fun code _ => Returns code;
     indexOf := Std.indexOf |}.

(** A development-mode configuration without plugins, with build
    directory [/.aleph/development]. *)
Definition plain_config : Config :=
  {| isDev := true; ssr := true; reload := false;
     buildDir := "/.aleph/development";
     imports := []; plugins := []; resolverListeners := [];
     loadListeners := []; transformListeners := []; cssConfigJson := "{}" |}.

(** The empty instance. *)
Definition empty_world : World :=
  {| heap := []; modules := []; appModule := None; pageRouting := [];
     apiRouting := []; sessionStorage := []; jsFiles := []; metaFiles := [];
     mapFiles := []; bundlingFiles := []; sets := []; events := [] |}.

(** A compiler result with the given code and local imports, each
    import with the marker the compiler embedded for it. *)
Definition compiled_as (code : string) (imports : list (string * string))
    : TransformResult :=
  {| tr_code := code;
     tr_deps := List.map (fun i => {| raw_specifier := fst i;
                                      raw_resolved := snd i;
                                      raw_isDynamic := false |}) imports;
     tr_denoHooks := None; tr_ssrPropsFn := None; tr_ssgPathsFn := None;
     tr_starExports := None; tr_jsxStaticClassNames := None; tr_map := None |}.

(** *** Scenario: the import cycle [/a.ts] -> [/b.ts] -> [/a.ts] *)

Definition cycle_files : JsMap string :=
  [("/a.ts", "import './b.ts'"); ("/b.ts", "import './a.ts'")].

Definition cycle_compiled : JsMap TransformResult :=
  [("/a.ts", compiled_as "import './b.js#000000'" [("/b.ts", "./b.js#000000")]);
   ("/b.ts", compiled_as "import './a.js#000000'" [("/a.ts", "./a.js#000000")])].

Definition cycle_ext : Ext := std_ext cycle_files cycle_compiled.

(** *** Scenario: the diamond [/d.ts] -> [/b.ts], [/c.ts] -> [/a.ts] *)

Definition diamond_files (a_source : string) : JsMap string :=
  [("/a.ts", a_source); ("/b.ts", "import './a.ts'");
   ("/c.ts", "import './a.ts'"); ("/d.ts", "import './b.ts'; import './c.ts'")].

Definition diamond_compiled : JsMap TransformResult :=
  [("/a.ts", compiled_as "export default 1" []);
   ("/b.ts", compiled_as "import './a.js#000000'" [("/a.ts", "./a.js#000000")]);
   ("/c.ts", compiled_as "import './a.js#000000'" [("/a.ts", "./a.js#000000")]);
   ("/d.ts", compiled_as "import './b.js#000000'; import './c.js#000000'"
               [("/b.ts", "./b.js#000000"); ("/c.ts", "./c.js#000000")])].

Definition diamond_ext (a_source : string) : Ext :=
  std_ext (diamond_files a_source) diamond_compiled.

(** The options of the watch handler's recompilation. *)
Definition watch_options : CompileOptions :=
  {| opt_source := None; opt_forceRefresh := true; opt_ignoreDeps := true;
     opt_httpExternal := false; opt_virtual := false |}.

(** [/d.ts] is compiled, then [/a.ts] is edited and recompiled the way
    [#watchHandler] does it. *)
Definition diamond_edited : Outcome nat :=
  (_ <- compile (diamond_ext "export default 1") plain_config 10 "/d.ts"
          default_options ;;
   compile (diamond_ext "export default 2") plain_config 10 "/a.ts"
     watch_options) empty_world.

(** The specifiers for which [#applyCompilationSideEffect] passed its
    guard, in order. *)
Definition side_effect_sources (evs : list Event) : list string :=
  flat_map (fun e => match e with EvSideEffectBy s => [s] | _ => [] end) evs.

(** *** Scenario: [/b.ts] imports [/a.ts] and [/c.ts], [/a.ts] imports [/b.ts] *)

Definition knot_files : JsMap string :=
  [("/a.ts", "import './b.ts'"); ("/b.ts", "import './a.ts'; import './c.ts'");
   ("/c.ts", "export default 1")].

Definition knot_compiled : JsMap TransformResult :=
  [("/a.ts", compiled_as "import './b.js#000000'" [("/b.ts", "./b.js#000000")]);
   ("/b.ts", compiled_as "import './a.js#000000'; import './c.js#000000'"
               [("/a.ts", "./a.js#000000"); ("/c.ts", "./c.js#000000")]);
   ("/c.ts", compiled_as "export default 1" [])].

Definition knot_ext : Ext := std_ext knot_files knot_compiled.

(** *** Scenario: a resolver marks [https://esm.sh/react] external *)

Definition external_resolver : ResolveListener :=
  {| r_pluginId := 0;
     r_test := fun s => startsWith "https://esm.sh/" s;
     r_resolve := fun _ =>
       {| rr_specifier := ""; rr_external := true; rr_data := None;
          rr_asPage := None; rr_acceptHMR := false |} |}.

Definition external_config : Config :=
  {| isDev := true; ssr := true; reload := false;
     buildDir := "/.aleph/development";
     imports := []; plugins := []; resolverListeners := [external_resolver];
     loadListeners := []; transformListeners := []; cssConfigJson := "{}" |}.

(** *** Scenario: a sidecar that [JSON.parse] rejects *)

Definition single_files : JsMap string := [("/a.ts", "export default 1")].

Definition single_compiled : JsMap TransformResult :=
  [("/a.ts", compiled_as "export default 1" [])].

Definition single_ext : Ext := std_ext single_files single_compiled.

Definition a_meta_path : string := "/.aleph/development/a.meta.json".

Definition corrupt_sidecar_world : World :=
  with_metaFiles [(a_meta_path, MetaUnparsable)] empty_world.

(** *** Scenario: the source of a registered module disappears *)

(** [/a.ts] is compiled while its file exists. *)
Definition a_compiled_world : Outcome nat :=
  compile single_ext plain_config 10 "/a.ts" default_options empty_world.

(** The platform after the file was deleted. *)
Definition missing_ext : Ext := std_ext [] single_compiled.

(** *** Scenario: two plugins with transform listeners *)

Definition any_ts : TransformTest := TestRegExp (fun s => endsWith ".ts" s).

Definition quiet_transform (m : Mod) (code : string) (map : option string)
    : Exc TransformOutput :=
  Returns {| to_code := None; to_map := None; to_extraDeps := None |}.

(** Plugins [first] then [second], each with one transform listener on
    [*.ts]; listeners are registered while the plugins are set up, in the
    order of [config.plugins]. *)
Definition two_plugins (first second : Plugin) : Config :=
  {| isDev := true; ssr := true; reload := false;
     buildDir := "/.aleph/development";
     imports := [];
     plugins := [first; second];
     resolverListeners := [];
     loadListeners := [];
     transformListeners :=
       [{| t_pluginId := 0; t_test := any_ts; t_transform := quiet_transform |};
        {| t_pluginId := 1; t_test := any_ts; t_transform := quiet_transform |}];
     cssConfigJson := "{}" |}.

Definition plugin_p : Plugin := {| p_name := "p"; p_checksum := Some (Returns "11") |}.
Definition plugin_q : Plugin := {| p_name := "q"; p_checksum := Some (Returns "22") |}.

Definition a_source : ModuleSource :=
  {| src_code := "export default 1"; src_type := TS; src_map := None |}.

(** The state a run ends in. *)
Definition final_world (A : Type) (o : Outcome A) : World :=
  match o with
  | Ok _ w => w
  | Throw _ w => w
  | Stuck w => w
  | OutOfFuel => empty_world
  end.

Definition a_world : World := final_world a_compiled_world.

(** *** Scenario: one import map written in two orders *)

Definition with_imports (im : JsMap string) (C : Config) : Config :=
  {| isDev := isDev C; ssr := ssr C; reload := reload C; buildDir := buildDir C;
     imports := im; plugins := plugins C;
     resolverListeners := resolverListeners C; loadListeners := loadListeners C;
     transformListeners := transformListeners C;
     cssConfigJson := cssConfigJson C |}.

Definition import_react : string * string := ("react", "https://esm.sh/react").
Definition import_home : string * string := ("~/", "./").

Definition config_react_home : Config :=
  with_imports [import_react; import_home] (two_plugins plugin_p plugin_q).

Definition config_home_react : Config :=
  with_imports [import_home; import_react] (two_plugins plugin_p plugin_q).

(** The diamond after the cascade from the recompiled [/a.ts] (object 4). *)
Definition diamond_cascaded : option World :=
  applyCompilationSideEffect (diamond_ext "export default 2") plain_config 10 4 []
    (final_world diamond_edited).

Definition final_state (o : option World) : World :=
  match o with Some w => w | None => empty_world end.

(** The knot compiled once. *)
Definition knot_world : World :=
  final_world (compile knot_ext plain_config 10 "/b.ts" default_options empty_world).

(** *** Scenario: two concurrent calls after a restart

    [/a.ts] was compiled by an earlier run of the server: its compiled
    file and its sidecar are on disk, the registry is empty. *)

Definition restarted_world : World :=
  with_jsFiles (jsFiles a_world) (with_metaFiles (metaFiles a_world) empty_world).

(** Both calls are issued; then the first (0) loads, the second (1)
    wakes up, and each transpiles. *)
Definition restarted_race : list Task * World :=
  concurrent_calls single_ext plain_config 10 "/a.ts" default_options 2
    [0; 1; 0; 1] restarted_world.

(** The same calls on an empty build directory. *)
Definition first_race : list Task * World :=
  concurrent_calls single_ext plain_config 10 "/a.ts" default_options 2
    [0; 1; 0; 1] empty_world.

(** *** Scenario: one compiled module with a marker *)

(** A platform without files. *)
Definition std_plain : Ext := std_ext [] [].

Definition marker_code : string := "import './a.js#000000'".

(** [/b.ts] holds its compiled bytes; the marker of [/a.ts] has its
    hash at offset 15. *)
Definition marker_module : Mod :=
  with_deps [{| dep_specifier := "/a.ts"; dep_virtual := false;
                dep_isDynamic := false; dep_hashLoc := Some 15%Z |}]
    (with_jsBuffer (Some (encode marker_code))
       (with_ready Resolved (fresh_module "/b.ts" false "/b.js"))).

Definition marker_world : World :=
  with_modules [("/b.ts", 0)] (with_heap [marker_module] empty_world).

(** The server started with [--reload]. *)
Definition reload_config : Config :=
  {| isDev := true; ssr := true; reload := true;
     buildDir := "/.aleph/development";
     imports := []; plugins := []; resolverListeners := [];
     loadListeners := []; transformListeners := []; cssConfigJson := "{}" |}.

(** *** Scenario: a page that imports a component with a Deno hook *)

Definition hooks_page : Mod :=
  with_deps [{| dep_specifier := "/components/data.tsx"; dep_virtual := false;
                dep_isDynamic := false; dep_hashLoc := None |}]
    (with_ready Resolved (fresh_module "/pages/index.tsx" false "/pages/index.js")).

Definition hooks_component : Mod :=
  with_denoHooks (Some ["a1b2c3"])
    (with_ready Resolved
       (fresh_module "/components/data.tsx" false "/components/data.js")).

Definition hooks_world : World :=
  with_modules [("/pages/index.tsx", 0); ("/components/data.tsx", 1)]
    (with_heap [hooks_page; hooks_component] empty_world).

(** [/a.ts] after [#initModule] alone. *)
Definition a_init_world : World :=
  final_world (initModule single_ext plain_config "/a.ts" default_options empty_world).

(** *** Scenario: the page [/pages/index.tsx] imports [/lib/a.ts] *)

Definition page_files (a_source : string) : JsMap string :=
  [("/lib/a.ts", a_source); ("/pages/index.tsx", "import '../lib/a.ts'")].

Definition page_compiled : JsMap TransformResult :=
  [("/lib/a.ts", compiled_as "export default 1" []);
   ("/pages/index.tsx",
    compiled_as "import '../lib/a.js#000000'" [("/lib/a.ts", "../lib/a.js#000000")])].

Definition page_ext (a_source : string) : Ext :=
  std_ext (page_files a_source) page_compiled.

(** The page compiled once; [/lib/a.ts] is the module object 1. *)
Definition page_world : World :=
  final_world (compile (page_ext "export default 1") plain_config 10
                 "/pages/index.tsx" default_options empty_world).

(** [/lib/a.ts] is edited and the watch handler runs for it. *)
Definition page_watched : option (World * list Notice) :=
  watchHandler_modify (page_ext "export default 2") plain_config
    Std.builtinModuleExts (fun s => s) 10 "/lib/a.ts" 1 page_world [].

Definition final_watch (o : option (World * list Notice)) : World * list Notice :=
  match o with Some st => st | None => (empty_world, []) end.

(** *** Scenario: the edited diamond, with [/b.ts] on disk only *)

(** The state of [diamond_edited] in which [/b.ts] (object 1) holds no
    compiled bytes in memory: they are in its file in the build
    directory, as for a module that was restored from its sidecar. *)
Definition diamond_on_disk : World :=
  mutate 1 (with_jsBuffer None) (final_world diamond_edited).

Definition diamond_on_disk_cascaded : option World :=
  applyCompilationSideEffect (diamond_ext "export default 2") plain_config 10 4 []
    diamond_on_disk.

(** ** Vocabulary of the statements *)

Unset Implicit Arguments.

(** A sidecar that the shape check of [#initModule] does not accept. *)
Inductive corrupt_sidecar (s : string) : MetaFile -> Prop :=
| corrupt_unparsable : corrupt_sidecar s MetaUnparsable
| corrupt_null : corrupt_sidecar s MetaNull
| corrupt_shape : forall meta,
    meta_is_valid s meta = false -> corrupt_sidecar s (MetaValue meta).

(** The specifier the resolver chain leaves when listener [l] decides. *)
Definition resolved_specifier (l : ResolveListener) (s0 : string) : string :=
  if isFilledString (rr_specifier (r_resolve l s0))
  then rr_specifier (r_resolve l s0) else s0.

(** The last event of a trace. *)
Definition last_event (w : World) : option Event := last (List.map Some (events w)) None.

(** What plugin [i] adds to the hasher when its checksum is available. *)
Definition plugin_chunk (C : Config) (i : nat) : string :=
  match nth_error (plugins C) i with
  | Some p =>
      match p_checksum p with
      | Some (Returns c) => (p_name p ++ c)%string
      | _ => ""
      end
  | None => ""
  end.

(** Plugin [i] exists and its [checksum()], if it has one, returns. *)
Definition plugin_available (C : Config) (i : nat) : Prop :=
  exists p, nth_error (plugins C) i = Some p
            /\ forall msg, p_checksum p <> Some (Raises msg).


(** Byte index [i] lies in the 6-byte window that a marker recorded at
    [hashLoc] occupies.  (A transpiled marker has [hashLoc >= 0]; [copy]
    starts at 0 for a negative offset.) *)
Definition in_window (hashLoc : Z) (i : nat) : Prop :=
  (Z.max 0 hashLoc <= Z.of_nat i < Z.max 0 hashLoc + 6)%Z.

(** Byte index [i] lies in no marker window of the dependency list. *)
Definition marker_free (ds : list DependencyDescriptor) (i : nat) : Prop :=
  forall d l, In d ds -> dep_hashLoc d = Some l -> ~ in_window l i.

(** Two buffers of the same length that agree outside the markers. *)
Definition same_outside_markers (ds : list DependencyDescriptor)
    (b b' : bytes) : Prop :=
  List.length b' = List.length b
  /\ forall i, marker_free ds i -> nth_error b' i = nth_error b i.

(** The specifiers handed to the transform collaborator in a trace. *)
Definition transformed (evs : list Event) : list string :=
  flat_map (fun e => match e with EvTransform s => [s] | _ => [] end) evs.

(** What a hash cascade may do to the state: it appends events none of
    which is a transform, keeps the registry, and keeps of every module
    object the specifier, the dependency list, the source hash and, of
    a buffer it holds, the length and all bytes outside the markers; a
    module whose bytes changed, or that was reported to the callback,
    has lost its [csrCode]. *)
Record patched_only (w w' : World) (evs : list Event) : Prop := {
  po_events : events w' = events w ++ evs;
  po_transformed : transformed evs = [];
  po_modules : modules w' = modules w;
  po_appModule : appModule w' = appModule w;
  po_heap : List.length (heap w') = List.length (heap w);
  po_specifier : forall r, specifier (deref w' r) = specifier (deref w r);
  po_deps : forall r, deps (deref w' r) = deps (deref w r);
  po_sourceHash : forall r, sourceHash (deref w' r) = sourceHash (deref w r);
  po_buffer : forall r b,
    jsBuffer (deref w r) = Some b ->
    exists b', jsBuffer (deref w' r) = Some b'
               /\ same_outside_markers (deps (deref w r)) b b'
               /\ (b' <> b -> csrCode (deref w' r) = None);
  po_csrCode : forall r,
    csrCode (deref w' r) = csrCode (deref w r) \/ csrCode (deref w' r) = None;
  po_callback : forall r, In (EvCallback r) evs -> csrCode (deref w' r) = None
}.

Arguments po_events {w w' evs} _.
Arguments po_transformed {w w' evs} _.
Arguments po_modules {w w' evs} _.
Arguments po_appModule {w w' evs} _.
Arguments po_heap {w w' evs} _.
Arguments po_specifier {w w' evs} _ _.
Arguments po_deps {w w' evs} _ _.
Arguments po_sourceHash {w w' evs} _ _.
Arguments po_buffer {w w' evs} _ _ _ _.
Arguments po_csrCode {w w' evs} _ _.
Arguments po_callback {w w' evs} _ _ _.

(** No other registered module is written to the output file of the
    module object [r]. *)
Definition sole_output (X : Ext) (C : Config) (w : World) (r : nat) : bool :=
  forallb (fun r' => Nat.eqb r' r
                     || negb (String.eqb (jsFilePath X C (deref w r'))
                                         (jsFilePath X C (deref w r))))
    (map_values (modules w)).

(** What a hash cascade may do to the bytes [getModuleJS] hands out for
    a module, in memory or read from the build directory: for a
    registered module that has its output file to itself they keep their
    length and all bytes outside the markers, and the module has lost
    its [csrCode] when they changed. *)
Record disk_kept (X : Ext) (C : Config) (w w' : World) : Prop := {
  dk_modules : modules w' = modules w;
  dk_jsFile : forall r, jsFile (deref w' r) = jsFile (deref w r);
  dk_deps : forall r, deps (deref w' r) = deps (deref w r);
  dk_csrCode : forall r,
    csrCode (deref w' r) = csrCode (deref w r) \/ csrCode (deref w' r) = None;
  dk_read : forall r b,
    In r (map_values (modules w)) ->
    sole_output X C w r = true ->
    fst (getModuleJS X C r w) = Some b ->
    exists b', fst (getModuleJS X C r w') = Some b'
               /\ same_outside_markers (deps (deref w r)) b b'
               /\ (b' <> b -> csrCode (deref w' r) = None)
}.

Arguments dk_modules {X C w w'} _.
Arguments dk_jsFile {X C w w'} _ _.
Arguments dk_deps {X C w w'} _ _.
Arguments dk_csrCode {X C w w'} _ _.
Arguments dk_read {X C w w'} _ _ _ _ _ _.

(** What one step of a compilation pass with tracing set [t] may do: the
    specifiers it hands to the transform collaborator are pairwise
    distinct, were not in the tracing set before and are in it after; the
    tracing set only grows; module objects keep their specifier, and the
    objects whose specifier already was in the tracing set keep their
    [sourceHash], their dependency list and, of a buffer they hold,
    everything outside the hash markers. *)
Record pass_step (t : nat) (w w' : World) (evs : list Event) : Prop := {
  ps_events : events w' = events w ++ evs;
  ps_nodup : NoDup (transformed evs);
  ps_fresh : forall s, In s (transformed evs) ->
                       ~ In s (set_of w t) /\ In s (set_of w' t);
  ps_tracing : incl (set_of w t) (set_of w' t);
  ps_sets : List.length (sets w') = List.length (sets w);
  ps_heap : List.length (heap w) <= List.length (heap w');
  ps_specifier : forall r, r < List.length (heap w) ->
                           specifier (deref w' r) = specifier (deref w r);
  ps_traced : forall r,
    r < List.length (heap w) ->
    In (specifier (deref w r)) (set_of w t) ->
    sourceHash (deref w' r) = sourceHash (deref w r)
    /\ deps (deref w' r) = deps (deref w r)
    /\ forall b, jsBuffer (deref w r) = Some b ->
                 exists b', jsBuffer (deref w' r) = Some b'
                            /\ same_outside_markers (deps (deref w r)) b b'
}.

Arguments ps_events {t w w' evs} _.
Arguments ps_nodup {t w w' evs} _.
Arguments ps_fresh {t w w' evs} _ _ _.
Arguments ps_tracing {t w w' evs} _ _ _.
Arguments ps_sets {t w w' evs} _.
Arguments ps_heap {t w w' evs} _.
Arguments ps_specifier {t w w' evs} _ _ _.
Arguments ps_traced {t w w' evs} _ _ _ _.

(** A step that invokes no transform, leaves the sets alone and touches
    no module object that existed before. *)
Record quiet_step (w w' : World) (evs : list Event) : Prop := {
  qs_events : events w' = events w ++ evs;
  qs_transformed : transformed evs = [];
  qs_sets : sets w' = sets w;
  qs_heap : List.length (heap w) <= List.length (heap w');
  qs_keep : forall r, r < List.length (heap w) -> deref w' r = deref w r
}.

Arguments qs_events {w w' evs} _.
Arguments qs_transformed {w w' evs} _.
Arguments qs_sets {w w' evs} _.
Arguments qs_heap {w w' evs} _.
Arguments qs_keep {w w' evs} _ _ _.

(** A step that invokes no transform, leaves the sets alone and changes
    at most the module object [r], whose specifier it keeps. *)
Record touches (r : nat) (w w' : World) (evs : list Event) : Prop := {
  tc_events : events w' = events w ++ evs;
  tc_transformed : transformed evs = [];
  tc_sets : sets w' = sets w;
  tc_heap : List.length (heap w') = List.length (heap w);
  tc_specifier : specifier (deref w' r) = specifier (deref w r);
  tc_other : forall r', r' <> r -> deref w' r' = deref w r'
}.

Arguments tc_events {r w w' evs} _.
Arguments tc_transformed {r w w' evs} _.
Arguments tc_sets {r w w' evs} _.
Arguments tc_heap {r w w' evs} _.
Arguments tc_specifier {r w w' evs} _.
Arguments tc_other {r w w' evs} _ _ _.

(** A property of the state every run of [c] ends in, relative to the
    state it started from; a run that exhausts the recursion budget of
    the model ends in no state. *)
Definition sat (A : Type) (R : World -> World -> Prop) (c : M A) : Prop :=
  forall w,
    match c w with
    | Ok _ w' => R w w'
    | Throw _ w' => R w w'
    | Stuck w' => R w w'
    | OutOfFuel => True
    end.

(** The state in which a run ended, if it ended. *)
Definition ended (A : Type) (o : Outcome A) : option World :=
  match o with
  | Ok _ w => Some w
  | Throw _ w => Some w
  | Stuck w => Some w
  | OutOfFuel => None
  end.

Arguments sat {A} R c.
Arguments ended {A} o.

(** The relations with the events left open. *)
Definition touching (r : nat) (w w' : World) : Prop := exists evs, touches r w w' evs.
Definition quietly (w w' : World) : Prop := exists evs, quiet_step w w' evs.
Definition passing (t : nat) (w w' : World) : Prop :=
  t < List.length (sets w) -> exists evs, pass_step t w w' evs.

(** A property of the state in which a run ended. *)
Definition post (A : Type) (o : Outcome A) (Q : World -> Prop) : Prop :=
  match o with
  | Ok _ w' => Q w'
  | Throw _ w' => Q w'
  | Stuck w' => Q w'
  | OutOfFuel => True
  end.

Arguments post {A} o Q.

(** What the transform branch of [#transpileModule] does for module [r]
    with specifier [s]: at most one transform, of [s], and no change to
    any other module object. *)
Definition transforming (r : nat) (s : string) (w w' : World) : Prop :=
  exists evs,
    events w' = events w ++ evs
    /\ (transformed evs = [] \/ transformed evs = [s])
    /\ sets w' = sets w
    /\ List.length (heap w') = List.length (heap w)
    /\ specifier (deref w' r) = specifier (deref w r)
    /\ forall r', r' <> r -> deref w' r' = deref w r'.


(** The states of the caller that created the module [r] for [s]. *)
Definition leader_ok (r : nat) (s : string) (task : Task) : Prop :=
  match task with
  | TLoading r' _ s' _ => r' = r /\ s' = s
  | TInited r' _ | TDone r' => r' = r
  | TFailed _ | TBlocked => True
  | TStart | TWaiting _ => False
  end.

(** The states of a caller that found [r] in the registry. *)
Definition follower_ok (r : nat) (task : Task) : Prop :=
  match task with
  | TWaiting r' | TDone r' => r' = r
  | TInited r' source => r' = r /\ source = None
  | TFailed _ | TBlocked => True
  | TStart | TLoading _ _ _ _ => False
  end.

(** The creator has not run [#transpileModule] yet. *)
Definition leader_pending (task : Task) : bool :=
  match task with
  | TLoading _ _ _ _ | TInited _ _ => true
  | _ => false
  end.

(** How often [s] was handed to the transform collaborator. *)
Definition transforms_of (s : string) (evs : list Event) : nat :=
  count_occ string_dec (transformed evs) s.

(** The invariant of [n] concurrent calls for [s] once all are issued:
    every caller holds the one module object [r]; only its creator may
    hold a source; [s] was transformed at most once, and not at all
    while the creator has not transpiled. *)
Definition flight (r : nat) (s : string) (w : World) (st : list Task * World)
    : Prop :=
  exists leader followers evs,
    fst st = leader :: followers
    /\ leader_ok r s leader
    /\ Forall (follower_ok r) followers
    /\ r < List.length (heap (snd st))
    /\ specifier (deref (snd st) r) = s
    /\ events (snd st) = events w ++ evs
    /\ transforms_of s evs <= (if leader_pending leader then 0 else 1).

(** The specifiers [lookupDeps] can expand in [w]: what [getModule]
    knows. *)
Definition lookup_universe (w : World) : list string :=
  "app" :: map_keys (modules w).

(** How many of them a tracing set has not seen. *)
Definition untraced (w : World) (tracing : list string) : nat :=
  List.length (filter (fun k => negb (set_has k tracing)) (lookup_universe w)).

(** The dependency [d] carries a marker of the module with specifier [s]:
    the test of line 1429. *)
Definition embeds (s : string) (d : DependencyDescriptor) : bool :=
  match dep_hashLoc d with
  | Some _ => String.eqb (dep_specifier d) s
  | None => false
  end.

(** No registered module carries a marker of the module [by_]. *)
Definition no_dependents (w : World) (by_ : nat) : bool :=
  forallb (fun r => forallb (fun d => negb (embeds (specifier (deref w by_)) d))
                      (deps (deref w r)))
    (map_values (modules w)).

(** One of the modules named in [ss] uses Deno hooks itself. *)
Definition own_hooks (w : World) (ss : list string) : bool :=
  existsb (fun s => match getModule w s with
                    | Some r => has_hooks (deref w r)
                    | None => false
                    end) ss.

(** The registry is well formed: every entry names a module object that
    exists and whose [specifier] is the key. *)
Definition registry_ok (w : World) : Prop :=
  forall s r, map_get s (modules w) = Some r ->
              r < List.length (heap w) /\ specifier (deref w r) = s.

(** A step that keeps the module objects there are and their
    specifiers, and whose registry holds entries of before or entries
    for module objects it created under their own specifier. *)
Record grows (w w' : World) : Prop := {
  g_heap : List.length (heap w) <= List.length (heap w');
  g_specifier : forall r, r < List.length (heap w) ->
                          specifier (deref w' r) = specifier (deref w r);
  g_modules : forall s r,
    map_get s (modules w') = Some r ->
    map_get s (modules w) = Some r
    \/ (List.length (heap w) <= r /\ r < List.length (heap w')
        /\ specifier (deref w' r) = s)
}.

Arguments g_heap {w w'} _.
Arguments g_specifier {w w'} _ _ _.
Arguments g_modules {w w'} _ _ _ _.

(** Two states with the same dependency graph: the same registry and
    app module, and in every module object the same specifier,
    dependency list and source hash. *)
Definition same_graph (w w' : World) : Prop :=
  modules w' = modules w
  /\ appModule w' = appModule w
  /\ (forall r, specifier (deref w' r) = specifier (deref w r))
  /\ (forall r, deps (deref w' r) = deps (deref w r))
  /\ (forall r, sourceHash (deref w' r) = sourceHash (deref w r)).

(** The six bytes a marker of the module object [t] should hold. *)
Definition hash6 (X : Ext) (w : World) (t : nat) : bytes :=
  encode (substr06 (computeModuleHash X w t)).

(** The marker [d] of the module [r] is stale: the module holds its
    bytes, the marker names a registered module, and its window does not
    hold that module's hash. *)
Definition stale_dep (X : Ext) (w : World) (r : nat) (d : DependencyDescriptor)
    : bool :=
  match dep_hashLoc d, jsBuffer (deref w r),
        map_get (dep_specifier d) (modules w) with
  | Some l, Some b, Some t => negb (equals (hash6 X w t) (slice b l (l + 6)))
  | _, _, _ => false
  end.

(** The number of stale markers, of one module and of the registry. *)
Definition stale_in (X : Ext) (w : World) (r : nat) : nat :=
  List.length (filter (stale_dep X w r) (deps (deref w r))).

Definition stale (X : Ext) (w : World) : nat :=
  list_sum (List.map (stale_in X w) (map_values (modules w))).

(** Two markers of one module do not overlap, unless they are the same
    marker listed twice. *)
Definition windows_apart (d1 d2 : DependencyDescriptor) : bool :=
  match dep_hashLoc d1, dep_hashLoc d2 with
  | Some l1, Some l2 =>
      (l1 + 6 <=? l2)%Z || (l2 + 6 <=? l1)%Z
      || ((l1 =? l2)%Z && String.eqb (dep_specifier d1) (dep_specifier d2))
  | _, _ => true
  end.

(** The window of the marker [d] lies inside the bytes the module holds. *)
Definition window_inside (m : Mod) (d : DependencyDescriptor) : bool :=
  match dep_hashLoc d with
  | Some l =>
      match jsBuffer m with
      | Some b => (0 <=? l)%Z && (l + 6 <=? Z.of_nat (List.length b))%Z
      | None => false
      end
  | None => true
  end.

Definition markers_ok (m : Mod) : bool :=
  forallb (window_inside m) (deps m)
  && forallb (fun d1 => forallb (windows_apart d1) (deps m)) (deps m).

(** The module object [r] is the one registered under its specifier. *)
Definition registered (w : World) (r : nat) : bool :=
  match map_get (specifier (deref w r)) (modules w) with
  | Some r' => Nat.eqb r' r
  | None => false
  end.

(** What a cascade needs to end: every registered module holds the
    bytes its markers lie in, its markers do not overlap, it is
    registered under its own specifier, and its aggregate hash has the
    six characters a marker takes. *)
Definition cascade_ready (X : Ext) (w : World) : bool :=
  forallb (fun r => markers_ok (deref w r)
                    && registered w r
                    && Nat.leb 6 (String.length (computeModuleHash X w r)))
    (map_values (modules w)).

(** The state after [#replaceDepHash] wrote the bytes [b] into the
    module [r]. *)
Definition patched_world (r : nat) (b : bytes) (w : World) : World :=
  mutate r (with_csrCode None) (mutate r (with_jsBuffer (Some b)) w).

(** The events a run sent to the file-system watch listeners. *)
Definition modify_notices (out : list Notice) : list Notice :=
  filter (fun n => match n with FsModify _ _ => true | _ => false end) out.

(** What [#isHMRable] reads of the state is unchanged: the registry and
    the [isStyle] property of every module object. *)
Definition hmr_frame (w w' : World) : Prop :=
  modules w' = modules w
  /\ forall r, isStyle (deref w' r) = isStyle (deref w r).

(** ** Judgements on calls in flight

    A call holds tokens, rights that no other call in flight holds.
    [GI O w] is what holds of the state [w] when the calls in flight
    hold, together, the tokens [O]; [later] is what any piece of code of
    any call may do to the state, and an assertion on the state that a
    call relies on has to be stable under it.  [stall_ok w] is what
    holds of a state in which a call is out of recursion budget. *)
Section CallLogic.
Variable Tok : Type.
Variable later : World -> World -> Prop.
Variable GI : list Tok -> World -> Prop.
Variable stall_ok : World -> Prop.

Definition stable (L : World -> Prop) : Prop :=
  forall w w', L w -> later w w' -> L w'.

(** What holds when a call returns, or rejects: of its result, of the
    assertion it can rely on, and of the tokens it is left with. *)
Definition Post (A : Type) : Type := A -> (World -> Prop) -> list Tok -> Prop.
Definition Catch : Type := (World -> Prop) -> list Tok -> Prop.

Definition any_post (A : Type) : Post A := fun _ _ _ => True.
Definition any_catch : Catch := fun _ _ => True.

(** [safe p L O Q E]: started in a state of which [L] holds, by a call
    that holds [O], every piece of synchronous code of [p] is a [later]
    step that keeps [GI], whatever the other calls hold ([rest]), and
    leaves the call with some tokens [O']; the tasks and the calls it
    starts hold nothing at first; it returns with [Q] and rejects with
    [E]. *)
Fixpoint safe (A : Type) (p : Proc A) (L : World -> Prop) (O : list Tok)
    (Q : Post A) (E : Catch) {struct p} : Prop :=
  match p with
  | Ret a => Q a L O
  | Fail _ => E L O
  | Stall => forall w rest, L w -> GI (O ++ rest) w -> stall_ok w
  | Do f =>
      forall w rest, L w -> GI (O ++ rest) w ->
        exists (L' : World -> Prop) (O' : list Tok),
          later w (fst (f w))
          /\ GI (O' ++ rest) (fst (f w))
          /\ stable L' /\ L' (fst (f w))
          /\ safe A (snd (f w)) L' O' Q E
  | Await k => safe A k L O Q E
  | Wait _ k => safe A k L O Q E
  | All ps k h =>
      (fix tasks (ps : list (Proc bool)) : Prop :=
         match ps with
         | [] => True
         | q :: qs => safe bool q L [] (any_post bool) any_catch /\ tasks qs
         end) ps
      /\ (forall vs, safe A (k vs) L O Q E)
      /\ (forall msg, safe A (h msg) L O Q E)
  | Spawn q k => safe bool q L [] (any_post bool) any_catch /\ safe A k L O Q E
  end.

(** [live p w O Q E]: the suspended call [p], whose tree of tasks holds
    the tokens [O], is safe to resume in [w] and in every later state. *)
Fixpoint live (A : Type) (p : Proc A) (w : World) (O : list Tok)
    (Q : Post A) (E : Catch) {struct p} : Prop :=
  match p with
  | All ps k h =>
      exists (Os : list (list Tok)) (Ok : list Tok) (L : World -> Prop),
        O = (List.concat Os ++ Ok)%list
        /\ (fix tasks (ps : list (Proc bool)) (Os : list (list Tok)) : Prop :=
              match ps, Os with
              | [], [] => True
              | q :: qs, o :: os =>
                  live bool q w o (any_post bool) any_catch /\ tasks qs os
              | _, _ => False
              end) ps Os
        /\ L w /\ stable L
        /\ (forall vs, safe A (k vs) L Ok Q E)
        /\ (forall msg, safe A (h msg) L Ok Q E)
  | _ => exists L, L w /\ stable L /\ safe A p L O Q E
  end.

(** The calls [ps] are live, holding the tokens [Os] in this order. *)
Fixpoint lives (A : Type) (ps : list (Proc A)) (w : World) (Os : list (list Tok))
    (Q : Post A) : Prop :=
  match ps, Os with
  | [], [] => True
  | p :: ps', o :: os => live A p w o Q any_catch /\ lives A ps' w os Q
  | _, _ => False
  end.

(** Running [p], and resuming a call in the tree of [p], keeps the calls
    live and [GI]. *)
Definition run_ok (A : Type) (p : Proc A) : Prop :=
  forall (L : World -> Prop) (O : list Tok) (Q : Post A) (E : Catch)
         (w : World) (rest : list Tok),
    stable L -> L w -> safe A p L O Q E -> GI (O ++ rest) w ->
    exists (O' : list Tok) (Oo : list (list Tok)),
      live A (snd (fst (run p w))) (fst (fst (run p w))) O' Q E
      /\ lives bool (snd (run p w)) (fst (fst (run p w))) Oo (any_post bool)
      /\ GI (O' ++ List.concat Oo ++ rest) (fst (fst (run p w)))
      /\ later w (fst (fst (run p w))).

Definition resume_ok (A : Type) (p : Proc A) : Prop :=
  forall (path : list nat) (w : World) (O : list Tok) (Q : Post A) (E : Catch)
         (rest : list Tok) (w' : World) (p' : Proc A) (o : list (Proc bool)),
    live A p w O Q E -> GI (O ++ rest) w ->
    resume path p w = Some (w', p', o) ->
    exists (O' : list Tok) (Oo : list (list Tok)),
      live A p' w' O' Q E
      /\ lives bool o w' Oo (any_post bool)
      /\ GI (O' ++ List.concat Oo ++ rest) w'
      /\ later w w'.

(** The calls in flight are live and hold, together, tokens of which
    [GI] holds in the state. *)
Definition flight_ok (A : Type) (Q : Post A) (cfg : InFlight A) : Prop :=
  exists (Oc Ol : list (list Tok)),
    lives A (callers cfg) (now cfg) Oc Q
    /\ lives bool (loose cfg) (now cfg) Ol (any_post bool)
    /\ GI (List.concat Oc ++ List.concat Ol) (now cfg).

End CallLogic.

(** A call that is out of recursion budget, in the tree of [p]. *)
Fixpoint stalled (A : Type) (p : Proc A) {struct p} : bool :=
  match p with
  | Stall => true
  | All ps _ _ =>
      (fix any (ps : list (Proc bool)) : bool :=
         match ps with
         | [] => false
         | q :: qs => stalled bool q || any qs
         end) ps
  | _ => false
  end.

Definition stalled_flight (A : Type) (cfg : InFlight A) : bool :=
  existsb (@stalled A) (callers cfg) || existsb (@stalled bool) (loose cfg).

(** * Properties *)

(** ** Heap and registry primitives *)

Lemma length_list_update (A : Type) (i : nat) (f : A -> A) (l : list A) :
  List.length (list_update i f l) = List.length l.
Proof.
  revert i; induction l as [|x l IH]; intros [|i]; simpl; auto.
Qed.

Lemma nth_list_update_same (A : Type) (i : nat) (f : A -> A) (l : list A) (d : A) :
  i < List.length l -> nth i (list_update i f l) d = f (nth i l d).
Proof.
  revert i; induction l as [|x l IH]; intros [|i] H; simpl in *; try lia; auto.
  apply IH; lia.
Qed.

Lemma nth_list_update_other (A : Type) (i j : nat) (f : A -> A) (l : list A) (d : A) :
  i <> j -> nth j (list_update i f l) d = nth j l d.
Proof.
  revert i j; induction l as [|x l IH]; intros [|i] [|j] H; simpl; auto; try lia.
Qed.

Lemma list_update_out (A : Type) (i : nat) (f : A -> A) (l : list A) :
  List.length l <= i -> list_update i f l = l.
Proof.
  revert i; induction l as [|x l IH]; intros [|i] H; simpl in *; auto; try lia.
  f_equal; apply IH; lia.
Qed.

Lemma deref_mutate_same (r : nat) (f : Mod -> Mod) (w : World) :
  r < List.length (heap w) -> deref (mutate r f w) r = f (deref w r).
Proof. intros H; unfold deref, mutate; simpl; now apply nth_list_update_same. Qed.

Lemma deref_mutate_other (r r' : nat) (f : Mod -> Mod) (w : World) :
  r <> r' -> deref (mutate r f w) r' = deref w r'.
Proof. intros H; unfold deref, mutate; simpl; now apply nth_list_update_other. Qed.

Lemma mutate_out (r : nat) (f : Mod -> Mod) (w : World) :
  List.length (heap w) <= r -> heap (mutate r f w) = heap w.
Proof. intros H; unfold mutate; simpl; now apply list_update_out. Qed.

(** A field that the update [f] keeps is kept by [mutate r f] in every
    object. *)
Lemma deref_mutate_field (A : Type) (field : Mod -> A) (r r' : nat)
    (f : Mod -> Mod) (w : World) :
  (forall m, field (f m) = field m) ->
  field (deref (mutate r f w) r') = field (deref w r').
Proof.
  intros Hf. destruct (Nat.eq_dec r r') as [->|Hne].
  - destruct (Nat.lt_ge_cases r' (List.length (heap w))) as [Hlt|Hge].
    + rewrite deref_mutate_same by assumption. apply Hf.
    + unfold deref. now rewrite mutate_out.
  - now rewrite deref_mutate_other.
Qed.

Lemma deref_alloc_old (m : Mod) (w : World) (r : nat) :
  r < List.length (heap w) -> deref (snd (alloc m w)) r = deref w r.
Proof. intros H; unfold deref, alloc; simpl. now rewrite app_nth1. Qed.

Lemma deref_alloc_new (m : Mod) (w : World) :
  deref (snd (alloc m w)) (List.length (heap w)) = m.
Proof.
  unfold deref, alloc; simpl. rewrite app_nth2 by lia.
  now rewrite Nat.sub_diag.
Qed.

Lemma map_get_set_same (V : Type) (k : string) (v : V) (m : JsMap V) :
  map_get k (map_set k v m) = Some v.
Proof.
  induction m as [|[k' v'] m IH]; simpl.
  - now rewrite String.eqb_refl.
  - destruct (String.eqb k k') eqn:E; simpl.
    + now rewrite String.eqb_refl.
    + now rewrite E.
Qed.

Lemma map_get_set_other (V : Type) (k k' : string) (v : V) (m : JsMap V) :
  k <> k' -> map_get k' (map_set k v m) = map_get k' m.
Proof.
  intros Hne. induction m as [|[k0 v0] m IH]; simpl.
  - destruct (String.eqb k' k) eqn:E; auto.
    apply String.eqb_eq in E; congruence.
  - destruct (String.eqb k k0) eqn:E; simpl.
    + apply String.eqb_eq in E; subst k0.
      destruct (String.eqb k' k) eqn:E'; auto.
      apply String.eqb_eq in E'; congruence.
    + destruct (String.eqb k' k0); auto.
Qed.

Lemma map_get_delete_same (V : Type) (k : string) (m : JsMap V) :
  map_get k (map_delete k m) = None.
Proof.
  induction m as [|[k' v'] m IH]; simpl; auto.
  destruct (String.eqb k k') eqn:E; simpl; auto. now rewrite E.
Qed.

Lemma map_get_delete_other (V : Type) (k k' : string) (m : JsMap V) :
  k <> k' -> map_get k' (map_delete k m) = map_get k' m.
Proof.
  intros Hne. induction m as [|[k0 v0] m IH]; simpl; auto.
  destruct (String.eqb k k0) eqn:E; simpl.
  - apply String.eqb_eq in E; subst k0.
    destruct (String.eqb k' k) eqn:E'; auto.
    apply String.eqb_eq in E'; congruence.
  - destruct (String.eqb k' k0); auto.
Qed.

(** ** The resolver chain *)

Lemma run_resolvers_first_match (pre post : list ResolveListener)
    (l : ResolveListener) (s0 : string) :
  (forall l', In l' pre -> r_test l' s0 = false) ->
  r_test l s0 = true ->
  run_resolvers (pre ++ l :: post) s0
  = (resolved_specifier l s0, rr_external (r_resolve l s0), rr_data (r_resolve l s0)).
Proof.
  intros Hpre Hl. induction pre as [|p pre IH]; simpl.
  - now rewrite Hl.
  - rewrite (Hpre p) by now left. apply IH. intros l' Hin. apply Hpre. now right.
Qed.

(** ** [#initModule]: loading, failures and the sidecar *)

Section InitModule.
Variable X : Ext.
Variable C : Config.

(** [load_and_hash] is [load_result] with the state threaded through:
    the Loader is recorded when there is no custom source, the stored
    hash is compared and replaced. *)
Lemma load_and_hash_spec (r : nat) (s : string) (data : option string)
    (customSource : option ModuleSource) (w : World) :
  let w0 := match customSource with
            | Some _ => w
            | None => emit (EvLoad s) w
            end in
  load_and_hash X C r s data customSource w =
  match load_result X C s data customSource with
  | Raises msg => Throw msg w0
  | Returns (src, h) =>
      if String.eqb (sourceHash (deref w0 r)) h then Ok None w0
      else Ok (Some src) (mutate r (with_sourceHash h) w0)
  end.
Proof.
  unfold load_and_hash, load_result, source_result, resolveModuleSource, bind,
    modify, call, ret, throw.
  destruct customSource as [src|]; simpl.
  - destruct (computeSourceHash X C s src); reflexivity.
  - destruct (find_loader C s) as [loader|].
    + destruct (l_load loader s data) as [out|msg]; simpl; auto.
      destruct (computeSourceHash X C s _); reflexivity.
    + destruct (fetchModule X s) as [[content ct]|msg]; simpl; auto.
      destruct (computeSourceHash X C s _); reflexivity.
Qed.

Lemma restore_meta_corrupt (r : nat) (s path : string) (w : World) (f : MetaFile) :
  map_get path (metaFiles w) = Some f ->
  corrupt_sidecar s f ->
  heap (restore_meta X r s path w) = heap w
  /\ modules (restore_meta X r s path w) = modules w
  /\ sessionStorage (restore_meta X r s path w) = sessionStorage w
  /\ jsFiles (restore_meta X r s path w) = jsFiles w
  /\ match f with
     | MetaValue _ => map_get path (metaFiles (restore_meta X r s path w)) = None
     | _ => metaFiles (restore_meta X r s path w) = metaFiles w
     end.
Proof.
  intros Hget Hc. unfold restore_meta. rewrite Hget.
  destruct Hc as [| |meta Hbad]; auto.
  rewrite Hbad. simpl. repeat split; auto. apply map_get_delete_same.
Qed.

Lemma events_mutate (r : nat) (f : Mod -> Mod) (w : World) :
  events (mutate r f w) = events w.
Proof. reflexivity. Qed.

Lemma defer_events (r : nat) (isNew : bool) (s : string) (err : option string)
    (w : World) :
  events (defer r isNew s err w)
  = events w ++ match err with Some msg => [EvLogError msg] | None => [] end.
Proof.
  unfold defer. destruct err as [msg|]; simpl.
  - destruct isNew; reflexivity.
  - now rewrite app_nil_r.
Qed.

Lemma defer_metaFiles (r : nat) (isNew : bool) (s : string) (err : option string)
    (w : World) :
  metaFiles (defer r isNew s err w) = metaFiles w.
Proof. unfold defer. destruct err; simpl; auto. destruct isNew; reflexivity. Qed.

Lemma defer_modules (r : nat) (isNew : bool) (s : string) (err : option string)
    (w : World) :
  modules (defer r isNew s err w)
  = match err, isNew with
    | Some _, true => map_delete s (modules w)
    | _, _ => modules w
    end.
Proof. unfold defer. destruct err; simpl; auto. destruct isNew; reflexivity. Qed.

Lemma defer_heap_length (r : nat) (isNew : bool) (s : string) (err : option string)
    (w : World) :
  List.length (heap (defer r isNew s err w)) = List.length (heap w).
Proof.
  unfold defer, mutate. simpl. rewrite length_list_update.
  destruct err; simpl; auto. destruct isNew; reflexivity.
Qed.

Lemma defer_ready (r : nat) (isNew : bool) (s : string) (err : option string)
    (w : World) :
  r < List.length (heap w) -> ready (deref (defer r isNew s err w) r) = Resolved.
Proof.
  intros H. unfold defer. rewrite deref_mutate_same; [reflexivity|].
  destruct err; simpl; auto. destruct isNew; simpl; auto.
Qed.

Lemma defer_deref_other (r r' : nat) (isNew : bool) (s : string)
    (err : option string) (w : World) :
  r <> r' -> deref (defer r isNew s err w) r' = deref w r'.
Proof.
  intros H. unfold defer. rewrite deref_mutate_other by assumption.
  destruct err; simpl; auto. destruct isNew; reflexivity.
Qed.

End InitModule.

(** C10: for every specifier whose extension maps to no known source
    type, [addModule] throws the error "addModule: unknown source type"
    before it creates, compiles or registers anything: the state of the
    instance (registry and both routing tables included) is the one it
    was called in. *)
Theorem addModule_unknown_source_type :
  forall (X : Ext) (C : Config) (exts : list string)
         (toPagePath : string -> string) (fuel : nat) (s sourceCode : string)
         (forceRefresh : bool) (w : World),
    getSourceType X s None = Unknown ->
    addModule X C exts toPagePath fuel s sourceCode forceRefresh w
    = Throw "addModule: unknown source type" w.
Proof.
  intros X C exts toPagePath fuel s sourceCode forceRefresh w H.
  unfold addModule. rewrite H. reflexivity.
Qed.

Lemma addModule_unknown_source_type_witness :
  getSourceType single_ext "/readme.md" None = Unknown
  /\ addModule single_ext plain_config Std.builtinModuleExts (fun s => s) 10
       "/readme.md" "# readme" false empty_world
     = Throw "addModule: unknown source type" empty_world.
Proof.
  split; [reflexivity|].
  apply (addModule_unknown_source_type single_ext plain_config
           Std.builtinModuleExts (fun s => s) 10 "/readme.md" "# readme" false
           empty_world).
  reflexivity.
Defined.

(** C7, as the specification states it, fails: the external module that
    [#initModule] returns is not put in the registry. *)
Lemma initModule_external_not_registered :
  exists r w',
    initModule single_ext external_config "https://esm.sh/react"
      default_options empty_world = Ok (r, None) w'
    /\ external (deref w' r) = true
    /\ getModule w' "https://esm.sh/react" = None
    /\ modules w' = [].
Proof.
  eexists; eexists. split; [vm_compute; reflexivity|].
  repeat split.
Qed.

(** C7 (amended): when the first resolver listener, in registration order,
    whose test matches the specifier resolves it as external, [#initModule]
    returns a new module object that is external, ready at once, without
    dependencies, with an empty [sourceHash] and no compiled bytes, and
    returns [source = null]; the object is not put in the registry, and
    neither the Loader nor the transform collaborator is invoked:
    [compile] ends in the same state as [#initModule]. *)
Theorem initModule_external :
  forall (X : Ext) (C : Config) (s0 : string) (o : CompileOptions) (w : World)
         (pre post : list ResolveListener) (l : ResolveListener),
    opt_source o = None ->
    resolverListeners C = pre ++ l :: post ->
    (forall l', In l' pre -> r_test l' s0 = false) ->
    r_test l s0 = true ->
    rr_external (r_resolve l s0) = true ->
    let r := List.length (heap w) in
    let w' := with_heap (heap w ++ [external_module (resolved_specifier l s0)]) w in
    initModule X C s0 o w = Ok (r, None) w'
    /\ (forall fuel, compile X C fuel s0 o w = Ok r w')
    /\ specifier (deref w' r) = resolved_specifier l s0
    /\ external (deref w' r) = true
    /\ ready (deref w' r) = Resolved
    /\ deps (deref w' r) = []
    /\ sourceHash (deref w' r) = ""
    /\ jsBuffer (deref w' r) = None
    /\ modules w' = modules w
    /\ events w' = events w.
Proof.
  intros X C s0 o w pre post l Hsrc Hls Hpre Hl Hext r w'.
  assert (Hinit : initModule X C s0 o w = Ok (r, None) w').
  { unfold initModule, initModule_enter, resolve_specifier.
    rewrite Hsrc, Hls, (run_resolvers_first_match pre post l s0 Hpre Hl), Hext.
    reflexivity. }
  assert (Hd : deref w' r = external_module (resolved_specifier l s0)).
  { apply (deref_alloc_new (external_module (resolved_specifier l s0)) w). }
  split; [exact Hinit|].
  split.
  { intros fuel. unfold compile, compile_pass, bind. rewrite Hinit.
    rewrite Hd. reflexivity. }
  rewrite Hd. repeat split.
Qed.

Lemma initModule_external_witness :
  let w' := with_heap [external_module "https://esm.sh/react"] empty_world in
  initModule single_ext external_config "https://esm.sh/react"
    default_options empty_world = Ok (0, None) w'
  /\ (forall fuel, compile single_ext external_config fuel "https://esm.sh/react"
                     default_options empty_world = Ok 0 w')
  /\ specifier (deref w' 0) = "https://esm.sh/react"
  /\ external (deref w' 0) = true
  /\ ready (deref w' 0) = Resolved
  /\ deps (deref w' 0) = []
  /\ sourceHash (deref w' 0) = ""
  /\ jsBuffer (deref w' 0) = None
  /\ modules w' = modules empty_world
  /\ events w' = events empty_world.
Proof.
  apply (initModule_external single_ext external_config "https://esm.sh/react"
           default_options empty_world [] [] external_resolver).
  - reflexivity.
  - reflexivity.
  - intros l' [].
  - reflexivity.
  - reflexivity.
Defined.

(** C8, as the specification states it, fails for a sidecar that
    [JSON.parse] rejects: the error is swallowed by an empty [catch] and
    the file stays in the build directory. *)
Lemma unparsable_sidecar_is_kept :
  exists r src w',
    initModule single_ext plain_config "/a.ts" default_options
      corrupt_sidecar_world = Ok (r, src) w'
    /\ map_get a_meta_path (metaFiles corrupt_sidecar_world) = Some MetaUnparsable
    /\ map_get a_meta_path (metaFiles w') = Some MetaUnparsable.
Proof.
  eexists; eexists; eexists. split; [vm_compute; reflexivity|].
  split; reflexivity.
Qed.

(** C8 (amended): when [#initModule] reads the sidecar of a module it has
    just created (no forced refresh, not a virtual module) and the sidecar
    is corrupt or inconsistent (unparsable, [null], specifier mismatch,
    [sourceHash] absent or not a non-empty string, [deps] not a list), it is
    a cache miss: nothing of it is merged into any module, a fresh load
    proceeds (the Loader is invoked unless a custom source was given), and
    [#initModule] returns normally.  The sidecar is removed when it parsed
    to a value of the wrong shape; a sidecar that [JSON.parse] rejects (or
    that is [null]) is left in place. *)
Theorem corrupt_sidecar_is_cache_miss :
  forall (X : Ext) (C : Config) (r : nat) (isNew : bool) (s : string)
         (data : option string) (o : CompileOptions) (w : World) (f : MetaFile),
    opt_forceRefresh o = false ->
    opt_virtual o = false ->
    map_get (metaFilePath_for X C s) (metaFiles w) = Some f ->
    corrupt_sidecar s f ->
    sourceHash (deref w r) = "" ->
    let w1 := restore_meta X r s (metaFilePath_for X C s) w in
    heap w1 = heap w
    /\ match f with
       | MetaValue _ => map_get (metaFilePath_for X C s) (metaFiles w1) = None
       | _ => metaFiles w1 = metaFiles w
       end
    /\ exists src w',
         initModule_load X C r isNew s data o w = Ok (r, src) w'
         /\ metaFiles w' = metaFiles w1
         /\ (opt_source o = None -> In (EvLoad s) (events w')).
Proof.
  intros X C r isNew s data o w f Hfr Hvirt Hget Hc Hhash w1.
  destruct (restore_meta_corrupt X r s (metaFilePath_for X C s) w f Hget Hc)
    as (Hheap & Hmods & Hsess & Hjs & Hmeta).
  fold w1 in Hheap, Hmods, Hsess, Hjs, Hmeta.
  split; [exact Hheap|]. split; [exact Hmeta|].
  unfold initModule_load. rewrite Hfr, Hvirt. fold w1.
  assert (Hreq : load_required X C r s w1 = true).
  { unfold load_required.
    replace (sourceHash (deref w1 r)) with "".
    - simpl. now rewrite orb_true_r.
    - unfold deref. rewrite Hheap. symmetry. exact Hhash. }
  rewrite Hreq. rewrite load_and_hash_spec.
  set (w2 := if reload C && negb (set_has ("init:" ++ s) (sessionStorage w1))
             then with_sessionStorage
                    (set_add ("init:" ++ s)%string (sessionStorage w1)) w1
             else w1).
  assert (Hw2m : metaFiles w2 = metaFiles w1).
  { unfold w2. destruct (reload C && _); reflexivity. }
  set (w0 := match opt_source o with Some _ => w2 | None => emit (EvLoad s) w2 end).
  assert (Hw0m : metaFiles w0 = metaFiles w1).
  { unfold w0. destruct (opt_source o); simpl; exact Hw2m. }
  assert (Hw0e : opt_source o = None -> In (EvLoad s) (events w0)).
  { intros Ho. unfold w0. rewrite Ho. simpl. apply in_or_app. right. now left. }
  destruct (load_result X C s data (opt_source o)) as [[src h]|msg].
  - destruct (String.eqb (sourceHash (deref w0 r)) h).
    + eexists; eexists. split; [reflexivity|]. split.
      * now rewrite defer_metaFiles.
      * intros Ho. rewrite defer_events. apply in_or_app. left. auto.
    + eexists; eexists. split; [reflexivity|]. split.
      * now rewrite defer_metaFiles.
      * intros Ho. rewrite defer_events. apply in_or_app. left.
        rewrite events_mutate. auto.
  - eexists; eexists. split; [reflexivity|]. split.
    + now rewrite defer_metaFiles.
    + intros Ho. rewrite defer_events. apply in_or_app. left. auto.
Qed.

Lemma corrupt_sidecar_is_cache_miss_witness :
  let w := snd (publish single_ext "/a.ts" default_options corrupt_sidecar_world) in
  let w1 := restore_meta single_ext 0 "/a.ts"
              (metaFilePath_for single_ext plain_config "/a.ts") w in
  heap w1 = heap w
  /\ metaFiles w1 = metaFiles w
  /\ exists src w',
       initModule_load single_ext plain_config 0 true "/a.ts" None
         default_options w = Ok (0, src) w'
       /\ metaFiles w' = metaFiles w1
       /\ (opt_source default_options = None -> In (EvLoad "/a.ts") (events w')).
Proof.
  apply (corrupt_sidecar_is_cache_miss single_ext plain_config 0 true "/a.ts" None
           default_options
           (snd (publish single_ext "/a.ts" default_options corrupt_sidecar_world))
           MetaUnparsable).
  - reflexivity.
  - reflexivity.
  - reflexivity.
  - constructor.
  - reflexivity.
Defined.

Section InitFailure.
Variable X : Ext.
Variable C : Config.

Lemma publish_ref (s : string) (o : CompileOptions) (w : World) :
  fst (publish X s o w) = List.length (heap w).
Proof. unfold publish, alloc. simpl. reflexivity. Qed.

Lemma publish_heap (s : string) (o : CompileOptions) (w : World) :
  heap (snd (publish X s o w))
  = heap w ++ [fresh_module s (opt_httpExternal o) (jsFile_of X s)].
Proof.
  unfold publish, alloc. simpl.
  destruct (String.eqb (trimBuiltinModuleExts X s) "/app"); reflexivity.
Qed.

Lemma publish_modules (s : string) (o : CompileOptions) (w : World) :
  modules (snd (publish X s o w)) = map_set s (List.length (heap w)) (modules w).
Proof.
  unfold publish, alloc. simpl.
  destruct (String.eqb (trimBuiltinModuleExts X s) "/app"); reflexivity.
Qed.

Lemma publish_events (s : string) (o : CompileOptions) (w : World) :
  events (snd (publish X s o w)) = events w.
Proof.
  unfold publish, alloc. simpl.
  destruct (String.eqb (trimBuiltinModuleExts X s) "/app"); reflexivity.
Qed.

Lemma publish_eta (s : string) (o : CompileOptions) (w : World) :
  publish X s o w = (List.length (heap w), snd (publish X s o w)).
Proof. unfold publish, alloc. reflexivity. Qed.

Lemma restore_meta_modules (r : nat) (s path : string) (w : World) :
  modules (restore_meta X r s path w) = modules w.
Proof.
  unfold restore_meta. destruct (map_get path (metaFiles w)) as [[| |meta]|]; auto.
  destruct (meta_is_valid s meta); reflexivity.
Qed.

Lemma restore_meta_heap_length (r : nat) (s path : string) (w : World) :
  List.length (heap (restore_meta X r s path w)) = List.length (heap w).
Proof.
  unfold restore_meta. destruct (map_get path (metaFiles w)) as [[| |meta]|]; auto.
  destruct (meta_is_valid s meta); simpl; auto. apply length_list_update.
Qed.

Lemma restore_meta_deref_other (r r' : nat) (s path : string) (w : World) :
  r <> r' -> deref (restore_meta X r s path w) r' = deref w r'.
Proof.
  intros H. unfold restore_meta.
  destruct (map_get path (metaFiles w)) as [[| |meta]|]; auto.
  destruct (meta_is_valid s meta); simpl; auto.
  now apply deref_mutate_other.
Qed.

Lemma last_event_snoc (w : World) (evs : list Event) (e : Event) :
  events w = evs ++ [e] -> last_event w = Some e.
Proof.
  intros H. unfold last_event. rewrite H, map_app. simpl.
  apply last_last.
Qed.

(** A failed load after the module was published: the error is logged,
    [ready] resolves, a new module leaves the registry and a replaced
    one stays. *)
Lemma initModule_load_failure (r : nat) (isNew : bool) (s : string)
    (data : option string) (o : CompileOptions) (w : World) (msg : string) :
  opt_virtual o = false ->
  let w1 := if opt_forceRefresh o then w
            else restore_meta X r s (metaFilePath_for X C s) w in
  load_required X C r s w1 = true ->
  load_result X C s data (opt_source o) = Raises msg ->
  r < List.length (heap w) ->
  exists w',
    initModule_load X C r isNew s data o w = Ok (r, None) w'
    /\ ready (deref w' r) = Resolved
    /\ last_event w' = Some (EvLogError msg)
    /\ modules w' = (if isNew then map_delete s (modules w) else modules w)
    /\ (forall r', r <> r' -> deref w' r' = deref w r')
    /\ (opt_forceRefresh o = true ->
        forall m, deref w r = m ->
        deref w' r = with_ready Resolved m).
Proof.
  intros Hvirt w1 Hreq Hload Hr.
  unfold initModule_load. rewrite Hvirt. fold w1. rewrite Hreq.
  rewrite load_and_hash_spec, Hload.
  set (w2 := if reload C && negb (set_has ("init:" ++ s) (sessionStorage w1))
             then with_sessionStorage
                    (set_add ("init:" ++ s)%string (sessionStorage w1)) w1
             else w1).
  set (w0 := match opt_source o with Some _ => w2 | None => emit (EvLoad s) w2 end).
  assert (Hheap0 : heap w0 = heap w1).
  { unfold w0, w2. destruct (opt_source o); destruct (reload C && _); reflexivity. }
  assert (Hmods0 : modules w0 = modules w).
  { unfold w0, w2, w1.
    destruct (opt_source o); destruct (reload C && _); simpl;
      destruct (opt_forceRefresh o); auto using restore_meta_modules. }
  assert (Hlen1 : List.length (heap w1) = List.length (heap w)).
  { unfold w1. destruct (opt_forceRefresh o); auto using restore_meta_heap_length. }
  eexists. split; [reflexivity|].
  split.
  { apply defer_ready. rewrite Hheap0, Hlen1. exact Hr. }
  split.
  { eapply last_event_snoc. apply defer_events. }
  split.
  { rewrite defer_modules, Hmods0. destruct isNew; reflexivity. }
  split.
  { intros r' Hne. rewrite defer_deref_other by assumption.
    unfold deref. rewrite Hheap0. unfold w1.
    destruct (opt_forceRefresh o); auto.
    now apply restore_meta_deref_other. }
  intros Hfr m Hm. unfold defer.
  rewrite deref_mutate_same.
  - f_equal. destruct isNew; simpl; unfold deref; simpl; rewrite Hheap0;
      unfold w1; rewrite Hfr; exact Hm.
  - destruct isNew; simpl; rewrite Hheap0, Hlen1; exact Hr.
Qed.

End InitFailure.

(** C4, as the specification states it, fails for a module that was
    registered before: the registry entry was replaced by a fresh record
    before the load was tried, and after the failure it holds that record
    (no hash, no bytes), not the previous state. *)
Lemma failed_refresh_replaces_entry :
  exists r w r' w',
    a_compiled_world = Ok r w
    /\ getModule w "/a.ts" = Some r
    /\ sourceHash (deref w r) = "0528024ef8dbfe7102f088611db29b4171f36546"
    /\ jsBuffer (deref w r) = Some (encode "export default 1")
    /\ initModule missing_ext plain_config "/a.ts" watch_options w = Ok (r', None) w'
    /\ getModule w' "/a.ts" = Some r'
    /\ sourceHash (deref w' r') = ""
    /\ jsBuffer (deref w' r') = None.
Proof.
  eexists; eexists; eexists; eexists.
  split; [vm_compute; reflexivity|].
  split; [reflexivity|]. split; [reflexivity|]. split; [reflexivity|].
  split; [vm_compute; reflexivity|].
  repeat split.
Qed.

(** C4 (amended): if the source load or the hash computation of
    [#initModule] fails, the error is logged, the [ready] signal of the
    module created by this call resolves and [source = null] is returned.
    A specifier that was not registered leaves the registry (a later retry
    starts clean).  For a specifier that was registered, the registry
    entry stays, but it is the record this call installed before loading
    (after a forced refresh: no dependencies, empty [sourceHash], no
    bytes), not the previous module object, which is left untouched and
    is no longer registered.  (A failure while restoring metadata is not
    reported: it is swallowed, see C8.) *)
Theorem initModule_load_failure_rollback :
  forall (X : Ext) (C : Config) (s0 : string) (o : CompileOptions) (w : World)
         (s : string) (data : option string) (msg : string),
    resolve_specifier C s0 (opt_source o) = (s, false, data) ->
    match map_get s (modules w) with
    | Some r0 => reusable o (deref w r0) = false /\ r0 < List.length (heap w)
    | None => True
    end ->
    opt_virtual o = false ->
    let r := List.length (heap w) in
    let wp := snd (publish X s o w) in
    load_required X C r s
      (if opt_forceRefresh o then wp
       else restore_meta X r s (metaFilePath_for X C s) wp) = true ->
    load_result X C s data (opt_source o) = Raises msg ->
    exists w',
      initModule X C s0 o w = Ok (r, None) w'
      /\ ready (deref w' r) = Resolved
      /\ last_event w' = Some (EvLogError msg)
      /\ (map_get s (modules w) = None -> map_get s (modules w') = None)
      /\ (forall r0, map_get s (modules w) = Some r0 ->
            map_get s (modules w') = Some r
            /\ r0 <> r
            /\ deref w' r0 = deref w r0
            /\ (opt_forceRefresh o = true ->
                deps (deref w' r) = []
                /\ sourceHash (deref w' r) = ""
                /\ jsBuffer (deref w' r) = None)).
Proof.
  intros X C s0 o w s data msg Hres Hreg Hvirt r wp Hreq Hload.
  assert (Hpub : publish X s o w = (r, wp)) by apply publish_eta.
  assert (Hr : r < List.length (heap wp)).
  { unfold wp. rewrite publish_heap, length_app. simpl. unfold r. lia. }
  assert (Hfresh : deref wp r
                   = fresh_module s (opt_httpExternal o) (jsFile_of X s)).
  { unfold wp, deref. rewrite publish_heap. rewrite app_nth2 by (unfold r; lia).
    unfold r. now rewrite Nat.sub_diag. }
  assert (Hold : forall r0, r0 < List.length (heap w) -> deref wp r0 = deref w r0).
  { intros r0 H0. unfold wp, deref. rewrite publish_heap. now apply app_nth1. }
  unfold initModule, initModule_enter. rewrite Hres.
  destruct (map_get s (modules w)) as [r0|] eqn:Hget.
  - destruct Hreg as [Hreuse Hr0]. rewrite Hreuse, Hpub.
    destruct (initModule_load_failure X C r false s data o wp msg Hvirt Hreq Hload Hr)
      as (w' & Hrun & Hready & Hlast & Hmods & Hother & Hforce).
    exists w'. split; [exact Hrun|]. split; [exact Hready|]. split; [exact Hlast|].
    split; [discriminate|].
    intros r0' Hr0'. injection Hr0' as <-.
    assert (Hne : r0 <> r) by (unfold r; lia).
    split.
    { rewrite Hmods. unfold wp. rewrite publish_modules. apply map_get_set_same. }
    split; [exact Hne|].
    split.
    { rewrite Hother by auto. now apply Hold. }
    intros Hfr. rewrite (Hforce Hfr _ Hfresh). repeat split.
  - rewrite Hpub.
    destruct (initModule_load_failure X C r true s data o wp msg Hvirt Hreq Hload Hr)
      as (w' & Hrun & Hready & Hlast & Hmods & Hother & Hforce).
    exists w'. split; [exact Hrun|]. split; [exact Hready|]. split; [exact Hlast|].
    split.
    { intros _. rewrite Hmods. apply map_get_delete_same. }
    intros r0 Hr0. discriminate.
Qed.

Lemma initModule_load_failure_rollback_witness :
  exists w',
    initModule missing_ext plain_config "/a.ts" watch_options a_world
    = Ok (1, None) w'
    /\ ready (deref w' 1) = Resolved
    /\ last_event w' = Some (EvLogError "No such file: /a.ts")
    /\ (map_get "/a.ts" (modules a_world) = None ->
        map_get "/a.ts" (modules w') = None)
    /\ (forall r0, map_get "/a.ts" (modules a_world) = Some r0 ->
          map_get "/a.ts" (modules w') = Some 1
          /\ r0 <> 1
          /\ deref w' r0 = deref a_world r0
          /\ (opt_forceRefresh watch_options = true ->
              deps (deref w' 1) = []
              /\ sourceHash (deref w' 1) = ""
              /\ jsBuffer (deref w' 1) = None)).
Proof.
  apply (initModule_load_failure_rollback missing_ext plain_config "/a.ts"
           watch_options a_world "/a.ts" None "No such file: /a.ts").
  - reflexivity.
  - vm_compute. split; [reflexivity | lia].
  - reflexivity.
  - vm_compute. reflexivity.
  - reflexivity.
Defined.

(** ** The source hash *)

(** *** Order of the import-map keys *)

Lemma ascii_compare_spec (a b : ascii) :
  CompareSpec (a = b) (N_of_ascii a < N_of_ascii b)%N
    (N_of_ascii b < N_of_ascii a)%N (Ascii.compare a b).
Proof.
  unfold Ascii.compare.
  destruct (N.compare_spec (N_of_ascii a) (N_of_ascii b)) as [H|H|H];
    constructor; auto.
  rewrite <- (ascii_N_embedding a), <- (ascii_N_embedding b). now rewrite H.
Qed.

Lemma string_compare_refl (s : string) : String.compare s s = Eq.
Proof.
  induction s as [|c s IH]; simpl; auto.
  destruct (ascii_compare_spec c c); auto; lia.
Qed.

Lemma string_leb_trans (a b c : string) :
  String.leb a b = true -> String.leb b c = true -> String.leb a c = true.
Proof.
  unfold String.leb. revert b c.
  induction a as [|x a IH]; intros [|y b] [|z c]; simpl; auto; try discriminate.
  destruct (ascii_compare_spec x y) as [->|Hxy|Hxy];
    destruct (ascii_compare_spec y z) as [->|Hyz|Hyz];
    try discriminate; intros H1 H2.
  - apply (IH b c); assumption.
  - reflexivity.
  - destruct (ascii_compare_spec x z) as [->|Hxz|Hxz]; auto; lia.
  - destruct (ascii_compare_spec x z) as [->|Hxz|Hxz]; auto; lia.
Qed.

Lemma insert_sorted_comm (a b : string) (l : list string) :
  insert_sorted a (insert_sorted b l) = insert_sorted b (insert_sorted a l).
Proof.
  induction l as [|k l IH]; simpl.
  - destruct (String.leb a b) eqn:Hab, (String.leb b a) eqn:Hba; auto.
    + now rewrite (String.leb_antisym a b Hab Hba).
    + destruct (String.leb_total a b); congruence.
  - destruct (String.leb b k) eqn:Hbk, (String.leb a k) eqn:Hak; simpl.
    + destruct (String.leb a b) eqn:Hab, (String.leb b a) eqn:Hba;
        rewrite ?Hbk, ?Hak; auto.
      * now rewrite (String.leb_antisym a b Hab Hba).
      * destruct (String.leb_total a b); congruence.
    + assert (Hab : String.leb a b = false).
      { destruct (String.leb a b) eqn:E; auto.
        rewrite (string_leb_trans a b k E Hbk) in Hak. discriminate. }
      now rewrite Hab, Hak, Hbk.
    + assert (Hba : String.leb b a = false).
      { destruct (String.leb b a) eqn:E; auto.
        rewrite (string_leb_trans b a k E Hak) in Hbk. discriminate. }
      now rewrite Hba, Hbk, Hak.
    + rewrite Hak, Hbk. now rewrite IH.
Qed.

(** Sorting forgets the order in which the keys were inserted. *)
Lemma sort_keys_permutation (l l' : list string) :
  Permutation l l' -> sort_keys l = sort_keys l'.
Proof.
  unfold sort_keys. induction 1; simpl; auto.
  - now rewrite IHPermutation.
  - apply insert_sorted_comm.
  - congruence.
Qed.

Lemma map_get_in (V : Type) (k : string) (v : V) (m : JsMap V) :
  NoDup (map_keys m) -> In (k, v) m -> map_get k m = Some v.
Proof.
  induction m as [|[k' v'] m IH]; simpl; intros Hnd Hin; [contradiction|].
  inversion Hnd as [|? ? Hnotin Hnd']; subst.
  destruct Hin as [Heq|Hin].
  - injection Heq as -> ->. now rewrite String.eqb_refl.
  - destruct (String.eqb k k') eqn:E.
    + apply String.eqb_eq in E; subst k'.
      exfalso. apply Hnotin. unfold map_keys.
      change k with (fst (k, v)). now apply in_map.
    + now apply IH.
Qed.

Lemma map_get_none (V : Type) (k : string) (m : JsMap V) :
  ~ In k (map_keys m) -> map_get k m = None.
Proof.
  induction m as [|[k' v'] m IH]; simpl; intros Hnotin; auto.
  destruct (String.eqb k k') eqn:E.
  - apply String.eqb_eq in E. subst. exfalso. apply Hnotin. now left.
  - apply IH. intros H. apply Hnotin. now right.
Qed.

Lemma map_get_some_in (V : Type) (k : string) (v : V) (m : JsMap V) :
  map_get k m = Some v -> In (k, v) m.
Proof.
  induction m as [|[k' v'] m IH]; simpl; [discriminate|].
  destruct (String.eqb k k') eqn:E.
  - apply String.eqb_eq in E. subst. intros [= ->]. now left.
  - intros H. right. now apply IH.
Qed.

(** An object has one value per key, whatever the order of its keys. *)
Lemma map_get_permutation (V : Type) (k : string) (m m' : JsMap V) :
  NoDup (map_keys m) -> Permutation m m' -> map_get k m' = map_get k m.
Proof.
  intros Hnd Hperm.
  assert (Hnd' : NoDup (map_keys m')).
  { eapply Permutation_NoDup; [|exact Hnd]. unfold map_keys.
    now apply Permutation_map. }
  destruct (map_get k m) as [v|] eqn:E.
  - apply map_get_in; auto. eapply Permutation_in; [exact Hperm|].
    now apply map_get_some_in.
  - destruct (map_get k m') as [v'|] eqn:E'; auto.
    apply map_get_some_in in E'.
    apply Permutation_sym in Hperm.
    pose proof (Permutation_in _ Hperm E') as Hin.
    rewrite (map_get_in V k v' m Hnd Hin) in E. discriminate.
Qed.

Lemma importMapDigest_permutation (im im' : JsMap string) :
  NoDup (map_keys im) -> Permutation im im' ->
  importMapDigest im' = importMapDigest im.
Proof.
  intros Hnd Hperm. unfold importMapDigest.
  rewrite (sort_keys_permutation (map_keys im') (map_keys im)).
  - f_equal. apply map_ext. intros key.
    now rewrite (map_get_permutation string key im im' Hnd Hperm).
  - unfold map_keys. apply Permutation_sym. now apply Permutation_map.
Qed.

(** *** Order of the plugin checksums *)

Lemma string_app_assoc (a b c : string) :
  ((a ++ b) ++ c)%string = (a ++ b ++ c)%string.
Proof. induction a; simpl; congruence. Qed.

Lemma string_app_nil_r (a : string) : (a ++ "")%string = a.
Proof. induction a; simpl; congruence. Qed.

Lemma concat_empty_cons (x : string) (xs : list string) :
  String.concat "" (x :: xs) = (x ++ String.concat "" xs)%string.
Proof. destruct xs; simpl; auto. now rewrite string_app_nil_r. Qed.

Lemma plugin_updates_available (C : Config) (idx : list nat) (acc : string) :
  (forall i, In i idx -> plugin_available C i) ->
  plugin_updates C idx acc
  = Returns (acc ++ String.concat "" (List.map (plugin_chunk C) idx))%string.
Proof.
  revert acc. induction idx as [|i idx IH]; intros acc Hav.
  - simpl. now rewrite string_app_nil_r.
  - destruct (Hav i (or_introl eq_refl)) as (p & Hp & Hok).
    assert (Hrest : forall j, In j idx -> plugin_available C j)
      by (intros j Hj; apply Hav; now right).
    cbn [List.map]. rewrite concat_empty_cons.
    cbn [plugin_updates]. unfold plugin_chunk at 1. rewrite Hp.
    destruct (p_checksum p) as [[c|msg]|] eqn:Hc.
    + rewrite IH by assumption. now rewrite !string_app_assoc.
    + exfalso. exact (Hok msg eq_refl).
    + rewrite IH by assumption. reflexivity.
Qed.

(** C6, as the specification states it, fails: the checksums of the
    matching plugins are hashed in the order the plugins were registered,
    so registering the same two plugins in the other order gives another
    [sourceHash] for the same source. *)
Lemma sourceHash_depends_on_plugin_order :
  exists h h',
    computeSourceHash single_ext (two_plugins plugin_p plugin_q) "/a.ts" a_source
    = Returns h
    /\ computeSourceHash single_ext (two_plugins plugin_q plugin_p) "/a.ts" a_source
       = Returns h'
    /\ String.eqb h h' = false.
Proof.
  eexists; eexists.
  split; [vm_compute; reflexivity|].
  split; [vm_compute; reflexivity|].
  vm_compute. reflexivity.
Qed.

(** C6 (amended): [sourceHash] is a function of the source text, the
    import map, the plugins whose loader or transform listener matches
    the specifier, and (for a style sheet) the CSS configuration.  The
    import-map keys are hashed in sorted order, so two import maps with
    the same entries in another order give the same hash.  The plugin
    checksums are not sorted: they are hashed in the insertion order of
    the set of matching plugins, the plugin of the matching loader first,
    then the plugins of the matching transform listeners in the order the
    listeners were registered. *)
Theorem sourceHash_deterministic :
  forall (X : Ext) (C C' : Config) (s : string) (src : ModuleSource),
    NoDup (map_keys (imports C)) ->
    Permutation (imports C) (imports C') ->
    plugins C' = plugins C ->
    loadListeners C' = loadListeners C ->
    transformListeners C' = transformListeners C ->
    cssConfigJson C' = cssConfigJson C ->
    computeSourceHash X C' s src = computeSourceHash X C s src
    /\ ((forall i, In i (matching_plugins C s) -> plugin_available C i) ->
        computeSourceHash X C s src
        = Returns
            (sha1 X
               (src_code src ++ importMapDigest (imports C)
                ++ String.concat ""
                     (List.map (plugin_chunk C) (matching_plugins C s))
                ++ (if SourceType_eqb (src_type src) CSS
                    then cssConfigJson C else ""))%string)).
Proof.
  intros X C C' s src Hnd Hperm Hp Hl Ht Hcss.
  split.
  - unfold computeSourceHash, sourceHashInput.
    rewrite (importMapDigest_permutation (imports C) (imports C') Hnd Hperm).
    assert (Hm : matching_plugins C' s = matching_plugins C s).
    { unfold matching_plugins, find_loader. now rewrite Hl, Ht. }
    rewrite Hm, Hcss.
    assert (Hu : forall idx acc, plugin_updates C' idx acc = plugin_updates C idx acc).
    { induction idx as [|i idx IH]; intros acc; simpl; auto.
      rewrite Hp. destruct (nth_error (plugins C) i) as [p|]; auto.
      destruct (p_checksum p) as [[c|msg]|]; auto. }
    now rewrite Hu.
  - intros Hav. unfold computeSourceHash, sourceHashInput.
    rewrite (plugin_updates_available C _ _ Hav).
    f_equal. destruct (SourceType_eqb (src_type src) CSS).
    + now rewrite !string_app_assoc.
    + now rewrite !string_app_assoc, string_app_nil_r.
Qed.

Lemma sourceHash_deterministic_witness :
  computeSourceHash single_ext config_home_react "/a.ts" a_source
  = computeSourceHash single_ext config_react_home "/a.ts" a_source
  /\ ((forall i, In i (matching_plugins config_react_home "/a.ts") ->
                 plugin_available config_react_home i) ->
      computeSourceHash single_ext config_react_home "/a.ts" a_source
      = Returns
          (sha1 single_ext
             (src_code a_source ++ importMapDigest (imports config_react_home)
              ++ String.concat ""
                   (List.map (plugin_chunk config_react_home)
                      (matching_plugins config_react_home "/a.ts"))
              ++ (if SourceType_eqb (src_type a_source) CSS
                  then cssConfigJson config_react_home else ""))%string)).
Proof.
  apply (sourceHash_deterministic single_ext config_react_home config_home_react
           "/a.ts" a_source).
  - repeat constructor; simpl; intuition discriminate.
  - apply perm_swap.
  - reflexivity.
  - reflexivity.
  - reflexivity.
  - reflexivity.
Defined.

(** ** In-place patching of hash markers *)

Lemma length_copy (src dst : bytes) (off : Z) :
  List.length (copy src dst off) = List.length dst.
Proof.
  unfold copy, copy_offset.
  set (o := Z.to_nat (Z.max 0 (Z.min off (Z.of_nat (List.length dst))))).
  assert (Ho : o <= List.length dst) by (unfold o; lia).
  rewrite !length_app, length_firstn, length_skipn, length_firstn.
  lia.
Qed.

Lemma nth_error_copy_outside (src dst : bytes) (off : Z) (i : nat) :
  List.length src <= 6 -> ~ in_window off i ->
  nth_error (copy src dst off) i = nth_error dst i.
Proof.
  intros Hsrc Hout. unfold copy, copy_offset.
  set (len := List.length dst).
  set (o := Z.to_nat (Z.max 0 (Z.min off (Z.of_nat len)))).
  set (src' := firstn (len - o) src).
  assert (Ho : o <= len) by (unfold o; lia).
  assert (Hs : List.length src' <= len - o /\ List.length src' <= 6).
  { unfold src'. rewrite length_firstn. lia. }
  destruct (Nat.lt_ge_cases i o) as [Hlt|Hge].
  - rewrite nth_error_app1 by (rewrite length_firstn; fold len; lia).
    now rewrite nth_error_firstn, (proj2 (Nat.ltb_lt i o) Hlt).
  - rewrite nth_error_app2 by (rewrite length_firstn; fold len; lia).
    rewrite length_firstn. fold len. replace (Nat.min o len) with o by lia.
    destruct (Nat.lt_ge_cases (i - o) (List.length src')) as [Hin|Hpast].
    + exfalso. apply Hout. unfold in_window.
      assert (Hlen : List.length src' <> 0) by lia.
      assert (Hoff : (off <= Z.of_nat len)%Z).
      { destruct (Z.le_gt_cases off (Z.of_nat len)); auto.
        exfalso. assert (o = len) by (unfold o; lia). lia. }
      assert (Z.of_nat o = Z.max 0 off) by (unfold o; lia).
      lia.
    + rewrite nth_error_app2 by lia.
      rewrite nth_error_skipn. f_equal. lia.
Qed.

Lemma length_substring_le (n m : nat) (s : string) :
  String.length (substring n m s) <= m.
Proof.
  revert n m. induction s as [|c s IH]; intros n m.
  - destruct n, m; simpl; lia.
  - destruct n as [|n]; destruct m as [|m]; simpl.
    + lia.
    + specialize (IH 0 m). lia.
    + apply (IH n 0).
    + apply (IH n (S m)).
Qed.

Lemma length_encode (s : string) : List.length (encode s) = String.length s.
Proof.
  unfold encode, list_byte_of_string.
  rewrite length_map. induction s; simpl; auto.
Qed.

Lemma length_hashData (hash : string) : List.length (encode (substr06 hash)) <= 6.
Proof. rewrite length_encode. apply length_substring_le. Qed.

Lemma bytes_eq_dec (a b : bytes) : {a = b} + {a <> b}.
Proof. apply list_eq_dec, Byte.byte_eq_dec. Qed.

Lemma same_outside_markers_refl (ds : list DependencyDescriptor) (b : bytes) :
  same_outside_markers ds b b.
Proof. split; auto. Qed.

Lemma same_outside_markers_trans (ds : list DependencyDescriptor) (a b c : bytes) :
  same_outside_markers ds a b -> same_outside_markers ds b c ->
  same_outside_markers ds a c.
Proof.
  intros [L1 N1] [L2 N2]. split; [congruence|].
  intros i Hi. rewrite N2, N1; auto.
Qed.

Lemma patched_only_refl (w : World) : patched_only w w [].
Proof.
  constructor; auto.
  - now rewrite app_nil_r.
  - intros r b Hb. exists b. split; [auto|]. split.
    + apply same_outside_markers_refl.
    + congruence.
  - intros r [].
Qed.

Lemma transformed_app (e1 e2 : list Event) :
  transformed (e1 ++ e2) = transformed e1 ++ transformed e2.
Proof. unfold transformed. apply flat_map_app. Qed.

Lemma patched_only_trans (w w1 w2 : World) (e1 e2 : list Event) :
  patched_only w w1 e1 -> patched_only w1 w2 e2 ->
  patched_only w w2 (e1 ++ e2).
Proof.
  intros P1 P2. constructor.
  - rewrite (po_events P2), (po_events P1). now rewrite app_assoc.
  - rewrite transformed_app, (po_transformed P1), (po_transformed P2). reflexivity.
  - rewrite (po_modules P2). apply (po_modules P1).
  - rewrite (po_appModule P2). apply (po_appModule P1).
  - rewrite (po_heap P2). apply (po_heap P1).
  - intros r. rewrite (po_specifier P2). apply (po_specifier P1).
  - intros r. rewrite (po_deps P2). apply (po_deps P1).
  - intros r. rewrite (po_sourceHash P2). apply (po_sourceHash P1).
  - intros r b Hb.
    destruct (po_buffer P1 r b Hb) as (b1 & Hb1 & S1 & C1).
    destruct (po_buffer P2 r b1 Hb1) as (b2 & Hb2 & S2 & C2).
    exists b2. split; [exact Hb2|]. split.
    + rewrite (po_deps P1) in S2.
      eapply same_outside_markers_trans; eauto.
    + intros Hne. destruct (bytes_eq_dec b2 b1) as [->|Hne1].
      * destruct (po_csrCode P2 r) as [H|H]; [|exact H].
        rewrite H. now apply C1.
      * now apply C2.
  - intros r.
    destruct (po_csrCode P2 r) as [H2|H2]; [|now right].
    destruct (po_csrCode P1 r) as [H1|H1].
    + left. congruence.
    + right. congruence.
  - intros r Hin. apply in_app_or in Hin. destruct Hin as [Hin|Hin].
    + destruct (po_csrCode P2 r) as [H|H]; [|exact H].
      rewrite H. now apply (po_callback P1).
    + now apply (po_callback P2).
Qed.

(** An event is appended and nothing else changes. *)
Lemma patched_only_emit (w : World) (e : Event) :
  transformed [e] = [] ->
  (forall r, e = EvCallback r -> csrCode (deref w r) = None) ->
  patched_only w (emit e w) [e].
Proof.
  intros Ht Hc. constructor; auto.
  - intros r b Hb. exists b. split; [exact Hb|]. split.
    + apply same_outside_markers_refl.
    + congruence.
  - intros r [Hin|[]]. apply (Hc r). auto.
Qed.

Section Cascade.
Variable X : Ext.
Variable C : Config.

Lemma getModuleJS_patched_only (r : nat) (w : World) :
  patched_only w (snd (getModuleJS X C r w)) []
  /\ (forall b, jsBuffer (deref w r) = Some b ->
        getModuleJS X C r w = (Some b, w)).
Proof.
  unfold getModuleJS.
  destruct (jsBuffer (deref w r)) as [b|] eqn:Hb.
  - simpl. split; [apply patched_only_refl|].
    intros b' [= <-]. reflexivity.
  - destruct (map_get (jsFilePath X C (deref w r)) (jsFiles w)) as [b|] eqn:Hf; simpl.
    + split; [|discriminate].
      constructor; simpl; auto.
      * now rewrite app_nil_r.
      * apply length_list_update.
      * intros r'. now apply deref_mutate_field.
      * intros r'. now apply deref_mutate_field.
      * intros r'. now apply deref_mutate_field.
      * intros r' b' Hb'. exists b'. split; [|split].
        -- destruct (Nat.eq_dec r r') as [<-|Hne]; [congruence|].
           now rewrite deref_mutate_other.
        -- apply same_outside_markers_refl.
        -- congruence.
      * intros r'. left. now apply deref_mutate_field.
      * intros r' [].
    + split; [apply patched_only_refl|discriminate].
Qed.


Lemma list_update_twice (A : Type) (i : nat) (f g : A -> A) (l : list A) :
  list_update i g (list_update i f l) = list_update i (fun x => g (f x)) l.
Proof.
  revert i; induction l as [|x l IH]; intros [|i]; simpl; auto.
  now rewrite IH.
Qed.

Lemma mutate_twice (r : nat) (f g : Mod -> Mod) (w : World) :
  mutate r g (mutate r f w) = mutate r (fun m => g (f m)) w.
Proof. unfold mutate. simpl. now rewrite list_update_twice. Qed.

(** An update of one module object that keeps what a cascade keeps. *)
Lemma patched_only_mutate (r : nat) (f : Mod -> Mod) (w : World) :
  (forall m, specifier (f m) = specifier m) ->
  (forall m, deps (f m) = deps m) ->
  (forall m, sourceHash (f m) = sourceHash m) ->
  (forall m, csrCode (f m) = csrCode m \/ csrCode (f m) = None) ->
  (forall b, jsBuffer (deref w r) = Some b ->
     exists b', jsBuffer (f (deref w r)) = Some b'
                /\ same_outside_markers (deps (deref w r)) b b'
                /\ (b' <> b -> csrCode (f (deref w r)) = None)) ->
  patched_only w (mutate r f w) [].
Proof.
  intros Hs Hd Hh Hc Hb. constructor; simpl; auto.
  - now rewrite app_nil_r.
  - apply length_list_update.
  - intros r'. now apply deref_mutate_field.
  - intros r'. now apply deref_mutate_field.
  - intros r'. now apply deref_mutate_field.
  - intros r' b Hget.
    destruct (Nat.eq_dec r r') as [<-|Hne].
    + destruct (Nat.lt_ge_cases r (List.length (heap w))) as [Hlt|Hge].
      * rewrite deref_mutate_same by assumption. now apply Hb.
      * exfalso. unfold deref in Hget. rewrite nth_overflow in Hget by assumption.
        discriminate.
    + rewrite deref_mutate_other by assumption.
      exists b. split; [exact Hget|]. split.
      * apply same_outside_markers_refl.
      * congruence.
  - intros r'.
    destruct (Nat.eq_dec r r') as [<-|Hne].
    + destruct (Nat.lt_ge_cases r (List.length (heap w))) as [Hlt|Hge].
      * rewrite deref_mutate_same by assumption. apply Hc.
      * left. unfold deref. now rewrite mutate_out.
    + left. now rewrite deref_mutate_other.
  - intros r' [].
Qed.

(** A step that leaves the heap and the registry alone. *)
Lemma patched_only_same_heap (w w' : World) (evs : list Event) :
  heap w' = heap w -> modules w' = modules w -> appModule w' = appModule w ->
  events w' = events w ++ evs -> transformed evs = [] ->
  (forall r, ~ In (EvCallback r) evs) ->
  patched_only w w' evs.
Proof.
  intros Hh Hm Ha He Ht Hc.
  assert (Hd : forall r, deref w' r = deref w r) by (intros r; unfold deref; now rewrite Hh).
  constructor; auto.
  - now rewrite Hh.
  - intros r. now rewrite Hd.
  - intros r. now rewrite Hd.
  - intros r. now rewrite Hd.
  - intros r b Hb. rewrite Hd. exists b. split; [exact Hb|]. split.
    + apply same_outside_markers_refl.
    + congruence.
  - intros r. left. now rewrite Hd.
  - intros r Hin. now apply Hc in Hin.
Qed.

Lemma csrCode_mutate_none (r : nat) (f : Mod -> Mod) (w : World) :
  (forall m, csrCode (f m) = None) -> csrCode (deref (mutate r f w) r) = None.
Proof.
  intros Hf. destruct (Nat.lt_ge_cases r (List.length (heap w))) as [Hlt|Hge].
  - rewrite deref_mutate_same by assumption. apply Hf.
  - unfold deref. rewrite mutate_out by assumption.
    now rewrite nth_overflow.
Qed.

(** [#replaceDepHash] at an offset recorded in the module's own
    dependency list. *)
Lemma replaceDepHash_patched_only (r : nat) (hashLoc : Z) (hash : string)
    (w : World) :
  (exists d, In d (deps (deref w r)) /\ dep_hashLoc d = Some hashLoc) ->
  patched_only w (snd (replaceDepHash X C r hashLoc hash w)) []
  /\ (fst (replaceDepHash X C r hashLoc hash w) = true ->
      csrCode (deref (snd (replaceDepHash X C r hashLoc hash w)) r) = None).
Proof.
  intros (d & Hd & Hloc).
  unfold replaceDepHash, getModuleJS.
  set (hashData := encode (substr06 hash)).
  destruct (jsBuffer (deref w r)) as [b|] eqn:Hb.
  - destruct (negb (equals hashData (slice b hashLoc (hashLoc + 6)))); simpl.
    + rewrite mutate_twice. split.
      * apply patched_only_mutate; auto.
        intros b0 Hb0. rewrite Hb in Hb0. injection Hb0 as <-.
        eexists. split; [reflexivity|]. split; [|reflexivity].
        split.
        -- apply length_copy.
        -- intros i Hfree. apply nth_error_copy_outside.
           ++ apply length_hashData.
           ++ exact (Hfree d hashLoc Hd Hloc).
      * intros _. now apply csrCode_mutate_none.
    + split; [apply patched_only_refl|discriminate].
  - destruct (map_get (jsFilePath X C (deref w r)) (jsFiles w)) as [b|] eqn:Hf.
    + destruct (negb (equals hashData (slice b hashLoc (hashLoc + 6)))); simpl.
      * rewrite !mutate_twice. split.
        -- apply patched_only_mutate; auto.
           intros b0 Hb0. congruence.
        -- intros _. now apply csrCode_mutate_none.
      * split; [|discriminate].
        apply patched_only_mutate; auto.
        intros b0 Hb0. congruence.
    + simpl. split; [apply patched_only_refl|discriminate].
Qed.

Lemma cacheModule_patched_only (r : nat) (sourceMap : option string) (w : World) :
  exists evs, patched_only w (cacheModule X C r sourceMap w) evs.
Proof.
  unfold cacheModule.
  destruct (jsBuffer (deref w r)) as [b|].
  - exists [EvCacheModule (specifier (deref w r))].
    apply patched_only_same_heap; auto.
    + destruct sourceMap as [sm|]; [destruct (isFilledString sm)|]; reflexivity.
    + destruct sourceMap as [sm|]; [destruct (isFilledString sm)|]; reflexivity.
    + destruct sourceMap as [sm|]; [destruct (isFilledString sm)|]; reflexivity.
    + destruct sourceMap as [sm|]; [destruct (isFilledString sm)|]; reflexivity.
    + intros r' [Hin|[]]. discriminate.
  - exists []. apply patched_only_refl.
Qed.

(** The inner loop patches only markers of module [r]. *)
Lemma patch_deps_patched_only (by_ r : nat) (ds : list DependencyDescriptor) :
  forall (hash : option string) (fsync : bool) (w : World),
    incl ds (deps (deref w r)) ->
    patched_only w (snd (patch_deps X C by_ r ds hash fsync w)) []
    /\ (snd (fst (patch_deps X C by_ r ds hash fsync w)) = true ->
        fsync = true
        \/ csrCode (deref (snd (patch_deps X C by_ r ds hash fsync w)) r) = None).
Proof.
  induction ds as [|d ds IH]; intros hash fsync w Hincl; simpl.
  - split; [apply patched_only_refl|auto].
  - assert (Hincl' : incl ds (deps (deref w r)))
      by (intros x Hx; apply Hincl; now right).
    destruct (dep_hashLoc d) as [hashLoc|] eqn:Hloc; [|now apply IH].
    destruct (String.eqb (dep_specifier d) (specifier (deref w by_)));
      [|now apply IH].
    set (h := match hash with Some h => h | None => computeModuleHash X w by_ end).
    destruct (replaceDepHash_patched_only r hashLoc h w) as [P1 Hcsr].
    { exists d. split; [apply Hincl; now left|exact Hloc]. }
    destruct (replaceDepHash X C r hashLoc h w) as [patched w1] eqn:Hrep.
    simpl in P1, Hcsr.
    assert (Hincl1 : incl ds (deps (deref w1 r)))
      by (rewrite (po_deps P1); exact Hincl').
    destruct (IH (Some h) (if patched then true else fsync) w1 Hincl1) as [P2 Hf].
    split.
    + apply (patched_only_trans _ _ _ [] [] P1 P2).
    + intros Htrue. destruct (Hf Htrue) as [Hfs|Hnone]; [|now right].
      destruct patched; [|now left].
      right. destruct (po_csrCode P2 r) as [H|H]; [|exact H].
      rewrite H. now apply Hcsr.
Qed.

(** The loop over the registry, for a recursive call that patches only. *)
Lemma scan_modules_patched_only (rec : nat -> World -> option World) (by_ : nat) :
  (forall r w w', rec r w = Some w' -> exists evs, patched_only w w' evs) ->
  forall (ms : list nat) (hash : option string) (w w' : World),
    scan_modules X C rec by_ ms hash w = Some w' ->
    exists evs, patched_only w w' evs.
Proof.
  intros Hrec. induction ms as [|r ms IH]; intros hash w w' Hscan; simpl in Hscan.
  - injection Hscan as <-. exists []. apply patched_only_refl.
  - destruct (deps (deref w r)) as [|d ds] eqn:Hds; [now apply (IH hash)|].
    destruct (patch_deps_patched_only by_ r (d :: ds) hash false w) as [P1 Hf].
    { rewrite Hds. apply incl_refl. }
    destruct (patch_deps X C by_ r (d :: ds) hash false w) as [[hash' fsync] w1].
    simpl in P1, Hf.
    destruct fsync.
    + assert (Hcsr : csrCode (deref w1 r) = None).
      { destruct (Hf eq_refl) as [H|H]; [discriminate|exact H]. }
      assert (P2 : patched_only w1 (emit (EvCallback r) w1) [EvCallback r]).
      { apply patched_only_emit; [reflexivity|].
        intros r' [= <-]. exact Hcsr. }
      destruct (rec r (emit (EvCallback r) w1)) as [w3|] eqn:Hr; [|discriminate].
      destruct (Hrec _ _ _ Hr) as (e3 & P3).
      destruct (cacheModule_patched_only r None w3) as (e4 & P4).
      destruct (IH _ _ _ Hscan) as (e5 & P5).
      eexists.
      eapply patched_only_trans; [exact P1|].
      eapply patched_only_trans; [exact P2|].
      eapply patched_only_trans; [exact P3|].
      eapply patched_only_trans; [exact P4|exact P5].
    + destruct (IH _ _ _ Hscan) as (e5 & P5).
      eexists. eapply patched_only_trans; [exact P1|exact P5].
Qed.

Lemma applyCompilationSideEffect_patched_only (fuel : nat) :
  forall (by_ : nat) (tracing : list string) (w w' : World),
    applyCompilationSideEffect X C fuel by_ tracing w = Some w' ->
    exists evs, patched_only w w' evs.
Proof.
  induction fuel as [|fuel IH]; intros by_ tracing w w' Hrun; simpl in Hrun;
    [discriminate|].
  destruct (set_has (specifier (deref w by_)) tracing).
  - injection Hrun as <-. exists []. apply patched_only_refl.
  - set (e := EvSideEffectBy (specifier (deref w by_))) in *.
    assert (P0 : patched_only w (emit e w) [e]).
    { apply patched_only_emit; [reflexivity|]. intros r H. discriminate. }
    destruct (scan_modules_patched_only
                (fun r => applyCompilationSideEffect X C fuel r []) by_
                (fun r w0 w0' H => IH r [] w0 w0' H) _ _ _ _ Hrun) as (evs & P1).
    eexists. eapply patched_only_trans; [exact P0|exact P1].
Qed.

(** *** Bytes that are read from the build directory *)

Lemma read_getModuleJS (r : nat) (w : World) :
  fst (getModuleJS X C r w)
  = match jsBuffer (deref w r) with
    | Some b => Some b
    | None => map_get (jsFilePath X C (deref w r)) (jsFiles w)
    end.
Proof.
  unfold getModuleJS. destruct (jsBuffer (deref w r)); [reflexivity|].
  now destruct (map_get _ (jsFiles w)).
Qed.

Lemma forallb_same (A : Type) (f g : A -> bool) (l : list A) :
  (forall x, f x = g x) -> forallb f l = forallb g l.
Proof. intros H. induction l as [|x l IH]; simpl; [reflexivity|]. now rewrite H, IH. Qed.

Lemma sole_output_ext (w w' : World) (r : nat) :
  modules w' = modules w ->
  (forall r', jsFile (deref w' r') = jsFile (deref w r')) ->
  sole_output X C w' r = sole_output X C w r.
Proof.
  intros Hm Hj. unfold sole_output, jsFilePath. rewrite Hm.
  apply forallb_same. intros r'. now rewrite !Hj.
Qed.

Lemma sole_output_other (w : World) (r r' : nat) :
  sole_output X C w r = true -> In r' (map_values (modules w)) -> r' <> r ->
  jsFilePath X C (deref w r') <> jsFilePath X C (deref w r).
Proof.
  intros Hs Hin Hne. unfold sole_output in Hs. rewrite forallb_forall in Hs.
  specialize (Hs r' Hin). apply orb_true_iff in Hs. destruct Hs as [Hs|Hs].
  - apply Nat.eqb_eq in Hs. contradiction.
  - apply negb_true_iff in Hs. now apply String.eqb_neq in Hs.
Qed.

Lemma disk_kept_refl (w : World) : disk_kept X C w w.
Proof.
  constructor; auto.
  intros r b _ _ Hb. exists b. split; [exact Hb|]. split.
  - apply same_outside_markers_refl.
  - congruence.
Qed.

Lemma disk_kept_trans (w w1 w2 : World) :
  disk_kept X C w w1 -> disk_kept X C w1 w2 -> disk_kept X C w w2.
Proof.
  intros K1 K2. constructor.
  - rewrite (dk_modules K2). apply (dk_modules K1).
  - intros r. rewrite (dk_jsFile K2). apply (dk_jsFile K1).
  - intros r. rewrite (dk_deps K2). apply (dk_deps K1).
  - intros r. destruct (dk_csrCode K2 r) as [H2|H2]; [|now right].
    destruct (dk_csrCode K1 r) as [H1|H1]; [left|right]; congruence.
  - intros r b Hin Hsole Hb.
    destruct (dk_read K1 r b Hin Hsole Hb) as (b1 & Hb1 & S1 & C1).
    destruct (dk_read K2 r b1) as (b2 & Hb2 & S2 & C2).
    + rewrite (dk_modules K1). exact Hin.
    + rewrite (sole_output_ext w w1 r (dk_modules K1) (dk_jsFile K1)). exact Hsole.
    + exact Hb1.
    + exists b2. split; [exact Hb2|]. split.
      * rewrite (dk_deps K1) in S2. eapply same_outside_markers_trans; eauto.
      * intros Hne. destruct (bytes_eq_dec b2 b1) as [->|Hne1].
        -- destruct (dk_csrCode K2 r) as [H|H]; [|exact H].
           rewrite H. now apply C1.
        -- now apply C2.
Qed.

(** A step that leaves the module objects, the registry and the
    compiled files alone. *)
Lemma disk_kept_frame (w w' : World) :
  heap w' = heap w -> modules w' = modules w -> jsFiles w' = jsFiles w ->
  disk_kept X C w w'.
Proof.
  intros Hh Hm Hf.
  assert (Hd : forall r, deref w' r = deref w r)
    by (intros r; unfold deref; now rewrite Hh).
  constructor; auto.
  - intros r. now rewrite Hd.
  - intros r. now rewrite Hd.
  - intros r. left. now rewrite Hd.
  - intros r b _ _ Hb. exists b. rewrite read_getModuleJS in *.
    rewrite Hd, Hf. split; [exact Hb|]. split.
    + apply same_outside_markers_refl.
    + congruence.
Qed.

(** An update of the module object [r0] that changes the bytes it
    hands out only inside its markers. *)
Lemma disk_kept_mutate (r0 : nat) (f : Mod -> Mod) (w : World) :
  (forall m, jsFile (f m) = jsFile m) ->
  (forall m, deps (f m) = deps m) ->
  (forall m, csrCode (f m) = csrCode m \/ csrCode (f m) = None) ->
  (exists b0 b', fst (getModuleJS X C r0 w) = Some b0
                 /\ jsBuffer (f (deref w r0)) = Some b'
                 /\ same_outside_markers (deps (deref w r0)) b0 b'
                 /\ (b' <> b0 -> csrCode (f (deref w r0)) = None)) ->
  disk_kept X C w (mutate r0 f w).
Proof.
  intros Hj Hd Hc (b0 & b' & H0 & Hb' & Hsame & Hcsr).
  destruct (Nat.lt_ge_cases r0 (List.length (heap w))) as [Hlt|Hge].
  2:{ apply disk_kept_frame; auto. now apply mutate_out. }
  constructor; auto.
  - intros r. now apply (deref_mutate_field _ jsFile).
  - intros r. now apply (deref_mutate_field _ deps).
  - intros r. destruct (Nat.eq_dec r0 r) as [<-|Hne].
    + rewrite deref_mutate_same by assumption. apply Hc.
    + left. now rewrite deref_mutate_other.
  - intros r b _ _ Hb. destruct (Nat.eq_dec r0 r) as [<-|Hne].
    + rewrite H0 in Hb. injection Hb as <-.
      exists b'. rewrite read_getModuleJS, deref_mutate_same by assumption.
      rewrite Hb'. auto.
    + exists b. rewrite read_getModuleJS in *.
      rewrite deref_mutate_other by assumption.
      split; [exact Hb|]. split; [apply same_outside_markers_refl|congruence].
Qed.

Lemma replaceDepHash_out (r : nat) (hashLoc : Z) (hash : string) (w : World) :
  List.length (heap w) <= r ->
  heap (snd (replaceDepHash X C r hashLoc hash w)) = heap w
  /\ modules (snd (replaceDepHash X C r hashLoc hash w)) = modules w
  /\ jsFiles (snd (replaceDepHash X C r hashLoc hash w)) = jsFiles w.
Proof.
  intros Hge. unfold replaceDepHash, getModuleJS.
  destruct (jsBuffer (deref w r)) as [b|].
  - destruct (negb _); cbn [snd]; [|auto].
    split; [|split; reflexivity].
    rewrite mutate_out; rewrite mutate_out; auto.
  - destruct (map_get _ (jsFiles w)) as [b|]; [|cbn [snd]; auto].
    destruct (negb _); cbn [snd]; (split; [|split; reflexivity]).
    + rewrite mutate_out; rewrite mutate_out; try rewrite mutate_out; auto.
    + now apply mutate_out.
Qed.

Lemma replaceDepHash_disk_kept (r : nat) (hashLoc : Z) (hash : string) (w : World) :
  (exists d, In d (deps (deref w r)) /\ dep_hashLoc d = Some hashLoc) ->
  disk_kept X C w (snd (replaceDepHash X C r hashLoc hash w)).
Proof.
  intros (d & Hd & Hloc).
  destruct (Nat.lt_ge_cases r (List.length (heap w))) as [Hlt|Hge].
  2:{ destruct (replaceDepHash_out r hashLoc hash w Hge) as (H1 & H2 & H3).
      now apply disk_kept_frame. }
  assert (Hpatch : forall (w1 : World) (buf : bytes),
            List.length (heap w1) = List.length (heap w) ->
            jsBuffer (deref w1 r) = Some buf ->
            deps (deref w1 r) = deps (deref w r) ->
            disk_kept X C w1
              (mutate r (with_csrCode None)
                 (mutate r (with_jsBuffer
                              (Some (copy (encode (substr06 hash)) buf hashLoc))) w1))).
  { intros w1 buf Hlen Hbuf Hdeps. rewrite mutate_twice.
    apply disk_kept_mutate; auto.
    exists buf, (copy (encode (substr06 hash)) buf hashLoc).
    rewrite read_getModuleJS, Hbuf.
    split; [reflexivity|]. split; [reflexivity|]. split; [|reflexivity].
    split.
    - apply length_copy.
    - intros i Hfree. apply nth_error_copy_outside.
      + apply length_hashData.
      + rewrite Hdeps in Hfree. exact (Hfree d hashLoc Hd Hloc). }
  unfold replaceDepHash, getModuleJS.
  destruct (jsBuffer (deref w r)) as [b|] eqn:Hb.
  - destruct (negb _); cbn [snd]; [|apply disk_kept_refl].
    now apply Hpatch.
  - destruct (map_get (jsFilePath X C (deref w r)) (jsFiles w)) as [b|] eqn:Hf;
      [|cbn [snd]; apply disk_kept_refl].
    assert (K1 : disk_kept X C w (mutate r (with_jsBuffer (Some b)) w)).
    { apply disk_kept_mutate; auto.
      exists b, b. rewrite read_getModuleJS, Hb, Hf.
      split; [reflexivity|]. split; [reflexivity|].
      split; [apply same_outside_markers_refl|congruence]. }
    destruct (negb _); cbn [snd]; [|exact K1].
    eapply disk_kept_trans; [exact K1|]. apply Hpatch.
    + cbn [heap mutate with_heap]. apply length_list_update.
    + now rewrite deref_mutate_same.
    + now apply (deref_mutate_field _ deps).
Qed.

Lemma patch_deps_disk_kept (by_ r : nat) (ds : list DependencyDescriptor) :
  forall (hash : option string) (fsync : bool) (w : World),
    incl ds (deps (deref w r)) ->
    disk_kept X C w (snd (patch_deps X C by_ r ds hash fsync w)).
Proof.
  induction ds as [|d ds IH]; intros hash fsync w Hincl; cbn [patch_deps].
  - apply disk_kept_refl.
  - assert (Hincl' : incl ds (deps (deref w r)))
      by (intros x Hx; apply Hincl; now right).
    destruct (dep_hashLoc d) as [hashLoc|] eqn:Hloc; [|now apply IH].
    destruct (String.eqb (dep_specifier d) (specifier (deref w by_)));
      [|now apply IH].
    set (h := match hash with Some h => h | None => computeModuleHash X w by_ end).
    pose proof (replaceDepHash_disk_kept r hashLoc h w) as K1.
    destruct (replaceDepHash X C r hashLoc h w) as [patched w1]. cbn [snd] in K1.
    assert (K : disk_kept X C w w1).
    { apply K1. exists d. split; [apply Hincl; now left|exact Hloc]. }
    eapply disk_kept_trans; [exact K|]. apply IH.
    now rewrite (dk_deps K).
Qed.

Lemma cacheModule_disk_kept (r0 : nat) (sm : option string) (w : World) :
  In r0 (map_values (modules w)) ->
  disk_kept X C w (cacheModule X C r0 sm w).
Proof.
  intros Hin0. unfold cacheModule.
  destruct (jsBuffer (deref w r0)) as [buf|] eqn:Hbuf; [|apply disk_kept_refl].
  set (w' := emit _ _).
  assert (Hh : heap w' = heap w)
    by (unfold w'; destruct sm as [s|]; [destruct (isFilledString s)|]; reflexivity).
  assert (Hm : modules w' = modules w)
    by (unfold w'; destruct sm as [s|]; [destruct (isFilledString s)|]; reflexivity).
  assert (Hf : jsFiles w' = map_set (jsFilePath X C (deref w r0)) buf (jsFiles w))
    by (unfold w'; destruct sm as [s|]; [destruct (isFilledString s)|]; reflexivity).
  assert (Hd : forall r, deref w' r = deref w r)
    by (intros r; unfold deref; now rewrite Hh).
  constructor; auto.
  - intros r. now rewrite Hd.
  - intros r. now rewrite Hd.
  - intros r. left. now rewrite Hd.
  - intros r b Hin Hsole Hb. exists b. rewrite read_getModuleJS in *.
    rewrite Hd, Hf. split; [|split; [apply same_outside_markers_refl|congruence]].
    destruct (jsBuffer (deref w r)) as [b0|] eqn:Hr; [exact Hb|].
    rewrite map_get_set_other; [exact Hb|].
    apply (sole_output_other w r r0 Hsole Hin0). congruence.
Qed.

Lemma scan_modules_disk_kept (rec : nat -> World -> option World) (by_ : nat) :
  (forall r w w', rec r w = Some w' -> disk_kept X C w w') ->
  forall (ms : list nat) (hash : option string) (w w' : World),
    incl ms (map_values (modules w)) ->
    scan_modules X C rec by_ ms hash w = Some w' ->
    disk_kept X C w w'.
Proof.
  intros Hrec. induction ms as [|r ms IH]; intros hash w w' Hincl Hscan;
    cbn [scan_modules] in Hscan.
  - injection Hscan as <-. apply disk_kept_refl.
  - assert (Hr : In r (map_values (modules w))) by (apply Hincl; now left).
    assert (Hincl' : incl ms (map_values (modules w)))
      by (intros x Hx; apply Hincl; now right).
    destruct (deps (deref w r)) as [|d ds] eqn:Hds; [now apply (IH hash)|].
    pose proof (patch_deps_disk_kept by_ r (d :: ds) hash false w) as K1.
    destruct (patch_deps X C by_ r (d :: ds) hash false w) as [[hash' fsync] w1].
    cbn [snd] in K1.
    assert (K : disk_kept X C w w1) by (apply K1; rewrite Hds; apply incl_refl).
    destruct fsync.
    + assert (K2 : disk_kept X C w1 (emit (EvCallback r) w1))
        by (now apply disk_kept_frame).
      destruct (rec r (emit (EvCallback r) w1)) as [w3|] eqn:Hr3; [|discriminate].
      pose proof (Hrec _ _ _ Hr3) as K3.
      assert (K03 : disk_kept X C w w3).
      { eapply disk_kept_trans; [exact K|].
        eapply disk_kept_trans; [exact K2|exact K3]. }
      assert (K4 : disk_kept X C w3 (cacheModule X C r None w3)).
      { apply cacheModule_disk_kept. now rewrite (dk_modules K03). }
      assert (K04 : disk_kept X C w (cacheModule X C r None w3))
        by (eapply disk_kept_trans; eauto).
      eapply disk_kept_trans; [exact K04|].
      apply (IH hash'); [|exact Hscan]. now rewrite (dk_modules K04).
    + eapply disk_kept_trans; [exact K|].
      apply (IH hash'); [|exact Hscan]. now rewrite (dk_modules K).
Qed.

Lemma applyCompilationSideEffect_disk_kept (fuel : nat) :
  forall (by_ : nat) (tracing : list string) (w w' : World),
    applyCompilationSideEffect X C fuel by_ tracing w = Some w' ->
    disk_kept X C w w'.
Proof.
  induction fuel as [|fuel IH]; intros by_ tracing w w' Hrun;
    cbn [applyCompilationSideEffect] in Hrun; [discriminate|].
  destruct (set_has (specifier (deref w by_)) tracing).
  - injection Hrun as <-. apply disk_kept_refl.
  - eapply disk_kept_trans.
    + apply (disk_kept_frame w (emit (EvSideEffectBy (specifier (deref w by_))) w));
        reflexivity.
    + eapply scan_modules_disk_kept; [|apply incl_refl|exact Hrun].
      intros r w1 w1' H1. exact (IH r [] w1 w1' H1).
Qed.

(** One patch, of bytes in memory or read from the build directory. *)
Lemma replaceDepHash_one_window (r : nat) (hashLoc : Z) (hash : string)
    (w : World) (b : bytes) :
  r < List.length (heap w) ->
  fst (getModuleJS X C r w) = Some b ->
  exists b',
    jsBuffer (deref (snd (replaceDepHash X C r hashLoc hash w)) r) = Some b'
    /\ List.length b' = List.length b
    /\ (forall i, ~ in_window hashLoc i -> nth_error b' i = nth_error b i)
    /\ events (snd (replaceDepHash X C r hashLoc hash w)) = events w
    /\ sourceHash (deref (snd (replaceDepHash X C r hashLoc hash w)) r)
       = sourceHash (deref w r)
    /\ deps (deref (snd (replaceDepHash X C r hashLoc hash w)) r) = deps (deref w r)
    /\ (fst (replaceDepHash X C r hashLoc hash w) = true ->
        csrCode (deref (snd (replaceDepHash X C r hashLoc hash w)) r) = None).
Proof.
  intros Hlt Hread.
  assert (Hpatch : forall (w1 : World),
            List.length (heap w1) = List.length (heap w) ->
            events w1 = events w ->
            sourceHash (deref w1 r) = sourceHash (deref w r) ->
            deps (deref w1 r) = deps (deref w r) ->
            let w2 := mutate r (with_csrCode None)
                        (mutate r (with_jsBuffer
                           (Some (copy (encode (substr06 hash)) b hashLoc))) w1) in
            exists b',
              jsBuffer (deref w2 r) = Some b'
              /\ List.length b' = List.length b
              /\ (forall i, ~ in_window hashLoc i -> nth_error b' i = nth_error b i)
              /\ events w2 = events w
              /\ sourceHash (deref w2 r) = sourceHash (deref w r)
              /\ deps (deref w2 r) = deps (deref w r)
              /\ (true = true -> csrCode (deref w2 r) = None)).
  { intros w1 Hlen Hev Hh Hd w2. unfold w2. rewrite mutate_twice.
    exists (copy (encode (substr06 hash)) b hashLoc).
    rewrite deref_mutate_same by lia. cbn [jsBuffer with_csrCode with_jsBuffer
      sourceHash deps csrCode].
    split; [reflexivity|]. split; [apply length_copy|]. split.
    - intros i Hout. apply nth_error_copy_outside; [apply length_hashData|exact Hout].
    - rewrite events_mutate. auto. }
  rewrite read_getModuleJS in Hread.
  unfold replaceDepHash, getModuleJS.
  destruct (jsBuffer (deref w r)) as [b0|] eqn:Hb.
  - injection Hread as ->.
    destruct (negb (equals _ _)); cbn [fst snd].
    + now apply Hpatch.
    + exists b. rewrite Hb. repeat split; auto. discriminate.
  - rewrite Hread.
    destruct (negb (equals _ _)); cbn [fst snd].
    + apply Hpatch.
      * cbn [heap mutate with_heap]. apply length_list_update.
      * apply events_mutate.
      * now apply (deref_mutate_field _ sourceHash).
      * now apply (deref_mutate_field _ deps).
    + exists b. rewrite deref_mutate_same by assumption.
      cbn [jsBuffer with_jsBuffer sourceHash deps].
      rewrite events_mutate. repeat split; auto. discriminate.
Qed.

End Cascade.

(** C1: a cascade never re-transforms.  Whenever
    [#applyCompilationSideEffect] returns, the events it added contain no
    invocation of the transform collaborator, the registry is the same,
    and every module object keeps its [sourceHash] and its dependency
    list; a compiled buffer keeps its length and every byte outside the
    6-byte windows at the [hashLoc]s recorded in the module's dependency
    list; a module whose bytes changed, and every module reported to the
    callback as patched, has its cached [csrCode] removed.  The same
    holds of the bytes [getModuleJS] hands out for a registered module
    that holds none in memory and has its output file to itself: they
    are read from the build directory when the module is patched.
    Each single patch, of bytes in memory or read from the build
    directory, keeps the length and every byte outside the 6-byte window
    at its [hashLoc], adds no event, and keeps [sourceHash] and the
    dependency list. *)
Theorem cascade_never_retransforms :
  (forall (X : Ext) (C : Config) (fuel by_ : nat) (tracing : list string)
          (w w' : World),
      applyCompilationSideEffect X C fuel by_ tracing w = Some w' ->
      exists evs,
        events w' = events w ++ evs
        /\ transformed evs = []
        /\ modules w' = modules w
        /\ forall r,
             sourceHash (deref w' r) = sourceHash (deref w r)
             /\ deps (deref w' r) = deps (deref w r)
             /\ (forall b, jsBuffer (deref w r) = Some b ->
                   exists b',
                     jsBuffer (deref w' r) = Some b'
                     /\ List.length b' = List.length b
                     /\ (forall i, marker_free (deps (deref w r)) i ->
                                   nth_error b' i = nth_error b i)
                     /\ (b' <> b -> csrCode (deref w' r) = None))
             /\ (In (EvCallback r) evs -> csrCode (deref w' r) = None)
             /\ (In r (map_values (modules w)) ->
                 sole_output X C w r = true ->
                 forall b, fst (getModuleJS X C r w) = Some b ->
                   exists b',
                     fst (getModuleJS X C r w') = Some b'
                     /\ List.length b' = List.length b
                     /\ (forall i, marker_free (deps (deref w r)) i ->
                                   nth_error b' i = nth_error b i)
                     /\ (b' <> b -> csrCode (deref w' r) = None)))
  /\ (forall (X : Ext) (C : Config) (r : nat) (hashLoc : Z) (hash : string)
             (w : World) (b : bytes),
        r < List.length (heap w) ->
        fst (getModuleJS X C r w) = Some b ->
        exists b',
          jsBuffer (deref (snd (replaceDepHash X C r hashLoc hash w)) r) = Some b'
          /\ List.length b' = List.length b
          /\ (forall i, ~ in_window hashLoc i -> nth_error b' i = nth_error b i)
          /\ events (snd (replaceDepHash X C r hashLoc hash w)) = events w
          /\ sourceHash (deref (snd (replaceDepHash X C r hashLoc hash w)) r)
             = sourceHash (deref w r)
          /\ deps (deref (snd (replaceDepHash X C r hashLoc hash w)) r)
             = deps (deref w r)
          /\ (fst (replaceDepHash X C r hashLoc hash w) = true ->
              csrCode (deref (snd (replaceDepHash X C r hashLoc hash w)) r) = None)).
Proof.
  split.
  - intros X C fuel by_ tracing w w' Hrun.
    destruct (applyCompilationSideEffect_patched_only X C fuel by_ tracing w w' Hrun)
      as (evs & P).
    pose proof (applyCompilationSideEffect_disk_kept X C fuel by_ tracing w w' Hrun)
      as K.
    exists evs.
    split; [apply (po_events P)|]. split; [apply (po_transformed P)|].
    split; [apply (po_modules P)|].
    intros r. split; [apply (po_sourceHash P)|]. split; [apply (po_deps P)|].
    split; [|split].
    + intros b Hb. destruct (po_buffer P r b Hb) as (b' & Hb' & [Hlen Hout] & Hcsr).
      exists b'. auto.
    + apply (po_callback P).
    + intros Hin Hsole b Hb.
      destruct (dk_read K r b Hin Hsole Hb) as (b' & Hb' & [Hlen Hout] & Hcsr).
      exists b'. auto.
  - intros X C r hashLoc hash w b. apply replaceDepHash_one_window.
Qed.

Lemma cascade_never_retransforms_witness :
  (let w := diamond_on_disk in
   let w' := final_state diamond_on_disk_cascaded in
   exists evs,
     events w' = events w ++ evs
     /\ transformed evs = []
     /\ modules w' = modules w
     /\ forall r,
          sourceHash (deref w' r) = sourceHash (deref w r)
          /\ deps (deref w' r) = deps (deref w r)
          /\ (forall b, jsBuffer (deref w r) = Some b ->
                exists b',
                  jsBuffer (deref w' r) = Some b'
                  /\ List.length b' = List.length b
                  /\ (forall i, marker_free (deps (deref w r)) i ->
                                nth_error b' i = nth_error b i)
                  /\ (b' <> b -> csrCode (deref w' r) = None))
          /\ (In (EvCallback r) evs -> csrCode (deref w' r) = None)
          /\ (In r (map_values (modules w)) ->
              sole_output (diamond_ext "export default 2") plain_config w r = true ->
              forall b,
                fst (getModuleJS (diamond_ext "export default 2") plain_config r w)
                = Some b ->
                exists b',
                  fst (getModuleJS (diamond_ext "export default 2") plain_config r w')
                  = Some b'
                  /\ List.length b' = List.length b
                  /\ (forall i, marker_free (deps (deref w r)) i ->
                                nth_error b' i = nth_error b i)
                  /\ (b' <> b -> csrCode (deref w' r) = None)))
  /\ (exists b',
        jsBuffer (deref (snd (replaceDepHash (diamond_ext "export default 2")
                                plain_config 1 15%Z "abcdef" diamond_on_disk)) 1)
        = Some b'
        /\ List.length b' = List.length (encode "import './a.js#78071c'")
        /\ (forall i, ~ in_window 15%Z i ->
                      nth_error b' i = nth_error (encode "import './a.js#78071c'") i)
        /\ events (snd (replaceDepHash (diamond_ext "export default 2")
                          plain_config 1 15%Z "abcdef" diamond_on_disk))
           = events diamond_on_disk
        /\ sourceHash (deref (snd (replaceDepHash (diamond_ext "export default 2")
                                    plain_config 1 15%Z "abcdef" diamond_on_disk)) 1)
           = sourceHash (deref diamond_on_disk 1)
        /\ deps (deref (snd (replaceDepHash (diamond_ext "export default 2")
                              plain_config 1 15%Z "abcdef" diamond_on_disk)) 1)
           = deps (deref diamond_on_disk 1)
        /\ (fst (replaceDepHash (diamond_ext "export default 2")
                   plain_config 1 15%Z "abcdef" diamond_on_disk) = true ->
            csrCode (deref (snd (replaceDepHash (diamond_ext "export default 2")
                                   plain_config 1 15%Z "abcdef" diamond_on_disk)) 1)
            = None)).
Proof.
  split.
  - apply (proj1 cascade_never_retransforms (diamond_ext "export default 2")
             plain_config 10 4 [] diamond_on_disk
             (final_state diamond_on_disk_cascaded)).
    vm_compute. reflexivity.
  - apply (proj2 cascade_never_retransforms (diamond_ext "export default 2")
             plain_config 1 15%Z "abcdef" diamond_on_disk
             (encode "import './a.js#78071c'")).
    + vm_compute. lia.
    + vm_compute. reflexivity.
Defined.

(** C2 on the diamond [/d.ts] -> [/b.ts], [/c.ts] -> [/a.ts], after
    [/a.ts] was edited and recompiled: the propagation started for
    [/a.ts] returns, but it passes its tracing guard twice for [/d.ts],
    once below [/b.ts] and once below [/c.ts], because the recursive call
    starts from a new tracing set. *)
Theorem cascade_reenters_module_in_diamond :
  exists r w w',
    diamond_edited = Ok r w
    /\ applyCompilationSideEffect (diamond_ext "export default 2") plain_config
         10 r [] w = Some w'
    /\ side_effect_sources (skipn (List.length (events w)) (events w'))
       = ["/a.ts"; "/b.ts"; "/d.ts"; "/c.ts"; "/d.ts"].
Proof.
  eexists; eexists; eexists.
  split; [vm_compute; reflexivity|].
  split; [vm_compute; reflexivity|].
  vm_compute. reflexivity.
Qed.

(** ** One compilation pass *)

Lemma set_has_In (x : string) (s : list string) : set_has x s = true <-> In x s.
Proof.
  unfold set_has. rewrite existsb_exists. split.
  - intros (y & Hin & Heq). apply String.eqb_eq in Heq. now subst.
  - intros Hin. exists x. split; [exact Hin|apply String.eqb_refl].
Qed.

Lemma set_has_false (x : string) (s : list string) : set_has x s = false -> ~ In x s.
Proof.
  intros H Hin. apply set_has_In in Hin. congruence.
Qed.

Lemma set_add_incl (x : string) (s : list string) : incl s (set_add x s).
Proof.
  unfold set_add. destruct (set_has x s); [apply incl_refl|].
  intros y Hy. apply in_or_app. now left.
Qed.

Lemma set_add_In (x : string) (s : list string) : In x (set_add x s).
Proof.
  unfold set_add. destruct (set_has x s) eqn:E.
  - now apply set_has_In.
  - apply in_or_app. right. now left.
Qed.

Lemma set_of_tracing_add_same (t : nat) (x : string) (w : World) :
  t < List.length (sets w) ->
  set_of (tracing_add t x w) t = set_add x (set_of w t).
Proof. intros H. unfold set_of, tracing_add. simpl. now apply nth_list_update_same. Qed.

Lemma set_of_tracing_add_incl (t : nat) (x : string) (w : World) :
  incl (set_of w t) (set_of (tracing_add t x w) t).
Proof.
  destruct (Nat.lt_ge_cases t (List.length (sets w))) as [Hlt|Hge].
  - rewrite set_of_tracing_add_same by assumption. apply set_add_incl.
  - unfold set_of, tracing_add. simpl. rewrite list_update_out by assumption.
    apply incl_refl.
Qed.

(** *** The three relations are preorders and refine each other *)

Lemma quiet_step_refl (w : World) : quiet_step w w [].
Proof. constructor; auto. now rewrite app_nil_r. Qed.

Lemma quiet_step_trans (w w1 w2 : World) (e1 e2 : list Event) :
  quiet_step w w1 e1 -> quiet_step w1 w2 e2 -> quiet_step w w2 (e1 ++ e2).
Proof.
  intros Q1 Q2. constructor.
  - rewrite (qs_events Q2), (qs_events Q1). now rewrite app_assoc.
  - now rewrite transformed_app, (qs_transformed Q1), (qs_transformed Q2).
  - rewrite (qs_sets Q2). apply (qs_sets Q1).
  - pose proof (qs_heap Q1). pose proof (qs_heap Q2). lia.
  - intros r Hr. rewrite (qs_keep Q2) by (pose proof (qs_heap Q1); lia).
    now apply (qs_keep Q1).
Qed.

Lemma touches_refl (r : nat) (w : World) : touches r w w [].
Proof. constructor; auto. now rewrite app_nil_r. Qed.

Lemma touches_trans (r : nat) (w w1 w2 : World) (e1 e2 : list Event) :
  touches r w w1 e1 -> touches r w1 w2 e2 -> touches r w w2 (e1 ++ e2).
Proof.
  intros T1 T2. constructor.
  - rewrite (tc_events T2), (tc_events T1). now rewrite app_assoc.
  - now rewrite transformed_app, (tc_transformed T1), (tc_transformed T2).
  - rewrite (tc_sets T2). apply (tc_sets T1).
  - rewrite (tc_heap T2). apply (tc_heap T1).
  - rewrite (tc_specifier T2). apply (tc_specifier T1).
  - intros r' Hne. rewrite (tc_other T2) by assumption. now apply (tc_other T1).
Qed.

Lemma touches_mutate (r : nat) (f : Mod -> Mod) (w : World) :
  (forall m, specifier (f m) = specifier m) ->
  touches r w (mutate r f w) [].
Proof.
  intros Hf. constructor; simpl; auto.
  - now rewrite app_nil_r.
  - apply length_list_update.
  - now apply deref_mutate_field.
  - intros r' Hne. apply deref_mutate_other. auto.
Qed.

Lemma touches_same_heap (r : nat) (w w' : World) (evs : list Event) :
  heap w' = heap w -> sets w' = sets w -> events w' = events w ++ evs ->
  transformed evs = [] -> touches r w w' evs.
Proof.
  intros Hh Hs He Ht.
  assert (Hd : forall r', deref w' r' = deref w r')
    by (intros r'; unfold deref; now rewrite Hh).
  constructor; auto.
  - now rewrite Hh.
  - now rewrite Hd.
Qed.

Lemma touches_emit (r : nat) (e : Event) (w : World) :
  transformed [e] = [] -> touches r w (emit e w) [e].
Proof. intros H. now apply touches_same_heap. Qed.

Lemma pass_step_refl (t : nat) (w : World) : pass_step t w w [].
Proof.
  constructor; auto.
  - now rewrite app_nil_r.
  - constructor.
  - intros s [].
  - apply incl_refl.
  - intros r Hr Hin. split; [auto|]. split; [auto|].
    intros b Hb. exists b. split; [exact Hb|apply same_outside_markers_refl].
Qed.

Lemma NoDup_app_disjoint (A : Type) (l1 l2 : list A) :
  NoDup l1 -> NoDup l2 -> (forall x, In x l1 -> ~ In x l2) -> NoDup (l1 ++ l2).
Proof.
  intros H1 H2 Hd. induction l1 as [|x l1 IH]; simpl; auto.
  inversion H1 as [|? ? Hx H1']; subst. constructor.
  - intros Hin. apply in_app_or in Hin. destruct Hin as [Hin|Hin]; auto.
    apply (Hd x); [now left|exact Hin].
  - apply IH; auto. intros y Hy. apply Hd. now right.
Qed.

Lemma pass_step_trans (t : nat) (w w1 w2 : World) (e1 e2 : list Event) :
  pass_step t w w1 e1 -> pass_step t w1 w2 e2 -> pass_step t w w2 (e1 ++ e2).
Proof.
  intros P1 P2. constructor.
  - rewrite (ps_events P2), (ps_events P1). now rewrite app_assoc.
  - rewrite transformed_app. apply NoDup_app_disjoint.
    + apply (ps_nodup P1).
    + apply (ps_nodup P2).
    + intros s H1 H2.
      apply (proj1 (ps_fresh P2 s H2)). apply (proj2 (ps_fresh P1 s H1)).
  - intros s Hin. rewrite transformed_app in Hin.
    apply in_app_or in Hin. destruct Hin as [Hin|Hin].
    + destruct (ps_fresh P1 s Hin) as [Hn Hy]. split; [exact Hn|].
      now apply (ps_tracing P2).
    + destruct (ps_fresh P2 s Hin) as [Hn Hy]. split; [|exact Hy].
      intros H. apply Hn. now apply (ps_tracing P1).
  - intros s Hs. apply (ps_tracing P2). now apply (ps_tracing P1).
  - rewrite (ps_sets P2). apply (ps_sets P1).
  - pose proof (ps_heap P1). pose proof (ps_heap P2). lia.
  - intros r Hr. rewrite (ps_specifier P2) by (pose proof (ps_heap P1); lia).
    now apply (ps_specifier P1).
  - intros r Hr Hin.
    destruct (ps_traced P1 r Hr Hin) as (Hh1 & Hd1 & Hb1).
    assert (Hr1 : r < List.length (heap w1)) by (pose proof (ps_heap P1); lia).
    assert (Hin1 : In (specifier (deref w1 r)) (set_of w1 t)).
    { rewrite (ps_specifier P1 r Hr). now apply (ps_tracing P1). }
    destruct (ps_traced P2 r Hr1 Hin1) as (Hh2 & Hd2 & Hb2).
    split; [congruence|]. split; [congruence|].
    intros b Hb. destruct (Hb1 b Hb) as (b1 & Hb1' & S1).
    destruct (Hb2 b1 Hb1') as (b2 & Hb2' & S2).
    exists b2. split; [exact Hb2'|].
    rewrite Hd1 in S2. eapply same_outside_markers_trans; eauto.
Qed.

Lemma quiet_step_pass (t : nat) (w w' : World) (evs : list Event) :
  quiet_step w w' evs -> pass_step t w w' evs.
Proof.
  intros Q.
  assert (Hset : set_of w' t = set_of w t) by (unfold set_of; now rewrite (qs_sets Q)).
  constructor.
  - apply (qs_events Q).
  - rewrite (qs_transformed Q). constructor.
  - rewrite (qs_transformed Q). intros s [].
  - rewrite Hset. apply incl_refl.
  - now rewrite (qs_sets Q).
  - apply (qs_heap Q).
  - intros r Hr. now rewrite (qs_keep Q).
  - intros r Hr Hin. rewrite (qs_keep Q r Hr). split; [auto|]. split; [auto|].
    intros b Hb. exists b. split; [exact Hb|apply same_outside_markers_refl].
Qed.

Lemma patched_only_pass (t : nat) (w w' : World) (evs : list Event) :
  patched_only w w' evs -> sets w' = sets w -> pass_step t w w' evs.
Proof.
  intros P Hs.
  assert (Hset : set_of w' t = set_of w t) by (unfold set_of; now rewrite Hs).
  constructor.
  - apply (po_events P).
  - rewrite (po_transformed P). constructor.
  - rewrite (po_transformed P). intros s [].
  - rewrite Hset. apply incl_refl.
  - now rewrite Hs.
  - rewrite (po_heap P). auto.
  - intros r _. apply (po_specifier P).
  - intros r Hr Hin. split; [apply (po_sourceHash P)|]. split; [apply (po_deps P)|].
    intros b Hb. destruct (po_buffer P r b Hb) as (b' & Hb' & S & _).
    exists b'. auto.
Qed.

(** *** Rules for [sat] *)

Lemma sat_ret (A : Type) (R : World -> World -> Prop) (a : A) :
  (forall w, R w w) -> sat R (ret a).
Proof. intros Hrefl w. apply Hrefl. Qed.

Lemma sat_throw (A : Type) (R : World -> World -> Prop) (msg : string) :
  (forall w, R w w) -> sat R (throw A msg).
Proof. intros Hrefl w. apply Hrefl. Qed.

Lemma sat_call (A : Type) (R : World -> World -> Prop) (e : Exc A) :
  (forall w, R w w) -> sat R (call e).
Proof. intros Hrefl w. destruct e; apply Hrefl. Qed.

Lemma sat_modify (R : World -> World -> Prop) (f : World -> World) :
  (forall w, R w (f w)) -> sat R (modify f).
Proof. intros Hf w. apply Hf. Qed.

Lemma sat_bind (A B : Type) (R : World -> World -> Prop) (c : M A) (k : A -> M B) :
  (forall w1 w2 w3, R w1 w2 -> R w2 w3 -> R w1 w3) ->
  sat R c -> (forall a, sat R (k a)) -> sat R (bind c k).
Proof.
  intros Htrans Hc Hk w. unfold bind. specialize (Hc w).
  destruct (c w) as [a w1|msg w1|w1|]; auto.
  specialize (Hk a w1).
  destruct (k a w1) as [b w2|msg w2|w2|]; eauto.
Qed.

Lemma sat_weaken (A : Type) (R R' : World -> World -> Prop) (c : M A) :
  (forall w w', R w w' -> R' w w') -> sat R c -> sat R' c.
Proof.
  intros Hw Hc w. specialize (Hc w). destruct (c w); auto.
Qed.

Lemma touching_refl (r : nat) (w : World) : touching r w w.
Proof. exists []. apply touches_refl. Qed.

Lemma touching_trans (r : nat) (w1 w2 w3 : World) :
  touching r w1 w2 -> touching r w2 w3 -> touching r w1 w3.
Proof. intros [e1 T1] [e2 T2]. eexists. eapply touches_trans; eauto. Qed.

Lemma passing_refl (t : nat) (w : World) : passing t w w.
Proof. intros _. exists []. apply pass_step_refl. Qed.

Lemma passing_trans (t : nat) (w1 w2 w3 : World) :
  passing t w1 w2 -> passing t w2 w3 -> passing t w1 w3.
Proof.
  intros H1 H2 Ht. destruct (H1 Ht) as [e1 P1].
  destruct H2 as [e2 P2]; [rewrite (ps_sets P1); exact Ht|].
  eexists. eapply pass_step_trans; eauto.
Qed.

Lemma quietly_passing (t : nat) (w w' : World) : quietly w w' -> passing t w w'.
Proof. intros [evs Q] _. exists evs. now apply quiet_step_pass. Qed.

Lemma post_sat (A : Type) (R : World -> World -> Prop) (c : M A) (w : World) :
  sat R c -> post (c w) (R w).
Proof. intros H. apply (H w). Qed.

(** Sequencing, for a property stated from a fixed earlier state [w0]. *)
Lemma post_bind (A B : Type) (R : World -> World -> Prop) (c : M A)
    (k : A -> M B) (w0 w : World) :
  (forall w1 w2 w3, R w1 w2 -> R w2 w3 -> R w1 w3) ->
  R w0 w ->
  sat R c ->
  (forall a w1, R w0 w1 -> post (k a w1) (R w0)) ->
  post (bind c k w) (R w0).
Proof.
  intros Htrans H0 Hc Hk. unfold bind. specialize (Hc w).
  destruct (c w) as [a w1|msg w1|w1|]; simpl in *; eauto.
Qed.

Section Pass.
Variable X : Ext.
Variable C : Config.

(** *** [#initModule] touches no module that existed before *)

Lemma restore_meta_touching (r : nat) (s path : string) (w : World) :
  specifier (deref w r) = s -> touching r w (restore_meta X r s path w).
Proof.
  intros Hs. unfold restore_meta.
  destruct (map_get path (metaFiles w)) as [[| |meta]|]; try apply touching_refl.
  destruct (meta_is_valid s meta) eqn:Hv.
  - exists []. constructor; simpl; auto.
    + now rewrite app_nil_r.
    + apply length_list_update.
    + destruct (Nat.lt_ge_cases r (List.length (heap w))) as [Hlt|Hge].
      * rewrite deref_mutate_same by assumption. simpl.
        unfold meta_is_valid in Hv.
        destruct (meta_specifier meta) as [s'|]; simpl in *; [|discriminate].
        apply andb_prop in Hv. destruct Hv as [Hv _].
        apply andb_prop in Hv. destruct Hv as [Hv _].
        apply String.eqb_eq in Hv. congruence.
      * unfold deref. now rewrite mutate_out.
    + intros r' Hne. apply deref_mutate_other. auto.
  - eexists. apply touches_same_heap; simpl; auto.
Qed.

Lemma defer_touching (r : nat) (isNew : bool) (s : string) (err : option string)
    (w : World) :
  touching r w (defer r isNew s err w).
Proof.
  unfold defer. eapply touching_trans; [|eexists; apply touches_mutate; auto].
  destruct err as [msg|]; [|apply touching_refl].
  eexists. apply touches_same_heap with (evs := [EvLogError msg]);
    destruct isNew; reflexivity.
Qed.

Lemma load_and_hash_touching (r : nat) (s : string) (data : option string)
    (customSource : option ModuleSource) :
  sat (touching r) (load_and_hash X C r s data customSource).
Proof.
  intros w. rewrite load_and_hash_spec.
  set (w0 := match customSource with Some _ => w | None => emit (EvLoad s) w end).
  assert (T0 : touching r w w0).
  { unfold w0. destruct customSource; [apply touching_refl|].
    eexists. now apply touches_emit. }
  destruct (load_result X C s data customSource) as [[src h]|msg]; auto.
  destruct (String.eqb (sourceHash (deref w0 r)) h); auto.
  eapply touching_trans; [exact T0|]. eexists. now apply touches_mutate.
Qed.

Lemma initModule_load_touching (r : nat) (isNew : bool) (s : string)
    (data : option string) (o : CompileOptions) (w : World) :
  specifier (deref w r) = s ->
  match initModule_load X C r isNew s data o w with
  | Ok _ w' => touching r w w'
  | Throw _ w' => touching r w w'
  | Stuck w' => touching r w w'
  | OutOfFuel => True
  end.
Proof.
  intros Hs. unfold initModule_load.
  set (w1 := if opt_forceRefresh o then w
             else restore_meta X r s (metaFilePath_for X C s) w).
  assert (T1 : touching r w w1).
  { unfold w1. destruct (opt_forceRefresh o); [apply touching_refl|].
    now apply restore_meta_touching. }
  destruct (opt_virtual o).
  { eapply touching_trans; [exact T1|apply defer_touching]. }
  destruct (load_required X C r s w1).
  - set (w2 := if reload C && negb (set_has ("init:" ++ s) (sessionStorage w1))
               then with_sessionStorage
                      (set_add ("init:" ++ s)%string (sessionStorage w1)) w1
               else w1).
    assert (T2 : touching r w1 w2).
    { unfold w2. destruct (reload C && _); [|apply touching_refl].
      exists []. apply touches_same_heap; simpl; auto. now rewrite app_nil_r. }
    pose proof (load_and_hash_touching r s data (opt_source o) w2) as T3.
    destruct (load_and_hash X C r s data (opt_source o) w2) as [src w3|msg w3|w3|];
      auto.
    + eapply touching_trans; [exact T1|]. eapply touching_trans; [exact T2|].
      eapply touching_trans; [exact T3|apply defer_touching].
    + eapply touching_trans; [exact T1|]. eapply touching_trans; [exact T2|].
      eapply touching_trans; [exact T3|apply defer_touching].
    + eapply touching_trans; [exact T1|]. eapply touching_trans; [exact T2|exact T3].
  - eapply touching_trans; [exact T1|apply defer_touching].
Qed.

Lemma alloc_quiet (m : Mod) (w : World) : quiet_step w (snd (alloc m w)) [].
Proof.
  constructor; simpl; auto.
  - now rewrite app_nil_r.
  - rewrite length_app. lia.
  - intros r Hr. now apply deref_alloc_old.
Qed.

Lemma publish_quiet (s : string) (o : CompileOptions) (w : World) :
  quiet_step w (snd (publish X s o w)) [].
Proof.
  assert (Hh := publish_heap X s o w).
  constructor.
  - rewrite publish_events. now rewrite app_nil_r.
  - reflexivity.
  - unfold publish, alloc. simpl.
    destruct (String.eqb (trimBuiltinModuleExts X s) "/app"); reflexivity.
  - rewrite Hh, length_app. lia.
  - intros r Hr. unfold deref. rewrite Hh. now apply app_nth1.
Qed.

Lemma publish_fresh (s : string) (o : CompileOptions) (w : World) :
  deref (snd (publish X s o w)) (List.length (heap w))
  = fresh_module s (opt_httpExternal o) (jsFile_of X s).
Proof.
  unfold deref. rewrite publish_heap. rewrite app_nth2 by lia.
  now rewrite Nat.sub_diag.
Qed.

Lemma touching_fresh_quietly (r : nat) (w w1 w' : World) :
  quiet_step w w1 [] -> r = List.length (heap w) -> touching r w1 w' ->
  quietly w w'.
Proof.
  intros Q Hr [evs T]. exists evs. constructor.
  - rewrite (tc_events T), (qs_events Q). now rewrite app_nil_r.
  - apply (tc_transformed T).
  - rewrite (tc_sets T). apply (qs_sets Q).
  - rewrite (tc_heap T). apply (qs_heap Q).
  - intros r' Hr'. rewrite (tc_other T) by lia. now apply (qs_keep Q).
Qed.

Lemma initModule_quietly (s0 : string) (o : CompileOptions) :
  sat quietly (initModule X C s0 o).
Proof.
  intros w. unfold initModule, initModule_enter.
  destruct (resolve_specifier C s0 (opt_source o)) as [[s external] data].
  destruct external.
  { simpl. exists []. apply alloc_quiet. }
  destruct (map_get s (modules w)) as [r0|].
  - destruct (reusable o (deref w r0)).
    + destruct (ready (deref w r0)); exists []; apply quiet_step_refl.
    + rewrite publish_eta.
      pose proof (initModule_load_touching (List.length (heap w)) false s data o
                    (snd (publish X s o w)) (f_equal specifier (publish_fresh s o w)))
        as T.
      destruct (initModule_load X C _ false s data o _) as [a w'|msg w'|w'|]; auto;
        eapply touching_fresh_quietly; eauto using publish_quiet.
  - rewrite publish_eta.
    pose proof (initModule_load_touching (List.length (heap w)) true s data o
                  (snd (publish X s o w)) (f_equal specifier (publish_fresh s o w)))
      as T.
    destruct (initModule_load X C _ true s data o _) as [a w'|msg w'|w'|]; auto;
      eapply touching_fresh_quietly; eauto using publish_quiet.
Qed.

End Pass.

Section Transpile.
Variable X : Ext.
Variable C : Config.

(** *** The transform branch changes one module object *)

Lemma cacheModule_touching (r r0 : nat) (sourceMap : option string) (w : World) :
  touching r0 w (cacheModule X C r sourceMap w).
Proof.
  unfold cacheModule. destruct (jsBuffer (deref w r)) as [b|]; [|apply touching_refl].
  exists [EvCacheModule (specifier (deref w r))].
  apply touches_same_heap; auto;
    destruct sourceMap as [sm|]; try destruct (isFilledString sm); reflexivity.
Qed.

Lemma run_transform_listeners_touching (r : nat) (s : string)
    (ls : list TransformListener) :
  forall jsCode sourceMap extraDeps,
    sat (touching r)
      (run_transform_listeners ls r s jsCode sourceMap extraDeps).
Proof.
  induction ls as [|l ls IH]; intros jsCode sourceMap extraDeps; simpl.
  - apply sat_ret, touching_refl.
  - destruct (t_test l) as [t| |]; try apply IH.
    destruct (t s); [|apply IH].
    apply sat_bind; [apply touching_trans| |intros _].
    + apply sat_modify. intros w. eexists. now apply touches_emit.
    + apply sat_bind; [apply touching_trans| |intros out; apply IH].
      intros w. destruct (t_transform l (deref w r) jsCode sourceMap);
        apply touching_refl.
Qed.

Lemma touching_mutate (r : nat) (f : Mod -> Mod) :
  (forall m, specifier (f m) = specifier m) ->
  sat (touching r) (modify (mutate r f)).
Proof. intros Hf. apply sat_modify. intros w. eexists. now apply touches_mutate. Qed.

(** A prefix and a suffix that only touch [r], around the one event
    [EvTransform s]. *)
Lemma transforming_shape (A B : Type) (r : nat) (s : string) (pre : M A)
    (rest : A -> M B) :
  sat (touching r) pre ->
  (forall a, sat (touching r) (rest a)) ->
  sat (transforming r s)
    (bind pre (fun a => bind (modify (emit (EvTransform s))) (fun _ => rest a))).
Proof.
  intros Hpre Hrest w. unfold bind, modify. specialize (Hpre w).
  destruct (pre w) as [a w1|msg w1|w1|]; auto.
  - destruct Hpre as [e1 T1]. specialize (Hrest a (emit (EvTransform s) w1)).
    assert (Hmid : forall w', touching r (emit (EvTransform s) w1) w' ->
                              transforming r s w w').
    { intros w' [e2 T2]. exists (e1 ++ [EvTransform s] ++ e2).
      split.
      { rewrite (tc_events T2). simpl. rewrite (tc_events T1).
        now rewrite <- !app_assoc. }
      split.
      { right. rewrite !transformed_app, (tc_transformed T1), (tc_transformed T2).
        reflexivity. }
      split; [rewrite (tc_sets T2); simpl; apply (tc_sets T1)|].
      split; [rewrite (tc_heap T2); simpl; apply (tc_heap T1)|].
      split; [rewrite (tc_specifier T2); apply (tc_specifier T1)|].
      intros r' Hne. rewrite (tc_other T2) by assumption.
      now apply (tc_other T1). }
    destruct (rest a (emit (EvTransform s) w1)) as [b w2|msg w2|w2|]; auto.
  - destruct Hpre as [e1 T1]. exists e1.
    split; [apply (tc_events T1)|]. split; [left; apply (tc_transformed T1)|].
    split; [apply (tc_sets T1)|]. split; [apply (tc_heap T1)|].
    split; [apply (tc_specifier T1)|apply (tc_other T1)].
  - destruct Hpre as [e1 T1]. exists e1.
    split; [apply (tc_events T1)|]. split; [left; apply (tc_transformed T1)|].
    split; [apply (tc_sets T1)|]. split; [apply (tc_heap T1)|].
    split; [apply (tc_specifier T1)|apply (tc_other T1)].
Qed.

Lemma transform_source_transforming (r : nat) (s jsFile : string) (httpExt : bool)
    (src : ModuleSource) :
  sat (transforming r s) (transform_source X C r s jsFile httpExt src).
Proof.
  unfold transform_source. apply transforming_shape.
  - destruct (SourceType_eqb (src_type src) CSS); [|apply sat_ret, touching_refl].
    apply sat_bind; [apply touching_trans| |intros _].
    { apply sat_modify. intros w. eexists. now apply touches_emit. }
    apply sat_bind; [apply touching_trans|apply sat_call, touching_refl|].
    intros [code map].
    apply sat_bind; [apply touching_trans|now apply touching_mutate|intros _].
    apply sat_ret, touching_refl.
  - intros source1.
    apply sat_bind; [apply touching_trans|apply sat_call, touching_refl|intros res].
    apply sat_bind; [apply touching_trans| |intros jsCode].
    { destruct (tr_starExports res) as [[|e es]|]; try apply sat_ret, touching_refl.
      destruct (negb (isDev C)); [apply sat_call|apply sat_ret]; apply touching_refl. }
    apply sat_bind; [apply touching_trans|now apply touching_mutate|intros _].
    apply sat_bind; [apply touching_trans| |intros _].
    { destruct (tr_denoHooks res) as [[|h hs]|]; try apply sat_ret, touching_refl.
      apply sat_bind; [apply touching_trans|now apply touching_mutate|intros _].
      destruct (negb (ssr C)); [|apply sat_ret, touching_refl].
      apply sat_modify. intros w. eexists. now apply touches_emit. }
    apply sat_bind; [apply touching_trans|apply run_transform_listeners_touching|].
    intros [[jsCode1 sourceMap] extraDeps].
    apply sat_bind; [apply touching_trans|now apply touching_mutate|intros _].
    apply sat_bind; [apply touching_trans| |intros _].
    { apply sat_modify. intros w. eexists. now apply touches_mutate. }
    apply sat_bind; [apply touching_trans| |intros _; apply sat_ret, touching_refl].
    apply sat_modify. intros w. apply cacheModule_touching.
Qed.

(** *** Steps of the pass *)

Lemma tracing_add_pass (t : nat) (s : string) (w : World) :
  pass_step t w (tracing_add t s w) [].
Proof.
  constructor; simpl; auto.
  - now rewrite app_nil_r.
  - constructor.
  - intros x [].
  - apply set_of_tracing_add_incl.
  - apply length_list_update.
  - intros r Hr Hin. split; [auto|]. split; [auto|].
    intros b Hb. exists b. split; [exact Hb|apply same_outside_markers_refl].
Qed.

(** Entering the body for an untraced specifier and transforming it. *)
Lemma transforming_pass (t r : nat) (s : string) (w w1 : World) :
  t < List.length (sets w) ->
  s = specifier (deref w r) ->
  ~ In s (set_of w t) ->
  transforming r s (tracing_add t s w) w1 ->
  exists evs,
    pass_step t w w1 evs
    /\ In s (set_of w1 t)
    /\ specifier (deref w1 r) = s.
Proof.
  intros Ht Hs Hnot (evs & Hev & Htr & Hsets & Hheap & Hspec & Hother).
  assert (Hset1 : set_of w1 t = set_add s (set_of w t)).
  { unfold set_of at 1. rewrite Hsets. fold (set_of (tracing_add t s w) t).
    now apply set_of_tracing_add_same. }
  assert (Hin1 : In s (set_of w1 t)) by (rewrite Hset1; apply set_add_In).
  exists evs. split; [|split; [exact Hin1|]].
  - constructor.
    + exact Hev.
    + destruct Htr as [-> | ->]; repeat constructor. intros [].
    + intros x Hx. destruct Htr as [H|H]; rewrite H in Hx; [destruct Hx|].
      destruct Hx as [<-|[]]. auto.
    + rewrite Hset1. apply set_add_incl.
    + rewrite Hsets. simpl. apply length_list_update.
    + rewrite Hheap. simpl. auto.
    + intros r' Hr'. destruct (Nat.eq_dec r' r) as [->|Hne].
      * exact Hspec.
      * now rewrite Hother.
    + intros r' Hr' Hin'.
      assert (Hne : r' <> r).
      { intros ->. apply Hnot. now rewrite Hs. }
      rewrite (Hother r' Hne). split; [auto|]. split; [auto|].
      intros b Hb. exists b. split; [exact Hb|apply same_outside_markers_refl].
  - rewrite Hspec. simpl. symmetry. exact Hs.
Qed.

Lemma replaceDepHash_sets (r : nat) (hashLoc : Z) (hash : string) (w : World) :
  sets (snd (replaceDepHash X C r hashLoc hash w)) = sets w.
Proof.
  unfold replaceDepHash, getModuleJS.
  destruct (jsBuffer (deref w r)) as [b|].
  - destruct (negb (equals _ _)); reflexivity.
  - destruct (map_get _ (jsFiles w)) as [b|]; [|reflexivity].
    destruct (negb (equals _ _)); reflexivity.
Qed.

Lemma cacheModule_sets (r : nat) (sourceMap : option string) (w : World) :
  sets (cacheModule X C r sourceMap w) = sets w.
Proof.
  unfold cacheModule. destruct (jsBuffer (deref w r)); [|reflexivity].
  destruct sourceMap as [sm|]; try destruct (isFilledString sm); reflexivity.
Qed.

Lemma cacheModule_passing (t r : nat) (sourceMap : option string) (w : World) :
  passing t w (cacheModule X C r sourceMap w).
Proof.
  intros _. destruct (cacheModule_patched_only X C r sourceMap w) as [evs P].
  exists evs. apply patched_only_pass; [exact P|apply cacheModule_sets].
Qed.

(** One task of the dependency loop of a traced module [r]. *)
Lemma transpile_dep_passing (t : nat) (rec : TranspileRec) (r : nat)
    (ignoreDeps httpExt : bool) (d : DependencyDescriptor) (w : World) :
  (forall dm src, sat (passing t) (rec dm src)) ->
  t < List.length (sets w) ->
  r < List.length (heap w) ->
  In (specifier (deref w r)) (set_of w t) ->
  In d (deps (deref w r)) ->
  post (transpile_dep X C rec r ignoreDeps httpExt d w) (passing t w).
Proof.
  intros Hrec Ht Hr Hin Hd. unfold transpile_dep.
  apply post_bind; [apply passing_trans|apply passing_refl| |].
  { destruct (ignoreDeps || dep_virtual d); [|apply sat_ret, passing_refl].
    intros w0. destruct (getModule w0 (dep_specifier d)); [apply passing_refl|].
    destruct (dep_virtual d); [|apply passing_refl].
    apply post_sat. apply sat_bind; [apply passing_trans| |].
    - eapply sat_weaken; [|apply initModule_quietly]. apply quietly_passing.
    - intros [dm src]. apply sat_ret, passing_refl. }
  intros depModule0 w1 P1.
  apply post_bind; [apply passing_trans|exact P1| |].
  { destruct depModule0 as [dm|]; [apply sat_ret, passing_refl|].
    apply sat_bind; [apply passing_trans| |].
    - eapply sat_weaken; [|apply initModule_quietly]. apply quietly_passing.
    - intros [dm src] w0. destruct (external (deref w0 dm)); [apply passing_refl|].
      apply post_sat. apply sat_bind; [apply passing_trans|apply Hrec|].
      intros _. apply sat_ret, passing_refl. }
  intros depModule w2 P2.
  destruct (dep_hashLoc d) as [hashLoc|] eqn:Hloc; [|exact P2].
  destruct (P2 Ht) as [e2 S2].
  destruct (ps_traced S2 r Hr Hin) as (_ & Hdeps & _).
  destruct (replaceDepHash_patched_only X C r hashLoc
              (computeModuleHash X w2 depModule) w2) as [P3 _].
  { exists d. split; [now rewrite Hdeps|exact Hloc]. }
  pose proof (replaceDepHash_sets r hashLoc (computeModuleHash X w2 depModule) w2)
    as Hsets.
  destruct (replaceDepHash X C r hashLoc (computeModuleHash X w2 depModule) w2)
    as [patched w3].
  simpl in *. intros _. eexists.
  eapply pass_step_trans; [exact S2|].
  apply patched_only_pass; [exact P3|exact Hsets].
Qed.

(** The dependency loop of a traced module. *)
Lemma transpile_deps_passing (t : nat) (rec : TranspileRec) (r : nat)
    (ignoreDeps httpExt : bool) :
  (forall dm src, sat (passing t) (rec dm src)) ->
  forall (ds : list DependencyDescriptor) (fsync : bool) (err : option string)
         (w0 w : World),
    t < List.length (sets w0) ->
    r < List.length (heap w0) ->
    In (specifier (deref w0 r)) (set_of w0 t) ->
    incl ds (deps (deref w0 r)) ->
    passing t w0 w ->
    post (transpile_deps X C rec r ignoreDeps httpExt ds fsync err w)
      (passing t w0).
Proof.
  intros Hrec. induction ds as [|d ds IH]; intros fsync err w0 w Ht Hr Hin Hincl P.
  - simpl. destruct err; exact P.
  - simpl.
    destruct (P Ht) as [e S].
    assert (Ht' : t < List.length (sets w)) by (rewrite (ps_sets S); exact Ht).
    assert (Hr' : r < List.length (heap w)) by (pose proof (ps_heap S); lia).
    assert (Hin' : In (specifier (deref w r)) (set_of w t)).
    { rewrite (ps_specifier S r Hr). now apply (ps_tracing S). }
    destruct (ps_traced S r Hr Hin) as (_ & Hdeps & _).
    assert (Hd : In d (deps (deref w r))).
    { rewrite Hdeps. apply Hincl. now left. }
    pose proof (transpile_dep_passing t rec r ignoreDeps httpExt d w
                  Hrec Ht' Hr' Hin' Hd) as Hdep.
    assert (Hincl' : incl ds (deps (deref w0 r)))
      by (intros x Hx; apply Hincl; now right).
    destruct (transpile_dep X C rec r ignoreDeps httpExt d w)
      as [patched w'|msg w'|w'|]; simpl in Hdep; auto.
    + apply IH; auto. eapply passing_trans; eauto.
    + apply IH; auto. eapply passing_trans; eauto.
    + simpl. eapply passing_trans; eauto.
Qed.

Lemma transpile_module_deps_passing (t : nat) (rec : TranspileRec) (r : nat)
    (ignoreDeps httpExt : bool) (w : World) :
  (forall dm src, sat (passing t) (rec dm src)) ->
  t < List.length (sets w) ->
  In (specifier (deref w r)) (set_of w t) ->
  post (transpile_module_deps X C rec r ignoreDeps httpExt w) (passing t w).
Proof.
  intros Hrec Ht Hin. unfold transpile_module_deps.
  destruct (deps (deref w r)) as [|d ds] eqn:Hds; [apply passing_refl|].
  assert (Hr : r < List.length (heap w)).
  { destruct (Nat.lt_ge_cases r (List.length (heap w))) as [H|H]; auto.
    unfold deref in Hds. rewrite nth_overflow in Hds by assumption. discriminate. }
  pose proof (transpile_deps_passing t rec r ignoreDeps httpExt Hrec (d :: ds)
                false None w w Ht Hr Hin) as Hloop.
  rewrite Hds in Hloop. specialize (Hloop (incl_refl _) (passing_refl t w)).
  destruct (transpile_deps X C rec r ignoreDeps httpExt (d :: ds) false None w)
    as [[|] w'|msg w'|w'|]; simpl in *; auto.
  eapply passing_trans; [exact Hloop|apply cacheModule_passing].
Qed.

Lemma transpile_body_passing (t : nat) (rec : TranspileRec) (r : nat)
    (source : option ModuleSource) (ignoreDeps : bool) :
  (forall dm src, sat (passing t) (rec dm src)) ->
  sat (passing t) (transpile_body X C rec r source ignoreDeps t).
Proof.
  intros Hrec w. unfold transpile_body.
  set (s := specifier (deref w r)).
  unfold tracing_has. destruct (set_has s (set_of w t)) eqn:Hhas;
    [apply passing_refl|].
  apply set_has_false in Hhas.
  set (w0 := tracing_add t s w).
  assert (P0 : passing t w w0).
  { intros _. exists []. apply tracing_add_pass. }
  assert (Hmid : forall w1,
            t < List.length (sets w) ->
            (exists evs, pass_step t w w1 evs) ->
            In s (set_of w1 t) -> specifier (deref w1 r) = s ->
            post (transpile_module_deps X C rec r ignoreDeps
                    (httpExternal (deref w r)) w1) (passing t w)).
  { intros w1 Ht [e1 S1] Hin1 Hs1.
    assert (Ht1 : t < List.length (sets w1)) by (rewrite (ps_sets S1); exact Ht).
    pose proof (transpile_module_deps_passing t rec r ignoreDeps
                  (httpExternal (deref w r)) w1 Hrec Ht1) as Hd.
    rewrite Hs1 in Hd. specialize (Hd Hin1).
    destruct (transpile_module_deps X C rec r ignoreDeps _ w1)
      as [u w2|msg w2|w2|]; simpl in *; auto;
      intros _; destruct (Hd Ht1) as [e2 S2]; eexists;
      eapply pass_step_trans; eauto. }
  destruct source as [src|].
  - destruct (SourceType_eqb (src_type src) Unknown).
    + simpl. eapply passing_trans; [exact P0|].
      apply quietly_passing.
      exists [EvLogError ("Unsupported module '" ++ s ++ "'")%string].
      constructor; simpl; auto.
    + unfold bind.
      pose proof (transform_source_transforming r s (jsFile (deref w r))
                    (httpExternal (deref w r)) src w0) as Htr.
      destruct (transform_source X C r s (jsFile (deref w r))
                  (httpExternal (deref w r)) src w0) as [src1 w1|msg w1|w1|];
        simpl in *; auto.
      * destruct (Nat.lt_ge_cases t (List.length (sets w))) as [Ht|Ht].
        -- destruct (transforming_pass t r s w w1 Ht eq_refl Hhas Htr)
             as (e1 & S1 & Hin1 & Hs1).
           specialize (Hmid w1 Ht (ex_intro _ e1 S1) Hin1 Hs1).
           destruct (transpile_module_deps X C rec r ignoreDeps _ w1)
             as [u w2|msg w2|w2|]; simpl in *; auto.
        -- destruct (transpile_module_deps X C rec r ignoreDeps _ w1)
             as [u w2|msg w2|w2|]; simpl; auto; intros Hlt; lia.
      * intros Ht.
        destruct (transforming_pass t r s w w1 Ht eq_refl Hhas Htr)
          as (e1 & S1 & _). now exists e1.
      * intros Ht.
        destruct (transforming_pass t r s w w1 Ht eq_refl Hhas Htr)
          as (e1 & S1 & _). now exists e1.
  - unfold bind.
    destruct (Nat.lt_ge_cases t (List.length (sets w))) as [Ht|Ht].
    + assert (Hin0 : In s (set_of w0 t)).
      { unfold w0. rewrite set_of_tracing_add_same by assumption. apply set_add_In. }
      specialize (Hmid w0 Ht (P0 Ht) Hin0 eq_refl).
      destruct (transpile_module_deps X C rec r ignoreDeps _ w0)
        as [u w2|msg w2|w2|]; simpl in *; auto.
    + destruct (transpile_module_deps X C rec r ignoreDeps _ w0)
        as [u w2|msg w2|w2|]; simpl; auto; intros Hlt; lia.
Qed.

Lemma transpileModule_passing (t : nat) (fuel : nat) :
  forall (r : nat) (source : option ModuleSource) (ignoreDeps : bool),
    sat (passing t) (transpileModule X C fuel r source ignoreDeps t).
Proof.
  induction fuel as [|fuel IH]; intros r source ignoreDeps.
  - intros w. exact I.
  - simpl. apply transpile_body_passing.
    intros dm src. apply sat_bind; [apply passing_trans|apply IH|].
    intros _. apply sat_ret, passing_refl.
Qed.

(** In one call of [compile], no specifier is transformed twice. *)
Lemma compile_pass_transforms_once (fuel : nat) (s : string) (o : CompileOptions)
    (w : World) :
  post (compile_pass X C fuel s o w)
    (fun w' => exists evs, events w' = events w ++ evs /\ NoDup (transformed evs)).
Proof.
  unfold compile_pass, bind.
  pose proof (initModule_quietly X C s o w) as Hinit.
  destruct (initModule X C s o w) as [[r source] w1|msg w1|w1|]; simpl in *; auto.
  - destruct Hinit as [e1 Q1].
    destruct (external (deref w1 r)).
    { simpl. exists e1. split; [apply (qs_events Q1)|].
      rewrite (qs_transformed Q1). constructor. }
    unfold new_set.
    set (t := List.length (sets w1)).
    set (w2 := with_sets (sets w1 ++ [[]]) w1).
    pose proof (transpileModule_passing t fuel r source (opt_ignoreDeps o) w2) as Hp.
    assert (Ht : t < List.length (sets w2)).
    { unfold w2, t. simpl. rewrite length_app. simpl. lia. }
    assert (Hfin : forall w', passing t w2 w' ->
              exists evs, events w' = events w ++ evs /\ NoDup (transformed evs)).
    { intros w' P. destruct (P Ht) as [e2 S2]. exists (e1 ++ e2). split.
      - rewrite (ps_events S2). simpl. rewrite (qs_events Q1).
        now rewrite app_assoc.
      - rewrite transformed_app, (qs_transformed Q1). apply (ps_nodup S2). }
    destruct (transpileModule X C fuel r source (opt_ignoreDeps o) t w2)
      as [src' w'|msg w'|w'|]; simpl in *; auto.
  - destruct Hinit as [e1 Q1]. exists e1. split; [apply (qs_events Q1)|].
    rewrite (qs_transformed Q1). constructor.
  - destruct Hinit as [e1 Q1]. exists e1. split; [apply (qs_events Q1)|].
    rewrite (qs_transformed Q1). constructor.
Qed.

End Transpile.

(** ** Claims about a compilation pass *)

Lemma ended_compile (X : Ext) (C : Config) (fuel : nat) (s : string)
    (o : CompileOptions) (w : World) :
  ended (compile X C fuel s o w) = ended (compile_pass X C fuel s o w).
Proof.
  unfold compile, bind.
  destruct (compile_pass X C fuel s o w) as [[r src] w'|msg w'|w'|]; reflexivity.
Qed.

Lemma post_ended (A : Type) (o : Outcome A) (Q : World -> Prop) (w' : World) :
  post o Q -> ended o = Some w' -> Q w'.
Proof. destruct o; simpl; intros H [= <-]; auto. Qed.



Section Recompile.
Variable X : Ext.
Variable C : Config.

(** A pass over a module that needs no transform: from the moment its
    specifier is traced, the pass only patches its markers. *)
Lemma transpileModule_null_source (fuel r t : nat) (ignoreDeps : bool) (w : World) :
  t < List.length (sets w) ->
  ~ In (specifier (deref w r)) (set_of w t) ->
  post (transpileModule X C fuel r None ignoreDeps t w)
    (fun w' => exists evs,
       pass_step t (tracing_add t (specifier (deref w r)) w) w' evs).
Proof.
  intros Ht Hnot. destruct fuel as [|fuel]; [exact I|].
  simpl. unfold transpile_body, tracing_has.
  destruct (set_has (specifier (deref w r)) (set_of w t)) eqn:Hhas.
  { apply set_has_In in Hhas. contradiction. }
  set (s := specifier (deref w r)) in *.
  set (w0 := tracing_add t s w).
  set (rec := fun dm src => _ <- transpileModule X C fuel dm src false t ;; ret tt).
  assert (Hrec : forall dm src, sat (passing t) (rec dm src)).
  { intros dm src. apply sat_bind; [apply passing_trans| |].
    - apply transpileModule_passing.
    - intros _. apply sat_ret, passing_refl. }
  assert (Ht0 : t < List.length (sets w0)).
  { unfold w0, tracing_add. simpl. now rewrite length_list_update. }
  assert (Hin0 : In (specifier (deref w0 r)) (set_of w0 t)).
  { unfold w0. rewrite set_of_tracing_add_same by assumption. apply set_add_In. }
  pose proof (transpile_module_deps_passing X C t rec r ignoreDeps
                (httpExternal (deref w r)) w0 Hrec Ht0 Hin0) as Hd.
  unfold bind.
  destruct (transpile_module_deps X C rec r ignoreDeps _ w0)
    as [u w2|msg w2|w2|]; simpl in *; auto.
Qed.

(** A registered, reusable module whose [ready] promise has resolved is
    what [#initModule] returns, with [source = null] and no effect. *)
Lemma initModule_registry_hit (s0 : string) (o : CompileOptions) (w : World)
    (s : string) (data : option string) (r0 : nat) :
  resolve_specifier C s0 (opt_source o) = (s, false, data) ->
  map_get s (modules w) = Some r0 ->
  reusable o (deref w r0) = true ->
  ready (deref w r0) = Resolved ->
  initModule X C s0 o w = Ok (r0, None) w.
Proof.
  intros Hres Hget Hreuse Hready.
  unfold initModule, initModule_enter. now rewrite Hres, Hget, Hreuse, Hready.
Qed.

(** Restoring from a valid sidecar whose hash is the hash of the
    source as loaded now: nothing is left to transpile. *)
Lemma initModule_load_restored (r : nat) (isNew : bool) (s : string)
    (data : option string) (o : CompileOptions) (w : World)
    (meta : MetaObject) (src : ModuleSource) (h : string) :
  opt_forceRefresh o = false ->
  opt_virtual o = false ->
  r < List.length (heap w) ->
  map_get (metaFilePath_for X C s) (metaFiles w) = Some (MetaValue meta) ->
  meta_is_valid s meta = true ->
  meta_sourceHash meta = Some h ->
  load_result X C s data (opt_source o) = Returns (src, h) ->
  exists w',
    initModule_load X C r isNew s data o w = Ok (r, None) w'
    /\ sourceHash (deref w' r) = h
    /\ transformed (skipn (List.length (events w)) (events w')) = [].
Proof.
  intros Hfr Hvirt Hr Hget Hvalid Hh Hload.
  assert (Hrest : restore_meta X r s (metaFilePath_for X C s) w
                  = mutate r (assign_meta meta) w).
  { unfold restore_meta. now rewrite Hget, Hvalid. }
  unfold initModule_load. rewrite Hfr, Hvirt, Hrest.
  set (w1 := mutate r (assign_meta meta) w).
  assert (Hhash1 : sourceHash (deref w1 r) = h).
  { unfold w1. rewrite deref_mutate_same by assumption. simpl. now rewrite Hh. }
  set (w2 := if reload C && negb (set_has ("init:" ++ s) (sessionStorage w1))
             then with_sessionStorage
                    (set_add ("init:" ++ s)%string (sessionStorage w1)) w1
             else w1).
  assert (Hw2 : heap w2 = heap w1 /\ events w2 = events w)
    by (unfold w2; destruct (reload C && _); split; reflexivity).
  destruct Hw2 as [Hheap2 Hev2].
  assert (Hlen1 : List.length (heap w1) = List.length (heap w))
    by (unfold w1; simpl; apply length_list_update).
  destruct (load_required X C r s w1).
  - rewrite load_and_hash_spec, Hload. cbv zeta.
    set (w0 := match opt_source o with Some _ => w2 | None => emit (EvLoad s) w2 end).
    assert (Hheap0 : heap w0 = heap w1)
      by (unfold w0; destruct (opt_source o); exact Hheap2).
    assert (Hev0 : exists e, events w0 = events w ++ e /\ transformed e = []).
    { unfold w0. destruct (opt_source o); simpl.
      - exists []. now rewrite app_nil_r.
      - exists [EvLoad s]. now rewrite Hev2. }
    assert (Hhash0 : sourceHash (deref w0 r) = h)
      by (unfold deref; rewrite Hheap0; exact Hhash1).
    rewrite Hhash0, String.eqb_refl.
    eexists. split; [reflexivity|]. split.
    + unfold defer. simpl. rewrite deref_mutate_field by reflexivity. exact Hhash0.
    + rewrite defer_events, app_nil_r. destruct Hev0 as (e & -> & He).
      now rewrite skipn_app, skipn_all, Nat.sub_diag.
  - eexists. split; [reflexivity|]. split.
    + unfold defer. simpl. rewrite deref_mutate_field by reflexivity. exact Hhash1.
    + rewrite defer_events, app_nil_r. unfold w1. simpl.
      now rewrite skipn_all.
Qed.

End Recompile.




(** * Concurrent calls of [compile] for one specifier *)

Lemma transforms_of_app (s : string) (e1 e2 : list Event) :
  transforms_of s (e1 ++ e2) = transforms_of s e1 + transforms_of s e2.
Proof.
  unfold transforms_of. now rewrite transformed_app, count_occ_app.
Qed.

Lemma transforms_of_quiet (s : string) (e : list Event) :
  transformed e = [] -> transforms_of s e = 0.
Proof.
  unfold transforms_of. now intros ->.
Qed.

Lemma transforms_of_nodup (s : string) (e : list Event) :
  NoDup (transformed e) -> transforms_of s e <= 1.
Proof.
  unfold transforms_of. intros H.
  now apply (proj1 (NoDup_count_occ string_dec (transformed e))).
Qed.

Lemma transforms_of_absent (s : string) (e : list Event) :
  ~ In s (transformed e) -> transforms_of s e = 0.
Proof.
  unfold transforms_of. intros H. now apply count_occ_not_In.
Qed.

Lemma Forall_list_update (A : Type) (P : A -> Prop) (k : nat) (v : A) (l : list A) :
  Forall P l -> P v -> Forall P (list_update k (fun _ => v) l).
Proof.
  intros Hl Hv. revert k. induction Hl as [|x l Hx Hl IH]; intros k.
  - destruct k; constructor.
  - destruct k; simpl; constructor; auto.
Qed.

Lemma list_update_app_length (A : Type) (f : A -> A) (pre : list A) (x : A)
    (rest : list A) :
  list_update (List.length pre) f (pre ++ x :: rest) = pre ++ f x :: rest.
Proof.
  induction pre as [|y pre IH]; simpl; [reflexivity|]. now rewrite IH.
Qed.

Lemma Forall_nth_error (A : Type) (P : A -> Prop) (l : list A) (k : nat) (x : A) :
  Forall P l -> nth_error l k = Some x -> P x.
Proof.
  intros Hl Hk. rewrite Forall_forall in Hl. apply Hl.
  eapply nth_error_In; eauto.
Qed.

Section SingleFlight.
Variable X : Ext.
Variable C : Config.
Variable fuel : nat.
Variable s0 : string.
Variable o : CompileOptions.

(** The load returns the module object it was started for. *)
Lemma initModule_load_ref (r : nat) (isNew : bool) (s : string)
    (data : option string) (w : World) (r' : nat) (src : option ModuleSource)
    (w' : World) :
  initModule_load X C r isNew s data o w = Ok (r', src) w' -> r' = r.
Proof.
  unfold initModule_load. intros H.
  destruct (opt_virtual o); [now inversion H|].
  destruct (load_required X C r s _); [|now inversion H].
  destruct (load_and_hash X C r s data (opt_source o) _); now inversion H.
Qed.

(** The load always ends, with the [ready] promise resolved. *)
Lemma initModule_load_resolves (r : nat) (isNew : bool) (s : string)
    (data : option string) (w : World) :
  r < List.length (heap w) ->
  exists src w',
    initModule_load X C r isNew s data o w = Ok (r, src) w'
    /\ ready (deref w' r) = Resolved.
Proof.
  intros Hr. unfold initModule_load.
  set (w1 := if opt_forceRefresh o then w
             else restore_meta X r s (metaFilePath_for X C s) w).
  assert (Hr1 : r < List.length (heap w1)).
  { unfold w1. destruct (opt_forceRefresh o); [assumption|].
    now rewrite restore_meta_heap_length. }
  destruct (opt_virtual o).
  { eexists _, _. split; [reflexivity|]. now apply defer_ready. }
  destruct (load_required X C r s w1).
  - rewrite load_and_hash_spec. cbv zeta.
    set (w2 := if reload C && negb (set_has ("init:" ++ s) (sessionStorage w1))
               then with_sessionStorage
                      (set_add ("init:" ++ s)%string (sessionStorage w1)) w1
               else w1).
    set (w0 := match opt_source o with Some _ => w2 | None => emit (EvLoad s) w2 end).
    assert (Hr0 : r < List.length (heap w0)).
    { unfold w0, w2. destruct (opt_source o); destruct (reload C && _); exact Hr1. }
    destruct (load_result X C s data (opt_source o)) as [[src h]|msg].
    + destruct (String.eqb (sourceHash (deref w0 r)) h).
      * eexists _, _. split; [reflexivity|]. now apply defer_ready.
      * eexists _, _. split; [reflexivity|]. apply defer_ready.
        simpl. now rewrite length_list_update.
    + eexists _, _. split; [reflexivity|]. now apply defer_ready.
  - eexists _, _. split; [reflexivity|]. now apply defer_ready.
Qed.

(** A caller alone goes through the same steps as [compile]. *)
Lemma task_steps_compile (w : World) :
  let '(t1, w1) := task_step X C fuel s0 o TStart w in
  let '(t2, w2) := task_step X C fuel s0 o t1 w1 in
  let '(t3, w3) := task_step X C fuel s0 o t2 w2 in
  match compile X C fuel s0 o w with
  | Ok r w' => t3 = TDone r /\ w3 = w'
  | Throw msg w' => t3 = TFailed msg /\ w3 = w'
  | Stuck w' => (t3 = TBlocked \/ exists r, t3 = TWaiting r) /\ w3 = w'
  | OutOfFuel => t3 = TBlocked
  end.
Proof.
  unfold compile, compile_pass, initModule, bind, task_step at 1.
  destruct (initModule_enter X C s0 o w) as [[r|r|r isNew s data] w1].
  - cbn [task_step].
    destruct (external (deref w1 r)) eqn:He.
    + cbn [task_step]. simpl. auto.
    + unfold new_set.
      destruct (transpileModule X C fuel r None (opt_ignoreDeps o) _ _)
        as [src' w'|msg w'|w'|]; simpl; auto.
  - cbn [task_step].
    destruct (ready (deref w1 r)) eqn:Hr.
    + cbn [task_step]. rewrite Hr. simpl. eauto.
    + cbn [task_step].
      destruct (external (deref w1 r)) eqn:He.
      * simpl. auto.
      * unfold new_set.
        destruct (transpileModule X C fuel r None (opt_ignoreDeps o) _ _)
          as [src' w'|msg w'|w'|]; simpl; auto.
  - cbn [task_step].
    destruct (initModule_load X C r isNew s data o w1)
      as [[r' src] w2|msg w2|w2|]; cbn [task_step]; simpl; auto.
    destruct (external (deref w2 r')) eqn:He.
    + simpl. auto.
    + unfold new_set.
      destruct (transpileModule X C fuel r' src (opt_ignoreDeps o) _ _)
        as [src' w'|msg w'|w'|]; simpl; auto.
Qed.

(** A step of the creator of [r]: the load transforms nothing, the
    transpilation transforms [s] at most once. *)
Lemma leader_step (r : nat) (s : string) (w0 : World) (task : Task)
    (w : World) (evs : list Event) (task' : Task) (w' : World) :
  leader_ok r s task ->
  r < List.length (heap w) ->
  specifier (deref w r) = s ->
  events w = events w0 ++ evs ->
  transforms_of s evs <= (if leader_pending task then 0 else 1) ->
  task_step X C fuel s0 o task w = (task', w') ->
  leader_ok r s task'
  /\ r < List.length (heap w')
  /\ specifier (deref w' r) = s
  /\ exists evs', events w' = events w0 ++ evs'
                  /\ transforms_of s evs' <= (if leader_pending task' then 0 else 1).
Proof.
  intros Hok Hr Hs Hev Hn Hstep.
  assert (Hsame : forall task1, task' = task1 -> w' = w ->
            leader_ok r s task1 ->
            (leader_pending task1 = true -> leader_pending task = true) ->
            leader_ok r s task'
            /\ r < List.length (heap w')
            /\ specifier (deref w' r) = s
            /\ exists evs', events w' = events w0 ++ evs'
                 /\ transforms_of s evs' <= (if leader_pending task' then 0 else 1)).
  { intros task1 -> -> Hok1 Hp. repeat split; auto. exists evs. split; auto.
    destruct (leader_pending task1).
    - now rewrite Hp in Hn.
    - destruct (leader_pending task); lia. }
  destruct task as [|r1|r1 isNew s1 data|r1 src| r1|msg|]; simpl in Hok;
    try contradiction.
  - (* the load *)
    destruct Hok as [-> ->]. simpl in Hn. cbn [task_step] in Hstep.
    pose proof (initModule_load_touching X C r isNew s data o w Hs) as T.
    pose proof (initModule_load_ref r isNew s data w) as Href.
    destruct (initModule_load X C r isNew s data o w)
      as [[r' src] w2|msg w2|w2|]; inversion Hstep; subst task' w'; clear Hstep.
    + assert (Hrr : r' = r) by (eapply Href; reflexivity). subst r'.
      destruct T as [e T]. simpl.
      repeat split; auto.
      * now rewrite (tc_heap T).
      * now rewrite (tc_specifier T).
      * exists (evs ++ e). split.
        -- rewrite (tc_events T), Hev. now rewrite app_assoc.
        -- rewrite transforms_of_app, (transforms_of_quiet _ _ (tc_transformed T)). lia.
    + destruct T as [e T]. simpl. repeat split; auto.
      * now rewrite (tc_heap T).
      * now rewrite (tc_specifier T).
      * exists (evs ++ e). split.
        -- rewrite (tc_events T), Hev. now rewrite app_assoc.
        -- rewrite transforms_of_app, (transforms_of_quiet _ _ (tc_transformed T)). lia.
    + destruct T as [e T]. simpl. repeat split; auto.
      * now rewrite (tc_heap T).
      * now rewrite (tc_specifier T).
      * exists (evs ++ e). split.
        -- rewrite (tc_events T), Hev. now rewrite app_assoc.
        -- rewrite transforms_of_app, (transforms_of_quiet _ _ (tc_transformed T)). lia.
    + simpl. repeat split; auto. exists evs. split; auto; lia.
  - (* the transpilation *)
    subst r1. simpl in Hn. cbn [task_step] in Hstep.
    destruct (external (deref w r)).
    { inversion Hstep; subst. simpl. repeat split; auto.
      exists evs. split; auto; lia. }
    unfold new_set in Hstep.
    set (t := List.length (sets w)) in *.
    set (w1 := with_sets (sets w ++ [[]]) w) in *.
    assert (Ht : t < List.length (sets w1)).
    { unfold w1, t. simpl. rewrite length_app. simpl. lia. }
    pose proof (transpileModule_passing X C t fuel r src (opt_ignoreDeps o) w1) as P.
    assert (Hfin : forall w2, passing t w1 w2 ->
              r < List.length (heap w2)
              /\ specifier (deref w2 r) = s
              /\ exists evs', events w2 = events w0 ++ evs'
                              /\ transforms_of s evs' <= 1).
    { intros w2 P2. destruct (P2 Ht) as [e S]. repeat split.
      - pose proof (ps_heap S) as Hh. simpl in Hh. lia.
      - rewrite (ps_specifier S r Hr). exact Hs.
      - exists (evs ++ e). split.
        + rewrite (ps_events S). simpl. rewrite Hev. now rewrite app_assoc.
        + rewrite transforms_of_app.
          pose proof (transforms_of_nodup s e (ps_nodup S)). lia. }
    destruct (transpileModule X C fuel r src (opt_ignoreDeps o) t w1)
      as [src' w2|msg w2|w2|]; inversion Hstep; subst task' w'; clear Hstep; simpl.
    + destruct (Hfin _ P) as (H1 & H2 & H3). auto.
    + destruct (Hfin _ P) as (H1 & H2 & H3). auto.
    + destruct (Hfin _ P) as (H1 & H2 & H3). auto.
    + repeat split; auto. exists evs. split; auto; lia.
  - cbn [task_step] in Hstep. inversion Hstep; subst task' w'.
    eapply Hsame; try reflexivity; simpl; auto; discriminate.
  - cbn [task_step] in Hstep. inversion Hstep; subst task' w'.
    eapply Hsame; try reflexivity; simpl; auto; discriminate.
  - cbn [task_step] in Hstep. inversion Hstep; subst task' w'.
    eapply Hsame; try reflexivity; simpl; auto; discriminate.
Qed.

(** A step of a caller that found [r] registered: it wakes up when
    [ready] has resolved and then transpiles without a source, which
    never transforms [s]. *)
Lemma follower_step (r : nat) (s : string) (task : Task) (w : World)
    (task' : Task) (w' : World) :
  follower_ok r task ->
  r < List.length (heap w) ->
  specifier (deref w r) = s ->
  task_step X C fuel s0 o task w = (task', w') ->
  follower_ok r task'
  /\ r < List.length (heap w')
  /\ specifier (deref w' r) = s
  /\ exists e, events w' = events w ++ e /\ transforms_of s e = 0.
Proof.
  intros Hok Hr Hs Hstep.
  assert (Hnil : events w = events w ++ [] /\ transforms_of s [] = 0)
    by (now rewrite app_nil_r).
  destruct task as [|r1|r1 isNew s1 data|r1 src| r1|msg|]; simpl in Hok;
    try contradiction; cbn [task_step] in Hstep.
  - subst r1. destruct (ready (deref w r)); inversion Hstep; subst; simpl;
      repeat split; eauto.
  - destruct Hok as [-> ->].
    destruct (external (deref w r)).
    { inversion Hstep; subst. simpl. repeat split; eauto. }
    unfold new_set in Hstep.
    set (t := List.length (sets w)) in *.
    set (w1 := with_sets (sets w ++ [[]]) w) in *.
    assert (Ht : t < List.length (sets w1)).
    { unfold w1, t. simpl. rewrite length_app. simpl. lia. }
    assert (Hempty : set_of w1 t = []).
    { unfold set_of, w1, t. simpl. rewrite app_nth2 by lia.
      now rewrite Nat.sub_diag. }
    assert (Hnot : ~ In (specifier (deref w1 r)) (set_of w1 t)).
    { rewrite Hempty. intros []. }
    pose proof (transpileModule_null_source X C fuel r t (opt_ignoreDeps o) w1
                  Ht Hnot) as P.
    assert (Hfin : forall w2,
              (exists evs, pass_step t (tracing_add t (specifier (deref w1 r)) w1)
                             w2 evs) ->
              r < List.length (heap w2)
              /\ specifier (deref w2 r) = s
              /\ exists e, events w2 = events w ++ e /\ transforms_of s e = 0).
    { intros w2 [e S]. repeat split.
      - pose proof (ps_heap S) as Hh. simpl in Hh. lia.
      - rewrite (ps_specifier S r Hr). exact Hs.
      - exists e. split; [apply (ps_events S)|].
        apply transforms_of_absent. intros Hin.
        destruct (ps_fresh S s Hin) as [Hout _]. apply Hout.
        change (specifier (deref w1 r)) with (specifier (deref w r)).
        rewrite Hs. rewrite set_of_tracing_add_same by assumption.
        apply set_add_In. }
    destruct (transpileModule X C fuel r None (opt_ignoreDeps o) t w1)
      as [src' w2|msg w2|w2|]; inversion Hstep; subst task' w'; clear Hstep; simpl.
    + destruct (Hfin _ P) as (H1 & H2 & H3). auto.
    + destruct (Hfin _ P) as (H1 & H2 & H3). auto.
    + destruct (Hfin _ P) as (H1 & H2 & H3). auto.
    + repeat split; eauto.
  - inversion Hstep; subst. simpl. repeat split; eauto.
  - inversion Hstep; subst. simpl. repeat split; eauto.
  - inversion Hstep; subst. simpl. repeat split; eauto.
Qed.

Lemma flight_step (r : nat) (s : string) (w : World) (st : list Task * World)
    (k : nat) :
  flight r s w st -> flight r s w (schedule_step X C fuel s0 o st k).
Proof.
  destruct st as [tasks wc].
  intros (leader & followers & evs & Htasks & Hl & Hf & Hr & Hs & Hev & Hn).
  simpl in Htasks, Hr, Hs, Hev. subst tasks. unfold schedule_step.
  cbn [fst snd]. destruct k as [|k]; cbn [nth_error].
  - destruct (task_step X C fuel s0 o leader wc) as [task' w'] eqn:E.
    destruct (leader_step r s w leader wc evs task' w' Hl Hr Hs Hev Hn E)
      as (H1 & H2 & H3 & evs' & H4 & H5).
    exists task', followers, evs'. simpl. repeat split; auto.
  - destruct (nth_error followers k) as [task|] eqn:Hk.
    + pose proof (Forall_nth_error _ _ _ _ _ Hf Hk) as Hok.
      destruct (task_step X C fuel s0 o task wc) as [task' w'] eqn:E.
      destruct (follower_step r s task wc task' w' Hok Hr Hs E)
        as (H1 & H2 & H3 & e & H4 & H5).
      exists leader, (list_update k (fun _ => task') followers), (evs ++ e).
      simpl. repeat split; auto.
      * now apply Forall_list_update.
      * rewrite H4, Hev. now rewrite app_assoc.
      * rewrite transforms_of_app, H5. lia.
    + exists leader, followers, evs. simpl. repeat split; auto.
Qed.

Lemma flight_run (r : nat) (s : string) (w : World) (sched : list nat) :
  forall st, flight r s w st -> flight r s w (run_schedule X C fuel s0 o sched st).
Proof.
  unfold run_schedule. induction sched as [|k sched IH]; intros st H; simpl; auto.
  apply IH. now apply flight_step.
Qed.

(** Calls issued while [s] is registered with a reusable module only
    find it. *)
Lemma issue_followers (s : string) (data : option string) (r : nat) (w1 : World) :
  resolve_specifier C s0 (opt_source o) = (s, false, data) ->
  map_get s (modules w1) = Some r ->
  reusable o (deref w1 r) = true ->
  forall m pre,
    run_schedule X C fuel s0 o (seq (List.length pre) m) (pre ++ repeat TStart m, w1)
    = (pre ++ repeat (TWaiting r) m, w1).
Proof.
  intros Hres Hget Hreuse. unfold run_schedule.
  induction m as [|m IH]; intros pre; [reflexivity|].
  cbn [seq fold_left repeat]. unfold schedule_step at 2. cbn [fst snd].
  rewrite nth_error_app2 by lia. rewrite Nat.sub_diag. cbn [nth_error task_step].
  unfold initModule_enter. rewrite Hres, Hget, Hreuse.
  rewrite list_update_app_length.
  specialize (IH (pre ++ [TWaiting r])).
  rewrite length_app, Nat.add_1_r in IH. rewrite <- !app_assoc in IH.
  exact IH.
Qed.

(** The first call creates and publishes the module; the others find it. *)
Lemma issue_all (s : string) (data : option string) (n : nat) (w : World) :
  resolve_specifier C s0 (opt_source o) = (s, false, data) ->
  map_get s (modules w) = None ->
  opt_forceRefresh o = false ->
  run_schedule X C fuel s0 o (seq 0 (S n)) (repeat TStart (S n), w)
  = (TLoading (List.length (heap w)) true s data
       :: repeat (TWaiting (List.length (heap w))) n,
     snd (publish X s o w)).
Proof.
  intros Hres Hget Hfr.
  cbn [seq repeat]. unfold run_schedule. cbn [fold_left].
  unfold schedule_step at 2. cbn [fst snd nth_error task_step].
  unfold initModule_enter. rewrite Hres, Hget, publish_eta.
  cbn [list_update].
  apply (issue_followers s data (List.length (heap w)) (snd (publish X s o w))
           Hres) with (pre := [TLoading (List.length (heap w)) true s data]).
  - rewrite publish_modules. apply map_get_set_same.
  - rewrite publish_fresh. unfold reusable, fresh_module. cbn [httpExternal].
    rewrite Hfr. now destruct (opt_httpExternal o).
Qed.

Lemma flight_issued (s : string) (data : option string) (n : nat) (w : World) :
  flight (List.length (heap w)) s w
    (TLoading (List.length (heap w)) true s data
       :: repeat (TWaiting (List.length (heap w))) n,
     snd (publish X s o w)).
Proof.
  exists (TLoading (List.length (heap w)) true s data),
         (repeat (TWaiting (List.length (heap w))) n), [].
  cbn [fst snd]. repeat split; auto.
  - apply Forall_forall. intros task Hin. apply repeat_spec in Hin. now subst.
  - rewrite publish_heap, length_app. simpl. lia.
  - now rewrite publish_fresh.
  - rewrite publish_events. now rewrite app_nil_r.
Qed.

End SingleFlight.





(** * [lookupDeps] terminates on every registry *)

Lemma filter_length_le (A : Type) (f g : A -> bool) (l : list A) :
  (forall x, f x = true -> g x = true) ->
  List.length (filter f l) <= List.length (filter g l).
Proof.
  intros H. induction l as [|x l IH]; simpl; [lia|].
  destruct (f x) eqn:Hf.
  - rewrite (H x Hf). simpl. lia.
  - destruct (g x); simpl; lia.
Qed.

Lemma filter_length_lt (A : Type) (f g : A -> bool) (l : list A) (a : A) :
  (forall x, f x = true -> g x = true) ->
  In a l -> f a = false -> g a = true ->
  List.length (filter f l) < List.length (filter g l).
Proof.
  intros H Hin Hf Hg. induction l as [|x l IH]; simpl; [contradiction|].
  destruct Hin as [->|Hin].
  - rewrite Hf, Hg. simpl.
    pose proof (filter_length_le _ f g l H). lia.
  - specialize (IH Hin). destruct (f x) eqn:Hfx.
    + rewrite (H x Hfx). simpl. lia.
    + destruct (g x); simpl; lia.
Qed.

Lemma set_has_incl (x : string) (t t' : list string) :
  incl t t' -> set_has x t = true -> set_has x t' = true.
Proof.
  intros Hi H. apply set_has_In. apply Hi. now apply set_has_In.
Qed.

Lemma untraced_mono (w : World) (t t' : list string) :
  incl t t' -> untraced w t' <= untraced w t.
Proof.
  intros Hi. unfold untraced. apply filter_length_le.
  intros x Hx. apply negb_true_iff in Hx. apply negb_true_iff.
  destruct (set_has x t) eqn:E; [|reflexivity].
  rewrite (set_has_incl x t t' Hi E) in Hx. discriminate.
Qed.

Lemma map_get_keys (V : Type) (k : string) (m : JsMap V) (v : V) :
  map_get k m = Some v -> In k (map_keys m).
Proof.
  induction m as [|[k' v'] m IH]; simpl; [discriminate|].
  destruct (String.eqb k k') eqn:E.
  - apply String.eqb_eq in E. subst. now left.
  - intros H. right. now apply IH.
Qed.

Lemma getModule_universe (w : World) (s : string) (r : nat) :
  getModule w s = Some r -> In s (lookup_universe w).
Proof.
  unfold getModule, lookup_universe.
  destruct (String.eqb s "app") eqn:E.
  - apply String.eqb_eq in E. subst. now left.
  - intros H. right. eapply map_get_keys; eauto.
Qed.

Lemma untraced_add (w : World) (s : string) (t : list string) :
  In s (lookup_universe w) -> set_has s t = false ->
  untraced w (set_add s t) < untraced w t.
Proof.
  intros Hin Hnot. unfold untraced. apply filter_length_lt with (a := s); auto.
  - intros x Hx. apply negb_true_iff in Hx. apply negb_true_iff.
    destruct (set_has x t) eqn:E; [|reflexivity].
    rewrite (set_has_incl x t (set_add s t) (set_add_incl s t) E) in Hx.
    discriminate.
  - apply negb_false_iff. apply set_has_In. apply set_add_In.
  - now rewrite Hnot.
Qed.

(** With more budget than untraced specifiers the walk returns, and its
    tracing set has only grown. *)
Lemma lookupDeps_enough_fuel (A : Type) (w : World)
    (callback : DependencyDescriptor -> A -> A * bool) (fuel : nat) :
  forall (s : string) (acc : A) (tracing : list string),
    untraced w tracing < fuel ->
    exists acc' tracing' stopped,
      lookupDeps fuel w callback s acc tracing = Some (acc', tracing', stopped)
      /\ incl tracing tracing'.
Proof.
  induction fuel as [|fuel IH]; intros s acc tracing Hfuel; [lia|].
  simpl. destruct (getModule w s) as [r|] eqn:Hget.
  2:{ exists acc, tracing, false. split; [reflexivity|apply incl_refl]. }
  destruct (set_has s tracing) eqn:Hhas.
  { exists acc, tracing, false. split; [reflexivity|apply incl_refl]. }
  destruct (visit_deps callback (deps (deref w r)) acc) as [acc1 stop].
  destruct stop.
  { exists acc1, (set_add s tracing), true. split; [reflexivity|apply set_add_incl]. }
  pose proof (untraced_add w s tracing (getModule_universe w s r Hget) Hhas) as Hlt.
  assert (Hwalk : forall ds acc2 tracing2,
            incl (set_add s tracing) tracing2 ->
            exists acc' tracing' stopped,
              walk_deps (lookupDeps fuel w callback) ds acc2 tracing2
              = Some (acc', tracing', stopped)
              /\ incl tracing2 tracing').
  { induction ds as [|d ds IHds]; intros acc2 tracing2 Hi; simpl.
    - exists acc2, tracing2, false. split; [reflexivity|apply incl_refl].
    - pose proof (untraced_mono w _ _ Hi) as Hm.
      destruct (IH (dep_specifier d) acc2 tracing2) as (a & t & b & E & Hi2); [lia|].
      rewrite E. destruct b.
      + exists a, t, true. split; [reflexivity|exact Hi2].
      + destruct (IHds a t) as (a' & t' & b' & E' & Hi3).
        { eapply incl_tran; eauto. }
        exists a', t', b'. split; [exact E'|]. eapply incl_tran; eauto. }
  destruct (Hwalk (deps (deref w r)) acc1 (set_add s tracing) (incl_refl _))
    as (a & t & b & E & Hi).
  exists a, t, b. split; [exact E|].
  eapply incl_tran; [apply set_add_incl|exact Hi].
Qed.

Lemma untraced_nil (w : World) : untraced w [] < lookup_fuel w.
Proof.
  unfold untraced, lookup_fuel.
  assert (Hall : forall l : list string, filter (fun _ => true) l = l).
  { induction l as [|x l IHl]; simpl; congruence. }
  assert (Hlen : List.length (lookup_universe w) = S (List.length (modules w))).
  { unfold lookup_universe, map_keys. simpl. now rewrite length_map. }
  change (fun k => negb (set_has k [])) with (fun _ : string => true).
  rewrite Hall, Hlen. lia.
Qed.

(** The budget of [computeModuleHash] is never exhausted: the hash is
    the MD5 of the source hash followed by what the walk appended. *)
Lemma computeModuleHash_walk (X : Ext) (w : World) (r : nat) :
  exists acc tracing stopped,
    lookupDeps (lookup_fuel w) w (hash_dep w) (specifier (deref w r))
      (sourceHash (deref w r)) [] = Some (acc, tracing, stopped)
    /\ computeModuleHash X w r = md5 X acc.
Proof.
  destruct (lookupDeps_enough_fuel _ w (hash_dep w) (lookup_fuel w)
              (specifier (deref w r)) (sourceHash (deref w r)) []
              (untraced_nil w)) as (acc & t & b & E & _).
  exists acc, t, b. split; [exact E|].
  unfold computeModuleHash. now rewrite E.
Qed.

(** On every registry, cyclic or not, and for every callback,
    [lookupDeps] returns: a specifier is expanded only when [getModule]
    knows it and the tracing set has not seen it. *)
Theorem lookupDeps_terminates :
  forall (A : Type) (w : World)
         (callback : DependencyDescriptor -> A -> A * bool)
         (s : string) (acc : A),
  exists acc' tracing stopped,
    lookupDeps (lookup_fuel w) w callback s acc [] = Some (acc', tracing, stopped).
Proof.
  intros A w callback s acc.
  destruct (lookupDeps_enough_fuel _ w callback (lookup_fuel w) s acc []
              (untraced_nil w)) as (acc' & t & b & E & _).
  now exists acc', t, b.
Qed.

(** * Hash markers: where they are recorded and how a patch settles *)

Lemma byte_eqb_refl (x : byte) : byte_eqb x x = true.
Proof. unfold byte_eqb. now apply Byte.byte_dec_lb. Qed.

Lemma equals_eq (a b : bytes) : equals a b = true <-> a = b.
Proof.
  revert b. induction a as [|x a IH]; intros [|y b]; simpl; split; intros H;
    try discriminate; try reflexivity.
  - apply andb_true_iff in H. destruct H as [Hxy Hab].
    apply Byte.byte_dec_bl in Hxy. apply IH in Hab. now subst.
  - inversion H; subst. rewrite byte_eqb_refl. simpl. now apply IH.
Qed.

Lemma equals_length (a b : bytes) :
  List.length a <> List.length b -> equals a b = false.
Proof.
  intros Hne. destruct (equals a b) eqn:E; [|reflexivity].
  apply equals_eq in E. now subst.
Qed.

Lemma length_substring (n m : nat) (s : string) :
  n + m <= String.length s -> String.length (substring n m s) = m.
Proof.
  revert n m. induction s as [|c s IH]; intros n m H; simpl in H.
  - assert (n = 0) by lia. assert (m = 0) by lia. now subst.
  - destruct n as [|n]; destruct m as [|m]; simpl; auto.
    + rewrite (IH 0 m); [reflexivity|lia].
    + apply IH. lia.
    + apply IH. lia.
Qed.

(** The six bytes [encoder.encode(hash.substr(0, 6))] of a hash of at
    least six characters. *)
Lemma length_hashData_full (hash : string) :
  6 <= String.length hash -> List.length (encode (substr06 hash)) = 6.
Proof.
  intros H. rewrite length_encode. unfold substr06.
  now apply length_substring.
Qed.

Lemma length_slice (buf : bytes) (start stop : Z) :
  List.length (slice buf start stop)
  = Nat.min (rel_index (List.length buf) stop - rel_index (List.length buf) start)
      (List.length buf - rel_index (List.length buf) start).
Proof.
  unfold slice. now rewrite length_firstn, length_skipn.
Qed.

(** Inside the buffer, [slice] is [firstn] of [skipn]. *)
Lemma slice_inside (buf : bytes) (off : Z) (n : nat) :
  (0 <= off)%Z -> (off + Z.of_nat n <= Z.of_nat (List.length buf))%Z ->
  slice buf off (off + Z.of_nat n) = firstn n (skipn (Z.to_nat off) buf).
Proof.
  intros H0 H1. unfold slice, rel_index.
  assert (E0 : (off <? 0)%Z = false) by (apply Z.ltb_ge; lia).
  assert (E1 : (off + Z.of_nat n <? 0)%Z = false) by (apply Z.ltb_ge; lia).
  rewrite E0, E1.
  replace (Nat.min (Z.to_nat off) (List.length buf)) with (Z.to_nat off) by lia.
  replace (Nat.min (Z.to_nat (off + Z.of_nat n)) (List.length buf))
    with (Z.to_nat off + n) by lia.
  now replace (Z.to_nat off + n - Z.to_nat off) with n by lia.
Qed.

(** What [copy] wrote is what [slice] reads back. *)
Lemma slice_copy (src dst : bytes) (off : Z) :
  (0 <= off)%Z ->
  (off + Z.of_nat (List.length src) <= Z.of_nat (List.length dst))%Z ->
  slice (copy src dst off) off (off + Z.of_nat (List.length src)) = src.
Proof.
  intros H0 H1. rewrite slice_inside; [|assumption|rewrite length_copy; assumption].
  unfold copy, copy_offset.
  replace (Z.to_nat (Z.max 0 (Z.min off (Z.of_nat (List.length dst)))))
    with (Z.to_nat off) by lia.
  rewrite (firstn_all2 (n := List.length dst - Z.to_nat off) src) by lia.
  rewrite skipn_app.
  rewrite length_firstn.
  replace (Nat.min (Z.to_nat off) (List.length dst)) with (Z.to_nat off) by lia.
  rewrite Nat.sub_diag. simpl.
  rewrite skipn_all2 by (rewrite length_firstn; lia). simpl.
  rewrite firstn_app, Nat.sub_diag, firstn_all. simpl. now rewrite app_nil_r.
Qed.

Section Patch.
Variable X : Ext.
Variable C : Config.

(** A patch of a buffer held in memory, step by step. *)
Lemma replaceDepHash_in_memory (r : nat) (hashLoc : Z) (hash : string)
    (w : World) (b : bytes) :
  jsBuffer (deref w r) = Some b ->
  replaceDepHash X C r hashLoc hash w
  = if equals (encode (substr06 hash)) (slice b hashLoc (hashLoc + 6))
    then (false, w)
    else (true, mutate r (with_csrCode None)
                  (mutate r (with_jsBuffer
                               (Some (copy (encode (substr06 hash)) b hashLoc))) w)).
Proof.
  intros Hb. unfold replaceDepHash, getModuleJS. rewrite Hb.
  now destruct (equals _ _).
Qed.

(** The buffer [getModuleJS] returns is the one the module holds
    afterwards. *)
Lemma getModuleJS_held (r : nat) (w : World) (b : bytes) :
  r < List.length (heap w) ->
  fst (getModuleJS X C r w) = Some b ->
  jsBuffer (deref (snd (getModuleJS X C r w)) r) = Some b
  /\ List.length (heap (snd (getModuleJS X C r w))) = List.length (heap w).
Proof.
  intros Hr. unfold getModuleJS.
  destruct (jsBuffer (deref w r)) as [b0|] eqn:Hb; simpl.
  - intros [= <-]. auto.
  - destruct (map_get (jsFilePath X C (deref w r)) (jsFiles w)) as [b0|]; simpl.
    + intros [= <-]. rewrite deref_mutate_same by assumption.
      now rewrite length_list_update.
    + discriminate.
Qed.

(** Loading the buffer first does not change what a patch does. *)
Lemma replaceDepHash_after_load (r : nat) (hashLoc : Z) (hash : string) (w : World) :
  r < List.length (heap w) ->
  replaceDepHash X C r hashLoc hash w
  = replaceDepHash X C r hashLoc hash (snd (getModuleJS X C r w)).
Proof.
  intros Hr. unfold replaceDepHash at 1 2. unfold getModuleJS.
  destruct (jsBuffer (deref w r)) as [b0|] eqn:Hb; simpl.
  - now rewrite Hb.
  - destruct (map_get (jsFilePath X C (deref w r)) (jsFiles w)) as [b0|] eqn:Hf; simpl.
    + rewrite deref_mutate_same by assumption. simpl. reflexivity.
    + now rewrite Hb, Hf.
Qed.

Lemma jsBuffer_patched (r : nat) (b : bytes) (w : World) :
  r < List.length (heap w) ->
  jsBuffer (deref (mutate r (with_csrCode None)
                     (mutate r (with_jsBuffer (Some b)) w)) r) = Some b
  /\ csrCode (deref (mutate r (with_csrCode None)
                       (mutate r (with_jsBuffer (Some b)) w)) r) = None.
Proof.
  intros Hr. rewrite mutate_twice. now rewrite deref_mutate_same.
Qed.

(** No dependency of [ds] is a marker of [by_]. *)
Lemma patch_deps_noop (by_ r : nat) (ds : list DependencyDescriptor)
    (hash : option string) (fsync : bool) (w : World) :
  forallb (fun d => negb (embeds (specifier (deref w by_)) d)) ds = true ->
  patch_deps X C by_ r ds hash fsync w = (hash, fsync, w).
Proof.
  induction ds as [|d ds IH]; simpl; [reflexivity|].
  intros H. apply andb_true_iff in H. destruct H as [Hd Hds].
  unfold embeds in Hd. destruct (dep_hashLoc d) as [l|].
  - simpl in Hd. apply negb_true_iff in Hd. rewrite Hd. now apply IH.
  - now apply IH.
Qed.

Lemma scan_modules_noop (rec : nat -> World -> option World) (by_ : nat)
    (ms : list nat) (hash : option string) (w : World) :
  forallb (fun r => forallb (fun d => negb (embeds (specifier (deref w by_)) d))
                      (deps (deref w r))) ms = true ->
  scan_modules X C rec by_ ms hash w = Some w.
Proof.
  induction ms as [|r ms IH]; simpl; [reflexivity|].
  intros H. apply andb_true_iff in H. destruct H as [Hr Hms].
  destruct (deps (deref w r)) as [|d ds] eqn:Hd; [now apply IH|].
  rewrite patch_deps_noop by exact Hr. now apply IH.
Qed.

End Patch.

(** [#replaceDepHash] settles.  When the six-byte window at [hashLoc]
    lies inside the compiled buffer and the hash has at least six
    characters, then after one call the window holds the first six
    characters of the hash, the buffer has kept its length, and a second
    call with the same hash returns [false] and changes nothing. *)
Theorem replaceDepHash_settles :
  forall (X : Ext) (C : Config) (r : nat) (hashLoc : Z) (hash : string)
         (w : World) (b : bytes),
    r < List.length (heap w) ->
    fst (getModuleJS X C r w) = Some b ->
    (0 <= hashLoc)%Z ->
    (hashLoc + 6 <= Z.of_nat (List.length b))%Z ->
    6 <= String.length hash ->
    let w1 := snd (replaceDepHash X C r hashLoc hash w) in
    replaceDepHash X C r hashLoc hash w1 = (false, w1)
    /\ exists b1,
         jsBuffer (deref w1 r) = Some b1
         /\ List.length b1 = List.length b
         /\ slice b1 hashLoc (hashLoc + 6) = encode (substr06 hash).
Proof.
  intros X C r hashLoc hash w b Hr Hget H0 H1 Hlen.
  destruct (getModuleJS_held X C r w b Hr Hget) as [Hb0 Hh0].
  rewrite (replaceDepHash_after_load X C r hashLoc hash w Hr).
  set (w0 := snd (getModuleJS X C r w)) in *.
  assert (Hr0 : r < List.length (heap w0)) by lia.
  pose proof (length_hashData_full hash Hlen) as Hd.
  rewrite (replaceDepHash_in_memory X C r hashLoc hash w0 b Hb0).
  destruct (equals (encode (substr06 hash)) (slice b hashLoc (hashLoc + 6))) eqn:E;
    cbn [snd].
  - rewrite (replaceDepHash_in_memory X C r hashLoc hash w0 b Hb0), E.
    split; [reflexivity|]. exists b. repeat split; auto.
    apply equals_eq in E. now symmetry.
  - destruct (jsBuffer_patched r (copy (encode (substr06 hash)) b hashLoc) w0 Hr0)
      as [Hb1 _].
    assert (Hs : slice (copy (encode (substr06 hash)) b hashLoc) hashLoc (hashLoc + 6)
                 = encode (substr06 hash)).
    { replace 6%Z with (Z.of_nat (List.length (encode (substr06 hash))))
        by (rewrite Hd; reflexivity).
      apply slice_copy; [assumption|]. rewrite Hd. simpl. lia. }
    rewrite (replaceDepHash_in_memory X C r hashLoc hash _ _ Hb1), Hs.
    assert (Er : equals (encode (substr06 hash)) (encode (substr06 hash)) = true)
      by now apply equals_eq.
    rewrite Er. split; [reflexivity|].
    exists (copy (encode (substr06 hash)) b hashLoc).
    repeat split; [exact Hb1|apply length_copy|exact Hs].
Qed.

Lemma replaceDepHash_settles_witness :
  replaceDepHash std_plain plain_config 0 15 "abcdef0123"
    (snd (replaceDepHash std_plain plain_config 0 15 "abcdef0123" marker_world))
  = (false, snd (replaceDepHash std_plain plain_config 0 15 "abcdef0123" marker_world))
  /\ jsBuffer (deref (snd (replaceDepHash std_plain plain_config 0 15 "abcdef0123"
                             marker_world)) 0)
     = Some (encode "import './a.js#abcdef'").
Proof.
  split.
  - apply (proj1 (replaceDepHash_settles std_plain plain_config 0 15 "abcdef0123"
                    marker_world (encode "import './a.js#000000'")
                    ltac:(vm_compute; lia) eq_refl ltac:(lia)
                    ltac:(vm_compute; discriminate) ltac:(vm_compute; lia))).
  - reflexivity.
Defined.

(** A window cut by the end of the buffer never settles: when fewer than
    six bytes remain at [hashLoc], every call of [#replaceDepHash]
    rewrites the bytes that fit, removes [csrCode] and returns [true],
    whatever the buffer holds, and leaves the buffer as long as it was. *)
Theorem replaceDepHash_cut_window :
  forall (X : Ext) (C : Config) (r : nat) (hashLoc : Z) (hash : string)
         (w : World) (b : bytes),
    r < List.length (heap w) ->
    fst (getModuleJS X C r w) = Some b ->
    (0 <= hashLoc)%Z ->
    (Z.of_nat (List.length b) < hashLoc + 6)%Z ->
    6 <= String.length hash ->
    exists w1 b1,
      replaceDepHash X C r hashLoc hash w = (true, w1)
      /\ jsBuffer (deref w1 r) = Some b1
      /\ List.length b1 = List.length b
      /\ csrCode (deref w1 r) = None
      /\ List.length (heap w1) = List.length (heap w).
Proof.
  intros X C r hashLoc hash w b Hr Hget H0 H1 Hlen.
  destruct (getModuleJS_held X C r w b Hr Hget) as [Hb0 Hh0].
  rewrite (replaceDepHash_after_load X C r hashLoc hash w Hr).
  set (w0 := snd (getModuleJS X C r w)) in *.
  assert (Hr0 : r < List.length (heap w0)) by lia.
  pose proof (length_hashData_full hash Hlen) as Hd.
  rewrite (replaceDepHash_in_memory X C r hashLoc hash w0 b Hb0).
  assert (E : equals (encode (substr06 hash)) (slice b hashLoc (hashLoc + 6)) = false).
  { apply equals_length. rewrite Hd, length_slice. unfold rel_index.
    assert (E0 : (hashLoc <? 0)%Z = false) by (apply Z.ltb_ge; lia).
    assert (E1 : (hashLoc + 6 <? 0)%Z = false) by (apply Z.ltb_ge; lia).
    rewrite E0, E1. lia. }
  rewrite E.
  destruct (jsBuffer_patched r (copy (encode (substr06 hash)) b hashLoc) w0 Hr0)
    as [Hb1 Hc1].
  exists (mutate r (with_csrCode None)
            (mutate r (with_jsBuffer (Some (copy (encode (substr06 hash)) b hashLoc)))
               w0)),
         (copy (encode (substr06 hash)) b hashLoc).
  split; [reflexivity|]. repeat split.
  - exact Hb1.
  - apply length_copy.
  - exact Hc1.
  - simpl. rewrite !length_list_update. exact Hh0.
Qed.

Lemma replaceDepHash_cut_window_witness :
  exists w1 b1,
    replaceDepHash std_plain plain_config 0 18 "abcdef0123" marker_world = (true, w1)
    /\ jsBuffer (deref w1 0) = Some b1
    /\ List.length b1 = 22
    /\ csrCode (deref w1 0) = None
    /\ List.length (heap w1) = 1.
Proof.
  apply (replaceDepHash_cut_window std_plain plain_config 0 18 "abcdef0123"
           marker_world (encode "import './a.js#000000'")
           ltac:(vm_compute; lia) eq_refl ltac:(lia)
           ltac:(vm_compute; reflexivity) ltac:(vm_compute; lia)).
Defined.

(** A cascade from a module nobody embeds is empty: when no registered
    module lists [by] with a [hashLoc], [#applyCompilationSideEffect]
    returns at once; it computes no hash, reads and writes no file,
    touches no module object and calls the callback for nobody. *)
Theorem cascade_without_dependents :
  forall (X : Ext) (C : Config) (fuel by_ : nat) (tracing : list string)
         (w : World),
    no_dependents w by_ = true ->
    applyCompilationSideEffect X C (S fuel) by_ tracing w
    = Some (if set_has (specifier (deref w by_)) tracing then w
            else emit (EvSideEffectBy (specifier (deref w by_))) w).
Proof.
  intros X C fuel by_ tracing w H. cbn [applyCompilationSideEffect].
  destruct (set_has (specifier (deref w by_)) tracing); [reflexivity|].
  apply scan_modules_noop. exact H.
Qed.

Lemma cascade_without_dependents_witness :
  applyCompilationSideEffect (diamond_ext "export default 2") plain_config 3 0 []
    (final_world diamond_edited)
  = Some (emit (EvSideEffectBy "/d.ts") (final_world diamond_edited)).
Proof.
  apply (cascade_without_dependents (diamond_ext "export default 2") plain_config
           2 0 [] (final_world diamond_edited) eq_refl).
Defined.

(** Where [#transpileModule] records a marker.  When the compiler's
    marker of a dependency ([resolved], at least six bytes) occurs in the
    compiled buffer at the index [indexOf] returns, the recorded
    [hashLoc] is the offset of the last six bytes of that occurrence:
    the window lies inside the buffer and holds the tail of the marker.
    A [hashLoc] is recorded only for a specifier that starts with [/]
    and only when the index is positive. *)
Theorem hashLoc_is_marker_tail :
  forall (X : Ext) (b : bytes) (d : RawDep) (loc : Z),
    dep_hashLoc (descriptor_of X b d) = Some loc ->
    firstn (List.length (encode (raw_resolved d)))
      (skipn (Z.to_nat (indexOf X b (encode (raw_resolved d)))) b)
    = encode (raw_resolved d) ->
    6 <= List.length (encode (raw_resolved d)) ->
    startsWith "/" (raw_specifier d) = true
    /\ (0 < indexOf X b (encode (raw_resolved d)))%Z
    /\ (0 < loc)%Z
    /\ (loc + 6 <= Z.of_nat (List.length b))%Z
    /\ slice b loc (loc + 6)
       = skipn (List.length (encode (raw_resolved d)) - 6) (encode (raw_resolved d)).
Proof.
  intros X b d loc Hloc Hocc Hlen.
  unfold descriptor_of in Hloc. cbn [dep_hashLoc] in Hloc.
  set (mark := encode (raw_resolved d)) in *.
  set (idx := indexOf X b mark) in *.
  destruct (startsWith "/" (raw_specifier d)); [|discriminate].
  destruct (0 <? idx)%Z eqn:Hidx; [|discriminate].
  apply Z.ltb_lt in Hidx. inversion Hloc as [Hl]. clear Hloc.
  assert (Hfit : Z.to_nat idx + List.length mark <= List.length b).
  { pose proof (f_equal (@List.length byte) Hocc) as Hl'.
    rewrite length_firstn, length_skipn in Hl'. lia. }
  split; [reflexivity|]. split; [exact Hidx|]. split; [lia|]. split; [lia|].
  replace (idx + Z.of_nat (List.length mark) - 6 + 6)%Z
    with (idx + Z.of_nat (List.length mark) - 6 + Z.of_nat 6)%Z by reflexivity.
  rewrite slice_inside by lia.
  replace (Z.to_nat (idx + Z.of_nat (List.length mark) - 6))
    with ((List.length mark - 6) + Z.to_nat idx) by lia.
  rewrite <- skipn_skipn.
  rewrite <- Hocc at 3.
  rewrite skipn_firstn_comm.
  f_equal. lia.
Qed.

Lemma hashLoc_is_marker_tail_witness :
  dep_hashLoc (descriptor_of std_plain (encode marker_code)
                 {| raw_specifier := "/a.ts"; raw_resolved := "./a.js#000000";
                    raw_isDynamic := false |}) = Some 15%Z
  /\ slice (encode marker_code) 15 (15 + 6) = encode "000000".
Proof.
  split; [reflexivity|].
  apply (proj2 (proj2 (proj2 (proj2
           (hashLoc_is_marker_tail std_plain (encode marker_code)
              {| raw_specifier := "/a.ts"; raw_resolved := "./a.js#000000";
                 raw_isDynamic := false |} 15%Z eq_refl eq_refl
              ltac:(vm_compute; lia)))))).
Defined.

(** * [#initModule]: what it returns and what it leaves behind *)

Section InitMore.
Variable X : Ext.
Variable C : Config.

(** The state in which the source is loaded: the session mark of
    [--reload] is set, and the Loader is recorded unless a custom source
    was given. *)
Lemma initModule_load_cases (r : nat) (isNew : bool) (s : string)
    (data : option string) (o : CompileOptions) (w : World) :
  let w1 := if opt_forceRefresh o then w
            else restore_meta X r s (metaFilePath_for X C s) w in
  let w2 := if reload C && negb (set_has ("init:" ++ s) (sessionStorage w1))
            then with_sessionStorage
                   (set_add ("init:" ++ s)%string (sessionStorage w1)) w1
            else w1 in
  let w0 := match opt_source o with Some _ => w2 | None => emit (EvLoad s) w2 end in
  initModule_load X C r isNew s data o w
  = if opt_virtual o then Ok (r, None) (defer r isNew s None w1)
    else if load_required X C r s w1 then
      match load_result X C s data (opt_source o) with
      | Raises msg => Ok (r, None) (defer r isNew s (Some msg) w0)
      | Returns (src, h) =>
          if String.eqb (sourceHash (deref w0 r)) h
          then Ok (r, None) (defer r isNew s None w0)
          else Ok (r, Some src)
                 (defer r isNew s None (mutate r (with_sourceHash h) w0))
      end
    else Ok (r, None) (defer r isNew s None w1).
Proof.
  intros w1 w2 w0. unfold initModule_load. fold w1.
  destruct (opt_virtual o); [reflexivity|].
  destruct (load_required X C r s w1); [|reflexivity].
  fold w2. rewrite load_and_hash_spec. cbv zeta. fold w0.
  destruct (load_result X C s data (opt_source o)) as [[src h]|msg]; [|reflexivity].
  now destruct (String.eqb (sourceHash (deref w0 r)) h).
Qed.

Lemma publish_files (s : string) (o : CompileOptions) (w : World) :
  metaFiles (snd (publish X s o w)) = metaFiles w
  /\ jsFiles (snd (publish X s o w)) = jsFiles w
  /\ sessionStorage (snd (publish X s o w)) = sessionStorage w.
Proof.
  unfold publish, alloc. simpl.
  destruct (String.eqb (trimBuiltinModuleExts X s) "/app"); auto.
Qed.

Lemma defer_none (r : nat) (isNew : bool) (s : string) (w : World) :
  defer r isNew s None w = mutate r (with_ready Resolved) w.
Proof. reflexivity. Qed.

(** What [#cacheModule] leaves in the build directory. *)
Lemma cacheModule_files (r : nat) (sm : option string) (w : World) (b : bytes) :
  jsBuffer (deref w r) = Some b ->
  jsFiles (cacheModule X C r sm w)
  = map_set (jsFilePath X C (deref w r)) b (jsFiles w)
  /\ metaFiles (cacheModule X C r sm w)
     = map_set (metaFilePath_of (jsFilePath X C (deref w r)))
         (MetaValue (meta_of_mod (deref w r))) (metaFiles w).
Proof.
  intros Hb. unfold cacheModule. rewrite Hb.
  destruct sm as [sm|]; [destruct (isFilledString sm)|]; simpl; auto.
Qed.

Lemma meta_of_mod_valid (m : Mod) :
  sourceHash m <> "" -> meta_is_valid (specifier m) (meta_of_mod m) = true.
Proof.
  intros H. unfold meta_is_valid, meta_of_mod. simpl.
  rewrite String.eqb_refl. simpl.
  unfold isFilledString. destruct (String.eqb (sourceHash m) "") eqn:E; auto.
  apply String.eqb_eq in E. contradiction.
Qed.

End InitMore.

(** A source is returned only after it was hashed: when [#initModule]
    returns a source, that source is what the Loader (or the caller)
    gave, the module is a new object registered under the resolved
    specifier, and its [sourceHash] is the hash of that very source. *)
Theorem returned_source_is_hashed :
  forall (X : Ext) (C : Config) (s0 : string) (o : CompileOptions) (w : World)
         (r : nat) (src : ModuleSource) (w' : World)
         (s : string) (ext : bool) (data : option string),
    initModule X C s0 o w = Ok (r, Some src) w' ->
    resolve_specifier C s0 (opt_source o) = (s, ext, data) ->
    source_result X C s data (opt_source o) = Returns src
    /\ computeSourceHash X C s src = Returns (sourceHash (deref w' r))
    /\ r = List.length (heap w)
    /\ map_get s (modules w') = Some r.
Proof.
  intros X C s0 o w r src w' s ext data Hinit Hres.
  unfold initModule, initModule_enter in Hinit. rewrite Hres in Hinit.
  destruct ext; [simpl in Hinit; discriminate|].
  assert (Hload : forall isNew,
            initModule_load X C (List.length (heap w)) isNew s data o
              (snd (publish X s o w)) = Ok (r, Some src) w' ->
            source_result X C s data (opt_source o) = Returns src
            /\ computeSourceHash X C s src = Returns (sourceHash (deref w' r))
            /\ r = List.length (heap w)
            /\ map_get s (modules w') = Some r).
  { intros isNew E. rewrite initModule_load_cases in E. cbv zeta in E.
    set (wp := snd (publish X s o w)) in *.
    set (w1 := if opt_forceRefresh o then wp
               else restore_meta X (List.length (heap w)) s (metaFilePath_for X C s) wp)
      in *.
    set (w2 := if reload C && negb (set_has ("init:" ++ s) (sessionStorage w1))
               then with_sessionStorage
                      (set_add ("init:" ++ s)%string (sessionStorage w1)) w1
               else w1) in *.
    set (w0 := match opt_source o with Some _ => w2 | None => emit (EvLoad s) w2 end)
      in *.
    destruct (opt_virtual o); [discriminate|].
    destruct (load_required X C (List.length (heap w)) s w1); [|discriminate].
    destruct (load_result X C s data (opt_source o)) as [[src0 h]|msg] eqn:Hl;
      [|discriminate].
    destruct (String.eqb (sourceHash (deref w0 (List.length (heap w)))) h);
      [discriminate|].
    inversion E; subst r src0 w'. clear E.
    assert (Hheap1 : List.length (heap w1) = S (List.length (heap w))).
    { unfold w1. destruct (opt_forceRefresh o).
      - unfold wp. rewrite publish_heap, length_app. simpl. lia.
      - rewrite restore_meta_heap_length. unfold wp.
        rewrite publish_heap, length_app. simpl. lia. }
    assert (Hheap0 : heap w0 = heap w1).
    { unfold w0, w2. destruct (opt_source o); destruct (reload C && _); reflexivity. }
    assert (Hmods0 : modules w0 = modules wp).
    { unfold w0, w2, w1.
      destruct (opt_source o); destruct (reload C && _);
        destruct (opt_forceRefresh o); simpl; auto using restore_meta_modules. }
    unfold load_result in Hl.
    destruct (source_result X C s data (opt_source o)) as [src1|msg]; [|discriminate].
    destruct (computeSourceHash X C s src1) as [h1|msg] eqn:Hh; [|discriminate].
    inversion Hl; subst src1 h1. clear Hl.
    split; [reflexivity|]. split.
    - rewrite Hh. f_equal. rewrite defer_none.
      rewrite deref_mutate_field by reflexivity.
      rewrite deref_mutate_same; [reflexivity|]. rewrite Hheap0. lia.
    - split; [reflexivity|].
      rewrite defer_modules. simpl. rewrite Hmods0. unfold wp.
      rewrite publish_modules. apply map_get_set_same. }
  destruct (map_get s (modules w)) as [r0|].
  - destruct (reusable o (deref w r0)).
    + destruct (ready (deref w r0)); discriminate.
    + rewrite publish_eta in Hinit. now apply (Hload false).
  - rewrite publish_eta in Hinit. now apply (Hload true).
Qed.

Lemma returned_source_is_hashed_witness :
  source_result single_ext plain_config "/a.ts" None (opt_source default_options)
  = Returns a_source
  /\ computeSourceHash single_ext plain_config "/a.ts" a_source
     = Returns (sourceHash (deref a_init_world 0))
  /\ 0 = List.length (heap empty_world)
  /\ map_get "/a.ts" (modules a_init_world) = Some 0.
Proof.
  exact (returned_source_is_hashed single_ext plain_config "/a.ts"
           default_options empty_world 0 a_source a_init_world "/a.ts" false None
           ltac:(vm_compute; reflexivity) ltac:(vm_compute; reflexivity)).
Defined.

(** The build cache round-trips.  After [#cacheModule] wrote a compiled
    module with a non-empty [sourceHash], a first [#initModule] of its
    specifier (empty registry entry, no forced refresh, source
    unchanged) creates a new module object whose [sourceHash] and [deps]
    are the ones that were written, returns no source (so nothing is
    transformed), and [getModuleJS] of the new object reads back the
    bytes that were written. *)
Theorem build_cache_round_trip :
  forall (X : Ext) (C : Config) (r : nat) (sm : option string) (w : World)
         (b : bytes) (s : string) (data : option string) (o : CompileOptions)
         (w2 : World) (src : ModuleSource),
    jsBuffer (deref w r) = Some b ->
    specifier (deref w r) = s ->
    jsFile (deref w r) = jsFile_of X s ->
    sourceHash (deref w r) <> "" ->
    metaFiles w2 = metaFiles (cacheModule X C r sm w) ->
    jsFiles w2 = jsFiles (cacheModule X C r sm w) ->
    map_get s (modules w2) = None ->
    resolve_specifier C s (opt_source o) = (s, false, data) ->
    opt_forceRefresh o = false ->
    opt_virtual o = false ->
    load_result X C s data (opt_source o) = Returns (src, sourceHash (deref w r)) ->
    exists w',
      initModule X C s o w2 = Ok (List.length (heap w2), None) w'
      /\ sourceHash (deref w' (List.length (heap w2))) = sourceHash (deref w r)
      /\ deps (deref w' (List.length (heap w2))) = deps (deref w r)
      /\ fst (getModuleJS X C (List.length (heap w2)) w') = Some b
      /\ transformed (skipn (List.length (events w2)) (events w')) = [].
Proof.
  intros X C r sm w b s data o w2 src Hb Hs Hjs Hhash Hmeta Hfiles Hget Hres
    Hfr Hvirt Hload.
  destruct (cacheModule_files X C r sm w b Hb) as [Hjf Hmf].
  assert (Hpath : jsFilePath X C (deref w r) = jsFilePath_of X C s).
  { unfold jsFilePath, jsFilePath_of. now rewrite Hjs. }
  rewrite Hpath in Hjf, Hmf.
  set (r' := List.length (heap w2)).
  set (wp := snd (publish X s o w2)).
  destruct (publish_files X s o w2) as (Hpm & Hpj & _).
  set (meta := meta_of_mod (deref w r)) in *.
  assert (Hvalid : meta_is_valid s meta = true).
  { rewrite <- Hs. now apply meta_of_mod_valid. }
  assert (Hrp : r' < List.length (heap wp)).
  { unfold wp, r'. rewrite publish_heap, length_app. simpl. lia. }
  assert (Hrest : restore_meta X r' s (metaFilePath_for X C s) wp
                  = mutate r' (assign_meta meta) wp).
  { unfold restore_meta, wp. rewrite Hpm, Hmeta, Hmf.
    unfold metaFilePath_for. rewrite map_get_set_same. now rewrite Hvalid. }
  set (w1 := mutate r' (assign_meta meta) wp).
  assert (Hd1 : deref w1 r'
                = assign_meta meta
                    (fresh_module s (opt_httpExternal o) (jsFile_of X s))).
  { unfold w1. rewrite deref_mutate_same by assumption.
    unfold wp, r'. now rewrite publish_fresh. }
  assert (Hfinal : forall wx evs,
            heap wx = heap w1 -> jsFiles wx = jsFiles w2 ->
            events wx = events w2 ++ evs -> transformed evs = [] ->
            sourceHash (deref (defer r' true s None wx) r') = sourceHash (deref w r)
            /\ deps (deref (defer r' true s None wx) r') = deps (deref w r)
            /\ fst (getModuleJS X C r' (defer r' true s None wx)) = Some b
            /\ transformed (skipn (List.length (events w2))
                              (events (defer r' true s None wx))) = []).
  { intros wx evs Hh Hj He Ht.
    assert (Hdx : deref (defer r' true s None wx) r'
                  = with_ready Resolved
                      (assign_meta meta
                         (fresh_module s (opt_httpExternal o) (jsFile_of X s)))).
    { rewrite defer_none. rewrite deref_mutate_same.
      - unfold deref. rewrite Hh. fold (deref w1 r'). now rewrite Hd1.
      - rewrite Hh. unfold w1. simpl. now rewrite length_list_update. }
    repeat split.
    - now rewrite Hdx.
    - now rewrite Hdx.
    - unfold getModuleJS. rewrite Hdx. simpl.
      change (join X (buildDir C) (jsFile_of X s)) with (jsFilePath_of X C s).
      unfold jsFilePath. simpl.
      change (join X (buildDir C) (jsFile_of X s)) with (jsFilePath_of X C s).
      rewrite Hj, Hfiles, Hjf, map_get_set_same. reflexivity.
    - rewrite defer_events, app_nil_r, He.
      rewrite skipn_app, skipn_all, Nat.sub_diag. simpl. exact Ht. }
  unfold initModule, initModule_enter. rewrite Hres, Hget, publish_eta.
  fold r' wp. rewrite initModule_load_cases. cbv zeta.
  rewrite Hfr, Hvirt, Hrest. fold w1.
  set (w3 := if reload C && negb (set_has ("init:" ++ s) (sessionStorage w1))
             then with_sessionStorage
                    (set_add ("init:" ++ s)%string (sessionStorage w1)) w1
             else w1).
  set (w0 := match opt_source o with Some _ => w3 | None => emit (EvLoad s) w3 end).
  assert (Hev1 : events w1 = events w2).
  { unfold w1, wp. simpl. apply publish_events. }
  assert (Hjs1 : jsFiles w1 = jsFiles w2) by (unfold w1; simpl; exact Hpj).
  destruct (load_required X C r' s w1).
  - rewrite Hload.
    assert (Hh0 : heap w0 = heap w1).
    { unfold w0, w3. destruct (opt_source o); destruct (reload C && _); reflexivity. }
    assert (Hj0 : jsFiles w0 = jsFiles w2).
    { unfold w0, w3. destruct (opt_source o); destruct (reload C && _); exact Hjs1. }
    assert (He0 : exists evs, events w0 = events w2 ++ evs /\ transformed evs = []).
    { assert (Hev3 : events w3 = events w2).
      { unfold w3. destruct (reload C && _); exact Hev1. }
      unfold w0. destruct (opt_source o).
      - exists []. split; [now rewrite app_nil_r|reflexivity].
      - exists [EvLoad s]. split; [|reflexivity].
        unfold emit. cbn [events with_events]. now rewrite Hev3. }
    destruct He0 as (evs & He0 & Ht0).
    assert (Hs0 : sourceHash (deref w0 r') = sourceHash (deref w r)).
    { unfold deref at 1. rewrite Hh0. fold (deref w1 r'). now rewrite Hd1. }
    rewrite Hs0, String.eqb_refl.
    eexists. split; [reflexivity|]. now apply (Hfinal w0 evs).
  - eexists. split; [reflexivity|].
    apply (Hfinal w1 []); auto. now rewrite app_nil_r.
Qed.

Lemma build_cache_round_trip_witness :
  exists w',
    initModule single_ext plain_config "/a.ts" default_options restarted_world
    = Ok (List.length (heap restarted_world), None) w'
    /\ sourceHash (deref w' (List.length (heap restarted_world)))
       = sourceHash (deref a_world 0)
    /\ deps (deref w' (List.length (heap restarted_world))) = deps (deref a_world 0)
    /\ fst (getModuleJS single_ext plain_config
              (List.length (heap restarted_world)) w')
       = Some (encode "export default 1")
    /\ transformed (skipn (List.length (events restarted_world)) (events w')) = [].
Proof.
  exact (build_cache_round_trip single_ext plain_config 0 None a_world
           (encode "export default 1") "/a.ts" None default_options
           restarted_world a_source
           ltac:(vm_compute; reflexivity) ltac:(vm_compute; reflexivity)
           ltac:(vm_compute; reflexivity) ltac:(vm_compute; discriminate)
           ltac:(vm_compute; reflexivity) ltac:(vm_compute; reflexivity)
           ltac:(vm_compute; reflexivity) ltac:(vm_compute; reflexivity)
           ltac:(vm_compute; reflexivity) ltac:(vm_compute; reflexivity)
           ltac:(vm_compute; reflexivity)).
Defined.

(** A virtual module is never loaded: with [virtual: true],
    [#initModule] returns no source, and the only thing it can log is
    the warning about an invalid sidecar; neither the Loader nor the
    transform is invoked. *)
Theorem virtual_module_is_never_loaded :
  forall (X : Ext) (C : Config) (s0 : string) (o : CompileOptions) (w : World),
    opt_virtual o = true ->
    match initModule X C s0 o w with
    | Ok (r, src) w' =>
        src = None
        /\ exists evs, events w' = events w ++ evs
                       /\ forall e, In e evs -> exists msg, e = EvLogWarn msg
    | Stuck w' => w' = w
    | _ => False
    end.
Proof.
  intros X C s0 o w Hvirt. unfold initModule, initModule_enter.
  destruct (resolve_specifier C s0 (opt_source o)) as [[s ext] data].
  assert (Hnil : exists evs : list Event,
             events w = events w ++ evs
             /\ forall e, In e evs -> exists msg, e = EvLogWarn msg).
  { exists []. split; [now rewrite app_nil_r|]. intros e []. }
  destruct ext; [simpl; auto|].
  assert (Hload : forall isNew,
            exists w',
              initModule_load X C (List.length (heap w)) isNew s data o
                (snd (publish X s o w)) = Ok (List.length (heap w), None) w'
              /\ exists evs, events w' = events w ++ evs
                   /\ forall e, In e evs -> exists msg, e = EvLogWarn msg).
  { intros isNew. rewrite initModule_load_cases. cbv zeta. rewrite Hvirt.
    eexists. split; [reflexivity|]. rewrite defer_events, app_nil_r.
    destruct (opt_forceRefresh o).
    - rewrite publish_events. exact Hnil.
    - unfold restore_meta.
      destruct (map_get _ (metaFiles _)) as [[| |meta]|];
        try (rewrite publish_events; exact Hnil).
      destruct (meta_is_valid s meta).
      + rewrite events_mutate, publish_events. exact Hnil.
      + cbn [events with_metaFiles emit with_events]. rewrite publish_events.
        eexists. split; [reflexivity|].
        intros e [<-|[]]. eauto. }
  destruct (map_get s (modules w)) as [r0|].
  - destruct (reusable o (deref w r0)).
    + destruct (ready (deref w r0)); auto.
    + rewrite publish_eta. destruct (Hload false) as (w' & -> & H). auto.
  - rewrite publish_eta. destruct (Hload true) as (w' & -> & H). auto.
Qed.

Lemma virtual_module_is_never_loaded_witness :
  match initModule single_ext plain_config "/a.ts" virtual_options empty_world with
  | Ok (r, src) w' =>
      src = None
      /\ exists evs, events w' = events empty_world ++ evs
                     /\ forall e, In e evs -> exists msg, e = EvLogWarn msg
  | Stuck w' => w' = empty_world
  | _ => False
  end.
Proof.
  exact (virtual_module_is_never_loaded single_ext plain_config "/a.ts"
           virtual_options empty_world eq_refl).
Defined.

Section Reload.
Variable X : Ext.
Variable C : Config.

Lemma restore_meta_sessionStorage (r : nat) (s path : string) (w : World) :
  sessionStorage (restore_meta X r s path w) = sessionStorage w.
Proof.
  unfold restore_meta. destruct (map_get path (metaFiles w)) as [[| |meta]|]; auto.
  now destruct (meta_is_valid s meta).
Qed.

Lemma defer_sessionStorage (r : nat) (isNew : bool) (s : string)
    (err : option string) (w : World) :
  sessionStorage (defer r isNew s err w) = sessionStorage w.
Proof. unfold defer. destruct err; simpl; auto. destruct isNew; reflexivity. Qed.

Lemma set_has_add (x : string) (s : list string) : set_has x (set_add x s) = true.
Proof. apply set_has_In, set_add_In. Qed.

(** With the session mark set, [--reload] no longer forces a load. *)
Lemma load_required_marked (r : nat) (s : string) (w : World) :
  set_has ("init:" ++ s) (sessionStorage w) = true ->
  load_required X C r s w
  = negb (isLikelyHttpURL X s && negb (isLocalhostUrl X s))
    || String.eqb (sourceHash (deref w r)) ""
    || negb (map_has (jsFilePath_of X C s) (jsFiles w)).
Proof.
  intros H. unfold load_required. rewrite H. simpl.
  rewrite andb_false_r. now rewrite orb_false_r.
Qed.

End Reload.

(** [--reload] applies to a specifier once per session.  With [reload]
    on, a non-virtual [#initModule] leaves the mark [init:<specifier>]
    in the session storage (it loads the source when the mark was
    absent), and once the mark is there the source is loaded under the
    same conditions as without [--reload]: the module is local, or has
    no stored hash, or its compiled file is missing. *)
Theorem reload_applies_once :
  forall (X : Ext) (C : Config) (r : nat) (isNew : bool) (s : string)
         (data : option string) (o : CompileOptions) (w : World),
    reload C = true ->
    opt_virtual o = false ->
    exists src w',
      initModule_load X C r isNew s data o w = Ok (r, src) w'
      /\ set_has ("init:" ++ s) (sessionStorage w') = true
      /\ (set_has ("init:" ++ s) (sessionStorage w) = false ->
          exists evs, events w' = events w ++ evs
                      /\ (opt_source o = None -> In (EvLoad s) evs))
      /\ forall r',
           load_required X C r' s w'
           = negb (isLikelyHttpURL X s && negb (isLocalhostUrl X s))
             || String.eqb (sourceHash (deref w' r')) ""
             || negb (map_has (jsFilePath_of X C s) (jsFiles w')).
Proof.
  intros X C r isNew s data o w Hreload Hvirt.
  rewrite initModule_load_cases. cbv zeta. rewrite Hvirt, Hreload.
  set (w1 := if opt_forceRefresh o then w
             else restore_meta X r s (metaFilePath_for X C s) w).
  assert (Hss1 : sessionStorage w1 = sessionStorage w).
  { unfold w1. destruct (opt_forceRefresh o); [reflexivity|].
    apply restore_meta_sessionStorage. }
  assert (Hev1 : exists e1, events w1 = events w ++ e1).
  { unfold w1. destruct (opt_forceRefresh o).
    - exists []. now rewrite app_nil_r.
    - unfold restore_meta.
      destruct (map_get _ (metaFiles w)) as [[| |meta]|];
        try (exists []; now rewrite app_nil_r).
      destruct (meta_is_valid s meta); simpl.
      + exists []. now rewrite app_nil_r.
      + eexists. reflexivity. }
  destruct Hev1 as [e1 Hev1].
  destruct (set_has ("init:" ++ s) (sessionStorage w1)) eqn:Hmark.
  - (* the mark is there already *)
    simpl.
    assert (Hfin : forall (wx : World) (src : option ModuleSource)
                     (err : option string),
              sessionStorage wx = sessionStorage w1 ->
              exists src0 w',
                @Ok (nat * option ModuleSource) (r, src) (defer r isNew s err wx)
                = Ok (r, src0) w'
                /\ set_has ("init:" ++ s) (sessionStorage w') = true
                /\ (set_has ("init:" ++ s) (sessionStorage w) = false ->
                    exists evs, events w' = events w ++ evs
                                /\ (opt_source o = None -> In (EvLoad s) evs))
                /\ forall r',
                     load_required X C r' s w'
                     = negb (isLikelyHttpURL X s && negb (isLocalhostUrl X s))
                       || String.eqb (sourceHash (deref w' r')) ""
                       || negb (map_has (jsFilePath_of X C s) (jsFiles w'))).
    { intros wx src err Hss. eexists _, _. split; [reflexivity|].
      assert (Hm : set_has ("init:" ++ s) (sessionStorage (defer r isNew s err wx))
                   = true).
      { now rewrite defer_sessionStorage, Hss. }
      split; [exact Hm|]. split.
      - rewrite <- Hss1, Hmark. discriminate.
      - intros r'. now apply load_required_marked. }
    destruct (load_required X C r s w1).
    + destruct (load_result X C s data (opt_source o)) as [[src h]|msg].
      * destruct (String.eqb _ h).
        -- apply Hfin. now destruct (opt_source o).
        -- apply Hfin. now destruct (opt_source o).
      * apply Hfin. now destruct (opt_source o).
    + now apply Hfin.
  - (* first time: the mark is set and the source is loaded *)
    simpl.
    assert (Hreq : load_required X C r s w1 = true).
    { unfold load_required. rewrite Hreload, Hmark. simpl.
      rewrite orb_true_r. now rewrite orb_true_l. }
    rewrite Hreq.
    set (w2 := with_sessionStorage
                 (set_add ("init:" ++ s)%string (sessionStorage w1)) w1).
    set (w0 := match opt_source o with Some _ => w2 | None => emit (EvLoad s) w2 end).
    assert (Hss0 : sessionStorage w0
                   = set_add ("init:" ++ s)%string (sessionStorage w1)).
    { unfold w0, w2. now destruct (opt_source o). }
    assert (Hev0 : exists e0, events w0 = events w ++ e0
                              /\ (opt_source o = None -> In (EvLoad s) e0)).
    { unfold w0, w2. destruct (opt_source o); simpl; rewrite Hev1.
      - exists e1. split; [reflexivity|discriminate].
      - exists (e1 ++ [EvLoad s]). split; [now rewrite app_assoc|].
        intros _. apply in_or_app. right. now left. }
    destruct Hev0 as (e0 & Hev0 & Hin0).
    assert (Hfin : forall (wx : World) (src : option ModuleSource)
                     (err : option string),
              sessionStorage wx = sessionStorage w0 ->
              events wx = events w0 ->
              exists src0 w',
                @Ok (nat * option ModuleSource) (r, src) (defer r isNew s err wx)
                = Ok (r, src0) w'
                /\ set_has ("init:" ++ s) (sessionStorage w') = true
                /\ (set_has ("init:" ++ s) (sessionStorage w) = false ->
                    exists evs, events w' = events w ++ evs
                                /\ (opt_source o = None -> In (EvLoad s) evs))
                /\ forall r',
                     load_required X C r' s w'
                     = negb (isLikelyHttpURL X s && negb (isLocalhostUrl X s))
                       || String.eqb (sourceHash (deref w' r')) ""
                       || negb (map_has (jsFilePath_of X C s) (jsFiles w'))).
    { intros wx src err Hss Hev. eexists _, _. split; [reflexivity|].
      assert (Hm : set_has ("init:" ++ s) (sessionStorage (defer r isNew s err wx))
                   = true).
      { rewrite defer_sessionStorage, Hss, Hss0. apply set_has_add. }
      split; [exact Hm|]. split.
      - intros _. rewrite defer_events, Hev, Hev0. eexists. split.
        + now rewrite <- app_assoc.
        + intros Hn. apply in_or_app. left. now apply Hin0.
      - intros r'. now apply load_required_marked. }
    destruct (load_result X C s data (opt_source o)) as [[src h]|msg].
    + destruct (String.eqb _ h); now apply Hfin.
    + now apply Hfin.
Qed.

Lemma reload_applies_once_witness :
  exists src w',
    initModule_load single_ext reload_config 0 true "/a.ts" None default_options
      (snd (publish single_ext "/a.ts" default_options empty_world))
    = Ok (0, src) w'
    /\ set_has "init:/a.ts" (sessionStorage w') = true.
Proof.
  destruct (reload_applies_once single_ext reload_config 0 true "/a.ts" None
              default_options
              (snd (publish single_ext "/a.ts" default_options empty_world))
              eq_refl eq_refl) as (src & w' & E & Hm & _).
  exists src, w'. split; [exact E|exact Hm].
Defined.

(** * Data routes and dist files *)

Lemma data_route_scan_not_true (w : World) (ss : list string) :
  own_hooks w ss = false -> data_route_scan w ss <> RTrue.
Proof.
  induction ss as [|s ss IH]; [discriminate|].
  unfold own_hooks. cbn [data_route_scan existsb]. fold (own_hooks w ss).
  intros H. apply orb_false_iff in H. destruct H as [Hs Hss].
  destruct (getModule w s) as [r|]; [|now apply IH].
  rewrite Hs.
  destruct (lookupDeps (lookup_fuel w) w (hook_dep w) (specifier (deref w r))
              false []) as [[[ok t] b]|]; [|now apply IH].
  destruct ok; [discriminate|now apply IH].
Qed.

(** Deno hooks in a dependency make no data route.  When the page
    module has no [ssrPropsFn] and neither the app module nor a nested
    module uses Deno hooks itself, [#isDataRoute] never returns [true]:
    where a dependency with hooks is found it returns [undefined], which
    [getSSRData] takes for "no data" just as [false]. *)
Theorem dependency_hooks_make_no_data_route :
  forall (w : World) (nested : list string),
    page_has_props w nested = false ->
    own_hooks w ("app" :: nested) = false ->
    (isDataRoute w nested = RFalse \/ isDataRoute w nested = RUndefined)
    /\ js_not (isDataRoute w nested) = true.
Proof.
  intros w nested Hp Hh. unfold isDataRoute. rewrite Hp.
  pose proof (data_route_scan_not_true w ("app" :: nested) Hh) as Hn.
  destruct (data_route_scan w ("app" :: nested)); auto. contradiction.
Qed.

Lemma dependency_hooks_make_no_data_route_witness :
  isDataRoute hooks_world ["/pages/index.tsx"] = RUndefined
  /\ js_not (isDataRoute hooks_world ["/pages/index.tsx"]) = true.
Proof.
  split; [reflexivity|].
  apply (proj2 (dependency_hooks_make_no_data_route hooks_world
                  ["/pages/index.tsx"] eq_refl eq_refl)).
Defined.

Lemma set_add_idempotent (x : string) (s : list string) :
  set_add x (set_add x s) = set_add x s.
Proof.
  unfold set_add at 1. now rewrite (proj2 (set_has_In x (set_add x s)) (set_add_In x s)).
Qed.

(** [addDist] never overwrites.  The first content written for a path
    stays: after one call the file holds what was there before or, if
    nothing was, the content given; the path is in the set of dists; and
    a second call for the same path, with whatever content, changes
    nothing. *)
Theorem addDist_first_writer_wins :
  forall (X : Ext) (C : Config) (E : DistEnv) (path : string) (c1 c2 : bytes)
         (st : DistState),
    let savePath := join X (buildDir C) (cleanPath E path) in
    let st1 := addDist X C E path c1 st in
    addDist X C E path c2 st1 = st1
    /\ In (cleanPath E path) (dists st1)
    /\ map_get savePath (dist_files st1)
       = Some (or_else (map_get savePath (dist_files st)) c1).
Proof.
  intros X C E path c1 c2 st savePath st1.
  assert (Hfile : map_get savePath (dist_files st1)
                  = Some (or_else (map_get savePath (dist_files st)) c1)).
  { unfold st1, addDist. cbn [dist_files]. fold savePath. unfold map_has.
    destruct (map_get savePath (dist_files st)) as [c0|] eqn:E0; simpl.
    - exact E0.
    - apply map_get_set_same. }
  split; [|split; [|exact Hfile]].
  - unfold addDist at 1. fold savePath. unfold map_has. rewrite Hfile. simpl.
    unfold st1, addDist. cbn [dist_files dists]. fold savePath.
    now rewrite set_add_idempotent.
  - unfold st1, addDist. cbn [dists]. apply set_add_In.
Qed.

(** * The registry stays well formed *)

Lemma grows_refl (w : World) : grows w w.
Proof. constructor; auto. Qed.

Lemma grows_trans (w1 w2 w3 : World) : grows w1 w2 -> grows w2 w3 -> grows w1 w3.
Proof.
  intros G1 G2. constructor.
  - pose proof (g_heap G1). pose proof (g_heap G2). lia.
  - intros r Hr. rewrite (g_specifier G2) by (pose proof (g_heap G1); lia).
    now apply (g_specifier G1).
  - intros s r H. destruct (g_modules G2 s r H) as [H2|(Hlo & Hhi & Hs)].
    + destruct (g_modules G1 s r H2) as [H1|(Hlo & Hhi & Hs)]; [now left|].
      right. repeat split; auto.
      * pose proof (g_heap G2). lia.
      * rewrite (g_specifier G2) by assumption. exact Hs.
    + right. repeat split; auto. pose proof (g_heap G1). lia.
Qed.

Lemma grows_ok (w w' : World) : grows w w' -> registry_ok w -> registry_ok w'.
Proof.
  intros G Hok s r H. destruct (g_modules G s r H) as [H0|(Hlo & Hhi & Hs)]; auto.
  destruct (Hok s r H0) as [Hr Hs]. split.
  - pose proof (g_heap G). lia.
  - rewrite (g_specifier G) by assumption. exact Hs.
Qed.

(** Steps that leave the module objects and the registry alone. *)
Lemma grows_frame (w w' : World) :
  heap w' = heap w -> modules w' = modules w -> grows w w'.
Proof.
  intros Hh Hm. constructor.
  - now rewrite Hh.
  - intros r _. unfold deref. now rewrite Hh.
  - intros s r H. left. now rewrite <- Hm.
Qed.

Lemma grows_mutate (r : nat) (f : Mod -> Mod) (w : World) :
  (forall m, specifier (f m) = specifier m) -> grows w (mutate r f w).
Proof.
  intros Hf. constructor.
  - simpl. now rewrite length_list_update.
  - intros r' _. now apply deref_mutate_field.
  - intros s r' H. now left.
Qed.

(** A step that changes one module object, keeps its specifier and
    adds nothing to the registry. *)
Lemma grows_touching (r : nat) (w w' : World) :
  touching r w w' ->
  (forall s r', map_get s (modules w') = Some r' -> map_get s (modules w) = Some r') ->
  grows w w'.
Proof.
  intros [evs T] Hm. constructor.
  - now rewrite (tc_heap T).
  - intros r' _. destruct (Nat.eq_dec r' r) as [->|Hne].
    + apply (tc_specifier T).
    + now rewrite (tc_other T).
  - intros s r' H. left. now apply Hm.
Qed.

Lemma map_get_delete_some (V : Type) (k k' : string) (m : JsMap V) (v : V) :
  map_get k' (map_delete k m) = Some v -> map_get k' m = Some v.
Proof.
  destruct (string_dec k k') as [->|Hne].
  - now rewrite map_get_delete_same.
  - now rewrite map_get_delete_other.
Qed.

Lemma map_get_set_cases (V : Type) (k k' : string) (v v' : V) (m : JsMap V) :
  map_get k' (map_set k v m) = Some v' ->
  (k' = k /\ v' = v) \/ map_get k' m = Some v'.
Proof.
  destruct (string_dec k k') as [->|Hne].
  - rewrite map_get_set_same. intros [= <-]. now left.
  - rewrite map_get_set_other by assumption. now right.
Qed.

Section Registry.
Variable X : Ext.
Variable C : Config.

Lemma grows_publish (s : string) (o : CompileOptions) (w : World) :
  grows w (snd (publish X s o w)).
Proof.
  pose proof (publish_quiet X s o w) as Q. constructor.
  - apply (qs_heap Q).
  - intros r Hr. now rewrite (qs_keep Q).
  - intros s' r H. rewrite publish_modules in H.
    destruct (map_get_set_cases _ _ _ _ _ _ H) as [[-> ->]|H']; [|now left].
    right. split; [lia|]. split.
    + rewrite publish_heap, length_app. simpl. lia.
    + now rewrite publish_fresh.
Qed.

Lemma initModule_load_modules (r : nat) (isNew : bool) (s : string)
    (data : option string) (o : CompileOptions) (w : World) :
  post (initModule_load X C r isNew s data o w)
    (fun w' => forall s' r', map_get s' (modules w') = Some r' ->
                             map_get s' (modules w) = Some r').
Proof.
  rewrite initModule_load_cases. cbv zeta.
  set (w1 := if opt_forceRefresh o then w
             else restore_meta X r s (metaFilePath_for X C s) w).
  assert (Hm1 : modules w1 = modules w).
  { unfold w1. destruct (opt_forceRefresh o); [reflexivity|].
    apply restore_meta_modules. }
  set (w2 := if reload C && negb (set_has ("init:" ++ s) (sessionStorage w1))
             then with_sessionStorage
                    (set_add ("init:" ++ s)%string (sessionStorage w1)) w1
             else w1).
  set (w0 := match opt_source o with Some _ => w2 | None => emit (EvLoad s) w2 end).
  assert (Hm0 : modules w0 = modules w).
  { unfold w0, w2. destruct (opt_source o); destruct (reload C && _); exact Hm1. }
  assert (Hfin : forall wx err,
            modules wx = modules w ->
            forall s' r', map_get s' (modules (defer r isNew s err wx)) = Some r' ->
                          map_get s' (modules w) = Some r').
  { intros wx err Hx s' r' H. rewrite defer_modules in H.
    destruct err as [msg|]; [destruct isNew|]; rewrite Hx in H; auto.
    eapply map_get_delete_some; eauto. }
  destruct (opt_virtual o); [unfold post; now apply Hfin|].
  destruct (load_required X C r s w1); [|unfold post; now apply Hfin].
  destruct (load_result X C s data (opt_source o)) as [[src h]|msg].
  - destruct (String.eqb _ h); unfold post; now apply Hfin.
  - unfold post. now apply Hfin.
Qed.

Lemma initModule_load_grows (r : nat) (isNew : bool) (s : string)
    (data : option string) (o : CompileOptions) (w : World) :
  specifier (deref w r) = s ->
  post (initModule_load X C r isNew s data o w) (grows w).
Proof.
  intros Hs.
  pose proof (initModule_load_touching X C r isNew s data o w Hs) as T.
  pose proof (initModule_load_modules r isNew s data o w) as Hm.
  destruct (initModule_load X C r isNew s data o w) as [a w'|msg w'|w'|];
    simpl in *; auto; eapply grows_touching; eauto.
Qed.

Lemma initModule_grows (s0 : string) (o : CompileOptions) :
  sat grows (initModule X C s0 o).
Proof.
  intros w. unfold initModule, initModule_enter.
  destruct (resolve_specifier C s0 (opt_source o)) as [[s ext] data].
  destruct ext.
  { simpl. pose proof (alloc_quiet (external_module s) w) as Q. constructor.
    - apply (qs_heap Q).
    - intros r Hr. now rewrite (qs_keep Q).
    - intros s' r H. now left. }
  assert (Hnew : forall isNew,
            post (initModule_load X C (List.length (heap w)) isNew s data o
                    (snd (publish X s o w))) (grows w)).
  { intros isNew.
    pose proof (initModule_load_grows (List.length (heap w)) isNew s data o
                  (snd (publish X s o w))
                  (f_equal specifier (publish_fresh X s o w))) as G.
    destruct (initModule_load X C _ isNew s data o _) as [a w'|msg w'|w'|];
      simpl in *; auto; (eapply grows_trans; [apply grows_publish|exact G]). }
  destruct (map_get s (modules w)) as [r0|].
  - destruct (reusable o (deref w r0)).
    + destruct (ready (deref w r0)); apply grows_refl.
    + rewrite publish_eta. apply Hnew.
  - rewrite publish_eta. apply Hnew.
Qed.

Lemma grows_emit (e : Event) (w : World) : grows w (emit e w).
Proof. now apply grows_frame. Qed.

Lemma cacheModule_grows (r : nat) (sm : option string) (w : World) :
  grows w (cacheModule X C r sm w).
Proof.
  unfold cacheModule. destruct (jsBuffer (deref w r)); [|apply grows_refl].
  apply grows_frame; destruct sm as [sm|]; try destruct (isFilledString sm);
    reflexivity.
Qed.

Lemma getModuleJS_grows (r : nat) (w : World) : grows w (snd (getModuleJS X C r w)).
Proof.
  unfold getModuleJS. destruct (jsBuffer (deref w r)); [apply grows_refl|].
  destruct (map_get _ (jsFiles w)); [|apply grows_refl].
  now apply grows_mutate.
Qed.

Lemma replaceDepHash_grows (r : nat) (hashLoc : Z) (hash : string) (w : World) :
  grows w (snd (replaceDepHash X C r hashLoc hash w)).
Proof.
  unfold replaceDepHash.
  pose proof (getModuleJS_grows r w) as G.
  destruct (getModuleJS X C r w) as [[b|] w1]; simpl in *; auto.
  destruct (negb (equals _ _)); simpl; auto.
  eapply grows_trans; [exact G|].
  eapply grows_trans; now apply grows_mutate.
Qed.

Ltac grows_bind := apply sat_bind; [apply grows_trans| |].

Lemma run_transform_listeners_grows (r : nat) (s : string)
    (ls : list TransformListener) :
  forall jsCode sourceMap extraDeps,
    sat grows (run_transform_listeners ls r s jsCode sourceMap extraDeps).
Proof.
  induction ls as [|l ls IH]; intros jsCode sourceMap extraDeps; simpl.
  - apply sat_ret, grows_refl.
  - destruct (t_test l) as [t| |]; try apply IH.
    destruct (t s); [|apply IH].
    grows_bind; [apply sat_modify; intros w; apply grows_emit|intros _].
    grows_bind; [|intros out; apply IH].
    intros w. destruct (t_transform l (deref w r) jsCode sourceMap);
      apply grows_refl.
Qed.

Lemma mutate_grows (r : nat) (f : Mod -> Mod) :
  (forall m, specifier (f m) = specifier m) -> sat grows (modify (mutate r f)).
Proof. intros Hf. apply sat_modify. intros w. now apply grows_mutate. Qed.

Lemma transform_source_grows (r : nat) (s jsFile : string) (httpExt : bool)
    (src : ModuleSource) :
  sat grows (transform_source X C r s jsFile httpExt src).
Proof.
  unfold transform_source.
  grows_bind.
  { destruct (SourceType_eqb (src_type src) CSS); [|apply sat_ret, grows_refl].
    grows_bind; [apply sat_modify; intros w; apply grows_emit|intros _].
    grows_bind; [apply sat_call, grows_refl|intros [code map]].
    grows_bind; [now apply mutate_grows|intros _].
    apply sat_ret, grows_refl. }
  intros source1.
  grows_bind; [apply sat_modify; intros w; apply grows_emit|intros _].
  grows_bind; [apply sat_call, grows_refl|intros res].
  grows_bind.
  { destruct (tr_starExports res) as [[|e es]|]; try apply sat_ret, grows_refl.
    destruct (negb (isDev C)); [apply sat_call|apply sat_ret]; apply grows_refl. }
  intros jsCode.
  grows_bind; [now apply mutate_grows|intros _].
  grows_bind.
  { destruct (tr_denoHooks res) as [[|h hs]|]; try apply sat_ret, grows_refl.
    grows_bind; [now apply mutate_grows|intros _].
    destruct (negb (ssr C)); [|apply sat_ret, grows_refl].
    apply sat_modify. intros w. apply grows_emit. }
  intros _.
  grows_bind; [apply run_transform_listeners_grows|].
  intros [[jsCode1 sourceMap] extraDeps].
  grows_bind; [now apply mutate_grows|intros _].
  grows_bind; [apply sat_modify; intros w; now apply grows_mutate|intros _].
  grows_bind; [apply sat_modify; intros w; apply cacheModule_grows|intros _].
  apply sat_ret, grows_refl.
Qed.

Lemma transpile_dep_grows (rec : TranspileRec) (r : nat)
    (ignoreDeps httpExt : bool) (d : DependencyDescriptor) :
  (forall dm src, sat grows (rec dm src)) ->
  sat grows (transpile_dep X C rec r ignoreDeps httpExt d).
Proof.
  intros Hrec. unfold transpile_dep.
  grows_bind.
  { destruct (ignoreDeps || dep_virtual d); [|apply sat_ret, grows_refl].
    intros w0. destruct (getModule w0 (dep_specifier d)); [apply grows_refl|].
    destruct (dep_virtual d); [|apply grows_refl].
    revert w0. grows_bind; [apply initModule_grows|].
    intros [dm src]. apply sat_ret, grows_refl. }
  intros depModule0.
  grows_bind.
  { destruct depModule0 as [dm|]; [apply sat_ret, grows_refl|].
    grows_bind; [apply initModule_grows|].
    intros [dm src] w0. destruct (external (deref w0 dm)); [apply grows_refl|].
    revert w0. grows_bind; [apply Hrec|].
    intros _. apply sat_ret, grows_refl. }
  intros depModule.
  destruct (dep_hashLoc d) as [hashLoc|]; [|apply sat_ret, grows_refl].
  intros w.
  pose proof (replaceDepHash_grows r hashLoc (computeModuleHash X w depModule) w) as G.
  destruct (replaceDepHash X C r hashLoc (computeModuleHash X w depModule) w)
    as [patched w1]. exact G.
Qed.

Lemma transpile_deps_grows (rec : TranspileRec) (r : nat)
    (ignoreDeps httpExt : bool) :
  (forall dm src, sat grows (rec dm src)) ->
  forall (ds : list DependencyDescriptor) (fsync : bool) (err : option string)
         (w0 w : World),
    grows w0 w ->
    post (transpile_deps X C rec r ignoreDeps httpExt ds fsync err w) (grows w0).
Proof.
  intros Hrec. induction ds as [|d ds IH]; intros fsync err w0 w G.
  - simpl. destruct err; exact G.
  - simpl.
    pose proof (transpile_dep_grows rec r ignoreDeps httpExt d Hrec w) as Hd.
    destruct (transpile_dep X C rec r ignoreDeps httpExt d w)
      as [patched w'|msg w'|w'|]; simpl in Hd; auto.
    + apply IH. eapply grows_trans; eauto.
    + apply IH. eapply grows_trans; eauto.
    + simpl. eapply grows_trans; eauto.
Qed.

Lemma transpile_module_deps_grows (rec : TranspileRec) (r : nat)
    (ignoreDeps httpExt : bool) :
  (forall dm src, sat grows (rec dm src)) ->
  sat grows (transpile_module_deps X C rec r ignoreDeps httpExt).
Proof.
  intros Hrec w. unfold transpile_module_deps.
  destruct (deps (deref w r)) as [|d ds]; [apply grows_refl|].
  pose proof (transpile_deps_grows rec r ignoreDeps httpExt Hrec (d :: ds)
                false None w w (grows_refl w)) as Hloop.
  destruct (transpile_deps X C rec r ignoreDeps httpExt (d :: ds) false None w)
    as [[|] w'|msg w'|w'|]; simpl in *; auto.
  eapply grows_trans; [exact Hloop|apply cacheModule_grows].
Qed.

Lemma transpile_body_grows (rec : TranspileRec) (r : nat)
    (source : option ModuleSource) (ignoreDeps : bool) (t : nat) :
  (forall dm src, sat grows (rec dm src)) ->
  sat grows (transpile_body X C rec r source ignoreDeps t).
Proof.
  intros Hrec w. unfold transpile_body.
  destruct (tracing_has t (specifier (deref w r)) w); [apply grows_refl|].
  set (w0 := tracing_add t (specifier (deref w r)) w).
  assert (G0 : grows w w0) by now apply grows_frame.
  assert (Hrest : forall A (c : M A), sat grows c -> post (c w0) (grows w)).
  { intros A c Hc. specialize (Hc w0).
    destruct (c w0) as [a w1|msg w1|w1|]; simpl in *; auto;
      eapply grows_trans; eauto. }
  destruct source as [src|].
  - destruct (SourceType_eqb (src_type src) Unknown).
    + simpl. eapply grows_trans; [exact G0|apply grows_emit].
    + apply Hrest.
      grows_bind; [apply transform_source_grows|intros src1].
      grows_bind; [now apply transpile_module_deps_grows|intros _].
      apply sat_ret, grows_refl.
  - apply Hrest.
    grows_bind; [now apply transpile_module_deps_grows|intros _].
    apply sat_ret, grows_refl.
Qed.

Lemma transpileModule_grows (fuel : nat) :
  forall (r : nat) (source : option ModuleSource) (ignoreDeps : bool) (t : nat),
    sat grows (transpileModule X C fuel r source ignoreDeps t).
Proof.
  induction fuel as [|fuel IH]; intros r source ignoreDeps t.
  - intros w. exact I.
  - simpl. apply transpile_body_grows.
    intros dm src. grows_bind; [apply IH|].
    intros _. apply sat_ret, grows_refl.
Qed.

Lemma compile_pass_grows (fuel : nat) (s : string) (o : CompileOptions) :
  sat grows (compile_pass X C fuel s o).
Proof.
  unfold compile_pass. grows_bind; [apply initModule_grows|].
  intros [r source] w. destruct (external (deref w r)); [apply grows_refl|].
  unfold new_set.
  set (w1 := with_sets (sets w ++ [[]]) w).
  assert (G1 : grows w w1) by now apply grows_frame.
  assert (Hc : sat grows
                 (source' <- transpileModule X C fuel r source (opt_ignoreDeps o)
                               (List.length (sets w)) ;; ret (r, source'))).
  { grows_bind; [apply transpileModule_grows|].
    intros source'. apply sat_ret, grows_refl. }
  specialize (Hc w1).
  destruct ((source' <- transpileModule X C fuel r source (opt_ignoreDeps o)
                          (List.length (sets w)) ;; ret (r, source')) w1)
    as [a w2|msg w2|w2|]; simpl in *; auto; eapply grows_trans; eauto.
Qed.

Lemma compile_grows (fuel : nat) (s : string) (o : CompileOptions) :
  sat grows (compile X C fuel s o).
Proof.
  unfold compile. grows_bind; [apply compile_pass_grows|].
  intros [r src]. apply sat_ret, grows_refl.
Qed.

End Registry.



(** * Aggregate hashes depend on the dependency graph only *)

Lemma same_graph_refl (w : World) : same_graph w w.
Proof. repeat split; auto. Qed.

Lemma same_graph_trans (w1 w2 w3 : World) :
  same_graph w1 w2 -> same_graph w2 w3 -> same_graph w1 w3.
Proof.
  intros (M1 & A1 & S1 & D1 & H1) (M2 & A2 & S2 & D2 & H2). repeat split.
  - now rewrite M2.
  - now rewrite A2.
  - intros r. now rewrite S2.
  - intros r. now rewrite D2.
  - intros r. now rewrite H2.
Qed.

Lemma patched_only_same_graph (w w' : World) (evs : list Event) :
  patched_only w w' evs -> same_graph w w'.
Proof.
  intros P. repeat split.
  - apply (po_modules P).
  - apply (po_appModule P).
  - apply (po_specifier P).
  - apply (po_deps P).
  - apply (po_sourceHash P).
Qed.

Lemma getModule_same_graph (w w' : World) (s : string) :
  same_graph w w' -> getModule w' s = getModule w s.
Proof.
  intros (M & A & _). unfold getModule. now rewrite M, A.
Qed.

Lemma visit_deps_ext (A : Type)
    (cb cb' : DependencyDescriptor -> A -> A * bool)
    (ds : list DependencyDescriptor) (acc : A) :
  (forall d a, cb' d a = cb d a) ->
  visit_deps cb' ds acc = visit_deps cb ds acc.
Proof.
  intros H. revert acc. induction ds as [|d ds IH]; intros acc; simpl; auto.
  rewrite H. destruct (cb d acc) as [acc' stop]. destruct stop; auto.
Qed.

Lemma walk_deps_ext (A : Type)
    (rec rec' : string -> A -> list string -> option (A * list string * bool))
    (ds : list DependencyDescriptor) (acc : A) (tracing : list string) :
  (forall s a t, rec' s a t = rec s a t) ->
  walk_deps rec' ds acc tracing = walk_deps rec ds acc tracing.
Proof.
  intros H. revert acc tracing.
  induction ds as [|d ds IH]; intros acc tracing; simpl; auto.
  rewrite H. destruct (rec (dep_specifier d) acc tracing) as [[[a t] b]|]; auto.
  destruct b; auto.
Qed.

Lemma lookupDeps_same_graph (A : Type) (w w' : World)
    (cb cb' : DependencyDescriptor -> A -> A * bool) (fuel : nat) :
  same_graph w w' ->
  (forall d a, cb' d a = cb d a) ->
  forall s acc tracing,
    lookupDeps fuel w' cb' s acc tracing = lookupDeps fuel w cb s acc tracing.
Proof.
  intros G Hcb. induction fuel as [|fuel IH]; intros s acc tracing; simpl; auto.
  rewrite (getModule_same_graph w w' s G).
  destruct (getModule w s) as [r|]; auto.
  destruct (set_has s tracing); auto.
  destruct G as (_ & _ & _ & D & _). rewrite D.
  rewrite (visit_deps_ext _ cb cb' _ _ Hcb).
  destruct (visit_deps cb (deps (deref w r)) acc) as [acc1 stop].
  destruct stop; auto.
  now apply walk_deps_ext.
Qed.

Lemma computeModuleHash_same_graph (X : Ext) (w w' : World) (r : nat) :
  same_graph w w' -> computeModuleHash X w' r = computeModuleHash X w r.
Proof.
  intros G. unfold computeModuleHash.
  assert (Hcb : forall d a, hash_dep w' d a = hash_dep w d a).
  { intros d a. unfold hash_dep. rewrite (getModule_same_graph w w' _ G).
    destruct (getModule w (dep_specifier d)) as [r0|]; auto.
    destruct G as (_ & _ & _ & _ & H). now rewrite H. }
  assert (Hf : lookup_fuel w' = lookup_fuel w).
  { unfold lookup_fuel. destruct G as (M & _). now rewrite M. }
  rewrite Hf, (lookupDeps_same_graph _ w w' (hash_dep w) (hash_dep w') _ G Hcb).
  destruct G as (_ & _ & S & _ & H). now rewrite S, H.
Qed.

(** Patching never changes an aggregate hash: [computeModuleHash]
    reads the registry, the dependency lists and the source hashes, and
    a cascade changes none of them, so in the state in which
    [#applyCompilationSideEffect] returns every module has the
    aggregate hash it had before, and so after a single
    [#replaceDepHash] of a recorded marker. *)
Theorem cascade_keeps_aggregate_hashes :
  forall (X : Ext) (C : Config) (fuel by_ : nat) (tracing : list string)
         (w w' : World),
    applyCompilationSideEffect X C fuel by_ tracing w = Some w' ->
    forall r, computeModuleHash X w' r = computeModuleHash X w r.
Proof.
  intros X C fuel by_ tracing w w' Hrun r.
  destruct (applyCompilationSideEffect_patched_only X C fuel by_ tracing w w' Hrun)
    as [evs P].
  apply computeModuleHash_same_graph. eapply patched_only_same_graph; eauto.
Qed.

Lemma cascade_keeps_aggregate_hashes_witness :
  computeModuleHash (diamond_ext "export default 2")
    (final_state diamond_cascaded) 0
  = computeModuleHash (diamond_ext "export default 2")
      (final_world diamond_edited) 0.
Proof.
  apply (cascade_keeps_aggregate_hashes (diamond_ext "export default 2")
           plain_config 10 4 [] (final_world diamond_edited)
           (final_state diamond_cascaded)).
  vm_compute. reflexivity.
Defined.

(** * A cascade over well-placed markers ends *)

Lemma nth_error_slice (buf : bytes) (l : Z) (i : nat) :
  (0 <= l)%Z -> (l + 6 <= Z.of_nat (List.length buf))%Z ->
  nth_error (slice buf l (l + 6)) i
  = if Nat.ltb i 6 then nth_error buf (Z.to_nat l + i) else None.
Proof.
  intros H0 H1.
  replace (l + 6)%Z with (l + Z.of_nat 6)%Z by reflexivity.
  rewrite slice_inside by (simpl; lia).
  rewrite nth_error_firstn. destruct (Nat.ltb i 6); [|reflexivity].
  apply nth_error_skipn.
Qed.

(** Writing one window leaves a window apart from it as it was. *)
Lemma slice_copy_apart (src b : bytes) (l1 l2 : Z) :
  List.length src <= 6 ->
  (0 <= l1)%Z -> (0 <= l2)%Z ->
  (l2 + 6 <= Z.of_nat (List.length b))%Z ->
  (l1 + 6 <= l2 \/ l2 + 6 <= l1)%Z ->
  slice (copy src b l1) l2 (l2 + 6) = slice b l2 (l2 + 6).
Proof.
  intros Hsrc H1 H2 Hin Hapart. apply nth_error_ext. intros i.
  rewrite !nth_error_slice by (try rewrite length_copy; assumption).
  destruct (Nat.ltb i 6) eqn:Hi; [|reflexivity].
  apply Nat.ltb_lt in Hi.
  apply nth_error_copy_outside; [assumption|].
  unfold in_window. lia.
Qed.

Section Stale.
Variable X : Ext.
Variable C : Config.

Lemma replaceDepHash_patches (r : nat) (hashLoc : Z) (hash : string)
    (w : World) (b : bytes) :
  jsBuffer (deref w r) = Some b ->
  replaceDepHash X C r hashLoc hash w
  = if equals (encode (substr06 hash)) (slice b hashLoc (hashLoc + 6))
    then (false, w)
    else (true, patched_world r (copy (encode (substr06 hash)) b hashLoc) w).
Proof. apply replaceDepHash_in_memory. Qed.

Lemma patched_world_same_graph (r : nat) (b : bytes) (w : World) :
  same_graph w (patched_world r b w).
Proof.
  unfold patched_world. rewrite mutate_twice.
  repeat split; intros r'; now apply deref_mutate_field.
Qed.

Lemma deref_patched_other (r r' : nat) (b : bytes) (w : World) :
  r <> r' -> deref (patched_world r b w) r' = deref w r'.
Proof.
  intros H. unfold patched_world. now rewrite !deref_mutate_other.
Qed.

Lemma jsBuffer_patched_world (r : nat) (b : bytes) (w : World) :
  r < List.length (heap w) ->
  jsBuffer (deref (patched_world r b w) r) = Some b.
Proof. intros H. now apply jsBuffer_patched. Qed.

Lemma deps_patched_world (r r' : nat) (b : bytes) (w : World) :
  deps (deref (patched_world r b w) r') = deps (deref w r').
Proof.
  destruct (patched_world_same_graph r b w) as (_ & _ & _ & D & _). apply D.
Qed.

Lemma hash6_same_graph (w w' : World) (t : nat) :
  same_graph w w' -> hash6 X w' t = hash6 X w t.
Proof.
  intros G. unfold hash6. now rewrite (computeModuleHash_same_graph X w w' t G).
Qed.

(** A module that holds bytes is a module object of the heap. *)
Lemma jsBuffer_in_heap (w : World) (r : nat) (b : bytes) :
  jsBuffer (deref w r) = Some b -> r < List.length (heap w).
Proof.
  intros H. destruct (Nat.lt_ge_cases r (List.length (heap w))) as [Hlt|Hge]; auto.
  unfold deref in H. rewrite nth_overflow in H by assumption. discriminate.
Qed.

Lemma modules_patched_world (r : nat) (b : bytes) (w : World) :
  modules (patched_world r b w) = modules w.
Proof. reflexivity. Qed.

(** A patch of [r] leaves the markers of the other modules as stale as
    they were. *)
Lemma stale_dep_other (r r' : nat) (b : bytes) (w : World)
    (d : DependencyDescriptor) :
  r <> r' -> stale_dep X (patched_world r b w) r' d = stale_dep X w r' d.
Proof.
  intros Hne. unfold stale_dep.
  rewrite deref_patched_other by assumption. rewrite modules_patched_world.
  destruct (dep_hashLoc d) as [l|]; auto.
  destruct (jsBuffer (deref w r')) as [b0|]; auto.
  destruct (map_get (dep_specifier d) (modules w)) as [t|]; auto.
  now rewrite (hash6_same_graph w _ t (patched_world_same_graph r b w)).
Qed.

Lemma length_hash6 (w : World) (t : nat) :
  6 <= String.length (computeModuleHash X w t) ->
  List.length (hash6 X w t) = 6.
Proof. apply length_hashData_full. Qed.

(** A patch of the marker [d] of [r] with the hash of the module [t] it
    names makes [d] current and no other marker of [r] stale. *)
Lemma stale_dep_patched (r : nat) (l : Z) (t : nat) (w : World) (b : bytes)
    (d d' : DependencyDescriptor) :
  jsBuffer (deref w r) = Some b ->
  dep_hashLoc d = Some l ->
  (0 <= l)%Z -> (l + 6 <= Z.of_nat (List.length b))%Z ->
  map_get (dep_specifier d) (modules w) = Some t ->
  6 <= String.length (computeModuleHash X w t) ->
  window_inside (deref w r) d' = true ->
  windows_apart d d' = true ->
  (stale_dep X (patched_world r (copy (hash6 X w t) b l) w) r d' = true ->
   stale_dep X w r d' = true)
  /\ stale_dep X (patched_world r (copy (hash6 X w t) b l) w) r d = false.
Proof.
  intros Hb Hl H0 H1 Ht Hlen Hin Hapart.
  pose proof (jsBuffer_in_heap w r b Hb) as Hr.
  pose proof (length_hash6 w t Hlen) as H6.
  set (b' := copy (hash6 X w t) b l).
  set (w' := patched_world r b' w).
  assert (Hb' : jsBuffer (deref w' r) = Some b') by now apply jsBuffer_patched_world.
  assert (G : same_graph w w') by apply patched_world_same_graph.
  assert (Hwin : slice b' l (l + 6) = hash6 X w t).
  { unfold b'. replace 6%Z with (Z.of_nat (List.length (hash6 X w t)))
      by (rewrite H6; reflexivity).
    apply slice_copy; [assumption|]. rewrite H6. simpl. lia. }
  assert (Hself : forall d0, dep_hashLoc d0 = Some l ->
            map_get (dep_specifier d0) (modules w) = Some t ->
            stale_dep X w' r d0 = false).
  { intros d0 Hl0 Ht0. unfold stale_dep.
    rewrite Hl0, Hb'. unfold w'. rewrite modules_patched_world, Ht0.
    fold w'. rewrite (hash6_same_graph w w' t G), Hwin.
    apply negb_false_iff. now apply equals_eq. }
  split; [|now apply Hself].
  unfold windows_apart in Hapart. rewrite Hl in Hapart.
  unfold window_inside in Hin. rewrite Hb in Hin.
  destruct (dep_hashLoc d') as [l'|] eqn:Hl'.
  2:{ unfold stale_dep. rewrite Hl'. discriminate. }
  apply andb_true_iff in Hin. destruct Hin as [Hin0 Hin1].
  apply Z.leb_le in Hin0. apply Z.leb_le in Hin1.
  apply orb_true_iff in Hapart. destruct Hapart as [Hapart|Hsame].
  - assert (Hsl : slice b' l' (l' + 6) = slice b l' (l' + 6)).
    { unfold b'. apply slice_copy_apart; try assumption; [rewrite H6; lia|].
      apply orb_true_iff in Hapart.
      destruct Hapart as [H|H]; apply Z.leb_le in H; lia. }
    unfold stale_dep. rewrite Hl', Hb', Hb. unfold w' at 1.
    rewrite modules_patched_world.
    destruct (map_get (dep_specifier d') (modules w)) as [t'|]; auto.
    now rewrite (hash6_same_graph w w' t' G), Hsl.
  - apply andb_true_iff in Hsame. destruct Hsame as [Hll Hss].
    apply Z.eqb_eq in Hll. apply String.eqb_eq in Hss. subst l'.
    rewrite (Hself d' Hl'); [discriminate|]. now rewrite <- Hss.
Qed.

Lemma list_sum_map_le (A : Type) (f g : A -> nat) (l : list A) :
  (forall x, In x l -> f x <= g x) ->
  list_sum (List.map f l) <= list_sum (List.map g l).
Proof.
  induction l as [|x l IH]; intros H; simpl; [lia|].
  pose proof (H x (or_introl eq_refl)).
  assert (list_sum (List.map f l) <= list_sum (List.map g l)).
  { apply IH. intros y Hy. apply H. now right. }
  lia.
Qed.

Lemma list_sum_map_lt (A : Type) (f g : A -> nat) (l : list A) (a : A) :
  (forall x, In x l -> f x <= g x) -> In a l -> f a < g a ->
  list_sum (List.map f l) < list_sum (List.map g l).
Proof.
  induction l as [|x l IH]; intros H Hin Hlt; simpl; [contradiction|].
  pose proof (H x (or_introl eq_refl)).
  assert (Hrest : forall y, In y l -> f y <= g y) by (intros y Hy; apply H; now right).
  destruct Hin as [->|Hin].
  - pose proof (list_sum_map_le _ f g l Hrest). lia.
  - specialize (IH Hrest Hin Hlt). lia.
Qed.

Lemma markers_ok_inside (m : Mod) (d : DependencyDescriptor) :
  markers_ok m = true -> In d (deps m) -> window_inside m d = true.
Proof.
  intros H Hd. apply andb_true_iff in H. destruct H as [H _].
  rewrite forallb_forall in H. now apply H.
Qed.

Lemma markers_ok_apart (m : Mod) (d d' : DependencyDescriptor) :
  markers_ok m = true -> In d (deps m) -> In d' (deps m) ->
  windows_apart d d' = true.
Proof.
  intros H Hd Hd'. apply andb_true_iff in H. destruct H as [_ H].
  rewrite forallb_forall in H. specialize (H d Hd).
  rewrite forallb_forall in H. now apply H.
Qed.

Lemma filter_length_le_in (A : Type) (f g : A -> bool) (l : list A) :
  (forall x, In x l -> f x = true -> g x = true) ->
  List.length (filter f l) <= List.length (filter g l).
Proof.
  induction l as [|x l IH]; intros H; simpl; [lia|].
  assert (Hl : List.length (filter f l) <= List.length (filter g l)).
  { apply IH. intros y Hy. apply H. now right. }
  destruct (f x) eqn:Hf.
  - rewrite (H x (or_introl eq_refl) Hf). simpl. lia.
  - destruct (g x); simpl; lia.
Qed.

Lemma filter_length_lt_in (A : Type) (f g : A -> bool) (l : list A) (a : A) :
  (forall x, In x l -> f x = true -> g x = true) ->
  In a l -> f a = false -> g a = true ->
  List.length (filter f l) < List.length (filter g l).
Proof.
  induction l as [|x l IH]; intros H Hin Hf Hg; simpl; [contradiction|].
  assert (Hrest : forall y, In y l -> f y = true -> g y = true)
    by (intros y Hy; apply H; now right).
  pose proof (filter_length_le_in A f g l Hrest) as Hle.
  destruct Hin as [->|Hin].
  - rewrite Hf, Hg. simpl. lia.
  - specialize (IH Hrest Hin Hf Hg). destruct (f x) eqn:Hfx.
    + rewrite (H x (or_introl eq_refl) Hfx). simpl. lia.
    + destruct (g x); simpl; lia.
Qed.

(** The patch of a stale marker lowers the number of stale markers. *)
Lemma stale_patched_lt (r : nat) (l : Z) (t : nat) (w : World) (b : bytes)
    (d : DependencyDescriptor) :
  In r (map_values (modules w)) ->
  markers_ok (deref w r) = true ->
  In d (deps (deref w r)) ->
  jsBuffer (deref w r) = Some b ->
  dep_hashLoc d = Some l ->
  map_get (dep_specifier d) (modules w) = Some t ->
  6 <= String.length (computeModuleHash X w t) ->
  equals (hash6 X w t) (slice b l (l + 6)) = false ->
  stale X (patched_world r (copy (hash6 X w t) b l) w) < stale X w.
Proof.
  intros Hr Hok Hd Hb Hl Ht Hlen Hne.
  set (w' := patched_world r (copy (hash6 X w t) b l) w).
  pose proof (markers_ok_inside _ d Hok Hd) as Hin.
  assert (Hbounds : (0 <= l)%Z /\ (l + 6 <= Z.of_nat (List.length b))%Z).
  { unfold window_inside in Hin. rewrite Hl, Hb in Hin.
    apply andb_true_iff in Hin. destruct Hin as [H0 H1].
    apply Z.leb_le in H0. apply Z.leb_le in H1. auto. }
  destruct Hbounds as [H0 H1].
  assert (Hstale : stale_dep X w r d = true).
  { unfold stale_dep. rewrite Hl, Hb, Ht. now rewrite Hne. }
  assert (Hstep : forall d', In d' (deps (deref w r)) ->
            (stale_dep X w' r d' = true -> stale_dep X w r d' = true)
            /\ stale_dep X w' r d = false).
  { intros d' Hd'.
    apply (stale_dep_patched r l t w b d d' Hb Hl H0 H1 Ht Hlen
             (markers_ok_inside _ d' Hok Hd')
             (markers_ok_apart _ d d' Hok Hd Hd')). }
  unfold stale. change (modules w') with (modules w).
  apply list_sum_map_lt with (a := r); [|exact Hr|].
  - intros r' _. unfold stale_in. unfold w'. rewrite deps_patched_world.
    destruct (Nat.eq_dec r r') as [<-|Hne'].
    + apply filter_length_le_in. intros d' Hd'. apply (Hstep d' Hd').
    + erewrite filter_ext; [apply Nat.le_refl|].
      intros d'. now apply stale_dep_other.
  - unfold stale_in. unfold w'. rewrite deps_patched_world.
    apply filter_length_lt_in with (a := d); auto.
    + intros d' Hd'. apply (Hstep d' Hd').
    + apply (Hstep d Hd).
Qed.

Lemma forallb_ext (A : Type) (f g : A -> bool) (l : list A) :
  (forall x, f x = g x) -> forallb f l = forallb g l.
Proof.
  intros H. induction l as [|x l IH]; simpl; auto. now rewrite H, IH.
Qed.

Lemma window_inside_ext (m m' : Mod) (d : DependencyDescriptor) :
  option_map (@List.length byte) (jsBuffer m')
  = option_map (@List.length byte) (jsBuffer m) ->
  window_inside m' d = window_inside m d.
Proof.
  intros H. unfold window_inside. destruct (dep_hashLoc d) as [l|]; auto.
  destruct (jsBuffer m') as [b'|], (jsBuffer m) as [b|]; simpl in H;
    try discriminate; auto.
  inversion H as [Hlen]. now rewrite Hlen.
Qed.

Lemma markers_ok_ext (m m' : Mod) :
  deps m' = deps m ->
  option_map (@List.length byte) (jsBuffer m')
  = option_map (@List.length byte) (jsBuffer m) ->
  markers_ok m' = markers_ok m.
Proof.
  intros Hd Hb. unfold markers_ok. rewrite Hd. f_equal.
  apply forallb_ext. intros d. now apply window_inside_ext.
Qed.

(** The readiness of a state depends on the dependency graph and on
    the lengths of the buffers. *)
Lemma cascade_ready_ext (w w' : World) :
  same_graph w w' ->
  (forall r, option_map (@List.length byte) (jsBuffer (deref w' r))
             = option_map (@List.length byte) (jsBuffer (deref w r))) ->
  cascade_ready X w' = cascade_ready X w.
Proof.
  intros G Hb. unfold cascade_ready.
  pose proof G as (M & _ & S & D & _). rewrite M.
  apply forallb_ext. intros r.
  rewrite (markers_ok_ext (deref w r) (deref w' r) (D r) (Hb r)).
  unfold registered. rewrite S, M.
  now rewrite (computeModuleHash_same_graph X w w' r G).
Qed.

(** The number of stale markers depends on the dependency graph and on
    the buffers. *)
Lemma stale_ext (w w' : World) :
  same_graph w w' ->
  (forall r, jsBuffer (deref w' r) = jsBuffer (deref w r)) ->
  stale X w' = stale X w.
Proof.
  intros G Hb. unfold stale.
  pose proof G as (M & _ & S & D & _). rewrite M.
  f_equal. apply map_ext. intros r. unfold stale_in. rewrite D.
  f_equal. apply filter_ext. intros d. unfold stale_dep. rewrite Hb, M.
  destruct (dep_hashLoc d) as [l|]; auto.
  destruct (jsBuffer (deref w r)) as [b|]; auto.
  destruct (map_get (dep_specifier d) (modules w)) as [t|]; auto.
  now rewrite (hash6_same_graph w w' t G).
Qed.

(** A step that leaves the heap, the registry and the app module. *)
Lemma same_graph_frame (w w' : World) :
  heap w' = heap w -> modules w' = modules w -> appModule w' = appModule w ->
  same_graph w w' /\ forall r, deref w' r = deref w r.
Proof.
  intros Hh Hm Ha.
  assert (Hd : forall r, deref w' r = deref w r)
    by (intros r; unfold deref; now rewrite Hh).
  repeat split; auto; intros r; now rewrite Hd.
Qed.

Lemma frame_keeps (w w' : World) :
  heap w' = heap w -> modules w' = modules w -> appModule w' = appModule w ->
  same_graph w w' /\ cascade_ready X w' = cascade_ready X w
  /\ stale X w' = stale X w.
Proof.
  intros Hh Hm Ha. destruct (same_graph_frame w w' Hh Hm Ha) as [G Hd].
  split; [exact G|]. split.
  - apply cascade_ready_ext; auto. intros r. now rewrite Hd.
  - apply stale_ext; auto. intros r. now rewrite Hd.
Qed.

Lemma cacheModule_keeps (r : nat) (sm : option string) (w : World) :
  same_graph w (cacheModule X C r sm w)
  /\ cascade_ready X (cacheModule X C r sm w) = cascade_ready X w
  /\ stale X (cacheModule X C r sm w) = stale X w.
Proof.
  unfold cacheModule. destruct (jsBuffer (deref w r)).
  - apply frame_keeps; destruct sm as [sm|]; try destruct (isFilledString sm);
      reflexivity.
  - apply frame_keeps; reflexivity.
Qed.

Lemma cascade_ready_at (w : World) (r : nat) :
  cascade_ready X w = true -> In r (map_values (modules w)) ->
  markers_ok (deref w r) = true
  /\ map_get (specifier (deref w r)) (modules w) = Some r
  /\ 6 <= String.length (computeModuleHash X w r).
Proof.
  intros H Hr. unfold cascade_ready in H. rewrite forallb_forall in H.
  specialize (H r Hr). apply andb_true_iff in H. destruct H as [H H3].
  apply andb_true_iff in H. destruct H as [H1 H2].
  split; [exact H1|]. split.
  - unfold registered in H2.
    destruct (map_get (specifier (deref w r)) (modules w)) as [r'|]; [|discriminate].
    apply Nat.eqb_eq in H2. now subst.
  - now apply Nat.leb_le.
Qed.

(** One [#replaceDepHash] of a cascade: it keeps the graph and the
    readiness, and a patch lowers the number of stale markers. *)
Lemma replaceDepHash_progress (by_ r : nat) (d : DependencyDescriptor) (l : Z)
    (w : World) :
  cascade_ready X w = true ->
  In r (map_values (modules w)) ->
  In by_ (map_values (modules w)) ->
  In d (deps (deref w r)) ->
  dep_hashLoc d = Some l ->
  dep_specifier d = specifier (deref w by_) ->
  same_graph w (snd (replaceDepHash X C r l (computeModuleHash X w by_) w))
  /\ cascade_ready X (snd (replaceDepHash X C r l (computeModuleHash X w by_) w))
     = true
  /\ stale X (snd (replaceDepHash X C r l (computeModuleHash X w by_) w))
     + (if fst (replaceDepHash X C r l (computeModuleHash X w by_) w) then 1 else 0)
     <= stale X w.
Proof.
  intros Hready Hr Hby Hd Hl Hs.
  destruct (cascade_ready_at w r Hready Hr) as (Hok & _ & _).
  destruct (cascade_ready_at w by_ Hready Hby) as (_ & Hreg & Hlen).
  pose proof (markers_ok_inside _ d Hok Hd) as Hin.
  unfold window_inside in Hin. rewrite Hl in Hin.
  destruct (jsBuffer (deref w r)) as [b|] eqn:Hb; [|discriminate].
  rewrite (replaceDepHash_patches r l _ w b Hb).
  fold (hash6 X w by_).
  destruct (equals (hash6 X w by_) (slice b l (l + 6))) eqn:E; cbn [fst snd].
  - split; [apply same_graph_refl|]. split; [exact Hready|lia].
  - set (w' := patched_world r (copy (hash6 X w by_) b l) w).
    assert (G : same_graph w w') by apply patched_world_same_graph.
    split; [exact G|]. split.
    + rewrite <- Hready. apply cascade_ready_ext; [exact G|].
      intros r'. destruct (Nat.eq_dec r r') as [<-|Hne].
      * unfold w'. rewrite jsBuffer_patched_world by (eapply jsBuffer_in_heap; eauto).
        rewrite Hb. simpl. now rewrite length_copy.
      * unfold w'. now rewrite deref_patched_other.
    + assert (Ht : map_get (dep_specifier d) (modules w) = Some by_)
        by (now rewrite Hs).
      pose proof (stale_patched_lt r l by_ w b d Hr Hok Hd Hb Hl Ht Hlen E).
      fold w' in H. lia.
Qed.

(** The loop over the dependencies of one module. *)
Lemma patch_deps_progress (by_ r : nat) :
  forall (ds : list DependencyDescriptor) (hash : option string) (fsync : bool)
         (w : World),
    cascade_ready X w = true ->
    In r (map_values (modules w)) ->
    In by_ (map_values (modules w)) ->
    incl ds (deps (deref w r)) ->
    (hash = None \/ hash = Some (computeModuleHash X w by_)) ->
    exists hash' fsync' w1,
      patch_deps X C by_ r ds hash fsync w = (hash', fsync', w1)
      /\ same_graph w w1
      /\ cascade_ready X w1 = true
      /\ stale X w1 + (if fsync' && negb fsync then 1 else 0) <= stale X w
      /\ (hash' = None \/ hash' = Some (computeModuleHash X w1 by_))
      /\ (fsync = true -> fsync' = true).
Proof.
  induction ds as [|d ds IH]; intros hash fsync w Hready Hr Hby Hincl Hhash.
  - exists hash, fsync, w. split; [reflexivity|].
    split; [apply same_graph_refl|]. split; [exact Hready|].
    split; [destruct fsync; simpl; lia|]. auto.
  - assert (Hincl' : incl ds (deps (deref w r)))
      by (intros x Hx; apply Hincl; now right).
    cbn [patch_deps].
    destruct (dep_hashLoc d) as [l|] eqn:Hl; [|now apply IH].
    destruct (String.eqb (dep_specifier d) (specifier (deref w by_))) eqn:Hs;
      [|now apply IH].
    apply String.eqb_eq in Hs.
    assert (Hh : match hash with Some h => h | None => computeModuleHash X w by_ end
                 = computeModuleHash X w by_).
    { destruct Hhash as [->| ->]; reflexivity. }
    rewrite Hh.
    destruct (replaceDepHash_progress by_ r d l w Hready Hr Hby
                (Hincl d (or_introl eq_refl)) Hl Hs) as (G1 & R1 & S1).
    destruct (replaceDepHash X C r l (computeModuleHash X w by_) w)
      as [patched w1]. cbn [fst snd] in *.
    pose proof G1 as (M1 & _ & _ & D1 & _).
    destruct (IH (Some (computeModuleHash X w by_))
                (if patched then true else fsync) w1 R1)
      as (hash' & fsync' & w2 & E & G2 & R2 & S2 & H2 & F2).
    + now rewrite M1.
    + now rewrite M1.
    + now rewrite D1.
    + right. f_equal. symmetry. now apply computeModuleHash_same_graph.
    + exists hash', fsync', w2. split; [exact E|].
      split; [eapply same_graph_trans; eauto|]. split; [exact R2|].
      split; [|split; [exact H2|]].
      * destruct patched.
        -- rewrite (F2 eq_refl) in *. destruct fsync; simpl in *; lia.
        -- lia.
      * intros ->. apply F2. now destruct patched.
Qed.

(** The loop over the registry, for a recursive call that ends whenever
    fewer than [fuel] markers are stale. *)
Lemma scan_modules_progress (fuel by_ : nat)
    (rec : nat -> World -> option World) :
  (forall r w, cascade_ready X w = true -> In r (map_values (modules w)) ->
               stale X w < fuel ->
               exists w', rec r w = Some w'
                          /\ same_graph w w'
                          /\ cascade_ready X w' = true
                          /\ stale X w' <= stale X w) ->
  forall (ms : list nat) (hash : option string) (w : World),
    cascade_ready X w = true ->
    incl ms (map_values (modules w)) ->
    In by_ (map_values (modules w)) ->
    (hash = None \/ hash = Some (computeModuleHash X w by_)) ->
    stale X w <= fuel ->
    exists w', scan_modules X C rec by_ ms hash w = Some w'
               /\ same_graph w w'
               /\ cascade_ready X w' = true
               /\ stale X w' <= stale X w.
Proof.
  intros Hrec. induction ms as [|r ms IH]; intros hash w Hready Hincl Hby Hhash Hfuel.
  - exists w. split; [reflexivity|]. split; [apply same_graph_refl|]. auto.
  - assert (Hr : In r (map_values (modules w))) by (apply Hincl; now left).
    assert (Hincl' : incl ms (map_values (modules w)))
      by (intros x Hx; apply Hincl; now right).
    cbn [scan_modules].
    destruct (deps (deref w r)) as [|d ds] eqn:Hds; [now apply IH|].
    destruct (patch_deps_progress by_ r (d :: ds) hash false w Hready Hr Hby)
      as (hash' & fsync' & w1 & E & G1 & R1 & S1 & H1 & _).
    { rewrite Hds. apply incl_refl. }
    { exact Hhash. }
    rewrite E.
    pose proof G1 as (M1 & _).
    destruct fsync'.
    + (* a marker of [r] was patched *)
      simpl in S1.
      set (w2 := emit (EvCallback r) w1).
      destruct (frame_keeps w1 w2 eq_refl eq_refl eq_refl) as (G2 & R2 & S2).
      destruct (Hrec r w2) as (w3 & E3 & G3 & R3 & S3).
      { now rewrite R2. }
      { change (modules w2) with (modules w1). now rewrite M1. }
      { rewrite S2. lia. }
      rewrite E3.
      destruct (cacheModule_keeps r None w3) as (G4 & R4 & S4).
      set (w4 := cacheModule X C r None w3) in *.
      assert (G : same_graph w w4).
      { eapply same_graph_trans; [exact G1|].
        eapply same_graph_trans; [exact G2|].
        eapply same_graph_trans; [exact G3|exact G4]. }
      pose proof G as (M4 & _).
      destruct (IH hash' w4) as (w5 & E5 & G5 & R5 & S5).
      * now rewrite R4.
      * now rewrite M4.
      * now rewrite M4.
      * destruct H1 as [->| ->]; [now left|right]. f_equal.
        symmetry. apply computeModuleHash_same_graph.
        eapply same_graph_trans; [exact G2|].
        eapply same_graph_trans; [exact G3|exact G4].
      * rewrite S4. lia.
      * exists w5. split; [exact E5|].
        split; [eapply same_graph_trans; eauto|]. split; [exact R5|].
        rewrite S4 in S5. lia.
    + simpl in S1.
      destruct (IH hash' w1) as (w5 & E5 & G5 & R5 & S5); auto.
      * now rewrite M1.
      * now rewrite M1.
      * lia.
      * exists w5. split; [exact E5|].
        split; [eapply same_graph_trans; eauto|]. split; [exact R5|lia].
Qed.

Lemma applyCompilationSideEffect_progress (fuel : nat) :
  forall (by_ : nat) (tracing : list string) (w : World),
    cascade_ready X w = true ->
    In by_ (map_values (modules w)) ->
    stale X w < fuel ->
    exists w', applyCompilationSideEffect X C fuel by_ tracing w = Some w'
               /\ same_graph w w'
               /\ cascade_ready X w' = true
               /\ stale X w' <= stale X w.
Proof.
  induction fuel as [|fuel IH]; intros by_ tracing w Hready Hby Hfuel; [lia|].
  cbn [applyCompilationSideEffect].
  destruct (set_has (specifier (deref w by_)) tracing).
  { exists w. split; [reflexivity|]. split; [apply same_graph_refl|]. auto. }
  set (w0 := emit (EvSideEffectBy (specifier (deref w by_))) w).
  destruct (frame_keeps w w0 eq_refl eq_refl eq_refl) as (G0 & R0 & S0).
  destruct (scan_modules_progress fuel by_
              (fun r => applyCompilationSideEffect X C fuel r [])
              (fun r w1 H1 H2 H3 => IH r [] w1 H1 H2 H3)
              (map_values (modules w0)) None w0)
    as (w' & E & G & R & S).
  - now rewrite R0.
  - apply incl_refl.
  - exact Hby.
  - now left.
  - rewrite S0. lia.
  - exists w'. split; [exact E|].
    split; [eapply same_graph_trans; [exact G0|exact G]|]. split; [exact R|].
    rewrite S0 in S. exact S.
Qed.

End Stale.

(** A cascade over well-placed markers ends.  Let every registered
    module hold the bytes its markers lie in, with markers that do not
    overlap, be registered under its own specifier, and have an
    aggregate hash of at least six characters.  Then
    [#applyCompilationSideEffect] returns for every registered module,
    on every dependency graph (cycles included), although its recursive
    call starts from an empty tracing set: a call recurses only after it
    made a stale marker current, no patch makes another marker stale, so
    the recursion is at most one deeper than there are stale markers.
    It leaves the markers well placed and none more stale. *)
Theorem cascade_over_placed_markers_ends :
  forall (X : Ext) (C : Config) (by_ : nat) (tracing : list string) (w : World),
    cascade_ready X w = true ->
    In by_ (map_values (modules w)) ->
    exists w',
      applyCompilationSideEffect X C (S (stale X w)) by_ tracing w = Some w'
      /\ cascade_ready X w' = true
      /\ stale X w' <= stale X w.
Proof.
  intros X C by_ tracing w Hready Hby.
  destruct (applyCompilationSideEffect_progress X C (S (stale X w)) by_ tracing w
              Hready Hby (Nat.lt_succ_diag_r _)) as (w' & E & _ & R & S).
  now exists w'.
Qed.


Lemma cascade_over_placed_markers_ends_witness :
  exists w',
    applyCompilationSideEffect (diamond_ext "export default 2") plain_config
      (S (stale (diamond_ext "export default 2") (final_world diamond_edited)))
      4 [] (final_world diamond_edited) = Some w'
    /\ cascade_ready (diamond_ext "export default 2") w' = true
    /\ stale (diamond_ext "export default 2") w'
       <= stale (diamond_ext "export default 2") (final_world diamond_edited).
Proof.
  apply (cascade_over_placed_markers_ends (diamond_ext "export default 2")
           plain_config 4 [] (final_world diamond_edited)).
  - vm_compute. reflexivity.
  - vm_compute. right. right. left. reflexivity.
Defined.

(** * The watch handler and the modules a cascade patches *)

Lemma hmr_frame_refl (w : World) : hmr_frame w w.
Proof. split; auto. Qed.

Lemma hmr_frame_trans (w1 w2 w3 : World) :
  hmr_frame w1 w2 -> hmr_frame w2 w3 -> hmr_frame w1 w3.
Proof.
  intros [M1 S1] [M2 S2]. split.
  - now rewrite M2.
  - intros r. now rewrite S2.
Qed.

Lemma hmr_frame_heap (w w' : World) :
  heap w' = heap w -> modules w' = modules w -> hmr_frame w w'.
Proof.
  intros Hh Hm. split; [exact Hm|]. intros r. unfold deref. now rewrite Hh.
Qed.

Lemma hmr_frame_mutate (r : nat) (f : Mod -> Mod) (w : World) :
  (forall m, isStyle (f m) = isStyle m) -> hmr_frame w (mutate r f w).
Proof.
  intros Hf. split; [reflexivity|]. intros r'.
  now apply (deref_mutate_field _ isStyle).
Qed.

Lemma modify_notices_app (a b : list Notice) :
  modify_notices (a ++ b) = modify_notices a ++ modify_notices b.
Proof. apply filter_app. Qed.

Section WatchCascade.
Variable X : Ext.
Variable C : Config.
Variable exts : list string.
Variable toPagePath : string -> string.

Lemma isHMRable_frame (s : string) (w w' : World) :
  hmr_frame w w' -> isHMRable X C exts s w' = isHMRable X C exts s w.
Proof.
  intros [M S]. unfold isHMRable. rewrite M.
  destruct (map_get s (modules w)) as [r|]; [rewrite S|]; reflexivity.
Qed.

Lemma clearSSRCache_notices (s : string) (out : list Notice) :
  modify_notices (clearSSRCache X C exts toPagePath s out) = modify_notices out.
Proof.
  unfold clearSSRCache.
  destruct (String.eqb (trimBuiltinModuleExts X s) "/app").
  - rewrite modify_notices_app. simpl. apply app_nil_r.
  - destruct (isPageModule C exts s); [|reflexivity].
    rewrite modify_notices_app. simpl. apply app_nil_r.
Qed.

(** The callback tests the edited module twice: what the handler found
    for it is what the callback finds. *)
Lemma modify_callback_notices (s : string) (refreshPage : bool) (w0 w : World)
    (out : list Notice) :
  hmr_frame w0 w ->
  modify_notices (modify_callback X C exts toPagePath s
                    (isHMRable X C exts s w0) refreshPage w out)
  = modify_notices out.
Proof.
  intros F. unfold modify_callback. rewrite clearSSRCache_notices.
  rewrite (isHMRable_frame s w0 w F).
  now destruct (isHMRable X C exts s w0).
Qed.

Lemma getModuleJS_hmr_frame (r : nat) (w : World) :
  hmr_frame w (snd (getModuleJS X C r w)).
Proof.
  unfold getModuleJS. destruct (jsBuffer (deref w r)); [apply hmr_frame_refl|].
  destruct (map_get _ (jsFiles w)); [|apply hmr_frame_refl].
  now apply hmr_frame_mutate.
Qed.

Lemma replaceDepHash_hmr_frame (r : nat) (hashLoc : Z) (hash : string) (w : World) :
  hmr_frame w (snd (replaceDepHash X C r hashLoc hash w)).
Proof.
  unfold replaceDepHash.
  pose proof (getModuleJS_hmr_frame r w) as F.
  destruct (getModuleJS X C r w) as [[buf|] w1]; cbn [snd] in *; [|exact F].
  destruct (negb _); cbn [snd]; [|exact F].
  eapply hmr_frame_trans; [exact F|].
  eapply hmr_frame_trans; now apply hmr_frame_mutate.
Qed.

Lemma patch_deps_hmr_frame (by_ r : nat) (ds : list DependencyDescriptor) :
  forall (hash : option string) (fsync : bool) (w : World),
    hmr_frame w (snd (patch_deps X C by_ r ds hash fsync w)).
Proof.
  induction ds as [|d ds IH]; intros hash fsync w; cbn [patch_deps].
  - apply hmr_frame_refl.
  - destruct (dep_hashLoc d) as [l|]; [|apply IH].
    destruct (String.eqb _ _); [|apply IH].
    set (h := match hash with Some h => h | None => computeModuleHash X w by_ end).
    pose proof (replaceDepHash_hmr_frame r l h w) as F.
    destruct (replaceDepHash X C r l h w) as [patched w1]. cbn [snd] in F.
    eapply hmr_frame_trans; [exact F|apply IH].
Qed.

Lemma cacheModule_hmr_frame (r : nat) (sm : option string) (w : World) :
  hmr_frame w (cacheModule X C r sm w).
Proof.
  unfold cacheModule. destruct (jsBuffer (deref w r)); [|apply hmr_frame_refl].
  apply hmr_frame_heap; destruct sm as [sm|]; try destruct (isFilledString sm);
    reflexivity.
Qed.

(** Whatever the callback does with the notices, the instance goes
    through the states of [applyCompilationSideEffect]. *)
Lemma scan_modules_cb_state (cb : nat -> World -> list Notice -> list Notice)
    (rec_cb : nat -> World -> list Notice -> option (World * list Notice))
    (rec : nat -> World -> option World) (by_ : nat) :
  (forall r w out, option_map fst (rec_cb r w out) = rec r w) ->
  forall (ms : list nat) (hash : option string) (w : World) (out : list Notice),
    option_map fst (scan_modules_cb X C cb rec_cb by_ ms hash w out)
    = scan_modules X C rec by_ ms hash w.
Proof.
  intros Hrec. induction ms as [|r ms IH]; intros hash w out;
    cbn [scan_modules_cb scan_modules]; [reflexivity|].
  destruct (deps (deref w r)) as [|d ds]; [apply IH|].
  destruct (patch_deps X C by_ r (d :: ds) hash false w) as [[hash' fsync] w1].
  destruct fsync; [|apply IH].
  rewrite <- (Hrec r (emit (EvCallback r) w1) (cb r (emit (EvCallback r) w1) out)).
  destruct (rec_cb r _ _) as [[w3 out3]|]; [apply IH|reflexivity].
Qed.

Lemma applyCompilationSideEffect_cb_state
    (cb : nat -> World -> list Notice -> list Notice) (fuel : nat) :
  forall (by_ : nat) (tracing : list string) (w : World) (out : list Notice),
    option_map fst (applyCompilationSideEffect_cb X C cb fuel by_ tracing w out)
    = applyCompilationSideEffect X C fuel by_ tracing w.
Proof.
  induction fuel as [|fuel IH]; intros by_ tracing w out;
    cbn [applyCompilationSideEffect_cb applyCompilationSideEffect];
    [reflexivity|].
  destruct (set_has (specifier (deref w by_)) tracing); [reflexivity|].
  apply scan_modules_cb_state. intros r w1 out1. apply IH.
Qed.

Section Callback.
Variable cb : nat -> World -> list Notice -> list Notice.
Variable w0 : World.
Hypothesis cb_quiet : forall r w out,
  hmr_frame w0 w -> modify_notices (cb r w out) = modify_notices out.

Lemma scan_modules_cb_notices
    (rec : nat -> World -> list Notice -> option (World * list Notice))
    (by_ : nat) :
  (forall r w out w' out',
     hmr_frame w0 w -> rec r w out = Some (w', out') ->
     hmr_frame w0 w' /\ modify_notices out' = modify_notices out) ->
  forall (ms : list nat) (hash : option string) (w : World) (out : list Notice)
         (w' : World) (out' : list Notice),
    hmr_frame w0 w ->
    scan_modules_cb X C cb rec by_ ms hash w out = Some (w', out') ->
    hmr_frame w0 w' /\ modify_notices out' = modify_notices out.
Proof.
  intros Hrec. induction ms as [|r ms IH]; intros hash w out w' out' F Hscan;
    cbn [scan_modules_cb] in Hscan.
  - injection Hscan as <- <-. auto.
  - destruct (deps (deref w r)) as [|d ds] eqn:Hds; [now apply (IH hash w out)|].
    pose proof (patch_deps_hmr_frame by_ r (d :: ds) hash false w) as F1.
    destruct (patch_deps X C by_ r (d :: ds) hash false w) as [[hash' fsync] w1].
    cbn [snd] in F1.
    assert (F01 : hmr_frame w0 w1) by (eapply hmr_frame_trans; eauto).
    destruct fsync; [|now apply (IH hash' w1 out)].
    set (w2 := emit (EvCallback r) w1) in *.
    assert (F02 : hmr_frame w0 w2).
    { eapply hmr_frame_trans; [exact F01|]. now apply hmr_frame_heap. }
    destruct (rec r w2 (cb r w2 out)) as [[w3 out3]|] eqn:Hr; [|discriminate].
    destruct (Hrec _ _ _ _ _ F02 Hr) as [F03 N3].
    destruct (IH hash' (cacheModule X C r None w3) out3 w' out') as [F' N'].
    + eapply hmr_frame_trans; [exact F03|apply cacheModule_hmr_frame].
    + exact Hscan.
    + split; [exact F'|]. rewrite N', N3. now apply cb_quiet.
Qed.

Lemma applyCompilationSideEffect_cb_notices (fuel : nat) :
  forall (by_ : nat) (tracing : list string) (w : World) (out : list Notice)
         (w' : World) (out' : list Notice),
    hmr_frame w0 w ->
    applyCompilationSideEffect_cb X C cb fuel by_ tracing w out = Some (w', out') ->
    hmr_frame w0 w' /\ modify_notices out' = modify_notices out.
Proof.
  induction fuel as [|fuel IH]; intros by_ tracing w out w' out' F Hrun;
    cbn [applyCompilationSideEffect_cb] in Hrun; [discriminate|].
  destruct (set_has (specifier (deref w by_)) tracing).
  - injection Hrun as <- <-. auto.
  - eapply scan_modules_cb_notices; [|
      |exact Hrun].
    + intros r w1 out1 w1' out1' F1 H1. exact (IH r [] w1 out1 w1' out1' F1 H1).
    + eapply hmr_frame_trans; [exact F|]. now apply hmr_frame_heap.
Qed.

End Callback.

End WatchCascade.

(** The watch handler never notifies for a module its cascade patched.
    When [#watchHandler] has recompiled an edited module, it sends at
    most one modify event to the watch listeners: the one for the edited
    module itself, sent before the cascade when that module is
    HMR-able.  The callback it hands to the cascade takes no parameter
    and tests the edited specifier, for which the handler already has
    the answer, so for a dependent module whose embedded hash was
    rewritten, HMR-able or not, no modify event is sent; after a
    recompilation that threw none is sent at all. *)
Theorem watch_sends_no_modify_for_dependents :
  forall (X : Ext) (C : Config) (exts : list string)
         (toPagePath : string -> string) (fuel : nat) (s : string) (prev : nat)
         (w : World) (out : list Notice) (w' : World) (out' : list Notice),
    watchHandler_modify X C exts toPagePath fuel s prev w out = Some (w', out') ->
    modify_notices out'
    = modify_notices out
      ++ match compile X C fuel s
                 {| opt_source := None; opt_forceRefresh := true;
                    opt_ignoreDeps := true;
                    opt_httpExternal := httpExternal (deref w prev);
                    opt_virtual := false |} w with
         | Ok module w1 =>
             if isHMRable X C exts s w1
             then [FsModify (specifier (deref w1 module))
                     (refresh_page C (deref w1 prev) (deref w1 module))]
             else []
         | _ => []
         end.
Proof.
  intros X C exts toPagePath fuel s prev w out w' out' Hrun.
  unfold watchHandler_modify in Hrun.
  destruct (compile X C fuel s _ w) as [module w1|msg w1|w1|]; try discriminate.
  - set (rp := refresh_page C (deref w1 prev) (deref w1 module)) in *.
    set (out1 := if isHMRable X C exts s w1
                 then out ++ [FsModify (specifier (deref w1 module)) rp]
                 else out) in *.
    destruct (applyCompilationSideEffect_cb X C _ fuel module [] w1 out1)
      as [[w2 out2]|] eqn:Hc; [|discriminate].
    injection Hrun as <- <-.
    rewrite clearSSRCache_notices.
    destruct (applyCompilationSideEffect_cb_notices X C
                (fun _ => modify_callback X C exts toPagePath s
                            (isHMRable X C exts s w1) rp) w1
                (fun r w3 out3 F => modify_callback_notices X C exts toPagePath
                                      s rp w1 w3 out3 F)
                fuel module [] w1 out1 w2 out2 (hmr_frame_refl w1) Hc) as [_ N].
    rewrite N. unfold out1.
    destruct (isHMRable X C exts s w1).
    + now rewrite modify_notices_app.
    + now rewrite app_nil_r.
  - injection Hrun as <- <-. now rewrite app_nil_r.
Qed.

Lemma watch_sends_no_modify_for_dependents_witness :
  modify_notices (snd (final_watch page_watched))
  = modify_notices []
    ++ match compile (page_ext "export default 2") plain_config 10 "/lib/a.ts"
               {| opt_source := None; opt_forceRefresh := true;
                  opt_ignoreDeps := true;
                  opt_httpExternal := httpExternal (deref page_world 1);
                  opt_virtual := false |} page_world with
       | Ok module w1 =>
           if isHMRable (page_ext "export default 2") plain_config
                Std.builtinModuleExts "/lib/a.ts" w1
           then [FsModify (specifier (deref w1 module))
                   (refresh_page plain_config (deref w1 1) (deref w1 module))]
           else []
       | _ => []
       end.
Proof.
  apply (watch_sends_no_modify_for_dependents (page_ext "export default 2")
           plain_config Std.builtinModuleExts (fun s => s) 10 "/lib/a.ts" 1
           page_world [] (fst (final_watch page_watched))).
  vm_compute. reflexivity.
Defined.

(** * Calls in flight *)

(** ** Induction on a call *)

Section ProcInduction.
Variable P : forall A : Type, Proc A -> Prop.
Hypothesis P_ret : forall A a, P A (Ret a).
Hypothesis P_fail : forall A msg, P A (Fail msg).
Hypothesis P_do : forall A f, (forall w, P A (snd (f w))) -> P A (Do f).
Hypothesis P_await : forall A k, P A k -> P A (Await k).
Hypothesis P_wait : forall A r k, P A k -> P A (Wait r k).
Hypothesis P_all : forall A ps k h,
  Forall (P bool) ps -> (forall vs, P A (k vs)) -> (forall msg, P A (h msg)) ->
  P A (All ps k h).
Hypothesis P_spawn : forall A q k, P bool q -> P A k -> P A (Spawn q k).
Hypothesis P_stall : forall A, P A Stall.

Lemma Proc_induction : forall (A : Type) (p : Proc A), P A p.
Proof.
  fix IH 2. intros A p. destruct p as [a|msg|f|k|r k|ps k h|q k|].
  - apply P_ret.
  - apply P_fail.
  - apply P_do. intros w. apply IH.
  - apply P_await, IH.
  - apply P_wait, IH.
  - apply P_all.
    + revert ps. fix IHps 1. intros [|q qs]; constructor.
      * apply IH.
      * apply IHps.
    + intros vs. apply IH.
    + intros msg. apply IH.
  - apply P_spawn; apply IH.
  - apply P_stall.
Qed.

End ProcInduction.

Lemma run_all (A : Type) (ps : list (Proc bool)) (k : list bool -> Proc A)
    (h : string -> Proc A) (w : World) :
  run (All ps k h) w
  = let '(w', ps', o) := start_all ps w in
    let (p', o') := settle_all ps' k h in (w', p', o ++ o').
Proof. reflexivity. Qed.

Lemma run_do (A : Type) (f : World -> World * Proc A) (w : World) :
  run (Do f) w = run (snd (f w)) (fst (f w)).
Proof. simpl. now destruct (f w). Qed.

Lemma run_spawn (A : Type) (q : Proc bool) (k : Proc A) (w : World) :
  run (Spawn q k) w
  = let '(w1, q', o1) := run q w in
    let '(w2, k', o2) := run k w1 in (w2, k', o1 ++ q' :: o2).
Proof. reflexivity. Qed.

Lemma resume_all_task (A : Type) (ps : list (Proc bool)) (k : list bool -> Proc A)
    (h : string -> Proc A) (i : nat) (path : list nat) (w : World) :
  resume (i :: path) (All ps k h) w
  = match resume_task path ps i w with
    | Some (w', ps', o) =>
        let (p', o') := settle_all ps' k h in Some (w', p', o ++ o')
    | None => None
    end.
Proof.
  cbn [resume].
  match goal with
  | |- match ?t with _ => _ end = _ =>
      assert (Ht : t = resume_task path ps i w)
  end.
  { revert i. induction ps as [|q qs IH]; intros [|i]; cbn [resume_task]; auto.
    rewrite IH. reflexivity. }
  rewrite Ht. reflexivity.
Qed.

(** ** Soundness of the judgements *)

#[export] Instance perm_app_assoc (A : Type) : Associative (@Permutation A) (@app A).
Proof. intros x y z. now rewrite app_assoc. Qed.

#[export] Instance perm_app_comm (A : Type) : Commutative (@Permutation A) (@app A).
Proof. intros x y. apply Permutation_app_comm. Qed.

#[export] Instance perm_app_unit (A : Type) : Unit (@Permutation A) (@app A) (@nil A).
Proof. split; intros x; [reflexivity|now rewrite app_nil_r]. Qed.

Section CallLemmas.
Variable Tok : Type.
Variable later : World -> World -> Prop.
Variable GI : list Tok -> World -> Prop.
Variable stall_ok : World -> Prop.

Local Notation "'Safe'" := (safe Tok later GI stall_ok).
Local Notation "'Live'" := (live Tok later GI stall_ok).
Local Notation "'Lives'" := (lives Tok later GI stall_ok).
Local Notation "'Stable'" := (stable later).
Local Notation "'AnyPost'" := (any_post Tok).
Local Notation "'AnyCatch'" := (any_catch Tok).

Lemma safe_weaken (A : Type) (p : Proc A) :
  forall (L : World -> Prop) (O : list Tok) (Q Q' : Post Tok A) (E E' : Catch Tok),
    (forall a L O, Q a L O -> Q' a L O) ->
    (forall L O, E L O -> E' L O) ->
    Safe A p L O Q E -> Safe A p L O Q' E'.
Proof.
  revert A p.
  refine (Proc_induction
            (fun A p => forall L O (Q Q' : Post Tok A) (E E' : Catch Tok),
               (forall a L O, Q a L O -> Q' a L O) ->
               (forall L O, E L O -> E' L O) ->
               Safe A p L O Q E -> Safe A p L O Q' E') _ _ _ _ _ _ _ _);
    cbn [safe].
  - intros A a L O Q Q' E E' HQ HE H. now apply HQ.
  - intros A msg L O Q Q' E E' HQ HE H. now apply HE.
  - intros A f IH L O Q Q' E E' HQ HE H w rest HL HG.
    destruct (H w rest HL HG) as (L' & O' & Hl & HG' & Hst & HL' & Hsafe).
    exists L', O'. repeat split; auto. eapply IH; eauto.
  - intros A k IH L O Q Q' E E' HQ HE H. eapply IH; eauto.
  - intros A r k IH L O Q Q' E E' HQ HE H. eapply IH; eauto.
  - intros A ps k h _ IHk IHh L O Q Q' E E' HQ HE (Ht & Hk & Hh).
    split; [exact Ht|]. split; intros x; [eapply IHk|eapply IHh]; eauto.
  - intros A q k _ IHk L O Q Q' E E' HQ HE (Hq & Hk).
    split; [exact Hq|]. eapply IHk; eauto.
  - auto.
Qed.

(** Sequencing: what follows is safe with what the call returns or
    rejects with. *)
Lemma safe_then (A B : Type) (p : Proc A) (k : A -> Proc B) (h : string -> Proc B)
    (Q : Post Tok B) (E : Catch Tok) :
  forall (L : World -> Prop) (O : list Tok) (Q1 : Post Tok A) (E1 : Catch Tok),
    Stable L ->
    Safe A p L O Q1 E1 ->
    (forall a L1 O1, Stable L1 -> Q1 a L1 O1 -> Safe B (k a) L1 O1 Q E) ->
    (forall msg L1 O1, Stable L1 -> E1 L1 O1 -> Safe B (h msg) L1 O1 Q E) ->
    Safe B (then_ p k h) L O Q E.
Proof.
  revert B k h Q E. revert A p.
  refine (Proc_induction
            (fun A p => forall B (k : A -> Proc B) (h : string -> Proc B)
                               (Q : Post Tok B) (E : Catch Tok)
                               L O (Q1 : Post Tok A) (E1 : Catch Tok),
               Stable L ->
               Safe A p L O Q1 E1 ->
               (forall a L1 O1, Stable L1 -> Q1 a L1 O1 -> Safe B (k a) L1 O1 Q E) ->
               (forall msg L1 O1, Stable L1 -> E1 L1 O1 ->
                                  Safe B (h msg) L1 O1 Q E) ->
               Safe B (then_ p k h) L O Q E) _ _ _ _ _ _ _ _);
    cbn [safe then_].
  - intros A a B k h Q E L O Q1 E1 HL H Hk Hh. now apply Hk.
  - intros A msg B k h Q E L O Q1 E1 HL H Hk Hh. now apply Hh.
  - intros A f IH B k h Q E L O Q1 E1 HL H Hk Hh w rest Hw HG.
    destruct (H w rest Hw HG) as (L' & O' & Hl & HG' & Hst & HL' & Hsafe).
    pose proof (IH w) as IHw.
    exists L', O'. destruct (f w) as [w' p']. cbn [fst snd] in *.
    repeat split; auto. eapply IHw; eauto.
  - intros A p IH B k h Q E L O Q1 E1 HL H Hk Hh. eapply IH; eauto.
  - intros A r p IH B k h Q E L O Q1 E1 HL H Hk Hh. eapply IH; eauto.
  - intros A ps k' h' _ IHk IHh B k h Q E L O Q1 E1 HL (Ht & Hk' & Hh') Hk Hh.
    split; [exact Ht|]. split; intros x; [eapply IHk|eapply IHh]; eauto.
  - intros A q p _ IHp B k h Q E L O Q1 E1 HL (Hq & Hp) Hk Hh.
    split; [exact Hq|]. eapply IHp; eauto.
  - auto.
Qed.

Lemma safe_bind (A B : Type) (p : Proc A) (k : A -> Proc B)
    (Q : Post Tok B) (E : Catch Tok) (L : World -> Prop) (O : list Tok)
    (Q1 : Post Tok A) :
  Stable L ->
  Safe A p L O Q1 E ->
  (forall a L1 O1, Stable L1 -> Q1 a L1 O1 -> Safe B (k a) L1 O1 Q E) ->
  Safe B (bindP p k) L O Q E.
Proof.
  intros HL Hp Hk. unfold bindP. eapply safe_then; eauto.
Qed.

Lemma safe_await (A : Type) (p : Proc A) (Q : Post Tok A) (E : Catch Tok)
    (L : World -> Prop) (O : list Tok) :
  Stable L -> Safe A p L O Q E -> Safe A (await p) L O Q E.
Proof.
  intros HL Hp. unfold await. eapply safe_then; eauto.
Qed.

Lemma safe_all (A : Type) (ps : list (Proc bool)) (k : list bool -> Proc A)
    (h : string -> Proc A) (L : World -> Prop) (O : list Tok) (Q : Post Tok A)
    (E : Catch Tok) :
  Safe A (All ps k h) L O Q E
  <-> Forall (fun q => Safe bool q L [] (AnyPost bool) AnyCatch) ps
      /\ (forall vs, Safe A (k vs) L O Q E)
      /\ (forall msg, Safe A (h msg) L O Q E).
Proof.
  cbn [safe].
  split; intros (Ht & R); (split; [|exact R]); clear - Ht;
    induction ps as [|q qs IH].
  - constructor.
  - destruct Ht as [H1 H2]. constructor; [exact H1|exact (IH H2)].
  - exact I.
  - inversion Ht; subst. split; [assumption|]. now apply IH.
Qed.

Lemma live_all (A : Type) (ps : list (Proc bool)) (k : list bool -> Proc A)
    (h : string -> Proc A) (w : World) (O : list Tok) (Q : Post Tok A)
    (E : Catch Tok) :
  Live A (All ps k h) w O Q E
  <-> exists (Os : list (list Tok)) (Ok : list Tok) (L : World -> Prop),
        O = List.concat Os ++ Ok
        /\ Lives bool ps w Os (AnyPost bool)
        /\ L w /\ Stable L
        /\ (forall vs, Safe A (k vs) L Ok Q E)
        /\ (forall msg, Safe A (h msg) L Ok Q E).
Proof.
  cbn [live].
  split; intros (Os & Ok & L & HO & Ht & R); exists Os, Ok, L;
    (split; [exact HO|split; [|exact R]]); clear - Ht;
    revert Os Ht; induction ps as [|q qs IH]; intros [|o os]; cbn [lives]; auto;
    intros [H1 H2]; (split; [exact H1|exact (IH _ H2)]).
Qed.

Lemma live_safe (A : Type) (p : Proc A) (w : World) (O : list Tok)
    (Q : Post Tok A) (E : Catch Tok) (L : World -> Prop) :
  (forall ps k h, p <> All ps k h) ->
  L w -> Stable L -> Safe A p L O Q E -> Live A p w O Q E.
Proof.
  intros Hp HL Hst H.
  destruct p; try (exists L; auto).
  now elim (Hp ps k h).
Qed.

Lemma live_later :
  forall (A : Type) (p : Proc A) (w w' : World) (O : list Tok)
         (Q : Post Tok A) (E : Catch Tok),
    later w w' -> Live A p w O Q E -> Live A p w' O Q E.
Proof.
  refine (Proc_induction
            (fun A p => forall w w' O (Q : Post Tok A) (E : Catch Tok),
               later w w' -> Live A p w O Q E -> Live A p w' O Q E)
            _ _ _ _ _ _ _ _);
    try (intros; cbn [live] in *;
         match goal with
         | H : exists _, _ |- _ => destruct H as (L & HL & Hst & Hs)
         end;
         exists L; split; [eapply Hst; eauto|auto]; fail).
  intros A ps k h IHps _ _ w w' O Q E Hl H.
  apply live_all in H. apply live_all.
  destruct H as (Os & Ok & L & HO & Ht & HL & Hst & R).
  exists Os, Ok, L. split; [exact HO|]. split; [|split; [eapply Hst; eauto|auto]].
  clear - IHps Ht Hl. revert Os Ht.
  induction IHps as [|q qs Hq _ IH]; intros [|o os]; cbn [lives]; auto.
  intros [H1 H2]. split; [eapply Hq; eauto|auto].
Qed.

Lemma lives_later (A : Type) (ps : list (Proc A)) (w w' : World)
    (Os : list (list Tok)) (Q : Post Tok A) :
  later w w' -> Lives A ps w Os Q -> Lives A ps w' Os Q.
Proof.
  intros Hl. revert Os. induction ps as [|p ps IH]; intros [|o os]; cbn [lives]; auto.
  intros [H1 H2]. split; [eapply live_later; eauto|auto].
Qed.

Lemma lives_app (A : Type) (ps1 ps2 : list (Proc A)) (w : World)
    (Os1 Os2 : list (list Tok)) (Q : Post Tok A) :
  Lives A ps1 w Os1 Q -> Lives A ps2 w Os2 Q ->
  Lives A (ps1 ++ ps2) w (Os1 ++ Os2) Q.
Proof.
  revert Os1. induction ps1 as [|p ps IH]; intros [|o os]; cbn [lives app];
    try tauto.
  intros [H1 H2] H3. split; auto.
Qed.

Lemma lives_app_inv (A : Type) (ps1 ps2 : list (Proc A)) (w : World)
    (Os : list (list Tok)) (Q : Post Tok A) :
  Lives A (ps1 ++ ps2) w Os Q ->
  exists Os1 Os2, Os = Os1 ++ Os2 /\ Lives A ps1 w Os1 Q /\ Lives A ps2 w Os2 Q.
Proof.
  revert Os. induction ps1 as [|p ps IH]; intros Os H.
  - exists [], Os. cbn [lives app]. auto.
  - destruct Os as [|o os]; cbn [lives app] in H; [contradiction|].
    destruct H as [H1 H2]. destruct (IH os H2) as (Os1 & Os2 & -> & Ha & Hb).
    exists (o :: Os1), Os2. cbn [lives app]. auto.
Qed.

End CallLemmas.

Section Soundness.
Variable Tok : Type.
Variable later : World -> World -> Prop.
Variable GI : list Tok -> World -> Prop.
Variable stall_ok : World -> Prop.

Hypothesis later_refl : forall w, later w w.
Hypothesis later_trans : forall w1 w2 w3, later w1 w2 -> later w2 w3 -> later w1 w3.
Hypothesis GI_perm : forall O1 O2 w, Permutation O1 O2 -> GI O1 w -> GI O2 w.
Hypothesis GI_drop : forall O rest w, GI (O ++ rest) w -> GI rest w.

Local Notation "'Safe'" := (safe Tok later GI stall_ok).
Local Notation "'Live'" := (live Tok later GI stall_ok).
Local Notation "'Lives'" := (lives Tok later GI stall_ok).
Local Notation "'Stable'" := (stable later).
Local Notation "'AnyPost'" := (any_post Tok).
Local Notation "'AnyCatch'" := (any_catch Tok).
Local Notation "'Run_ok'" := (run_ok Tok later GI stall_ok).
Local Notation "'Resume_ok'" := (resume_ok Tok later GI stall_ok).

Ltac perm H := eapply GI_perm; [|exact H]; aac_reflexivity.

(** The tasks that have not settled, with their tokens. *)
Lemma lives_unsettled (ps : list (Proc bool)) (w : World) :
  forall (Os : list (list Tok)),
    Lives bool ps w Os (AnyPost bool) ->
    exists Os',
      Lives bool (filter (fun q => negb (settled_proc q)) ps) w Os' (AnyPost bool)
      /\ forall X, GI (List.concat Os ++ X) w -> GI (List.concat Os' ++ X) w.
Proof.
  induction ps as [|q qs IH]; intros [|o os]; cbn [lives filter]; try tauto.
  - intros _. exists []. split; [exact I|auto].
  - intros [H1 H2]. destruct (IH os H2) as (Os' & HL & HG).
    destruct (negb (settled_proc q)).
    + exists (o :: Os'). split; [split; assumption|].
      intros X HX. cbn [List.concat] in *.
      assert (H : GI (List.concat Os' ++ o ++ X) w) by (apply HG; perm HX).
      perm H.
    + exists Os'. split; [assumption|].
      intros X HX. cbn [List.concat] in HX. rewrite <- app_assoc in HX.
      apply HG. eapply GI_drop; eauto.
Qed.

(** A [Promise.all] after its tasks have moved. *)
Lemma settle_live (A : Type) (ps : list (Proc bool)) (k : list bool -> Proc A)
    (h : string -> Proc A) (w : World) (Os : list (list Tok)) (Ok rest : list Tok)
    (L : World -> Prop) (Q : Post Tok A) (E : Catch Tok) :
  Lives bool ps w Os (AnyPost bool) ->
  L w -> Stable L ->
  (forall vs, Safe A (k vs) L Ok Q E) ->
  (forall msg, Safe A (h msg) L Ok Q E) ->
  GI (List.concat Os ++ Ok ++ rest) w ->
  exists O' Oo,
    Live A (fst (settle_all ps k h)) w O' Q E
    /\ Lives bool (snd (settle_all ps k h)) w Oo (AnyPost bool)
    /\ GI (O' ++ List.concat Oo ++ rest) w.
Proof.
  intros Hl HL Hst Hk Hh HG. unfold settle_all.
  destruct (first_failure ps) as [msg|]; cbn [fst snd].
  - destruct (lives_unsettled ps w Os Hl) as (Os' & Hl' & HG').
    exists Ok, Os'. split; [|split; [exact Hl'|]].
    + cbn [live]. exists L. split; [exact HL|split; [exact Hst|]].
      cbn [safe]. apply Hh.
    + pose proof (HG' _ HG) as H. perm H.
  - exists (List.concat Os ++ Ok), []. split; [|split; [exact I|]].
    + apply live_all. exists Os, Ok, L.
      split; [reflexivity|]. split; [exact Hl|]. split; [exact HL|].
      split; [exact Hst|]. split; [exact Hk|exact Hh].
    + cbn [List.concat]. perm HG.
Qed.

Lemma start_live (ps : list (Proc bool)) :
  Forall (fun q => Run_ok bool q) ps ->
  forall (L : World -> Prop) (w : World) (rest : list Tok),
    Stable L -> L w ->
    Forall (fun q => Safe bool q L [] (AnyPost bool) AnyCatch) ps ->
    GI rest w ->
    exists (Os Oo : list (list Tok)),
      Lives bool (snd (fst (start_all ps w))) (fst (fst (start_all ps w))) Os
        (AnyPost bool)
      /\ Lives bool (snd (start_all ps w)) (fst (fst (start_all ps w))) Oo
           (AnyPost bool)
      /\ GI (List.concat Os ++ List.concat Oo ++ rest) (fst (fst (start_all ps w)))
      /\ later w (fst (fst (start_all ps w))).
Proof.
  induction 1 as [|q qs Hq _ IH]; intros L w rest Hst HL Hs HG.
  - exists [], []. cbn. auto.
  - inversion Hs as [|? ? Hs1 Hs2]; subst.
    destruct (Hq L [] (AnyPost bool) AnyCatch w rest Hst HL Hs1 HG)
      as (O1 & Oo1 & Hl1 & Hlo1 & HG1 & Hlat1).
    cbn [start_all].
    destruct (run q w) as [[w1 q'] o1]. cbn [fst snd] in *.
    destruct (IH L w1 (O1 ++ List.concat Oo1 ++ rest) Hst (Hst _ _ HL Hlat1) Hs2 HG1)
      as (Os & Oo2 & Hl2 & Hlo2 & HG2 & Hlat2).
    destruct (start_all qs w1) as [[w2 qs'] o2]. cbn [fst snd] in *.
    exists (O1 :: Os), (Oo1 ++ Oo2). split; [|split; [|split]].
    + cbn [lives]. split; [eapply live_later; eauto|exact Hl2].
    + apply lives_app; [eapply lives_later; eauto|exact Hlo2].
    + cbn [List.concat]. rewrite concat_app. perm HG2.
    + eapply later_trans; eauto.
Qed.

Lemma run_live : forall (A : Type) (p : Proc A), Run_ok A p.
Proof.
  apply Proc_induction; unfold run_ok.
  - intros A a L O Q E w rest Hst HL Hs HG. cbn [run fst snd].
    exists O, []. split; [apply (live_safe Tok later GI stall_ok _ _ _ _ _ _ L); [intros; discriminate|exact HL|exact Hst|exact Hs]|].
    split; [exact I|]. split; [exact HG|apply later_refl].
  - intros A msg L O Q E w rest Hst HL Hs HG. cbn [run fst snd].
    exists O, []. split; [apply (live_safe Tok later GI stall_ok _ _ _ _ _ _ L); [intros; discriminate|exact HL|exact Hst|exact Hs]|].
    split; [exact I|]. split; [exact HG|apply later_refl].
  - intros A f IH L O Q E w rest Hst HL Hs HG. rewrite run_do.
    cbn [safe] in Hs.
    destruct (Hs w rest HL HG) as (L' & O' & Hlat & HG' & Hst' & HL' & Hs').
    destruct (IH w L' O' Q E (fst (f w)) rest Hst' HL' Hs' HG')
      as (O2 & Oo & H1 & H2 & H3 & H4).
    exists O2, Oo. split; [exact H1|]. split; [exact H2|]. split; [exact H3|].
    eapply later_trans; eauto.
  - intros A k _ L O Q E w rest Hst HL Hs HG. cbn [run fst snd].
    exists O, []. split; [apply (live_safe Tok later GI stall_ok _ _ _ _ _ _ L); [intros; discriminate|exact HL|exact Hst|exact Hs]|].
    split; [exact I|]. split; [exact HG|apply later_refl].
  - intros A r k _ L O Q E w rest Hst HL Hs HG. cbn [run fst snd].
    exists O, []. split; [apply (live_safe Tok later GI stall_ok _ _ _ _ _ _ L); [intros; discriminate|exact HL|exact Hst|exact Hs]|].
    split; [exact I|]. split; [exact HG|apply later_refl].
  - intros A ps k h IHps _ _ L O Q E w rest Hst HL Hs HG. rewrite run_all.
    apply safe_all in Hs. destruct Hs as (Ht & Hk & Hh).
    destruct (start_live ps IHps L w (O ++ rest) Hst HL Ht (GI_drop [] _ _ HG))
      as (Os & Oo & Hl & Hlo & HG' & Hlat).
    destruct (start_all ps w) as [[w' ps'] o]. cbn [fst snd] in *.
    assert (HG2 : GI (List.concat Os ++ O ++ List.concat Oo ++ rest) w')
      by (perm HG').
    destruct (settle_live A ps' k h w' Os O (List.concat Oo ++ rest) L Q E
                Hl (Hst _ _ HL Hlat) Hst Hk Hh HG2)
      as (O' & Oo' & Hl' & Hlo' & HG3).
    destruct (settle_all ps' k h) as [p' o']. cbn [fst snd] in *.
    exists O', (Oo ++ Oo'). split; [exact Hl'|].
    split; [apply lives_app; assumption|].
    split; [rewrite concat_app; perm HG3|exact Hlat].
  - intros A q k IHq IHk L O Q E w rest Hst HL Hs HG. rewrite run_spawn.
    cbn [safe] in Hs. destruct Hs as (Hq & Hk).
    destruct (IHq L [] (AnyPost bool) AnyCatch w (O ++ rest) Hst HL Hq HG)
      as (O1 & Oo1 & Hl1 & Hlo1 & HG1 & Hlat1).
    destruct (run q w) as [[w1 q'] o1]. cbn [fst snd] in *.
    assert (HG1' : GI (O ++ O1 ++ List.concat Oo1 ++ rest) w1) by (perm HG1).
    destruct (IHk L O Q E w1 (O1 ++ List.concat Oo1 ++ rest) Hst
                (Hst _ _ HL Hlat1) Hk HG1')
      as (O2 & Oo2 & Hl2 & Hlo2 & HG2 & Hlat2).
    destruct (run k w1) as [[w2 k'] o2]. cbn [fst snd] in *.
    exists O2, (Oo1 ++ O1 :: Oo2). split; [exact Hl2|].
    split; [|split].
    + apply lives_app; [eapply lives_later; eauto|].
      cbn [lives]. split; [eapply live_later; eauto|exact Hlo2].
    + rewrite concat_app. cbn [List.concat]. perm HG2.
    + eapply later_trans; eauto.
  - intros A L O Q E w rest Hst HL Hs HG. cbn [run fst snd].
    exists O, []. split; [apply (live_safe Tok later GI stall_ok _ _ _ _ _ _ L); [intros; discriminate|exact HL|exact Hst|exact Hs]|].
    split; [exact I|]. split; [exact HG|apply later_refl].
Qed.

Lemma resume_task_live (path : list nat) (ps : list (Proc bool)) :
  Forall (fun q => Resume_ok bool q) ps ->
  forall (i : nat) (w : World) (Os : list (list Tok)) (rest : list Tok)
         (w' : World) (ps' o : list (Proc bool)),
    Lives bool ps w Os (AnyPost bool) ->
    GI (List.concat Os ++ rest) w ->
    resume_task path ps i w = Some (w', ps', o) ->
    exists (Os' Oo : list (list Tok)),
      Lives bool ps' w' Os' (AnyPost bool)
      /\ Lives bool o w' Oo (AnyPost bool)
      /\ GI (List.concat Os' ++ List.concat Oo ++ rest) w'
      /\ later w w'.
Proof.
  induction 1 as [|q qs Hq _ IH]; intros i w Os rest w' ps' o Hl HG Hr.
  - destruct i; discriminate.
  - destruct Os as [|o1 os]; cbn [lives] in Hl; [contradiction|].
    destruct Hl as [Hl1 Hl2]. cbn [List.concat] in HG.
    destruct i as [|i]; cbn [resume_task] in Hr.
    + destruct (resume path q w) as [[[w1 q'] o']|] eqn:Hres; [|discriminate].
      injection Hr as <- <- <-.
      assert (HG1 : GI (o1 ++ List.concat os ++ rest) w) by (perm HG).
      destruct (Hq path w o1 (AnyPost bool) AnyCatch (List.concat os ++ rest)
                  w1 q' o' Hl1 HG1 Hres)
        as (O' & Oo & H1 & H2 & H3 & H4).
      exists (O' :: os), Oo. split; [|split; [exact H2|split; [|exact H4]]].
      * cbn [lives]. split; [exact H1|eapply lives_later; eauto].
      * cbn [List.concat]. perm H3.
    + destruct (resume_task path qs i w) as [[[w1 qs'] o']|] eqn:Hres; [|discriminate].
      injection Hr as <- <- <-.
      assert (HG1 : GI (List.concat os ++ o1 ++ rest) w) by (perm HG).
      destruct (IH i w os (o1 ++ rest) w1 qs' o' Hl2 HG1 Hres)
        as (Os' & Oo & H1 & H2 & H3 & H4).
      exists (o1 :: Os'), Oo. split; [|split; [exact H2|split; [|exact H4]]].
      * cbn [lives]. split; [eapply live_later; eauto|exact H1].
      * cbn [List.concat]. perm H3.
Qed.

Lemma resume_live : forall (A : Type) (p : Proc A), Resume_ok A p.
Proof.
  apply Proc_induction; unfold resume_ok;
    try (intros; cbn [resume] in *; discriminate).
  - intros A k _ path w O Q E rest w' p' o Hl HG Hr.
    cbn [resume] in Hr. destruct path; [|discriminate].
    cbn [live] in Hl. destruct Hl as (L & HL & Hst & Hs). cbn [safe] in Hs.
    pose proof (run_live A k L O Q E w rest Hst HL Hs HG) as H.
    injection Hr as Hr. rewrite Hr in H. exact H.
  - intros A r k _ path w O Q E rest w' p' o Hl HG Hr.
    cbn [resume] in Hr. destruct path; [|discriminate].
    destruct (ready (deref w r)); [discriminate|].
    cbn [live] in Hl. destruct Hl as (L & HL & Hst & Hs). cbn [safe] in Hs.
    pose proof (run_live A k L O Q E w rest Hst HL Hs HG) as H.
    injection Hr as Hr. rewrite Hr in H. exact H.
  - intros A ps k h IHps _ _ path w O Q E rest w' p' o Hl HG Hr.
    apply live_all in Hl. destruct Hl as (Os & Ok & L & -> & Ht & HL & Hst & Hk & Hh).
    destruct path as [|i path].
    + cbn [resume] in Hr.
      destruct (forallb (@is_ret bool) ps); [|discriminate].
      assert (HG1 : GI (Ok ++ rest) w).
      { apply (GI_drop (List.concat Os)). perm HG. }
      pose proof (run_live A (k (results ps)) L Ok Q E w rest Hst HL (Hk _) HG1) as H.
      injection Hr as Hr. rewrite Hr in H. exact H.
    + rewrite resume_all_task in Hr.
      destruct (resume_task path ps i w) as [[[w1 ps1] o1]|] eqn:Hres; [|discriminate].
      assert (HG1 : GI (List.concat Os ++ Ok ++ rest) w) by (perm HG).
      destruct (resume_task_live path ps IHps i w Os (Ok ++ rest) w1 ps1 o1
                  Ht HG1 Hres)
        as (Os' & Oo & H1 & H2 & H3 & H4).
      assert (HG2 : GI (List.concat Os' ++ Ok ++ List.concat Oo ++ rest) w1)
        by (perm H3).
      destruct (settle_live A ps1 k h w1 Os' Ok (List.concat Oo ++ rest) L Q E
                  H1 (Hst _ _ HL H4) Hst Hk Hh HG2)
        as (O' & Oo' & Hl' & Hlo' & HG3).
      destruct (settle_all ps1 k h) as [p2 o2]. cbn [fst snd] in *.
      injection Hr as <- <- <-.
      exists O', (Oo ++ Oo'). split; [exact Hl'|].
      split; [apply lives_app; assumption|].
      split; [rewrite concat_app; perm HG3|exact H4].
Qed.

(** A call that is out of budget, in a tree of live calls. *)
Lemma live_stalled :
  forall (A : Type) (p : Proc A) (w : World) (O : list Tok) (Q : Post Tok A)
         (E : Catch Tok) (rest : list Tok),
    Live A p w O Q E -> GI (O ++ rest) w -> stalled A p = true -> stall_ok w.
Proof.
  refine (Proc_induction
            (fun A p => forall w O (Q : Post Tok A) (E : Catch Tok) rest,
               Live A p w O Q E -> GI (O ++ rest) w -> stalled A p = true ->
               stall_ok w) _ _ _ _ _ _ _ _);
    try (intros; cbn [stalled] in *; discriminate).
  - intros A ps k h IHps _ _ w O Q E rest Hl HG Hs.
    apply live_all in Hl. destruct Hl as (Os & Ok & L & -> & Ht & _).
    cbn [stalled] in Hs.
    assert (HG1 : GI (List.concat Os ++ Ok ++ rest) w) by (perm HG).
    clear HG. revert Os Ht HG1 Hs. generalize (Ok ++ rest) as X.
    induction IHps as [|q qs Hq _ IH]; intros X Os Ht HG Hs; [discriminate|].
    destruct Os as [|o os]; cbn [lives] in Ht; [contradiction|].
    destruct Ht as [H1 H2]. cbn [List.concat] in HG.
    apply orb_true_iff in Hs. destruct Hs as [Hs|Hs].
    + assert (HG1 : GI (o ++ List.concat os ++ X) w) by (perm HG).
      eapply Hq; eauto.
    + assert (HG1 : GI (List.concat os ++ o ++ X) w) by (perm HG).
      eapply (IH (o ++ X)); eauto.
  - intros A w O Q E rest Hl HG _. cbn [live] in Hl.
    destruct Hl as (L & HL & _ & Hs). cbn [safe] in Hs. eauto.
Qed.

Lemma lives_stalled (A : Type) (ps : list (Proc A)) (w : World)
    (Os : list (list Tok)) (Q : Post Tok A) (rest : list Tok) :
  Lives A ps w Os Q -> GI (List.concat Os ++ rest) w ->
  existsb (@stalled A) ps = true -> stall_ok w.
Proof.
  revert Os rest. induction ps as [|p ps IH]; intros Os rest Hl HG Hs;
    [discriminate|].
  destruct Os as [|o os]; cbn [lives] in Hl; [contradiction|].
  destruct Hl as [H1 H2]. cbn [List.concat] in HG. cbn [existsb] in Hs.
  apply orb_true_iff in Hs. destruct Hs as [Hs|Hs].
  - assert (HG1 : GI (o ++ List.concat os ++ rest) w) by (perm HG).
    eapply live_stalled; eauto.
  - assert (HG1 : GI (List.concat os ++ o ++ rest) w) by (perm HG).
    eapply IH; eauto.
Qed.

(** *** The calls in flight *)

Lemma replace_nth_app (A : Type) (l1 l2 : list A) (x y : A) :
  replace_nth (List.length l1) y (l1 ++ x :: l2) = l1 ++ y :: l2.
Proof. induction l1 as [|a l1 IH]; cbn; [reflexivity|now rewrite IH]. Qed.

Lemma lives_replace (A : Type) (ps : list (Proc A)) (i : nat) (p : Proc A)
    (w : World) (Os : list (list Tok)) (Q : Post Tok A) :
  nth_error ps i = Some p ->
  Lives A ps w Os Q ->
  exists (o : list Tok) (Os1 Os2 : list (list Tok)),
    Os = Os1 ++ o :: Os2
    /\ Live A p w o Q AnyCatch
    /\ forall p' o' w',
         later w w' -> Live A p' w' o' Q AnyCatch ->
         Lives A (replace_nth i p' ps) w' (Os1 ++ o' :: Os2) Q.
Proof.
  intros Hn Hl. destruct (nth_error_split ps i Hn) as (l1 & l2 & -> & <-).
  destruct (lives_app_inv Tok later GI stall_ok A l1 (p :: l2) w Os Q Hl)
    as (Os1 & Os2 & -> & Ha & Hb).
  destruct Os2 as [|o os2]; cbn [lives] in Hb; [contradiction|].
  destruct Hb as [Hb1 Hb2].
  exists o, Os1, os2. split; [reflexivity|]. split; [exact Hb1|].
  intros p' o' w' Hlat Hl'. rewrite replace_nth_app.
  apply lives_app; [eapply lives_later; eauto|].
  cbn [lives]. split; [exact Hl'|eapply lives_later; eauto].
Qed.

Local Notation "'Flight_ok'" := (flight_ok Tok later GI stall_ok).

(** One turn of the event loop keeps the calls in flight live. *)
Lemma turn_ok (A : Type) (Q : Post Tok A) (cfg : InFlight A) (c : Choice) :
  Flight_ok A Q cfg ->
  Flight_ok A Q (turn cfg c) /\ later (now cfg) (now (turn cfg c)).
Proof.
  intros (Oc & Ol & Hc & Hl & HG). unfold turn.
  destruct c as [i path|i path].
  - destruct (nth_error (callers cfg) i) as [p|] eqn:Hn;
      [|split; [exists Oc, Ol; auto|apply later_refl]].
    destruct (resume path p (now cfg)) as [[[w' p'] o]|] eqn:Hr;
      [|split; [exists Oc, Ol; auto|apply later_refl]].
    destruct (lives_replace A (callers cfg) i p (now cfg) Oc Q Hn Hc)
      as (o1 & Os1 & Os2 & -> & Hlive & Hrep).
    rewrite concat_app in HG. cbn [List.concat] in HG.
    assert (HG1 : GI (o1 ++ (List.concat Os1 ++ List.concat Os2 ++ List.concat Ol))
                    (now cfg)) by (perm HG).
    destruct (resume_live A p path (now cfg) o1 Q AnyCatch _ w' p' o Hlive HG1 Hr)
      as (O' & Oo & H1 & H2 & H3 & H4).
    cbn [now callers loose]. split; [|exact H4].
    exists (Os1 ++ O' :: Os2), (Ol ++ Oo). cbn [now callers loose].
    split; [apply Hrep; assumption|].
    split; [apply lives_app; [eapply lives_later; eauto|exact H2]|].
    rewrite !concat_app. cbn [List.concat]. perm H3.
  - destruct (nth_error (loose cfg) i) as [p|] eqn:Hn;
      [|split; [exists Oc, Ol; auto|apply later_refl]].
    destruct (resume path p (now cfg)) as [[[w' p'] o]|] eqn:Hr;
      [|split; [exists Oc, Ol; auto|apply later_refl]].
    destruct (lives_replace bool (loose cfg) i p (now cfg) Ol (AnyPost bool) Hn Hl)
      as (o1 & Os1 & Os2 & -> & Hlive & Hrep).
    rewrite concat_app in HG. cbn [List.concat] in HG.
    assert (HG1 : GI (o1 ++ (List.concat Oc ++ List.concat Os1 ++ List.concat Os2))
                    (now cfg)) by (perm HG).
    destruct (resume_live bool p path (now cfg) o1 (AnyPost bool) AnyCatch _ w' p' o
                Hlive HG1 Hr)
      as (O' & Oo & H1 & H2 & H3 & H4).
    cbn [now callers loose]. split; [|exact H4].
    exists Oc, ((Os1 ++ O' :: Os2) ++ Oo). cbn [now callers loose].
    split; [eapply lives_later; eauto|].
    split; [apply lives_app; [apply Hrep; assumption|exact H2]|].
    rewrite !concat_app. cbn [List.concat]. perm H3.
Qed.

Lemma turns_ok (A : Type) (Q : Post Tok A) (sched : list Choice) :
  forall (cfg : InFlight A),
    Flight_ok A Q cfg ->
    Flight_ok A Q (turns cfg sched) /\ later (now cfg) (now (turns cfg sched)).
Proof.
  unfold turns. induction sched as [|c sched IH]; intros cfg H; cbn [fold_left].
  - split; [exact H|apply later_refl].
  - destruct (turn_ok A Q cfg c H) as [H1 H2].
    destruct (IH _ H1) as [H3 H4]. split; [exact H3|eapply later_trans; eauto].
Qed.

Lemma issue_live (A : Type) (Q : Post Tok A) (L : World -> Prop) (ps : list (Proc A)) :
  Stable L ->
  forall (Os0 : list (list Tok)) (w : World) (rest : list Tok),
    L w ->
    Forall2 (fun p O => Safe A p L O Q AnyCatch) ps Os0 ->
    GI (List.concat Os0 ++ rest) w ->
    exists (Os Oo : list (list Tok)),
      Lives A (snd (fst (issue ps w))) (fst (fst (issue ps w))) Os Q
      /\ Lives bool (snd (issue ps w)) (fst (fst (issue ps w))) Oo (AnyPost bool)
      /\ GI (List.concat Os ++ List.concat Oo ++ rest) (fst (fst (issue ps w)))
      /\ later w (fst (fst (issue ps w))).
Proof.
  intros Hst. induction ps as [|p ps IH]; intros Os0 w rest HL Hs HG.
  - inversion Hs; subst. exists [], []. cbn. auto.
  - inversion Hs as [|? O1 ? Os1 Hs1 Hs2]; subst. cbn [List.concat] in HG.
    assert (HG0 : GI (O1 ++ List.concat Os1 ++ rest) w) by (perm HG).
    destruct (run_live A p L O1 Q AnyCatch w _ Hst HL Hs1 HG0)
      as (O' & Oo1 & Hl1 & Hlo1 & HG1 & Hlat1).
    cbn [issue].
    destruct (run p w) as [[w1 p'] o1]. cbn [fst snd] in *.
    assert (HG1' : GI (List.concat Os1 ++ O' ++ List.concat Oo1 ++ rest) w1)
      by (perm HG1).
    destruct (IH Os1 w1 (O' ++ List.concat Oo1 ++ rest) (Hst _ _ HL Hlat1) Hs2 HG1')
      as (Os & Oo2 & Hl2 & Hlo2 & HG2 & Hlat2).
    destruct (issue ps w1) as [[w2 ps'] o2]. cbn [fst snd] in *.
    exists (O' :: Os), (Oo1 ++ Oo2). split; [|split; [|split]].
    + cbn [lives]. split; [eapply live_later; eauto|exact Hl2].
    + apply lives_app; [eapply lives_later; eauto|exact Hlo2].
    + cbn [List.concat]. rewrite concat_app. perm HG2.
    + eapply later_trans; eauto.
Qed.

(** The calls [ps], made one after the other in a state of which [L]
    holds and with the tokens [Os0], are in flight and live. *)
Lemma launch_ok (A : Type) (Q : Post Tok A) (L : World -> Prop) (ps : list (Proc A))
    (Os0 : list (list Tok)) (w : World) :
  Stable L -> L w ->
  Forall2 (fun p O => Safe A p L O Q AnyCatch) ps Os0 ->
  GI (List.concat Os0) w ->
  Flight_ok A Q (launch ps w) /\ later w (now (launch ps w)).
Proof.
  intros Hst HL Hs HG.
  assert (HG0 : GI (List.concat Os0 ++ []) w) by (perm HG).
  destruct (issue_live A Q L ps Hst Os0 w [] HL Hs HG0)
    as (Os & Oo & H1 & H2 & H3 & H4).
  unfold launch. destruct (issue ps w) as [[w' ps'] o]. cbn [fst snd] in *.
  split; [|exact H4]. exists Os, Oo. cbn [now callers loose].
  split; [exact H1|]. split; [exact H2|]. perm H3.
Qed.

(** Every state the calls [ps] reach, whatever the event loop resumes. *)
Lemma flight_sound (A : Type) (Q : Post Tok A) (L : World -> Prop)
    (ps : list (Proc A)) (Os0 : list (list Tok)) (w : World) (sched : list Choice) :
  Stable L -> L w ->
  Forall2 (fun p O => Safe A p L O Q AnyCatch) ps Os0 ->
  GI (List.concat Os0) w ->
  Flight_ok A Q (turns (launch ps w) sched)
  /\ later w (now (turns (launch ps w) sched)).
Proof.
  intros Hst HL Hs HG.
  destruct (launch_ok A Q L ps Os0 w Hst HL Hs HG) as [H1 H2].
  destruct (turns_ok A Q sched _ H1) as [H3 H4].
  split; [exact H3|eapply later_trans; eauto].
Qed.

Lemma flight_stalled (A : Type) (Q : Post Tok A) (cfg : InFlight A) :
  Flight_ok A Q cfg -> stalled_flight A cfg = true -> stall_ok (now cfg).
Proof.
  intros (Oc & Ol & Hc & Hl & HG) Hs. unfold stalled_flight in Hs.
  apply orb_true_iff in Hs. destruct Hs as [Hs|Hs].
  - exact (lives_stalled A _ _ Oc Q _ Hc HG Hs).
  - assert (HG1 : GI (List.concat Ol ++ List.concat Oc) (now cfg)) by (perm HG).
    exact (lives_stalled bool _ _ Ol (AnyPost bool) _ Hl HG1 Hs).
Qed.

Lemma flight_inv (A : Type) (Q : Post Tok A) (cfg : InFlight A) :
  Flight_ok A Q cfg -> exists O, GI O (now cfg).
Proof. intros (Oc & Ol & _ & _ & HG). eauto. Qed.

End Soundness.
